(** * Pro-Sim circuit solver: shallow embedding and verified properties

    This development embeds the simulation core of the schematic editor
    (the classes [Complex], [ComplexMatrixSolver], [MatrixSolver] and
    [CircuitSolver] of the solver source file, together with the data
    types of [types.ts]) and proves properties of it.

    Modelling conventions.
    - A JavaScript [number] that carries a physical quantity is a real
      number ([R]): arithmetic is exact, and [NaN], the infinities and
      rounding are outside the model.  Counters, node ids, port indices
      and [config.points] are natural numbers.
    - A JavaScript [Map] is an association list in insertion order
      ([Map.set] on a present key keeps the key's position), because the
      order of [adj.keys()] fixes the node numbering.
    - [for] loops over an index range are folds over [seq]; the DC
      [while] loop is bounded by [maxIterations]; the breadth-first
      search carries a fuel equal to the number of port keys, which is
      shown to suffice.
    - A reference to a missing row of a matrix is the one place where the
      solvers could raise a [TypeError]; the solvers therefore return an
      [option], and their callers' [try]/[catch] is a [match] on it.
    - Arrays and records are values in this embedding.  What a call
      does to the objects it is handed is stated on a second embedding
      of the solvers and the entry points, over a heap of objects
      ([Store]); its runs are shown to return what the first embedding
      computes. *)

From Stdlib Require Import List String Ascii Arith PeanoNat Lia Bool ZArith.
From Stdlib Require Import Reals Lra DecimalString.
Import ListNotations.

Set Implicit Arguments.

(* ------------------------------------------------------------------ *)
(** ** JavaScript helpers *)

Module JS.

Open Scope R_scope.

(** [a > b] and [a < b] on numbers. *)
Definition gtb (a b : R) : bool := if Rlt_dec b a then true else false.
Definition ltb (a b : R) : bool := if Rlt_dec a b then true else false.

(** [a || d] on numbers: [0] is falsy. *)
Definition num_or (a d : R) : R := if Req_dec_T a 0 then d else a.

(** [o || d] where [o] may be [undefined]. *)
Definition opt_or (o : option R) (d : R) : R :=
  match o with Some a => num_or a d | None => d end.

(** [Math.ceil], as an integer. *)
Definition Math_ceil (x : R) : Z := (1 - up (- x))%Z.

(** [Math.floor], as an integer. *)
Definition Math_floor (x : R) : Z := (up x - 1)%Z.

(** [Math.log10] and [Math.pow(10, y)]. *)
Definition Math_log10 (x : R) : R := ln x / ln 10.
Definition Math_pow10 (y : R) : R := Rpower 10 y.

(** [a % b] for numbers: the remainder has the sign of the dividend. *)
Definition trunc (x : R) : Z :=
  if Rle_dec 0 x then Math_floor x else Math_ceil x.
Definition fmod (a b : R) : R := a - IZR (trunc (a / b)) * b.

(** [parseFloat(x.toPrecision(4))]: [x] rounded to four significant
    decimal digits; of two equally near digit strings the larger one is
    taken. *)
Definition toPrecision4 (x : R) : R :=
  if Req_dec_T x 0 then 0
  else
    let e := Math_floor (Math_log10 (Rabs x)) in
    let scale := powerRZ 10 (e - 3) in
    let n := Math_floor (Rabs x / scale + / 2) in
    (if Rlt_dec x 0 then - 1 else 1) * (IZR n * scale).

(** [parseFloat(x.toFixed(4))]: [x] rounded to four decimals. *)
Definition toFixed4 (x : R) : R :=
  (if Rlt_dec x 0 then - 1 else 1) * (IZR (Math_floor (Rabs x * 10000 + / 2)) / 10000).

(** Template literal [`${n}`] for a non-negative integer. *)
Definition nat_to_string (n : nat) : string :=
  NilEmpty.string_of_uint (Nat.to_uint n).

(** [s.split(':')[0]]: the part of [s] before its first colon. *)
Fixpoint split_colon_head (s : string) : string :=
  match s with
  | EmptyString => EmptyString
  | String ch rest =>
      if Ascii.eqb ch ":"%char then EmptyString
      else String ch (split_colon_head rest)
  end.

(** [Array.prototype.forEach((x, i) => ...)] as a fold that also hands
    the callback the index. *)
Fixpoint forEach_from {A St : Type} (f : St -> A -> nat -> St)
         (start : nat) (l : list A) (s : St) : St :=
  match l with
  | [] => s
  | x :: l' => forEach_from f (S start) l' (f s x start)
  end.
Definition forEach_i {A St : Type} (f : St -> A -> nat -> St)
           (l : list A) (s : St) : St := forEach_from f 0 l s.

(** Arrays: writing one slot, and the destructuring swap
    [[a[i], a[j]] = [a[j], a[i]]].  The engines write at the indices
    of nodes and of extra unknowns, which are inside the arrays they
    allocate; a write outside the array, which would extend it in
    JavaScript, leaves the array as it is here. *)
Fixpoint aset {A : Type} (i : nat) (v : A) (l : list A) : list A :=
  match l, i with
  | [], _ => []
  | _ :: l', O => v :: l'
  | y :: l', S i' => y :: aset i' v l'
  end.
Definition swap {A : Type} (i j : nat) (l : list A) : list A :=
  match nth_error l i, nth_error l j with
  | Some a, Some b => aset j a (aset i b l)
  | _, _ => l
  end.

(** Arrays and matrices of numbers: [v[i]], [M[i][j]], [v[i] = x],
    [M[i][j] = x], [v[i] += x] and [M[i][j] += x]. *)
Definition vget (v : list R) (i : nat) : R := nth i v 0.
Definition mget (M : list (list R)) (i j : nat) : R := vget (nth i M []) j.
Definition vset (i : nat) (x : R) (v : list R) : list R := aset i x v.
Definition mset (i j : nat) (x : R) (M : list (list R)) : list (list R) :=
  aset i (aset j x (nth i M [])) M.
Definition vadd (i : nat) (x : R) (v : list R) : list R :=
  vset i (vget v i + x) v.
Definition madd (i j : nat) (x : R) (M : list (list R)) : list (list R) :=
  mset i j (mget M i j + x) M.
(** [v[i] -= x] and [M[i][j] -= x]. *)
Definition vsub (i : nat) (x : R) (v : list R) : list R :=
  vset i (vget v i - x) v.
Definition msub (i j : nat) (x : R) (M : list (list R)) : list (list R) :=
  mset i j (mget M i j - x) M.
(** Matrices of objects: [M[i][j]] and [M[i][j] = x]. *)
Definition oget {A : Type} (d : A) (M : list (list A)) (i j : nat) : A :=
  nth j (nth i M []) d.
Definition oset {A : Type} (i j : nat) (x : A) (M : list (list A))
  : list (list A) := aset i (aset j x (nth i M [])) M.
(** [Array(n).fill(0)] and the matrix of line 262. *)
Definition zeros (n : nat) : list R := repeat 0 n.
Definition zeroMatrix (n : nat) : list (list R) := repeat (zeros n) n.

End JS.

(* ------------------------------------------------------------------ *)
(** ** Insertion-ordered maps (JavaScript [Map]) *)

Module JMap.

Section WithKey.
Variable K : Type.
Variable eqb : K -> K -> bool.
Variable V : Type.

Fixpoint get (k : K) (m : list (K * V)) : option V :=
  match m with
  | [] => None
  | (k', v) :: m' => if eqb k k' then Some v else get k m'
  end.

Definition has (k : K) (m : list (K * V)) : bool :=
  match get k m with Some _ => true | None => false end.

Fixpoint set (k : K) (v : V) (m : list (K * V)) : list (K * V) :=
  match m with
  | [] => [(k, v)]
  | (k', v') :: m' =>
      if eqb k k' then (k, v) :: m' else (k', v') :: set k v m'
  end.

Definition keys (m : list (K * V)) : list K := map fst m.
Definition values (m : list (K * V)) : list V := map snd m.
End WithKey.

End JMap.

(** String-keyed and number-keyed maps, and [Set<string>]. *)
Definition sget {V} := @JMap.get string String.eqb V.
Definition shas {V} := @JMap.has string String.eqb V.
Definition sset {V} := @JMap.set string String.eqb V.
Definition nget {V} := @JMap.get nat Nat.eqb V.
Definition nhas {V} := @JMap.has nat Nat.eqb V.
Definition nset {V} := @JMap.set nat Nat.eqb V.
Definition set_has (k : string) (s : list string) : bool :=
  existsb (String.eqb k) s.
Definition set_add (k : string) (s : list string) : list string :=
  if set_has k s then s else s ++ [k].

(* ------------------------------------------------------------------ *)
(** ** Data model ([types.ts]) *)

Inductive ComponentType : Type :=
| RESISTOR | VOLTAGE_SOURCE | AC_SOURCE | GROUND | CAPACITOR | INDUCTOR
| DIODE | LED | OPAMP | AND_GATE | OR_GATE | NOT_GATE | NAND_GATE
| NOR_GATE | XOR_GATE | VOLTMETER | AMMETER.

Definition ComponentType_eqb (a b : ComponentType) : bool :=
  match a, b with
  | RESISTOR, RESISTOR | VOLTAGE_SOURCE, VOLTAGE_SOURCE
  | AC_SOURCE, AC_SOURCE | GROUND, GROUND | CAPACITOR, CAPACITOR
  | INDUCTOR, INDUCTOR | DIODE, DIODE | LED, LED | OPAMP, OPAMP
  | AND_GATE, AND_GATE | OR_GATE, OR_GATE | NOT_GATE, NOT_GATE
  | NAND_GATE, NAND_GATE | NOR_GATE, NOR_GATE | XOR_GATE, XOR_GATE
  | VOLTMETER, VOLTMETER | AMMETER, AMMETER => true
  | _, _ => false
  end.

(** [list.includes(t)]. *)
Definition includes (l : list ComponentType) (t : ComponentType) : bool :=
  existsb (ComponentType_eqb t) l.

Inductive SimulationMode : Type := INTERACTIVE | TRANSIENT | AC_SWEEP.

(** [CircuitComponent]; the layout fields ([position], [rotation],
    [label], [zIndex]) and [maxCurrent] are never read by the solver
    and are left out.  [waveform] is a string so that names outside the
    [Waveform] union can be written down. *)
Record CircuitComponent : Type := {
  id : string;
  type : ComponentType;
  value : R;
  frequency : option R;
  waveform : option string;
  dcBias : option R;
  dutyCycle : option R;
  inputImpedance : option R;
  inputCount : option nat
}.

Record Port : Type := { componentId : string; portIndex : nat }.

Record Wire : Type := { wireId : string; from : Port; to : Port }.

Record SimulationNode : Type := {
  nodeId : nat;
  voltage : R;
  phase : R;
  componentIds : list string
}.

(** A [DataPoint]: [x] and the traces [N1], [N2], ... in order. *)
Record DataPoint : Type := { x : R; traces : list R }.

Record SimulationResult : Type := {
  nodes : list SimulationNode;
  nodeVoltages : list (nat * (R * R));
  componentCurrents : list (string * R);
  error : option string;
  resultFrequency : R;
  plotData : option (list DataPoint);
  mode : SimulationMode
}.

Record SimulationConfig : Type := {
  configMode : SimulationMode;
  timeStep : R;
  stopTime : R;
  startFreq : R;
  stopFreq : R;
  points : nat
}.

(* ------------------------------------------------------------------ *)
(** ** Exceptions

    [None] stands for a thrown exception; [x <- e ;; k] runs [k] unless
    [e] threw. *)

Notation "x <- e ;; k" :=
  (match e with Some x => k | None => None end)
  (at level 61, e at next level, k at level 200, right associativity).
Notation "' p <- e ;; k" :=
  (match e with Some p => k | None => None end)
  (at level 61, p pattern, e at next level, k at level 200,
   right associativity).

(** [for] loop whose body may throw. *)
Definition for_each {A St : Type} (l : list A)
           (body : St -> A -> option St) (s : St) : option St :=
  fold_left (fun acc a => s' <- acc ;; body s' a) l (Some s).

(* ------------------------------------------------------------------ *)
(** ** class Complex *)

Module Complex.

Open Scope R_scope.

Record t : Type := mk { real : R; imag : R }.

Definition add (a o : t) : t := mk (real a + real o) (imag a + imag o).
Definition sub (a o : t) : t := mk (real a - real o) (imag a - imag o).
Definition mul (a o : t) : t :=
  mk (real a * real o - imag a * imag o)
     (real a * imag o + imag a * real o).
Definition div (a o : t) : t :=
  let den := real o * real o + imag o * imag o in
  if Req_dec_T den 0 then mk 0 0
  else mk ((real a * real o + imag a * imag o) / den)
          ((imag a * real o - real a * imag o) / den).
Definition magnitude (a : t) : R := sqrt (real a ^ 2 + imag a ^ 2).
Definition zero : t := mk 0 0.
Definition one : t := mk 1 0.

End Complex.

(* ------------------------------------------------------------------ *)
(** ** class ComplexMatrixSolver

    Every entry of the matrix and of the right-hand side is an object
    whose fields are read, so a missing row, column or right-hand side
    entry is a [TypeError]. *)

Module ComplexMatrixSolver.

Open Scope R_scope.

Definition entry (M : list (list Complex.t)) (i j : nat) : option Complex.t :=
  row <- nth_error M i ;; nth_error row j.

Definition set_entry (i j : nat) (v : Complex.t) (M : list (list Complex.t))
  : list (list Complex.t) :=
  match nth_error M i with
  | Some row => JS.aset i (JS.aset j v row) M
  | None => M
  end.

(** Lines 39-46: the row of greatest magnitude in column [i]. *)
Definition pivot (n i : nat) (Ac : list (list Complex.t)) : option (nat * R) :=
  aii <- entry Ac i i ;;
  for_each (seq (S i) (n - S i))
    (fun '(maxRow, maxVal) k =>
       aki <- entry Ac k i ;;
       if JS.gtb (Complex.magnitude aki) maxVal
       then Some (k, Complex.magnitude aki)
       else Some (maxRow, maxVal))
    (i, Complex.magnitude aii).

(** Lines 52-58: elimination of column [i] from row [k]. *)
Definition eliminate (n i : nat)
           (st : list (list Complex.t) * list Complex.t) (k : nat)
  : option (list (list Complex.t) * list Complex.t) :=
  let '(Ac, Bc) := st in
  aki <- entry Ac k i ;;
  aii <- entry Ac i i ;;
  let factor := Complex.div aki aii in
  bk <- nth_error Bc k ;;
  bi <- nth_error Bc i ;;
  let Bc := JS.aset k (Complex.sub bk (Complex.mul factor bi)) Bc in
  Ac <- for_each (seq i (n - i))
          (fun Ac j =>
             akj <- entry Ac k j ;;
             aij <- entry Ac i j ;;
             Some (set_entry k j (Complex.sub akj (Complex.mul factor aij)) Ac))
          Ac ;;
  Some (Ac, Bc).

(** Lines 38-59: one pass of the forward loop. *)
Definition forward (n : nat)
           (st : list (list Complex.t) * list Complex.t) (i : nat)
  : option (list (list Complex.t) * list Complex.t) :=
  let '(Ac, Bc) := st in
  '(maxRow, _) <- pivot n i Ac ;;
  let Ac := JS.swap i maxRow Ac in
  let Bc := JS.swap i maxRow Bc in
  aii <- entry Ac i i ;;
  if JS.ltb (Complex.magnitude aii) 1e-12 then Some (Ac, Bc)
  else for_each (seq (S i) (n - S i)) (eliminate n i) (Ac, Bc).

(** Lines 61-68: one pass of the back substitution. *)
Definition back (n : nat) (Ac : list (list Complex.t)) (Bc : list Complex.t)
           (x : list Complex.t) (i : nat) : option (list Complex.t) :=
  aii <- entry Ac i i ;;
  if JS.ltb (Complex.magnitude aii) 1e-12 then Some x
  else
    sum <- for_each (seq (S i) (n - S i))
             (fun sum j =>
                aij <- entry Ac i j ;;
                xj <- nth_error x j ;;
                Some (Complex.add sum (Complex.mul aij xj)))
             Complex.zero ;;
    bi <- nth_error Bc i ;;
    Some (JS.aset i (Complex.div (Complex.sub bi sum) aii) x).

Definition solve (A : list (list Complex.t)) (B : list Complex.t)
  : option (list Complex.t) :=
  let n := List.length A in
  let x := repeat Complex.zero n in
  let Ac := map (fun row => row) A in
  let Bc := B in
  '(Ac, Bc) <- for_each (seq 0 n) (forward n) (Ac, Bc) ;;
  for_each (rev (seq 0 n)) (back n Ac Bc) x.

End ComplexMatrixSolver.

(* ------------------------------------------------------------------ *)
(** ** class MatrixSolver

    Entries are numbers, so only a missing row can raise a [TypeError].
    An entry missing from a row would read as [undefined]; the engines
    allocate square systems ([JS.zeroMatrix]), on which the default of
    [JS.vget] is not reached. *)

Module MatrixSolver.

Open Scope R_scope.

Definition entry (M : list (list R)) (i j : nat) : option R :=
  row <- nth_error M i ;; Some (JS.vget row j).

Definition set_entry (i j : nat) (v : R) (M : list (list R))
  : list (list R) :=
  match nth_error M i with
  | Some row => JS.aset i (JS.aset j v row) M
  | None => M
  end.

(** Lines 82-89. *)
Definition pivot (n i : nat) (M : list (list R)) : option (nat * R) :=
  mii <- entry M i i ;;
  for_each (seq (S i) (n - S i))
    (fun '(maxRow, maxVal) k =>
       mki <- entry M k i ;;
       if JS.gtb (Rabs mki) maxVal
       then Some (k, Rabs mki)
       else Some (maxRow, maxVal))
    (i, Rabs mii).

(** Lines 95-101. *)
Definition eliminate (n i : nat) (st : list (list R) * list R) (k : nat)
  : option (list (list R) * list R) :=
  let '(M, V) := st in
  mki <- entry M k i ;;
  mii <- entry M i i ;;
  let factor := mki / mii in
  let V := JS.aset k (JS.vget V k - factor * JS.vget V i) V in
  M <- for_each (seq i (n - i))
         (fun M j =>
            mkj <- entry M k j ;;
            mij <- entry M i j ;;
            Some (set_entry k j (mkj - factor * mij) M))
         M ;;
  Some (M, V).

(** Lines 81-102. *)
Definition forward (n : nat) (st : list (list R) * list R) (i : nat)
  : option (list (list R) * list R) :=
  let '(M, V) := st in
  '(maxRow, _) <- pivot n i M ;;
  let M := JS.swap i maxRow M in
  let V := JS.swap i maxRow V in
  mii <- entry M i i ;;
  if JS.ltb (Rabs mii) 1e-12 then Some (M, V)
  else for_each (seq (S i) (n - S i)) (eliminate n i) (M, V).

(** Lines 104-111. *)
Definition back (n : nat) (M : list (list R)) (V : list R) (x : list R)
           (i : nat) : option (list R) :=
  mii <- entry M i i ;;
  if JS.ltb (Rabs mii) 1e-12 then Some x
  else
    sum <- for_each (seq (S i) (n - S i))
             (fun sum j => mij <- entry M i j ;; Some (sum + mij * JS.vget x j))
             0 ;;
    Some (JS.aset i ((JS.vget V i - sum) / mii) x).

Definition solve (A : list (list R)) (B : list R) : option (list R) :=
  let n := List.length A in
  let x := repeat 0 n in
  let M := map (fun row => row) A in
  let V := B in
  '(M, V) <- for_each (seq 0 n) (forward n) (M, V) ;;
  for_each (rev (seq 0 n)) (back n M V) x.

End MatrixSolver.

(* ------------------------------------------------------------------ *)
(** ** class CircuitSolver *)

Module CircuitSolver.

Open Scope R_scope.
Open Scope string_scope.
Open Scope list_scope.

Record Graph : Type := { portToNode : list (string * nat); numNodes : nat }.

(** The port key [`${componentId}:${portIndex}`]. *)
Definition portKey (cid : string) (i : nat) : string :=
  (cid ++ ":" ++ JS.nat_to_string i)%string.
Definition pk (p : Port) : string := portKey (componentId p) (portIndex p).

Definition multiInputGates : list ComponentType :=
  [AND_GATE; OR_GATE; NAND_GATE; NOR_GATE; XOR_GATE].

(** [c.inputCount || 2]. *)
Definition inputCount_or_2 (c : CircuitComponent) : nat :=
  match inputCount c with
  | Some (S n) => S n
  | _ => 2%nat
  end.

(** *** buildGraph, lines 130-152: the ports of one component. *)
Definition declarePorts (adj : list (string * list string))
           (c : CircuitComponent) : list (string * list string) :=
  let adj := sset (portKey (id c) 0) [] adj in
  let adj :=
    if negb (ComponentType_eqb (type c) GROUND)
       && negb (ComponentType_eqb (type c) NOT_GATE)
       && negb (includes (multiInputGates ++ [OPAMP]) (type c))
    then sset (portKey (id c) 1) [] adj else adj in
  let adj :=
    if includes multiInputGates (type c) then
      let count := inputCount_or_2 c in
      let adj := fold_left (fun adj i => sset (portKey (id c) i) [] adj)
                           (seq 0 count) adj in
      sset (portKey (id c) count) [] adj
    else adj in
  let adj :=
    if ComponentType_eqb (type c) OPAMP then
      sset (portKey (id c) 2) [] (sset (portKey (id c) 1) [] adj)
    else adj in
  if ComponentType_eqb (type c) NOT_GATE
  then sset (portKey (id c) 1) [] adj else adj.

(** [adj.get(k)?.push(v)]. *)
Definition push_neighbor (k v : string) (adj : list (string * list string))
  : list (string * list string) :=
  match sget k adj with
  | Some l => sset k (l ++ [v]) adj
  | None => adj
  end.

(** *** buildGraph, lines 154-161: one wire. *)
Definition addWire (adj : list (string * list string)) (w : Wire)
  : list (string * list string) :=
  let k1 := pk (from w) in
  let k2 := pk (to w) in
  let adj := if shas k1 adj then adj else sset k1 [] adj in
  let adj := if shas k2 adj then adj else sset k2 [] adj in
  let adj := push_neighbor k1 k2 adj in
  push_neighbor k2 k1 adj.

Definition adjacency (components : list CircuitComponent) (wires : list Wire)
  : list (string * list string) :=
  fold_left addWire wires (fold_left declarePorts components []).

(** [components.find(c => c.id === compId)] then the GROUND test of
    line 178. *)
Definition isGroundPort (components : list CircuitComponent) (curr : string)
  : bool :=
  let compId := JS.split_colon_head curr in
  match find (fun c => String.eqb (id c) compId) components with
  | Some comp => ComponentType_eqb (type comp) GROUND
  | None => false
  end.

(** Line 180: [adj.get(curr) || []]. *)
Definition neighborsOf (adj : list (string * list string)) (curr : string)
  : list string :=
  match sget curr adj with Some l => l | None => [] end.

(** Lines 181-186: the neighbours of the dequeued port. *)
Definition visitNeighbors (neighbors : list string)
           (st : list string * list string) : list string * list string :=
  fold_left (fun '(visited, queue) n =>
               if set_has n visited then (visited, queue)
               else (visited ++ [n], queue ++ [n]))
            neighbors st.

(** Lines 173-187: the [while] loop of one search.  The state is
    [(visited, group, isGround)]; each pass dequeues one port, and no
    port is enqueued twice, so [fuel] = number of port keys is enough
    ([bfs_fuel]). *)
Fixpoint bfs (fuel : nat) (components : list CircuitComponent)
         (adj : list (string * list string)) (queue : list string)
         (visited group : list string) (isGround : bool)
  : list string * list string * bool :=
  match fuel with
  | O => (visited, group, isGround)
  | S fuel' =>
      match queue with
      | [] => (visited, group, isGround)
      | curr :: queue =>
          let group := group ++ [curr] in
          let isGround :=
            if isGroundPort components curr then true else isGround in
          let neighbors := neighborsOf adj curr in
          let '(visited, queue) := visitNeighbors neighbors (visited, queue) in
          bfs fuel' components adj queue visited group isGround
      end
  end.

(** Lines 165-195: one pass of the loop over [adj.keys()].  The state is
    [(portToNode, nodeCount, visited)]. *)
Definition assignGroup (components : list CircuitComponent)
           (adj : list (string * list string))
           (st : list (string * nat) * nat * list string) (portKey : string)
  : list (string * nat) * nat * list string :=
  let '(portToNode, nodeCount, visited) := st in
  if set_has portKey visited then st
  else
    let '(visited, group, isGround) :=
      bfs (List.length adj) components adj [portKey] (visited ++ [portKey])
          [] false in
    if isGround
    then (fold_left (fun m p => sset p 0%nat m) group portToNode,
          nodeCount, visited)
    else (fold_left (fun m p => sset p nodeCount m) group portToNode,
          S nodeCount, visited).

Definition buildGraph (components : list CircuitComponent) (wires : list Wire)
  : Graph :=
  let adj := adjacency components wires in
  let '(portToNode, nodeCount, _) :=
    fold_left (assignGroup components adj) (JMap.keys adj) ([], 1%nat, []) in
  {| portToNode := portToNode; numNodes := nodeCount - 1 |}.


(** *** solveCircuit *)

Definition voltageSourcesOf (components : list CircuitComponent) :=
  filter (fun c => ComponentType_eqb (type c) VOLTAGE_SOURCE
                   || ComponentType_eqb (type c) AC_SOURCE) components.
Definition ammetersOf (components : list CircuitComponent) :=
  filter (fun c => ComponentType_eqb (type c) AMMETER) components.
Definition opampsOf (components : list CircuitComponent) :=
  filter (fun c => ComponentType_eqb (type c) OPAMP) components.
Definition logicGateTypes : list ComponentType :=
  [AND_GATE; OR_GATE; NOT_GATE; NAND_GATE; NOR_GATE; XOR_GATE].
Definition logicGatesOf (components : list CircuitComponent) :=
  filter (fun c => includes logicGateTypes (type c)) components.

Definition getNodeIdx (nodeId : nat) : nat := (nodeId - 1)%nat.

Definition maxIterations : nat := 20.

(** [currentVoltages.get(n) || 0]. *)
Definition voltageAt (currentVoltages : list (nat * R)) (n : nat) : R :=
  match nget n currentVoltages with Some v => JS.num_or v 0 | None => 0 end.

(** What every engine needs from the graph and the component list. *)
Record Env : Type := {
  env_components : list CircuitComponent;
  env_portToNode : list (string * nat);
  env_numNodes : nat
}.

Section Interactive.

Variable env : Env.
Let components := env_components env.
Let portToNode := env_portToNode env.
Let numNodes := env_numNodes env.
Let voltageSources := voltageSourcesOf components.
Let ammeters := ammetersOf components.
Let opamps := opampsOf components.
Let logicGates := logicGatesOf components.

Definition numExtra : nat :=
  (List.length voltageSources + List.length logicGates
   + List.length ammeters + List.length opamps)%nat.
Definition size : nat := (numNodes + numExtra)%nat.

(** Lines 230-233: [getV]. *)
Definition gateInput (currentVoltages : list (nat * R))
           (g : CircuitComponent) (idx : nat) : R :=
  match sget (portKey (id g) idx) portToNode with
  | None => 0
  | Some O => 0
  | Some n => voltageAt currentVoltages n
  end.

(** Lines 235-258: the target of one gate. *)
Definition gateTarget (currentVoltages : list (nat * R))
           (g : CircuitComponent) : R :=
  let logicHigh := if JS.gtb (value g) 0 then value g else 5 in
  let threshold := logicHigh / 2 in
  let high := fun v => JS.gtb v threshold in
  if ComponentType_eqb (type g) NOT_GATE then
    if high (gateInput currentVoltages g 0) then 0 else logicHigh
  else
    let count := inputCount_or_2 g in
    let inputs := map (gateInput currentVoltages g) (seq 0 count) in
    match type g with
    | AND_GATE => if forallb high inputs then logicHigh else 0
    | OR_GATE => if existsb high inputs then logicHigh else 0
    | NAND_GATE => if negb (forallb high inputs) then logicHigh else 0
    | NOR_GATE => if negb (existsb high inputs) then logicHigh else 0
    | XOR_GATE =>
        let highCount := List.length (filter high inputs) in
        if negb (Nat.eqb (highCount mod 2) 0) then logicHigh else 0
    | _ => 0
    end.

(** Lines 229-260. *)
Definition updateGateTargets (currentVoltages : list (nat * R))
           (gateTargets : list (string * R)) : list (string * R) :=
  fold_left (fun gt g => sset (id g) (gateTarget currentVoltages g) gt)
            logicGates gateTargets.

Definition extraTypes : list ComponentType :=
  [VOLTAGE_SOURCE; AC_SOURCE; GROUND; AND_GATE; OR_GATE; NOT_GATE;
   NAND_GATE; NOR_GATE; XOR_GATE; AMMETER; OPAMP].

(** Lines 272-292: [(g_equiv, i_equiv)] of a two-terminal device. *)
Definition equivalent (currentVoltages : list (nat * R))
           (c : CircuitComponent) (n1 n2 : nat) : R * R :=
  match type c with
  | RESISTOR => (1 / Rmax (value c) 1e-6, 0)
  | CAPACITOR => (1e-12, 0)
  | INDUCTOR => (1e6, 0)
  | VOLTMETER => (1e-9, 0)
  | DIODE | LED =>
      let vFwd := if JS.gtb (value c) 0 then value c else 0.7 in
      let vD := voltageAt currentVoltages n1 - voltageAt currentVoltages n2 in
      if JS.gtb vD vFwd then
        let g_equiv := 0.1 in (g_equiv, g_equiv * vFwd)
      else (1e-9, 0)
  | _ => (0, 0)
  end.

(** Lines 294-305: the admittance stamp with its companion current. *)
Definition stampTwoTerminal (n1 n2 : nat) (g_equiv i_equiv : R)
           (GI : list (list R) * list R) : list (list R) * list R :=
  let '(G, I_rhs) := GI in
  let '(G, I_rhs) :=
    if negb (Nat.eqb n1 0)
    then (JS.madd (getNodeIdx n1) (getNodeIdx n1) g_equiv G,
          JS.vadd (getNodeIdx n1) i_equiv I_rhs)
    else (G, I_rhs) in
  let '(G, I_rhs) :=
    if negb (Nat.eqb n2 0)
    then (JS.madd (getNodeIdx n2) (getNodeIdx n2) g_equiv G,
          JS.vsub (getNodeIdx n2) i_equiv I_rhs)
    else (G, I_rhs) in
  let G :=
    if negb (Nat.eqb n1 0) && negb (Nat.eqb n2 0)
    then JS.msub (getNodeIdx n2) (getNodeIdx n1) g_equiv
           (JS.msub (getNodeIdx n1) (getNodeIdx n2) g_equiv G)
    else G in
  (G, I_rhs).

(** Lines 265-306: the callback of the first [components.forEach]. *)
Definition stampPassive (currentVoltages : list (nat * R))
           (GI : list (list R) * list R) (c : CircuitComponent)
  : list (list R) * list R :=
  if includes extraTypes (type c) then GI
  else
    match sget (portKey (id c) 0) portToNode,
          sget (portKey (id c) 1) portToNode with
    | Some n1, Some n2 =>
        let '(g_equiv, i_equiv) := equivalent currentVoltages c n1 n2 in
        stampTwoTerminal n1 n2 g_equiv i_equiv GI
    | _, _ => GI
    end.

(** Lines 308-322: the input impedance of an op-amp. *)
Definition stampOpampInput (GI : list (list R) * list R)
           (c : CircuitComponent) : list (list R) * list R :=
  match sget (portKey (id c) 0) portToNode,
        sget (portKey (id c) 1) portToNode with
  | Some n1, Some n2 =>
      let rIn := JS.opt_or (inputImpedance c) 1e7 in
      let g_in := 1 / rIn in
      let '(G, I_rhs) := GI in
      let G := if negb (Nat.eqb n1 0)
               then JS.madd (getNodeIdx n1) (getNodeIdx n1) g_in G else G in
      let G := if negb (Nat.eqb n2 0)
               then JS.madd (getNodeIdx n2) (getNodeIdx n2) g_in G else G in
      let G := if negb (Nat.eqb n1 0) && negb (Nat.eqb n2 0)
               then JS.msub (getNodeIdx n2) (getNodeIdx n1) g_in
                      (JS.msub (getNodeIdx n1) (getNodeIdx n2) g_in G)
               else G in
      (G, I_rhs)
  | _, _ => GI
  end.

(** [n !== undefined && n !== 0]. *)
Definition isNode (n : option nat) : option nat :=
  match n with
  | Some (S m) => Some (S m)
  | _ => None
  end.

(** Lines 328-335 and 349-356: the +1/-1 pattern of a branch unknown. *)
Definition stampBranch (nPos nNeg : option nat) (idx : nat)
           (G : list (list R)) : list (list R) :=
  let G := match isNode nPos with
           | Some n => JS.mset idx (getNodeIdx n) 1
                         (JS.mset (getNodeIdx n) idx 1 G)
           | None => G
           end in
  match isNode nNeg with
  | Some n => JS.mset idx (getNodeIdx n) (-1)
                (JS.mset (getNodeIdx n) idx (-1) G)
  | None => G
  end.

(** Lines 338-341: the value a source contributes at the operating
    point. *)
Definition sourceValueDC (v : CircuitComponent) : R :=
  if ComponentType_eqb (type v) AC_SOURCE then JS.opt_or (dcBias v) 0
  else value v.

(** Lines 324-343. *)
Definition stampVoltageSource (GI : list (list R) * list R)
           (v : CircuitComponent) (i : nat) : list (list R) * list R :=
  let '(G, I_rhs) := GI in
  let nPos := sget (portKey (id v) 0) portToNode in
  let nNeg := sget (portKey (id v) 1) portToNode in
  let idxVs := (numNodes + i)%nat in
  let G := stampBranch nPos nNeg idxVs G in
  (G, JS.vset idxVs (sourceValueDC v) I_rhs).

(** Lines 345-358. *)
Definition stampAmmeter (GI : list (list R) * list R)
           (a : CircuitComponent) (i : nat) : list (list R) * list R :=
  let '(G, I_rhs) := GI in
  let nPos := sget (portKey (id a) 0) portToNode in
  let nNeg := sget (portKey (id a) 1) portToNode in
  let idxAm := (numNodes + List.length voltageSources + i)%nat in
  let G := stampBranch nPos nNeg idxAm G in
  (G, JS.vset idxAm 0 I_rhs).

(** Line 366 (and 580, 743). *)
Definition opampGain (op : CircuitComponent) : R :=
  if JS.gtb (value op) 0 then value op else 100000.

(** Lines 368-369: [n && n !== 0 ? currentVoltages.get(n) || 0 : 0]. *)
Definition opampInputV (currentVoltages : list (nat * R)) (n : option nat)
  : R :=
  match isNode n with
  | Some m => voltageAt currentVoltages m
  | None => 0
  end.

Definition RAIL_POS : R := 15.
Definition RAIL_NEG : R := -15.

(** Lines 375-378: [(clampedV, isSaturated)]. *)
Definition clamp (targetV : R) : R * bool :=
  let '(clampedV, isSaturated) :=
    if JS.gtb targetV RAIL_POS then (RAIL_POS, true) else (targetV, false) in
  if JS.ltb targetV RAIL_NEG then (RAIL_NEG, true)
  else (clampedV, isSaturated).

(** Lines 360-393. *)
Definition stampOpamp (currentVoltages : list (nat * R))
           (GI : list (list R) * list R) (op : CircuitComponent) (i : nat)
  : list (list R) * list R :=
  let '(G, I_rhs) := GI in
  let nPos := sget (portKey (id op) 0) portToNode in
  let nNeg := sget (portKey (id op) 1) portToNode in
  let nOut := sget (portKey (id op) 2) portToNode in
  let idxOp :=
    (numNodes + List.length voltageSources + List.length ammeters + i)%nat in
  let Gain := opampGain op in
  let vPosVal := opampInputV currentVoltages nPos in
  let vNegVal := opampInputV currentVoltages nNeg in
  let targetV := Gain * (vPosVal - vNegVal) in
  let '(clampedV, isSaturated) := clamp targetV in
  let G := match isNode nOut with
           | Some n => JS.mset (getNodeIdx n) idxOp 1 G
           | None => G
           end in
  if isSaturated then
    let G := match isNode nOut with
             | Some n => JS.mset idxOp (getNodeIdx n) 1 G
             | None => G
             end in
    (G, JS.vset idxOp clampedV I_rhs)
  else
    let G := match isNode nOut with
             | Some n => JS.mset idxOp (getNodeIdx n) 1 G
             | None => G
             end in
    let G := match isNode nPos with
             | Some n => JS.mset idxOp (getNodeIdx n) (- Gain) G
             | None => G
             end in
    let G := match isNode nNeg with
             | Some n => JS.mset idxOp (getNodeIdx n) Gain G
             | None => G
             end in
    (G, JS.vset idxOp 0 I_rhs).

(** Lines 395-416. *)
Definition stampGate (gateTargets : list (string * R))
           (GI : list (list R) * list R) (g : CircuitComponent) (i : nat)
  : list (list R) * list R :=
  let '(G, I_rhs) := GI in
  let isNot := ComponentType_eqb (type g) NOT_GATE in
  let inputCount := inputCount_or_2 g in
  let portOutIdx := if isNot then 1%nat else inputCount in
  let nOut := sget (portKey (id g) portOutIdx) portToNode in
  let idxGate :=
    (numNodes + List.length voltageSources + List.length ammeters
     + List.length opamps + i)%nat in
  let G := match isNode nOut with
           | Some n => JS.mset idxGate (getNodeIdx n) 1
                         (JS.mset (getNodeIdx n) idxGate 1 G)
           | None => G
           end in
  let I_rhs :=
    JS.vset idxGate
      (match sget (id g) gateTargets with
       | Some t => JS.num_or t 0
       | None => 0
       end) I_rhs in
  let count := if isNot then 1%nat else inputCount in
  let G := fold_left
             (fun G k =>
                match isNode (sget (portKey (id g) k) portToNode) with
                | Some n => JS.madd (getNodeIdx n) (getNodeIdx n) 1e-12 G
                | None => G
                end)
             (seq 0 count) G in
  (G, I_rhs).

(** Lines 262-416: the system of one iteration. *)
Definition assemble (currentVoltages : list (nat * R))
           (gateTargets : list (string * R)) : list (list R) * list R :=
  let GI := (JS.zeroMatrix size, JS.zeros size) in
  let GI := fold_left (stampPassive currentVoltages) components GI in
  let GI := fold_left stampOpampInput opamps GI in
  let GI := JS.forEach_i stampVoltageSource voltageSources GI in
  let GI := JS.forEach_i stampAmmeter ammeters GI in
  let GI := JS.forEach_i (stampOpamp currentVoltages) opamps GI in
  JS.forEach_i (stampGate gateTargets) logicGates GI.

(** The variables of the [while] loop. *)
Record LoopState : Type := {
  iteration : nat;
  converged : bool;
  currentVoltages : list (nat * R);
  gateTargets : list (string * R);
  finalX : list R
}.

(** Lines 424-430: [(maxDiff, currentVoltages)] after the update. *)
Definition updateVoltages (finalX : list R)
           (currentVoltages : list (nat * R)) : R * list (nat * R) :=
  fold_left
    (fun '(maxDiff, cv) n =>
       let vNew := JS.vget finalX (getNodeIdx n) in
       let vOld := voltageAt cv n in
       (Rmax maxDiff (Rabs (vNew - vOld)), nset n vNew cv))
    (seq 1 numNodes) (0, currentVoltages).

(** Lines 229-433: the body of the [while] loop; [None] is the [catch]
    branch of line 420. *)
Definition iterate (st : LoopState) : option LoopState :=
  let gateTargets := updateGateTargets (currentVoltages st) (gateTargets st) in
  let '(G, I_rhs) := assemble (currentVoltages st) gateTargets in
  finalX <- MatrixSolver.solve G I_rhs ;;
  let '(maxDiff, currentVoltages) :=
    updateVoltages finalX (currentVoltages st) in
  Some {| iteration := S (iteration st);
          converged := if JS.ltb maxDiff 0.01 then true else converged st;
          currentVoltages := currentVoltages;
          gateTargets := gateTargets;
          finalX := finalX |}.

(** Line 228: [while (iteration < maxIterations && !converged)];
    [remaining] is [maxIterations - iteration]. *)
Fixpoint loop (remaining : nat) (st : LoopState) : option LoopState :=
  match remaining with
  | O => Some st
  | S remaining' =>
      if converged st then Some st
      else st' <- iterate st ;; loop remaining' st'
  end.

(** Lines 219-226. *)
Definition initialState : LoopState :=
  {| iteration := 0;
     converged := false;
     currentVoltages :=
       fold_left (fun cv i => nset i 0 cv) (seq 0 (S numNodes)) [];
     gateTargets := fold_left (fun gt g => sset (id g) 0 gt) logicGates [];
     finalX := [] |}.

(** Lines 444-447. *)
Definition harvestExtra (finalX : list R) (cc : list (string * R))
  : list (string * R) :=
  let cc := JS.forEach_i
              (fun cc v i => sset (id v) (JS.vget finalX (numNodes + i)) cc)
              voltageSources cc in
  let cc := JS.forEach_i
              (fun cc a i =>
                 sset (id a)
                      (JS.vget finalX
                         (numNodes + List.length voltageSources + i)) cc)
              ammeters cc in
  let cc := JS.forEach_i
              (fun cc op i =>
                 sset (id op)
                      (JS.vget finalX
                         (numNodes + List.length voltageSources
                          + List.length ammeters + i)) cc)
              opamps cc in
  JS.forEach_i
    (fun cc g i =>
       sset (id g)
            (JS.vget finalX
               (numNodes + List.length voltageSources
                + List.length ammeters + List.length opamps + i)) cc)
    logicGates cc.

(** Lines 449-466. *)
Definition harvestPassive (finalX : list R) (cc : list (string * R))
           (c : CircuitComponent) : list (string * R) :=
  if includes extraTypes (type c) then cc
  else
    match sget (portKey (id c) 0) portToNode,
          sget (portKey (id c) 1) portToNode with
    | Some n1, Some n2 =>
        let v1 := if Nat.eqb n1 0 then 0 else JS.vget finalX (getNodeIdx n1) in
        let v2 := if Nat.eqb n2 0 then 0 else JS.vget finalX (getNodeIdx n2) in
        let vDiff := v1 - v2 in
        let iVal :=
          match type c with
          | RESISTOR => vDiff / value c
          | VOLTMETER => vDiff / 1e9
          | DIODE | LED =>
              let vFwd := if JS.gtb (value c) 0 then value c else 0.7 in
              if JS.gtb vDiff vFwd then (vDiff - vFwd) / 10
              else vDiff * 1e-9
          | _ => 0
          end in
        sset (id c) iVal cc
    | _, _ => cc
    end.

(** Lines 468-473 (and 785-790). *)
Definition nodeToComponents : list (nat * list string) :=
  fold_left
    (fun m '(portKey, nodeId) =>
       let compId := JS.split_colon_head portKey in
       let m := if nhas nodeId m then m else nset nodeId [] m in
       match nget nodeId m with
       | Some l => if set_has compId l then m else nset nodeId (l ++ [compId]) m
       | None => m
       end)
    portToNode [].

(** Lines 436-485: the result built from the variables at loop exit. *)
Definition harvest (frequency : R) (st : LoopState) : SimulationResult :=
  let resultVoltages :=
    fold_left (fun rv '(k, v) =>
                 if negb (Nat.eqb k 0) then nset k (v, 0) rv else rv)
              (currentVoltages st) (nset 0%nat (0, 0) []) in
  let componentCurrents := harvestExtra (finalX st) [] in
  let componentCurrents :=
    fold_left (harvestPassive (finalX st)) components componentCurrents in
  let simNodes :=
    map (fun '(k, v) =>
           {| nodeId := k; voltage := fst v; phase := snd v;
              componentIds := match nget k nodeToComponents with
                              | Some l => l
                              | None => []
                              end |})
        resultVoltages in
  {| nodes := simNodes;
     nodeVoltages := resultVoltages;
     componentCurrents := componentCurrents;
     error := None;
     resultFrequency := frequency;
     plotData := None;
     mode := INTERACTIVE |}.

End Interactive.

Definition graphEnv (components : list CircuitComponent) (g : Graph) : Env :=
  {| env_components := components;
     env_portToNode := portToNode g;
     env_numNodes := numNodes g |}.

Definition errorResult (msg : string) (frequency : R) : SimulationResult :=
  {| nodes := []; nodeVoltages := []; componentCurrents := [];
     error := Some msg; resultFrequency := frequency; plotData := None;
     mode := INTERACTIVE |}.

(** Line 203: [Array.from(portToNode.values()).includes(0)]. *)
Definition hasGround (g : Graph) : bool :=
  existsb (Nat.eqb 0) (JMap.values (portToNode g)).

Definition solveCircuit (components : list CircuitComponent)
           (wires : list Wire) (frequency : R) : SimulationResult :=
  let g := buildGraph components wires in
  if negb (hasGround g) then errorResult "No Ground (GND) found." frequency
  else
    let env := graphEnv components g in
    match loop env maxIterations (initialState env) with
    | Some st => harvest env frequency st
    | None => errorResult "Singular matrix" frequency
    end.


(** *** solveACSweep *)

Definition emptyPlot (m : SimulationMode) : SimulationResult :=
  {| nodes := []; nodeVoltages := []; componentCurrents := [];
     error := None; resultFrequency := 0; plotData := Some [];
     mode := m |}.

Section ACSweep.

Variable env : Env.
Variable config : SimulationConfig.
Let components := env_components env.
Let portToNode := env_portToNode env.
Let numNodes := env_numNodes env.
Let voltageSources := voltageSourcesOf components.
Let opamps := opampsOf components.

Definition acSize : nat :=
  (numNodes + List.length voltageSources + List.length opamps)%nat.

Definition cadd (i j : nat) (y : Complex.t) (G : list (list Complex.t)) :=
  JS.oset i j (Complex.add (JS.oget Complex.zero G i j) y) G.
Definition csub (i j : nat) (y : Complex.t) (G : list (list Complex.t)) :=
  JS.oset i j (Complex.sub (JS.oget Complex.zero G i j) y) G.

(** Lines 525-530 and 547-552. *)
Definition stampAdmittance (n1 n2 : nat) (Y : Complex.t)
           (G : list (list Complex.t)) : list (list Complex.t) :=
  let G := if negb (Nat.eqb n1 0)
           then cadd (getNodeIdx n1) (getNodeIdx n1) Y G else G in
  let G := if negb (Nat.eqb n2 0)
           then cadd (getNodeIdx n2) (getNodeIdx n2) Y G else G in
  if negb (Nat.eqb n1 0) && negb (Nat.eqb n2 0)
  then csub (getNodeIdx n2) (getNodeIdx n1) Y
         (csub (getNodeIdx n1) (getNodeIdx n2) Y G)
  else G.

Definition skippedAC : list ComponentType :=
  [VOLTAGE_SOURCE; AC_SOURCE; GROUND; VOLTMETER; AMMETER].

(** Lines 513-553. *)
Definition stampPassiveAC (omega : R) (G : list (list Complex.t))
           (c : CircuitComponent) : list (list Complex.t) :=
  if includes skippedAC (type c) then G
  else if includes logicGateTypes (type c) then G
  else
    match sget (portKey (id c) 0) portToNode,
          sget (portKey (id c) 1) portToNode with
    | Some n1, Some n2 =>
        if ComponentType_eqb (type c) OPAMP then
          let rIn := JS.opt_or (inputImpedance c) 1e7 in
          stampAdmittance n1 n2 (Complex.mk (1 / rIn) 0) G
        else
          let Y := match type c with
                   | RESISTOR => Complex.mk (1 / value c) 0
                   | CAPACITOR => Complex.mk 0 (omega * value c)
                   | INDUCTOR => Complex.mk 0 (- 1 / (omega * value c))
                   | _ => Complex.zero
                   end in
          stampAdmittance n1 n2 Y G
    | _, _ => G
    end.

(** Lines 555-573. *)
Definition stampVoltageSourceAC
           (GI : list (list Complex.t) * list Complex.t)
           (v : CircuitComponent) (idx : nat)
  : list (list Complex.t) * list Complex.t :=
  let '(G, I_rhs) := GI in
  let nPos := sget (portKey (id v) 0) portToNode in
  let nNeg := sget (portKey (id v) 1) portToNode in
  let idxVs := (numNodes + idx)%nat in
  let G := match isNode nPos with
           | Some n => JS.oset idxVs (getNodeIdx n) Complex.one
                         (JS.oset (getNodeIdx n) idxVs Complex.one G)
           | None => G
           end in
  let G := match isNode nNeg with
           | Some n => JS.oset idxVs (getNodeIdx n) (Complex.mk (-1) 0)
                         (JS.oset (getNodeIdx n) idxVs (Complex.mk (-1) 0) G)
           | None => G
           end in
  let val := if ComponentType_eqb (type v) AC_SOURCE then value v else 0 in
  (G, JS.aset idxVs (Complex.mk val 0) I_rhs).

(** Lines 575-589. *)
Definition stampOpampAC (GI : list (list Complex.t) * list Complex.t)
           (op : CircuitComponent) (idx : nat)
  : list (list Complex.t) * list Complex.t :=
  let '(G, I_rhs) := GI in
  let nPos := sget (portKey (id op) 0) portToNode in
  let nNeg := sget (portKey (id op) 1) portToNode in
  let nOut := sget (portKey (id op) 2) portToNode in
  let idxOp := (numNodes + List.length voltageSources + idx)%nat in
  let Gain := opampGain op in
  let G := match isNode nOut with
           | Some n => JS.oset (getNodeIdx n) idxOp Complex.one G
           | None => G
           end in
  let G := match isNode nOut with
           | Some n => JS.oset idxOp (getNodeIdx n) Complex.one G
           | None => G
           end in
  let G := match isNode nPos with
           | Some n => JS.oset idxOp (getNodeIdx n) (Complex.mk (- Gain) 0) G
           | None => G
           end in
  let G := match isNode nNeg with
           | Some n => JS.oset idxOp (getNodeIdx n) (Complex.mk Gain 0) G
           | None => G
           end in
  (G, JS.aset idxOp Complex.zero I_rhs).

(** Lines 510-589: the complex system at one frequency. *)
Definition assembleAC (omega : R) : list (list Complex.t) * list Complex.t :=
  let G := repeat (repeat Complex.zero acSize) acSize in
  let I_rhs := repeat Complex.zero acSize in
  let G := fold_left (stampPassiveAC omega) components G in
  let GI := JS.forEach_i stampVoltageSourceAC voltageSources (G, I_rhs) in
  JS.forEach_i stampOpampAC opamps GI.

(** Lines 498-504. *)
Definition logStart : R := JS.Math_log10 (Rmax 1 (startFreq config)).
Definition logStop : R := JS.Math_log10 (stopFreq config).
Definition stepSize : R := (logStop - logStart) / (INR (points config) - 1).

(** Line 507. *)
Definition sweepFrequency (i : nat) : R :=
  JS.Math_pow10 (logStart + INR i * stepSize).

(** Lines 592-597: the body of the [try] block. *)
Definition sweepPoint (freq : R) : option DataPoint :=
  let omega := 2 * PI * freq in
  let '(G, I_rhs) := assembleAC omega in
  sol <- ComplexMatrixSolver.solve G I_rhs ;;
  ys <- for_each (seq 1 numNodes)
          (fun ys n =>
             s <- nth_error sol (getNodeIdx n) ;;
             Some (ys ++ [JS.toPrecision4 (Complex.magnitude s)]))
          [] ;;
  Some {| x := JS.toPrecision4 freq; traces := ys |}.

(** Lines 506-599: the sweep; a point whose computation throws is
    dropped by the [catch]. *)
Definition sweep : list DataPoint :=
  fold_left
    (fun plotData i =>
       match sweepPoint (sweepFrequency i) with
       | Some point => plotData ++ [point]
       | None => plotData
       end)
    (seq 0 (points config)) [].

End ACSweep.

Definition solveACSweep (components : list CircuitComponent)
           (wires : list Wire) (config : SimulationConfig)
  : SimulationResult :=
  let g := buildGraph components wires in
  if Nat.eqb (numNodes g) 0 then emptyPlot AC_SWEEP
  else
    {| nodes := []; nodeVoltages := []; componentCurrents := [];
       error := None; resultFrequency := 0;
       plotData := Some (sweep (graphEnv components g) config);
       mode := AC_SWEEP |}.


(** *** solveTransient *)

Section Transient.

Variable env : Env.
Variable config : SimulationConfig.
Let components := env_components env.
Let portToNode := env_portToNode env.
Let numNodes := env_numNodes env.
Let voltageSources := voltageSourcesOf components.
Let opamps := opampsOf components.

Definition trSize : nat :=
  (numNodes + List.length voltageSources + List.length opamps)%nat.

Definition dt : R := timeStep config.
Definition steps : Z := JS.Math_ceil (stopTime config / dt).

(** [inductorCurrents.get(c.id) || 0]. *)
Definition inductorCurrent (inductorCurrents : list (string * R))
           (c : CircuitComponent) : R :=
  match sget (id c) inductorCurrents with
  | Some i => JS.num_or i 0
  | None => 0
  end.

(** Lines 630-684. *)
Definition stampPassiveTR (prevVoltages : list R)
           (inductorCurrents : list (string * R))
           (GI : list (list R) * list R) (c : CircuitComponent)
  : list (list R) * list R :=
  if includes skippedAC (type c) then GI
  else if includes logicGateTypes (type c) then GI
  else
    match sget (portKey (id c) 0) portToNode,
          sget (portKey (id c) 1) portToNode with
    | Some n1, Some n2 =>
        let '(G, I_rhs) := GI in
        if ComponentType_eqb (type c) OPAMP then
          let rIn := JS.opt_or (inputImpedance c) 1e7 in
          let g_in := 1 / rIn in
          let G := if negb (Nat.eqb n1 0)
                   then JS.madd (getNodeIdx n1) (getNodeIdx n1) g_in G
                   else G in
          let G := if negb (Nat.eqb n2 0)
                   then JS.madd (getNodeIdx n2) (getNodeIdx n2) g_in G
                   else G in
          let G := if negb (Nat.eqb n1 0) && negb (Nat.eqb n2 0)
                   then JS.msub (getNodeIdx n2) (getNodeIdx n1) g_in
                          (JS.msub (getNodeIdx n1) (getNodeIdx n2) g_in G)
                   else G in
          (G, I_rhs)
        else
          let '(g_equiv, i_source) :=
            match type c with
            | RESISTOR => (1 / value c, 0)
            | CAPACITOR =>
                let v_old := JS.vget prevVoltages n1
                             - JS.vget prevVoltages n2 in
                (value c / dt, (value c / dt) * v_old)
            | INDUCTOR =>
                (dt / value c, - inductorCurrent inductorCurrents c)
            | _ => (0, 0)
            end in
          let isC := ComponentType_eqb (type c) CAPACITOR in
          let isL := ComponentType_eqb (type c) INDUCTOR in
          let '(G, I_rhs) :=
            if negb (Nat.eqb n1 0) then
              let G := JS.madd (getNodeIdx n1) (getNodeIdx n1) g_equiv G in
              let I_rhs := if isC then JS.vadd (getNodeIdx n1) i_source I_rhs
                           else I_rhs in
              let I_rhs :=
                if isL
                then JS.vsub (getNodeIdx n1)
                       (inductorCurrent inductorCurrents c) I_rhs
                else I_rhs in
              (G, I_rhs)
            else (G, I_rhs) in
          let '(G, I_rhs) :=
            if negb (Nat.eqb n2 0) then
              let G := JS.madd (getNodeIdx n2) (getNodeIdx n2) g_equiv G in
              let I_rhs := if isC then JS.vsub (getNodeIdx n2) i_source I_rhs
                           else I_rhs in
              let I_rhs :=
                if isL
                then JS.vadd (getNodeIdx n2)
                       (inductorCurrent inductorCurrents c) I_rhs
                else I_rhs in
              (G, I_rhs)
            else (G, I_rhs) in
          let G := if negb (Nat.eqb n1 0) && negb (Nat.eqb n2 0)
                   then JS.msub (getNodeIdx n2) (getNodeIdx n1) g_equiv
                          (JS.msub (getNodeIdx n1) (getNodeIdx n2) g_equiv G)
                   else G in
          (G, I_rhs)
    | _, _ => GI
    end.

(** [v.waveform || 'SINE']. *)
Definition waveform_or_SINE (v : CircuitComponent) : string :=
  match waveform v with
  | Some w => if String.eqb w "" then "SINE" else w
  | None => "SINE"
  end.

(** Lines 699-733: the value of a source at [time]. *)
Definition sourceValue (v : CircuitComponent) (time : R) : R :=
  let val := value v in
  if ComponentType_eqb (type v) AC_SOURCE then
    let freq := JS.opt_or (frequency v) 60 in
    let bias := JS.opt_or (dcBias v) 0 in
    let waveform := waveform_or_SINE v in
    let period := 1 / freq in
    let tMod := JS.fmod time period in
    if String.eqb waveform "SINE" then
      value v * sin (2 * PI * freq * time) + bias
    else if String.eqb waveform "SQUARE" then
      let duty := JS.opt_or (dutyCycle v) 0.5 in
      (if JS.ltb tMod (period * duty) then value v else - value v) + bias
    else if String.eqb waveform "TRIANGLE" then
      let triPhase := tMod / period in
      let val :=
        if JS.ltb triPhase 0.25 then 4 * value v * triPhase
        else if JS.ltb triPhase 0.75 then value v * (2 - 4 * triPhase)
        else value v * (4 * triPhase - 4) in
      val + bias
    else if String.eqb waveform "SAWTOOTH" then
      2 * value v * (tMod / period) - value v + bias
    else if String.eqb waveform "PULSE" then
      let pDuty := JS.opt_or (dutyCycle v) 0.5 in
      (if JS.ltb tMod (period * pDuty) then value v else 0) + bias
    else val
  else val.

(** Lines 686-736. *)
Definition stampVoltageSourceTR (time : R) (GI : list (list R) * list R)
           (v : CircuitComponent) (idx : nat) : list (list R) * list R :=
  let '(G, I_rhs) := GI in
  let nPos := sget (portKey (id v) 0) portToNode in
  let nNeg := sget (portKey (id v) 1) portToNode in
  let idxVs := (numNodes + idx)%nat in
  let G := stampBranch nPos nNeg idxVs G in
  (G, JS.vset idxVs (sourceValue v time) I_rhs).

(** Lines 738-752. *)
Definition stampOpampTR (GI : list (list R) * list R)
           (op : CircuitComponent) (idx : nat) : list (list R) * list R :=
  let '(G, I_rhs) := GI in
  let nPos := sget (portKey (id op) 0) portToNode in
  let nNeg := sget (portKey (id op) 1) portToNode in
  let nOut := sget (portKey (id op) 2) portToNode in
  let idxOp := (numNodes + List.length voltageSources + idx)%nat in
  let Gain := opampGain op in
  let G := match isNode nOut with
           | Some n => JS.mset (getNodeIdx n) idxOp 1 G
           | None => G
           end in
  let G := match isNode nOut with
           | Some n => JS.mset idxOp (getNodeIdx n) 1 G
           | None => G
           end in
  let G := match isNode nPos with
           | Some n => JS.mset idxOp (getNodeIdx n) (- Gain) G
           | None => G
           end in
  let G := match isNode nNeg with
           | Some n => JS.mset idxOp (getNodeIdx n) Gain G
           | None => G
           end in
  (G, JS.vset idxOp 0 I_rhs).

(** Lines 627-752: the system of one time step. *)
Definition assembleTR (time : R) (prevVoltages : list R)
           (inductorCurrents : list (string * R))
  : list (list R) * list R :=
  let GI := (JS.zeroMatrix trSize, JS.zeros trSize) in
  let GI := fold_left (stampPassiveTR prevVoltages inductorCurrents)
                      components GI in
  let GI := JS.forEach_i (stampVoltageSourceTR time) voltageSources GI in
  JS.forEach_i stampOpampTR opamps GI.

(** The variables of the time loop; [stopped] records the [break] of
    line 781. *)
Record TransientState : Type := {
  tr_plotData : list DataPoint;
  prevVoltages : list R;
  inductorCurrents : list (string * R);
  finalVoltages : list R;
  stopped : bool
}.

(** Lines 769-777; both ports of an inductor are declared by
    [declarePorts], so both lookups succeed. *)
Definition updateInductor (prevVoltages : list R)
           (ic : list (string * R)) (c : CircuitComponent)
  : list (string * R) :=
  match sget (portKey (id c) 0) portToNode,
        sget (portKey (id c) 1) portToNode with
  | Some n1, Some n2 =>
      let v1 := JS.vget prevVoltages n1 in
      let v2 := JS.vget prevVoltages n2 in
      let i_old := inductorCurrent ic c in
      sset (id c) (i_old + (dt / value c) * (v1 - v2)) ic
  | _, _ => ic
  end.

(** Lines 626-782: one time step. *)
Definition timeStepBody (st : TransientState) (step : nat)
  : TransientState :=
  if stopped st then st
  else
    let time := INR step * dt in
    let '(G, I_rhs) :=
      assembleTR time (prevVoltages st) (inductorCurrents st) in
    match MatrixSolver.solve G I_rhs with
    | Some sol =>
        let point :=
          {| x := JS.toPrecision4 time;
             traces := map (fun n => JS.toFixed4 (JS.vget sol (getNodeIdx n)))
                           (seq 1 numNodes) |} in
        let volts := map (fun n => JS.vget sol (getNodeIdx n))
                         (seq 1 numNodes) in
        let prev := 0 :: volts in
        {| tr_plotData := tr_plotData st ++ [point];
           prevVoltages := prev;
           inductorCurrents :=
             fold_left (updateInductor prev)
                       (filter (fun c => ComponentType_eqb (type c) INDUCTOR)
                               components)
                       (inductorCurrents st);
           finalVoltages := volts;
           stopped := false |}
    | None =>
        {| tr_plotData := tr_plotData st;
           prevVoltages := prevVoltages st;
           inductorCurrents := inductorCurrents st;
           finalVoltages := finalVoltages st;
           stopped := true |}
    end.

(** Lines 619-623. *)
Definition initialTransient : TransientState :=
  {| tr_plotData := [];
     prevVoltages := JS.zeros (S numNodes);
     inductorCurrents :=
       fold_left (fun ic c => sset (id c) 0 ic)
                 (filter (fun c => ComponentType_eqb (type c) INDUCTOR)
                         components) [];
     finalVoltages := JS.zeros numNodes;
     stopped := false |}.

(** Line 625: [for (step = 0; step <= steps; step++)]. *)
Definition timeLoop : TransientState :=
  fold_left timeStepBody (seq 0 (Z.to_nat (steps + 1))) initialTransient.

(** Lines 785-811. *)
Definition transientResult (st : TransientState) : SimulationResult :=
  let n2c := nodeToComponents env in
  {| nodes :=
       map (fun '(i, v) =>
              {| nodeId := S i; voltage := v; phase := 0;
                 componentIds := match nget (S i) n2c with
                                 | Some l => l
                                 | None => []
                                 end |})
           (combine (seq 0 (List.length (finalVoltages st)))
                    (finalVoltages st));
     nodeVoltages := [];
     componentCurrents := [];
     error := None;
     resultFrequency := 0;
     plotData := Some (tr_plotData st);
     mode := TRANSIENT |}.

End Transient.

Definition solveTransient (components : list CircuitComponent)
           (wires : list Wire) (config : SimulationConfig)
  : SimulationResult :=
  let g := buildGraph components wires in
  if Nat.eqb (numNodes g) 0 then emptyPlot TRANSIENT
  else
    let env := graphEnv components g in
    transientResult env (timeLoop env config).

End CircuitSolver.

(* ------------------------------------------------------------------ *)
(** ** The store

    Arrays and records are passed by reference.  To speak of what a call
    does to the objects it is handed, the solvers and the entry points
    are embedded a second time as computations over a heap of objects.
    What is local to a call and never handed on (the maps and lists of
    buildGraph, the stamping of [G] and [I_rhs] before the solve) stays
    a value; what is passed ([A], [B], the components, the wires) and
    what the solvers build and mutate in place (the working copies and
    [x]) are objects of the heap. *)

Module Store.

Inductive object : Type :=
| NumArray (l : list R)
| ComplexArray (l : list Complex.t)
| RefArray (l : list nat)
| ComponentRecord (c : CircuitComponent)
| WireRecord (w : Wire).

Definition heap : Type := list object.

(** A computation maps the heap to the new heap and a value, or [None]
    when it throws. *)
Definition St (A : Type) : Type := heap -> heap * option A.

Definition ret {A : Type} (a : A) : St A := fun h => (h, Some a).
Definition throw {A : Type} : St A := fun h => (h, None).
Definition bind {A B : Type} (c : St A) (k : A -> St B) : St B :=
  fun h => match c h with
           | (h', Some a) => k a h'
           | (h', None) => (h', None)
           end.
(** [try { c } catch (e) { }], the outcome made a value. *)
Definition try {A : Type} (c : St A) : St (option A) :=
  fun h => (fst (c h), Some (snd (c h))).

Notation "x <~ c ;; k" := (bind c (fun x => k))
  (at level 61, c at next level, k at level 200, right associativity).
Notation "' p <~ c ;; k" := (bind c (fun p => k))
  (at level 61, p pattern, c at next level, k at level 200,
   right associativity).

(** A new object, the object behind a reference, and the replacement of
    an object in place. *)
Definition alloc (o : object) : St nat :=
  fun h => (h ++ [o], Some (List.length h)).
Definition load (l : nat) : St object := fun h => (h, nth_error h l).
Definition store (l : nat) (o : object) : St unit :=
  fun h => (JS.aset l o h, Some tt).

Fixpoint for_st {A S : Type} (l : list A) (body : S -> A -> St S) (s : S)
  : St S :=
  match l with
  | [] => ret s
  | a :: l' => s' <~ body s a ;; for_st l' body s'
  end.

(** The references held by an array of references. *)
Definition refs (l : nat) : St (list nat) :=
  o <~ load l ;;
  match o with RefArray rs => ret rs | _ => throw end.

(** *** The elimination, for numbers and for Complex entries

    The two solvers are the same statements over two kinds of entries.
    They differ where an index is outside an array: a method called on
    the missing Complex entry throws ([missing] is [None]), the missing
    number is used as it is ([missing] is the number it reads as in
    [JS.vget]).  Every index is inside on the systems the engines
    build. *)
Section Solver.

Variable E : Type.
Variable wrap : list E -> object.
Variable unwrap : object -> option (list E).
Variable missing : option E.
Variable mag : E -> R.
Variables div sub mul add : E -> E -> E.
Variable zero : E.

Definition elements (a : nat) : St (list E) :=
  o <~ load a ;;
  match unwrap o with Some es => ret es | None => throw end.

(** [a[i]] and [a[i] = v]. *)
Definition get (a i : nat) : St E :=
  es <~ elements a ;;
  match nth_error es i with
  | Some e => ret e
  | None => match missing with Some d => ret d | None => throw end
  end.
Definition put (a i : nat) (v : E) : St unit :=
  es <~ elements a ;; store a (wrap (JS.aset i v es)).

(** [M[i]], [M[i][j]] and [M[i][j] = v]. *)
Definition row (M i : nat) : St nat :=
  rs <~ refs M ;;
  match nth_error rs i with Some r => ret r | None => throw end.
Definition entry (M i j : nat) : St E := r <~ row M i ;; get r j.
Definition set_entry (M i j : nat) (v : E) : St unit :=
  r <~ row M i ;; put r j v.

(** [[M[i], M[j]] = [M[j], M[i]]] and the same on [V]. *)
Definition swap_rows (M i j : nat) : St unit :=
  rs <~ refs M ;; store M (RefArray (JS.swap i j rs)).
Definition swap_elements (V i j : nat) : St unit :=
  es <~ elements V ;; store V (wrap (JS.swap i j es)).

(** Lines 82-89 (39-46). *)
Definition pivot (n i M : nat) : St (nat * R) :=
  mii <~ entry M i i ;;
  for_st (seq (S i) (n - S i))
    (fun '(maxRow, maxVal) k =>
       mki <~ entry M k i ;;
       if JS.gtb (mag mki) maxVal then ret (k, mag mki)
       else ret (maxRow, maxVal))
    (i, mag mii).

(** Lines 95-101 (52-58). *)
Definition eliminate (n i M V : nat) (_ : unit) (k : nat) : St unit :=
  mki <~ entry M k i ;;
  mii <~ entry M i i ;;
  let factor := div mki mii in
  vk <~ get V k ;;
  vi <~ get V i ;;
  _ <~ put V k (sub vk (mul factor vi)) ;;
  for_st (seq i (n - i))
    (fun _ j =>
       mkj <~ entry M k j ;;
       mij <~ entry M i j ;;
       set_entry M k j (sub mkj (mul factor mij)))
    tt.

(** Lines 81-102 (38-59). *)
Definition forward (n M V : nat) (_ : unit) (i : nat) : St unit :=
  '(maxRow, _) <~ pivot n i M ;;
  _ <~ swap_rows M i maxRow ;;
  _ <~ swap_elements V i maxRow ;;
  mii <~ entry M i i ;;
  if JS.ltb (mag mii) 1e-12 then ret tt
  else for_st (seq (S i) (n - S i)) (eliminate n i M V) tt.

(** Lines 104-111 (61-68). *)
Definition back (n M V x : nat) (_ : unit) (i : nat) : St unit :=
  mii <~ entry M i i ;;
  if JS.ltb (mag mii) 1e-12 then ret tt
  else
    sum <~ for_st (seq (S i) (n - S i))
             (fun sum j =>
                mij <~ entry M i j ;;
                xj <~ get x j ;;
                ret (add sum (mul mij xj)))
             zero ;;
    vi <~ get V i ;;
    put x i (div (sub vi sum) mii).

(** [row => [...row]]: a new array with the entries of [r]. *)
Definition copy_row (acc : list nat) (r : nat) : St (list nat) :=
  es <~ elements r ;;
  r' <~ alloc (wrap es) ;;
  ret (acc ++ [r']).

(** [solve(A, B)], lines 75-113 (32-70); the result is the reference
    of [x]. *)
Definition solve (A B : nat) : St nat :=
  rs <~ refs A ;;
  let n := List.length rs in
  x <~ alloc (wrap (repeat zero n)) ;;
  rs' <~ for_st rs copy_row [] ;;
  M <~ alloc (RefArray rs') ;;
  bs <~ elements B ;;
  V <~ alloc (wrap bs) ;;
  _ <~ for_st (seq 0 n) (forward n M V) tt ;;
  _ <~ for_st (rev (seq 0 n)) (back n M V x) tt ;;
  ret x.

(** A matrix built by a caller: its rows, then the array of rows. *)
Definition alloc_matrix (G : list (list E)) : St nat :=
  rs <~ for_st G (fun acc r => l <~ alloc (wrap r) ;; ret (acc ++ [l])) [] ;;
  alloc (RefArray rs).

End Solver.

Definition numbers (o : object) : option (list R) :=
  match o with NumArray l => Some l | _ => None end.
Definition complexes (o : object) : option (list Complex.t) :=
  match o with ComplexArray l => Some l | _ => None end.

Definition MatrixSolver_solve : nat -> nat -> St nat :=
  solve NumArray numbers (Some 0%R) Rabs Rdiv Rminus Rmult Rplus 0%R.
Definition ComplexMatrixSolver_solve : nat -> nat -> St nat :=
  solve ComplexArray complexes None Complex.magnitude Complex.div
        Complex.sub Complex.mul Complex.add Complex.zero.

(** *** The entry points

    The components and the wires are arrays of references to records.
    An entry point reads them, builds each system as the value-level
    engine does, hands it to the solver by reference and reads the
    solution back. *)

Definition components_of (l : nat) : St (list CircuitComponent) :=
  rs <~ refs l ;;
  for_st rs
    (fun acc r =>
       o <~ load r ;;
       match o with
       | ComponentRecord c => ret (acc ++ [c])
       | _ => throw
       end) [].

Definition wires_of (l : nat) : St (list Wire) :=
  rs <~ refs l ;;
  for_st rs
    (fun acc r =>
       o <~ load r ;;
       match o with
       | WireRecord w => ret (acc ++ [w])
       | _ => throw
       end) [].

(** [MatrixSolver.solve(G, I_rhs)] on a system built by the caller. *)
Definition solve_numbers (G : list (list R)) (I_rhs : list R)
  : St (list R) :=
  Gl <~ alloc_matrix NumArray G ;;
  Il <~ alloc (NumArray I_rhs) ;;
  xl <~ MatrixSolver_solve Gl Il ;;
  elements numbers xl.

Definition solve_complexes (G : list (list Complex.t))
           (I_rhs : list Complex.t) : St (list Complex.t) :=
  Gl <~ alloc_matrix ComplexArray G ;;
  Il <~ alloc (ComplexArray I_rhs) ;;
  xl <~ ComplexMatrixSolver_solve Gl Il ;;
  elements complexes xl.

(** The body of the [while] loop of solveCircuit; [None] is its
    [catch]. *)
Definition iterate (env : CircuitSolver.Env) (st : CircuitSolver.LoopState)
  : St (option CircuitSolver.LoopState) :=
  let gateTargets :=
    CircuitSolver.updateGateTargets env (CircuitSolver.currentVoltages st)
                                    (CircuitSolver.gateTargets st) in
  let '(G, I_rhs) :=
    CircuitSolver.assemble env (CircuitSolver.currentVoltages st)
                           gateTargets in
  sol <~ try (solve_numbers G I_rhs) ;;
  match sol with
  | None => ret None
  | Some finalX =>
      let '(maxDiff, currentVoltages) :=
        CircuitSolver.updateVoltages env finalX
                                     (CircuitSolver.currentVoltages st) in
      ret (Some
             {| CircuitSolver.iteration := S (CircuitSolver.iteration st);
                CircuitSolver.converged :=
                  if JS.ltb maxDiff 0.01 then true
                  else CircuitSolver.converged st;
                CircuitSolver.currentVoltages := currentVoltages;
                CircuitSolver.gateTargets := gateTargets;
                CircuitSolver.finalX := finalX |})
  end.

Fixpoint loop (env : CircuitSolver.Env) (remaining : nat)
         (st : CircuitSolver.LoopState)
  : St (option CircuitSolver.LoopState) :=
  match remaining with
  | O => ret (Some st)
  | S remaining' =>
      if CircuitSolver.converged st then ret (Some st)
      else
        st' <~ iterate env st ;;
        match st' with
        | Some st' => loop env remaining' st'
        | None => ret None
        end
  end.

Definition solveCircuit (components wires : nat) (frequency : R)
  : St SimulationResult :=
  cs <~ components_of components ;;
  ws <~ wires_of wires ;;
  let g := CircuitSolver.buildGraph cs ws in
  if negb (CircuitSolver.hasGround g)
  then ret (CircuitSolver.errorResult "No Ground (GND) found." frequency)
  else
    let env := CircuitSolver.graphEnv cs g in
    st <~ loop env CircuitSolver.maxIterations
              (CircuitSolver.initialState env) ;;
    match st with
    | Some st => ret (CircuitSolver.harvest env frequency st)
    | None => ret (CircuitSolver.errorResult "Singular matrix" frequency)
    end.

(** The [try] block of one frequency of the sweep. *)
Definition sweepPoint (env : CircuitSolver.Env) (freq : R)
  : St (option DataPoint) :=
  let omega := (2 * PI * freq)%R in
  let '(G, I_rhs) := CircuitSolver.assembleAC env omega in
  sol <~ try (solve_complexes G I_rhs) ;;
  match sol with
  | None => ret None
  | Some sol =>
      ret (ys <- for_each (seq 1 (CircuitSolver.env_numNodes env))
                   (fun ys n =>
                      s <- nth_error sol (CircuitSolver.getNodeIdx n) ;;
                      Some (ys ++ [JS.toPrecision4 (Complex.magnitude s)]))
                   [] ;;
           Some {| x := JS.toPrecision4 freq; traces := ys |})
  end.

Definition solveACSweep (components wires : nat) (config : SimulationConfig)
  : St SimulationResult :=
  cs <~ components_of components ;;
  ws <~ wires_of wires ;;
  let g := CircuitSolver.buildGraph cs ws in
  if Nat.eqb (CircuitSolver.numNodes g) 0
  then ret (CircuitSolver.emptyPlot AC_SWEEP)
  else
    let env := CircuitSolver.graphEnv cs g in
    plot <~ for_st (seq 0 (points config))
              (fun plotData i =>
                 p <~ sweepPoint env (CircuitSolver.sweepFrequency config i) ;;
                 match p with
                 | Some point => ret (plotData ++ [point])
                 | None => ret plotData
                 end) [] ;;
    ret {| nodes := []; nodeVoltages := []; componentCurrents := [];
           error := None; resultFrequency := 0;
           plotData := Some plot; mode := AC_SWEEP |}.

(** One time step of solveTransient. *)
Definition timeStepBody (env : CircuitSolver.Env) (config : SimulationConfig)
           (st : CircuitSolver.TransientState) (step : nat)
  : St CircuitSolver.TransientState :=
  if CircuitSolver.stopped st then ret st
  else
    let time := (INR step * CircuitSolver.dt config)%R in
    let '(G, I_rhs) :=
      CircuitSolver.assembleTR env config time
                               (CircuitSolver.prevVoltages st)
                               (CircuitSolver.inductorCurrents st) in
    sol <~ try (solve_numbers G I_rhs) ;;
    match sol with
    | Some sol =>
        let numNodes := CircuitSolver.env_numNodes env in
        let point :=
          {| x := JS.toPrecision4 time;
             traces := map (fun n => JS.toFixed4
                                       (JS.vget sol (CircuitSolver.getNodeIdx n)))
                           (seq 1 numNodes) |} in
        let volts := map (fun n => JS.vget sol (CircuitSolver.getNodeIdx n))
                         (seq 1 numNodes) in
        let prev := 0%R :: volts in
        ret {| CircuitSolver.tr_plotData :=
                 CircuitSolver.tr_plotData st ++ [point];
               CircuitSolver.prevVoltages := prev;
               CircuitSolver.inductorCurrents :=
                 fold_left (CircuitSolver.updateInductor env config prev)
                           (filter (fun c => ComponentType_eqb (type c) INDUCTOR)
                                   (CircuitSolver.env_components env))
                           (CircuitSolver.inductorCurrents st);
               CircuitSolver.finalVoltages := volts;
               CircuitSolver.stopped := false |}
    | None =>
        ret {| CircuitSolver.tr_plotData := CircuitSolver.tr_plotData st;
               CircuitSolver.prevVoltages := CircuitSolver.prevVoltages st;
               CircuitSolver.inductorCurrents :=
                 CircuitSolver.inductorCurrents st;
               CircuitSolver.finalVoltages := CircuitSolver.finalVoltages st;
               CircuitSolver.stopped := true |}
    end.

Definition solveTransient (components wires : nat) (config : SimulationConfig)
  : St SimulationResult :=
  cs <~ components_of components ;;
  ws <~ wires_of wires ;;
  let g := CircuitSolver.buildGraph cs ws in
  if Nat.eqb (CircuitSolver.numNodes g) 0
  then ret (CircuitSolver.emptyPlot TRANSIENT)
  else
    let env := CircuitSolver.graphEnv cs g in
    st <~ for_st (seq 0 (Z.to_nat (CircuitSolver.steps config + 1)))
            (timeStepBody env config)
            (CircuitSolver.initialTransient env) ;;
    ret (CircuitSolver.transientResult env st).

(** [h'] keeps [h]: every object of [h] is in [h'] at its place and as
    it was. *)
Definition keeps (h h' : heap) : Prop := exists new, h' = h ++ new.

(** A computation that changes no object that exists when it starts. *)
Definition frame_safe {A : Type} (c : St A) : Prop :=
  forall h, keeps h (fst (c h)).

End Store.

(* ------------------------------------------------------------------ *)
(** ** The editor ([App.tsx]): the state the engines are called on

    The component [App] keeps the circuit, the undo and redo stacks and
    the simulation state in React state variables.  A handler reads the
    values of the current render and queues updates; the next render
    sees all of them.  A handler is embedded as the function from the
    state of the current render to the state of the next one.  Only the
    state variables that the embedded handlers read or write are kept;
    the view (zoom and pan) is embedded apart, in [View].  [generateId()] draws a
    random identifier: the identifier drawn is an argument. *)

Module App.

Inductive SimState : Type := RUNNING | PAUSED | STOPPED.

(** [HistoryState]. *)
Definition HistoryState : Type := (list CircuitComponent * list Wire)%type.

Record State : Type := {
  components : list CircuitComponent;
  wires : list Wire;
  selectedId : option string;
  simulationResult : option SimulationResult;
  history : list HistoryState;
  future : list HistoryState;
  simConfig : SimulationConfig;
  simState : SimState
}.

(** Lines 67-70. *)
Definition saveHistory (s : State) : State :=
  {| components := components s;
     wires := wires s;
     selectedId := selectedId s;
     simulationResult := simulationResult s;
     history := history s ++ [(components s, wires s)];
     future := [];
     simConfig := simConfig s;
     simState := simState s |}.

(** Lines 72-83: [history[history.length - 1]] and
    [history.slice(0, -1)]. *)
Definition undo (s : State) : State :=
  match history s with
  | [] => s
  | h :: _ =>
      let previous := last (history s) h in
      let newHistory := removelast (history s) in
      {| components := fst previous;
         wires := snd previous;
         selectedId := None;
         simulationResult := simulationResult s;
         history := newHistory;
         future := (components s, wires s) :: future s;
         simConfig := simConfig s;
         simState := simState s |}
  end.

(** Lines 85-95. *)
Definition redo (s : State) : State :=
  match future s with
  | [] => s
  | next :: newFuture =>
      {| components := fst next;
         wires := snd next;
         selectedId := selectedId s;
         simulationResult := simulationResult s;
         history := history s ++ [(components s, wires s)];
         future := newFuture;
         simConfig := simConfig s;
         simState := simState s |}
  end.

(** [simConfig.mode === SimulationMode.INTERACTIVE && simState ===
    'PAUSED'], then [setSimState('RUNNING')]. *)
Definition resume (s : State) : SimState :=
  match configMode (simConfig s), simState s with
  | INTERACTIVE, PAUSED => RUNNING
  | _, st => st
  end.

Definition samePort (p q : Port) : bool :=
  String.eqb (componentId p) (componentId q)
  && Nat.eqb (portIndex p) (portIndex q).

(** Lines 241-244: a wire between the two ports, in either
    direction. *)
Definition connects (fromPort toPort : Port) (w : Wire) : bool :=
  (samePort (from w) fromPort && samePort (to w) toPort)
  || (samePort (to w) fromPort && samePort (from w) toPort).

(** Lines 238-257; [newId] is the value of [generateId()]. *)
Definition handleAddWire (newId : string) (fromPort toPort : Port)
           (s : State) : State :=
  if samePort fromPort toPort then s
  else if existsb (connects fromPort toPort) (wires s) then s
  else
    let s1 := saveHistory s in
    {| components := components s1;
       wires := wires s1 ++ [ {| wireId := newId; from := fromPort;
                                 to := toPort |} ];
       selectedId := selectedId s1;
       simulationResult := simulationResult s1;
       history := history s1;
       future := future s1;
       simConfig := simConfig s1;
       simState := resume s |}.

(** Lines 267-275. *)
Definition handleDelete (cid : string) (s : State) : State :=
  let s1 := saveHistory s in
  {| components :=
       filter (fun c => negb (String.eqb (id c) cid)) (components s1);
     wires :=
       filter (fun w =>
                 negb (String.eqb (wireId w) cid)
                 && negb (String.eqb (componentId (from w)) cid)
                 && negb (String.eqb (componentId (to w)) cid))
              (wires s1);
     selectedId :=
       match selectedId s with
       | Some sel => if String.eqb sel cid then None else Some sel
       | None => None
       end;
     simulationResult := simulationResult s1;
     history := history s1;
     future := future s1;
     simConfig := simConfig s1;
     simState := resume s |}.

(** Lines 334-358: the effect that runs the engines, with its timer
    fired: nothing is solved when the simulation is stopped or paused
    or the circuit is empty; the interactive mode solves the operating
    point with [startFreq] as frequency and keeps running; the two
    analyses run once and pause. *)
Definition simulate (s : State) : State :=
  let set := fun (r : option SimulationResult) (st : SimState) =>
    {| components := components s;
       wires := wires s;
       selectedId := selectedId s;
       simulationResult := r;
       history := history s;
       future := future s;
       simConfig := simConfig s;
       simState := st |} in
  match simState s with
  | STOPPED => set None STOPPED
  | PAUSED => s
  | RUNNING =>
      match components s with
      | [] => s
      | _ :: _ =>
          match configMode (simConfig s) with
          | INTERACTIVE =>
              set (Some (CircuitSolver.solveCircuit
                           (components s) (wires s)
                           (startFreq (simConfig s)))) RUNNING
          | TRANSIENT =>
              set (Some (CircuitSolver.solveTransient
                           (components s) (wires s) (simConfig s))) PAUSED
          | AC_SWEEP =>
              set (Some (CircuitSolver.solveACSweep
                           (components s) (wires s) (simConfig s))) PAUSED
          end
      end
  end.

End App.

(* ------------------------------------------------------------------ *)
(** ** The view ([App.tsx] and the canvas): zoom and pan

    [viewState] holds the zoom factor and the pan offset.  The toolbar
    buttons and "fit to view" of [App.tsx] and the wheel, pinch and
    drag handlers of the canvas update it.  What a handler reads from
    the browser (the size of the canvas container, the wheel delta, the
    distance of two fingers, the pointer movement) is an argument.
    [fitViewToComponents] reads nothing of a component but its
    position, so it is given the positions.  Its four running bounds
    start at plus and minus [Infinity] and become finite together with
    the first component: [None] stands for the start. *)

Module View.

Open Scope R_scope.

Record Position : Type := { x : R; y : R }.

Record ViewState : Type := { zoom : R; pan : Position }.

(** [constants.ts], lines 6-7. *)
Definition COMPONENT_WIDTH : R := 80.
Definition COMPONENT_HEIGHT : R := 40.

(** Line 28 of [App.tsx], and the reset of lines 99 and 118. *)
Definition initial : ViewState :=
  {| zoom := 1; pan := {| x := 0; y := 0 |} |}.

(** [Math.sign]. *)
Definition Math_sign (a : R) : R :=
  if Rlt_dec 0 a then 1 else if Rlt_dec a 0 then - 1 else 0.

(** Lines 108-115: the bounds after one more component. *)
Definition extend (box : option (R * R * R * R)) (c : Position)
  : option (R * R * R * R) :=
  match box with
  | None =>
      Some (x c, y c, x c + COMPONENT_WIDTH, y c + COMPONENT_HEIGHT)
  | Some (minX, minY, maxX, maxY) =>
      Some (Rmin minX (x c), Rmin minY (y c),
            Rmax maxX (x c + COMPONENT_WIDTH),
            Rmax maxY (y c + COMPONENT_HEIGHT))
  end.

(** Lines 97-140; [rect] is the size of the canvas container, [None]
    when the reference is not set. *)
Definition fitViewToComponents (rect : option (R * R))
           (comps : list Position) : ViewState :=
  match rect, comps with
  | None, _ => initial
  | _, [] => initial
  | Some (viewW, viewH), _ =>
      let padding := 60 in
      match fold_left extend comps None with
      | None => initial
      | Some (minX, minY, maxX, maxY) =>
          let contentW := maxX - minX in
          let contentH := maxY - minY in
          let zoomX := (viewW - padding * 2) / contentW in
          let zoomY := (viewH - padding * 2) / contentH in
          let targetZoom := Rmin zoomX zoomY in
          let targetZoom := Rmin targetZoom 1.2 in
          let targetZoom := Rmax targetZoom 0.1 in
          let contentCenterX := minX + contentW / 2 in
          let contentCenterY := minY + contentH / 2 in
          let panX := viewW / 2 - contentCenterX * targetZoom in
          let panY := viewH / 2 - contentCenterY * targetZoom in
          {| zoom := targetZoom; pan := {| x := panX; y := panY |} |}
      end
  end.

(** Lines 141-142. *)
Definition handleZoomIn (prev : ViewState) : ViewState :=
  {| zoom := Rmin (zoom prev * 1.2) 5; pan := pan prev |}.
Definition handleZoomOut (prev : ViewState) : ViewState :=
  {| zoom := Rmax (zoom prev / 1.2) 0.1; pan := pan prev |}.

(** The canvas, lines 735-757: two fingers at distance [dist], after
    [lastTouchDistance]. *)
Definition handleTouchMove (dist : R) (lastTouchDistance : option R)
           (prev : ViewState) : ViewState :=
  match lastTouchDistance with
  | Some last =>
      let delta := dist - last in
      let zoomFactor := delta * 0.005 in
      let newZoom := zoom prev + zoomFactor in
      let newZoom := Rmax 0.1 (Rmin newZoom 5) in
      {| zoom := newZoom; pan := pan prev |}
  | None => prev
  end.

(** The canvas, lines 785-788: panning by the pointer movement. *)
Definition handlePan (dx dy : R) (prev : ViewState) : ViewState :=
  {| zoom := zoom prev;
     pan := {| x := x (pan prev) + dx; y := y (pan prev) + dy |} |}.

(** The canvas, lines 812-826. *)
Definition handleWheel (deltaY : R) (viewState : ViewState) : ViewState :=
  let scaleFactor := 1.05 in
  let delta := - Math_sign deltaY in
  let newZoom := zoom viewState in
  let newZoom :=
    if JS.gtb delta 0 then newZoom * scaleFactor
    else newZoom / scaleFactor in
  let newZoom := Rmax 0.1 (Rmin newZoom 5) in
  {| zoom := newZoom; pan := pan viewState |}.

End View.

(* ================================================================== *)
(** * Specification vocabulary *)

(** Two port keys are linked when a chain of wires joins them. *)
Inductive linked (wires : list Wire) (a : string) : string -> Prop :=
| linked_refl : linked wires a a
| linked_fwd : forall w,
    In w wires -> linked wires a (CircuitSolver.pk (from w)) ->
    linked wires a (CircuitSolver.pk (to w))
| linked_bwd : forall w,
    In w wires -> linked wires a (CircuitSolver.pk (to w)) ->
    linked wires a (CircuitSolver.pk (from w)).

(** Reachability along the adjacency lists. *)
Inductive reach (adj : list (string * list string)) (a : string)
  : string -> Prop :=
| reach_refl : reach adj a a
| reach_step : forall b c,
    reach adj a b -> In c (CircuitSolver.neighborsOf adj b) ->
    reach adj a c.

(** The number of ports of a component, by kind: one for GROUND, three
    for OPAMP, [inputCount] inputs and one output for the multi-input
    gates, two for every other kind. *)
Definition portCount (c : CircuitComponent) : nat :=
  match type c with
  | GROUND => 1
  | OPAMP => 3
  | AND_GATE | OR_GATE | NAND_GATE | NOR_GATE | XOR_GATE =>
      S (CircuitSolver.inputCount_or_2 c)
  | _ => 2
  end.

(** A string without a colon. *)
Fixpoint colon_free (s : string) : bool :=
  match s with
  | EmptyString => true
  | String ch rest => negb (Ascii.eqb ch ":"%char) && colon_free rest
  end.

(** A circuit description is well formed when component identifiers are
    unique and colon-free and every wire ends on existing components. *)
Definition well_formed (components : list CircuitComponent)
           (wires : list Wire) : Prop :=
  NoDup (map id components)
  /\ (forall c, In c components -> colon_free (id c) = true)
  /\ (forall w, In w wires ->
                In (componentId (from w)) (map id components)
                /\ In (componentId (to w)) (map id components)).

(** The invariant of one breadth-first search started at [start] with
    [visited0] already visited: [group] holds the dequeued ports. *)
Definition bfs_inv (components : list CircuitComponent)
           (adj : list (string * list string)) (visited0 : list string)
           (start : string) (queue visited group : list string)
           (isGround : bool) : Prop :=
  (forall y, In y visited <-> In y visited0 \/ In y group \/ In y queue)
  /\ (forall d n, In d group ->
                  In n (CircuitSolver.neighborsOf adj d) -> In n visited)
  /\ (forall y, In y (group ++ queue) -> reach adj start y)
  /\ NoDup (group ++ queue)
  /\ (forall y, In y (group ++ queue) ->
                ~ In y visited0 /\ In y (JMap.keys adj))
  /\ isGround = existsb (CircuitSolver.isGroundPort components) group.

(** The invariant of the loop over [adj.keys()]: the visited ports are
    closed under adjacency, exactly they have a node, ports of one
    group share their node, node 0 marks the groups with a ground
    port, and a positive node belongs to one group only. *)
Definition graph_inv (components : list CircuitComponent)
           (adj : list (string * list string))
           (st : list (string * nat) * nat * list string) : Prop :=
  let '(p2n, nodeCount, visited) := st in
  (forall v n, In v visited ->
               In n (CircuitSolver.neighborsOf adj v) -> In n visited)
  /\ (forall k, In k visited <-> sget k p2n <> None)
  /\ (forall a b, In a visited -> reach adj a b -> sget a p2n = sget b p2n)
  /\ (forall a, sget a p2n = Some 0%nat <->
                In a visited
                /\ exists b, reach adj a b
                             /\ CircuitSolver.isGroundPort components b = true)
  /\ (forall a b n, sget a p2n = Some n -> sget b p2n = Some n ->
                    n <> 0%nat -> reach adj a b)
  /\ (1 <= nodeCount)%nat
  /\ (forall a n, sget a p2n = Some n -> (n < nodeCount)%nat)
  /\ (forall v, In v visited -> In v (JMap.keys adj))
  /\ NoDup (JMap.keys p2n).

(** Some wire of [wires] joins the port keys [a] and [b]. *)
Definition wire_edge (wires : list Wire) (a b : string) : Prop :=
  exists w, In w wires
            /\ ((CircuitSolver.pk (from w) = a /\ CircuitSolver.pk (to w) = b)
                \/ (CircuitSolver.pk (to w) = a
                    /\ CircuitSolver.pk (from w) = b)).

(** A matrix with [n] rows of [n] entries each. *)
Definition square {A : Type} (n : nat) (M : list (list A)) : Prop :=
  List.length M = n /\ Forall (fun row => List.length row = n) M.

(** The row of node [n] is row [n - 1]; ground has no row. *)
Definition at_node (n : nat) (r : nat) : bool :=
  negb (Nat.eqb n 0) && Nat.eqb r (n - 1).

(** The pattern of an admittance between nodes [n1] and [n2]: +1 at
    [(n1, n1)] and [(n2, n2)], -1 at [(n1, n2)] and [(n2, n1)], with the
    contributions of ground dropped. *)
Definition conductance_coeff (n1 n2 : nat) (r c : nat) : R :=
  ((if at_node n1 r && at_node n1 c then 1 else 0)
   + (if at_node n2 r && at_node n2 c then 1 else 0)
   - (if at_node n1 r && at_node n2 c then 1 else 0)
   - (if at_node n2 r && at_node n1 c then 1 else 0))%R.

(** The pattern of a current source from [n2] to [n1]: +1 at [n1], -1 at
    [n2]. *)
Definition current_coeff (n1 n2 : nat) (r : nat) : R :=
  ((if at_node n1 r then 1 else 0) - (if at_node n2 r then 1 else 0))%R.

(** A stamp leaves every extra row other than [idx] as it was: the rows
    from [numNodes] on hold the extra equations. *)
Definition extra_rows_kept (numNodes idx : nat)
           (GI GI' : list (list R) * list R) : Prop :=
  forall r, (numNodes <= r)%nat -> r <> idx ->
            nth r (fst GI') [] = nth r (fst GI) []
            /\ JS.vget (snd GI') r = JS.vget (snd GI) r.

(** The right-hand side of the extra equation of an op-amp and of a
    gate, as lines 368-391 and 407 compute them. *)
Definition opampRhs (env : CircuitSolver.Env) (cv : list (nat * R))
           (op : CircuitComponent) : R :=
  let nPos := sget (CircuitSolver.portKey (id op) 0)
                   (CircuitSolver.env_portToNode env) in
  let nNeg := sget (CircuitSolver.portKey (id op) 1)
                   (CircuitSolver.env_portToNode env) in
  let targetV := (CircuitSolver.opampGain op
                  * (CircuitSolver.opampInputV cv nPos
                     - CircuitSolver.opampInputV cv nNeg))%R in
  if snd (CircuitSolver.clamp targetV)
  then fst (CircuitSolver.clamp targetV) else 0%R.

Definition gateRhs (gateTargets : list (string * R)) (g : CircuitComponent)
  : R :=
  match sget (id g) gateTargets with
  | Some t => JS.num_or t 0
  | None => 0%R
  end.



(** Lines 384-392 seen from the extra row of the op-amp: what the stamp
    makes of that row. *)
Definition opampRowUpdate (env : CircuitSolver.Env) (cv : list (nat * R))
           (op : CircuitComponent) (row : list R) : list R :=
  let p2n := CircuitSolver.env_portToNode env in
  let nPos := sget (CircuitSolver.portKey (id op) 0) p2n in
  let nNeg := sget (CircuitSolver.portKey (id op) 1) p2n in
  let nOut := sget (CircuitSolver.portKey (id op) 2) p2n in
  let Gain := CircuitSolver.opampGain op in
  let targetV := (Gain * (CircuitSolver.opampInputV cv nPos
                          - CircuitSolver.opampInputV cv nNeg))%R in
  let assign := fun (n : option nat) (v : R) (row : list R) =>
                  match CircuitSolver.isNode n with
                  | Some m => JS.vset (CircuitSolver.getNodeIdx m) v row
                  | None => row
                  end in
  if snd (CircuitSolver.clamp targetV) then assign nOut 1%R row
  else assign nNeg Gain (assign nPos (- Gain)%R (assign nOut 1%R row)).

(** Column [c] is the column of the node of port [n]. *)
Definition column_of (n : option nat) (c : nat) : bool :=
  match CircuitSolver.isNode n with
  | Some m => Nat.eqb c (CircuitSolver.getNodeIdx m)
  | None => false
  end.

(** The coefficients of [V(out) - gain*V(+) + gain*V(-)] over the node
    columns, ground dropped. *)
Definition relation_coeff (nOut nPos nNeg : option nat) (gain : R)
           (c : nat) : R :=
  ((if column_of nOut c then 1 else 0)
   - gain * (if column_of nPos c then 1 else 0)
   + gain * (if column_of nNeg c then 1 else 0))%R.

(** ** Example circuits *)

(** A component with only the mandatory fields. *)
Definition component (i : string) (t : ComponentType) (v : R)
  : CircuitComponent :=
  {| id := i; type := t; value := v; frequency := None; waveform := None;
     dcBias := None; dutyCycle := None; inputImpedance := None;
     inputCount := None |}.

Definition wire (a : string) (i : nat) (b : string) (j : nat) : Wire :=
  {| wireId := "w";
     from := {| componentId := a; portIndex := i |};
     to := {| componentId := b; portIndex := j |} |}.

(** A 10 V source across a 100 Ohm resistor, negative terminal
    grounded. *)
Definition ohm_components : list CircuitComponent :=
  [component "g" GROUND 0; component "v" VOLTAGE_SOURCE 10;
   component "r" RESISTOR 100].
Definition ohm_wires : list Wire :=
  [wire "v" 1 "g" 0; wire "v" 0 "r" 0; wire "r" 1 "g" 0].

(** A ground symbol whose identifier contains a colon. *)
Definition colon_ground : CircuitComponent := component "g:x" GROUND 0.

(** A lone resistor: no ground, two floating nodes. *)
Definition lone_resistor : list CircuitComponent :=
  [component "r" RESISTOR 100].

(** Two points per decade from 1 Hz to 10 Hz; two time steps of 1 s. *)
Definition short_config : SimulationConfig :=
  {| configMode := AC_SWEEP; timeStep := 1; stopTime := 1;
     startFreq := 1; stopFreq := 10; points := 2 |}.



(** A diode in series with a resistor across a 5 V source. *)
Definition diode_components : list CircuitComponent :=
  [component "g" GROUND 0; component "v" VOLTAGE_SOURCE 5;
   component "d" DIODE 0; component "r" RESISTOR 1000].
Definition diode_wires : list Wire :=
  [wire "v" 1 "g" 0; wire "v" 0 "d" 0; wire "d" 1 "r" 0; wire "r" 1 "g" 0].

(** A voltage follower: the output of the op-amp is wired to its
    inverting input. *)
Definition follower_components : list CircuitComponent :=
  [component "g" GROUND 0; component "v" VOLTAGE_SOURCE 1;
   component "op" OPAMP 0].
Definition follower_wires : list Wire :=
  [wire "v" 1 "g" 0; wire "v" 0 "op" 0; wire "op" 1 "op" 2].

(** An AC source whose waveform is not one of the five names of the
    [Waveform] type, grounded at its negative terminal. *)
Definition noise_source : CircuitComponent :=
  {| id := "s"; type := AC_SOURCE; value := 1; frequency := None;
     waveform := Some "NOISE"%string; dcBias := None; dutyCycle := None;
     inputImpedance := None; inputCount := None |}.
Definition noise_components : list CircuitComponent :=
  [component "g" GROUND 0; noise_source].
Definition noise_wires : list Wire := [wire "s" 1 "g" 0].


(** A 1 V AC source with no waveform field, grounded at its negative
    terminal. *)
Definition sine_components : list CircuitComponent :=
  [component "g" GROUND 0; component "a" AC_SOURCE 1].
Definition sine_wires : list Wire := [wire "a" 1 "g" 0].

(** ** The elimination on values, over any entries

    The statements that [MatrixSolver.solve] and
    [ComplexMatrixSolver.solve] share, with the reading of a missing
    entry as the one difference: the form in which the two are compared
    with their runs on the store. *)

Module Elimination.

Section WithEntries.

Variable E : Type.
Variable missing : option E.
Variable mag : E -> R.
Variables div sub mul add : E -> E -> E.
Variable zero : E.

Definition read (l : list E) (i : nat) : option E :=
  match nth_error l i with
  | Some e => Some e
  | None => missing
  end.

Definition entry (M : list (list E)) (i j : nat) : option E :=
  row <- nth_error M i ;; read row j.

Definition set_entry (i j : nat) (v : E) (M : list (list E))
  : list (list E) :=
  match nth_error M i with
  | Some row => JS.aset i (JS.aset j v row) M
  | None => M
  end.

Definition pivot (n i : nat) (M : list (list E)) : option (nat * R) :=
  mii <- entry M i i ;;
  for_each (seq (S i) (n - S i))
    (fun '(maxRow, maxVal) k =>
       mki <- entry M k i ;;
       if JS.gtb (mag mki) maxVal
       then Some (k, mag mki)
       else Some (maxRow, maxVal))
    (i, mag mii).

Definition eliminate (n i : nat) (st : list (list E) * list E) (k : nat)
  : option (list (list E) * list E) :=
  let '(M, V) := st in
  mki <- entry M k i ;;
  mii <- entry M i i ;;
  let factor := div mki mii in
  vk <- read V k ;;
  vi <- read V i ;;
  let V := JS.aset k (sub vk (mul factor vi)) V in
  M <- for_each (seq i (n - i))
         (fun M j =>
            mkj <- entry M k j ;;
            mij <- entry M i j ;;
            Some (set_entry k j (sub mkj (mul factor mij)) M))
         M ;;
  Some (M, V).

Definition forward (n : nat) (st : list (list E) * list E) (i : nat)
  : option (list (list E) * list E) :=
  let '(M, V) := st in
  '(maxRow, _) <- pivot n i M ;;
  let M := JS.swap i maxRow M in
  let V := JS.swap i maxRow V in
  mii <- entry M i i ;;
  if JS.ltb (mag mii) 1e-12 then Some (M, V)
  else for_each (seq (S i) (n - S i)) (eliminate n i) (M, V).

Definition back (n : nat) (M : list (list E)) (V : list E) (x : list E)
           (i : nat) : option (list E) :=
  mii <- entry M i i ;;
  if JS.ltb (mag mii) 1e-12 then Some x
  else
    sum <- for_each (seq (S i) (n - S i))
             (fun sum j =>
                mij <- entry M i j ;;
                xj <- read x j ;;
                Some (add sum (mul mij xj)))
             zero ;;
    vi <- read V i ;;
    Some (JS.aset i (div (sub vi sum) mii) x).

Definition solve (A : list (list E)) (B : list E) : option (list E) :=
  let n := List.length A in
  let x := repeat zero n in
  '(M, V) <- for_each (seq 0 n) (forward n) (A, B) ;;
  for_each (rev (seq 0 n)) (back n M V) x.

End WithEntries.

End Elimination.

(** ** The store: what it holds *)

Section Holds.

Variable E : Type.
Variable wrap : list E -> Store.object.

(** The references [rs] lead to arrays with the entries of the rows
    [Mv], one by one. *)
Definition holds_rows (h : Store.heap) (rs : list nat)
           (Mv : list (list E)) : Prop :=
  Forall2 (fun r row => nth_error h r = Some (wrap row)) rs Mv.

Definition holds_matrix (h : Store.heap) (A : nat) (Av : list (list E))
  : Prop :=
  exists rs, nth_error h A = Some (Store.RefArray rs) /\ holds_rows h rs Av.

(** The working state of a solve: [M] with rows [Mv], no two of them
    the same array and none of them [M], [V] or [x]; [V] with entries
    [Vv]; [x] with entries [xv]. *)
Definition represents (M V x : nat) (h : Store.heap)
           (Mv : list (list E)) (Vv xv : list E) : Prop :=
  (exists rs, nth_error h M = Some (Store.RefArray rs) /\
              NoDup rs /\ ~ In M rs /\ ~ In V rs /\ ~ In x rs /\
              holds_rows h rs Mv) /\
  nth_error h V = Some (wrap Vv) /\
  nth_error h x = Some (wrap xv) /\
  V <> M /\ x <> M /\ x <> V.

End Holds.

(** The outcome [r] of a run that writes, against the outcome [p] of
    the same statements on values: both throw, or both return and [I]
    relates the value to the new heap. *)
Definition result {T : Type} (I : T -> Store.heap -> Prop)
           (r : Store.heap * option unit) (p : option T) : Prop :=
  match p with
  | Some t => I t (fst r) /\ snd r = Some tt
  | None => snd r = None
  end.

(** [c] returns [v] on every heap. *)
Definition returns {A : Type} (c : Store.St A) (v : A) : Prop :=
  forall h, snd (c h) = Some v.

Definition holds_components (h : Store.heap) (l : nat)
           (cs : list CircuitComponent) : Prop :=
  exists rs, nth_error h l = Some (Store.RefArray rs) /\
             Forall2 (fun r c => nth_error h r = Some (Store.ComponentRecord c))
                     rs cs.

Definition holds_wires (h : Store.heap) (l : nat) (ws : list Wire) : Prop :=
  exists rs, nth_error h l = Some (Store.RefArray rs) /\
             Forall2 (fun r w => nth_error h r = Some (Store.WireRecord w))
                     rs ws.

(** ** The store: what a run keeps *)

(** [c] keeps [P] true, whether it returns or throws. *)
Definition preserves {A : Type} (P : Store.heap -> Prop) (c : Store.St A)
  : Prop :=
  forall h, P h -> P (fst (c h)).

(** The state of a solve that started on [h0]: the objects of [h0] are
    as they were, and [M], its rows, [V] and [x] are objects made since;
    [M] is not one of its own rows. *)
Definition working_copy (h0 : Store.heap) (M V x : nat) (h : Store.heap)
  : Prop :=
  Store.keeps h0 h /\
  (List.length h0 <= V)%nat /\ V <> M /\
  (List.length h0 <= x)%nat /\ x <> M /\
  (List.length h0 <= M)%nat /\
  exists rs, nth_error h M = Some (Store.RefArray rs) /\
             Forall (fun r => (List.length h0 <= r < M)%nat) rs.

(** Every object of [h] is in [h'], at its reference and with its
    contents. *)
Definition unchanged (h h' : Store.heap) : Prop :=
  forall l o, nth_error h l = Some o -> nth_error h' l = Some o.

(** ** Vocabulary of the further properties *)

(** The high level of a gate: [g.value > 0 ? g.value : 5] (line 236). *)
Definition logicHigh (g : CircuitComponent) : R :=
  if JS.gtb (value g) 0 then value g else 5%R.

(** The component [{ ...g, type: t }]. *)
Definition retype (g : CircuitComponent) (t : ComponentType)
  : CircuitComponent :=
  {| id := id g; type := t; value := value g; frequency := frequency g;
     waveform := waveform g; dcBias := dcBias g; dutyCycle := dutyCycle g;
     inputImpedance := inputImpedance g; inputCount := inputCount g |}.


(** A square matrix equal to its transpose. *)
Definition symmetric (n : nat) (M : list (list R)) : Prop :=
  square n M /\ forall r c, JS.mget M r c = JS.mget M c r.

(** The voltage that a result reports for node [n]:
    [result.nodeVoltages.get(n).magnitude]. *)
Definition nodeVoltage (r : SimulationResult) (n : nat) : R :=
  match nget n (nodeVoltages r) with
  | Some (magnitude, _) => magnitude
  | None => 0%R
  end.

(** No wire of the list joins a port to itself, and no two wires join
    the same two ports, in either direction. *)
Definition simple_wires (ws : list Wire) : Prop :=
  forall l1 w l2,
    ws = l1 ++ w :: l2 ->
    App.samePort (from w) (to w) = false
    /\ existsb (App.connects (from w) (to w)) l1 = false.

(** The circuit of an editor state: what undo and redo save and
    restore. *)
Definition circuit (s : App.State) : App.HistoryState :=
  (App.components s, App.wires s).

(** The product of a row with a vector, and what it is for [x] to
    solve the linear system of matrix [A] and right-hand side [B]. *)
Section LinearSystem.

Variable E : Type.
Variables add mul : E -> E -> E.
Variable zero : E.

Fixpoint dot (row x : list E) : E :=
  match row, x with
  | a :: row', b :: x' => add (mul a b) (dot row' x')
  | _, _ => zero
  end.

Definition solves (A : list (list E)) (x B : list E) : Prop :=
  map (fun row => dot row x) A = B.

End LinearSystem.

(** Where row [r] sits once the rows [i] and [k] have changed places. *)
Definition exchange (i k r : nat) : nat :=
  if Nat.eqb r k then i else if Nat.eqb r i then k else r.

(** What can happen to the view, and the view after a sequence of
    such events. *)
Inductive ViewEvent : Type :=
| ZoomIn
| ZoomOut
| ResetView (rect : option (R * R)) (comps : list View.Position)
| TouchMove (dist : R) (lastTouchDistance : option R)
| Pan (dx dy : R)
| Wheel (deltaY : R).

Definition view_after (v : View.ViewState) (e : ViewEvent) : View.ViewState :=
  match e with
  | ZoomIn => View.handleZoomIn v
  | ZoomOut => View.handleZoomOut v
  | ResetView rect comps => View.fitViewToComponents rect comps
  | TouchMove dist last => View.handleTouchMove dist last v
  | Pan dx dy => View.handlePan dx dy v
  | Wheel deltaY => View.handleWheel deltaY v
  end.

(** The smallest box around the components drawn at the positions
    [comps]. *)
Definition bounding_box (comps : list View.Position)
           (minX minY maxX maxY : R) : Prop :=
  (forall c, In c comps ->
     (minX <= View.x c /\ View.x c + View.COMPONENT_WIDTH <= maxX
      /\ minY <= View.y c /\ View.y c + View.COMPONENT_HEIGHT <= maxY)%R)
  /\ (exists c, In c comps /\ View.x c = minX)
  /\ (exists c, In c comps /\ View.y c = minY)
  /\ (exists c, In c comps /\ (View.x c + View.COMPONENT_WIDTH)%R = maxX)
  /\ (exists c, In c comps /\ (View.y c + View.COMPONENT_HEIGHT)%R = maxY).

(* ================================================================== *)
(** * Properties *)

Import CircuitSolver.

(* ------------------------------------------------------------------ *)
(** ** Arrays and maps *)

Lemma aset_length {A} (i : nat) (v : A) (l : list A) :
  List.length (JS.aset i v l) = List.length l.
Proof.
  revert i; induction l as [|y l IH]; intros [|i]; simpl; auto.
Qed.

Lemma nth_error_aset_same {A} (i : nat) (v : A) (l : list A) :
  (i < List.length l)%nat -> nth_error (JS.aset i v l) i = Some v.
Proof.
  revert i; induction l as [|y l IH]; intros [|i] H; simpl in *;
    try lia; auto.
  apply IH; lia.
Qed.

Lemma nth_error_aset_other {A} (i j : nat) (v : A) (l : list A) :
  i <> j -> nth_error (JS.aset i v l) j = nth_error l j.
Proof.
  revert i j; induction l as [|y l IH]; intros [|i] [|j] H; simpl;
    auto; try congruence.
Qed.

Lemma nth_aset_same {A} (d : A) (i : nat) (v : A) (l : list A) :
  (i < List.length l)%nat -> nth i (JS.aset i v l) d = v.
Proof.
  revert i; induction l as [|y l IH]; intros [|i] H; simpl in *;
    try lia; auto.
  apply IH; lia.
Qed.

Lemma nth_aset_other {A} (d : A) (i j : nat) (v : A) (l : list A) :
  i <> j -> nth j (JS.aset i v l) d = nth j l d.
Proof.
  revert i j; induction l as [|y l IH]; intros [|i] [|j] H; simpl;
    auto; try congruence.
Qed.

Lemma swap_length {A} (i j : nat) (l : list A) :
  List.length (JS.swap i j l) = List.length l.
Proof.
  unfold JS.swap.
  destruct (nth_error l i), (nth_error l j); auto.
  now rewrite !aset_length.
Qed.

Section MapFacts.

Variable K : Type.
Variable eqb : K -> K -> bool.
Hypothesis eqb_eq : forall a b, eqb a b = true <-> a = b.
Variable V : Type.

Local Abbreviation get := (JMap.get eqb).
Local Abbreviation set := (JMap.set eqb).

Lemma eqb_refl_K (a : K) : eqb a a = true.
Proof. now apply eqb_eq. Qed.

Lemma eqb_neq_K (a b : K) : a <> b -> eqb a b = false.
Proof.
  intro H. destruct (eqb a b) eqn:E; auto.
  apply eqb_eq in E. contradiction.
Qed.

Lemma get_set_same (k : K) (v : V) (m : list (K * V)) :
  get k (set k v m) = Some v.
Proof.
  induction m as [|[k' v'] m IH]; simpl.
  - now rewrite eqb_refl_K.
  - destruct (eqb k k') eqn:E; simpl.
    + now rewrite eqb_refl_K.
    + now rewrite E.
Qed.

Lemma get_set_other (k k' : K) (v : V) (m : list (K * V)) :
  k <> k' -> get k (set k' v m) = get k m.
Proof.
  intro H. induction m as [|[k2 v2] m IH]; simpl.
  - now rewrite eqb_neq_K.
  - destruct (eqb k' k2) eqn:E; simpl.
    + apply eqb_eq in E; subst k2. now rewrite eqb_neq_K.
    + destruct (eqb k k2); auto.
Qed.

Lemma get_set (k k' : K) (v : V) (m : list (K * V)) :
  get k (set k' v m) = if eqb k k' then Some v else get k m.
Proof.
  destruct (eqb k k') eqn:E.
  - apply eqb_eq in E; subst. apply get_set_same.
  - apply get_set_other. intro; subst. now rewrite eqb_refl_K in E.
Qed.

Lemma get_In_keys (k : K) (m : list (K * V)) :
  In k (JMap.keys m) <-> get k m <> None.
Proof.
  induction m as [|[k' v'] m IH]; simpl.
  - split; [tauto | congruence].
  - destruct (eqb k k') eqn:E.
    + apply eqb_eq in E; subst. split; [congruence | auto].
    + rewrite <- IH. split; [intros [->|]; auto | auto].
      now rewrite eqb_refl_K in E.
Qed.

Lemma get_Some_In (k : K) (v : V) (m : list (K * V)) :
  get k m = Some v -> In (k, v) m.
Proof.
  induction m as [|[k' v'] m IH]; simpl; [congruence|].
  destruct (eqb k k') eqn:E.
  - apply eqb_eq in E; subst. intros [= ->]. now left.
  - intro H. right. auto.
Qed.

Lemma In_values_get (v : V) (m : list (K * V)) :
  NoDup (JMap.keys m) ->
  In v (JMap.values m) -> exists k, get k m = Some v.
Proof.
  induction m as [|[k' v'] m IH]; simpl; [tauto|].
  intros Hnd [->|Hin].
  - exists k'. now rewrite eqb_refl_K.
  - inversion Hnd; subst. destruct (IH H2 Hin) as [k Hk].
    exists k. destruct (eqb k k') eqn:E; auto.
    apply eqb_eq in E; subst.
    exfalso. apply H1. apply get_In_keys. congruence.
Qed.

Lemma get_Some_In_values (k : K) (v : V) (m : list (K * V)) :
  get k m = Some v -> In v (JMap.values m).
Proof.
  intro H. apply get_Some_In in H.
  unfold JMap.values. now apply (in_map snd) in H.
Qed.

Lemma keys_set (k : K) (v : V) (m : list (K * V)) :
  JMap.keys (set k v m)
  = if JMap.has eqb k m then JMap.keys m else JMap.keys m ++ [k].
Proof.
  unfold JMap.has.
  induction m as [|[k' v'] m IH]; simpl; auto.
  destruct (eqb k k') eqn:E; simpl.
  - apply eqb_eq in E; subst. reflexivity.
  - rewrite IH. now destruct (get k m).
Qed.

Lemma In_keys_set (a k : K) (v : V) (m : list (K * V)) :
  In a (JMap.keys (set k v m)) <-> a = k \/ In a (JMap.keys m).
Proof.
  rewrite !get_In_keys, get_set.
  destruct (eqb a k) eqn:E.
  - apply eqb_eq in E. split; [auto | congruence].
  - split; [auto | intros [->|]; auto].
    now rewrite eqb_refl_K in E.
Qed.

Lemma NoDup_keys_set (k : K) (v : V) (m : list (K * V)) :
  NoDup (JMap.keys m) -> NoDup (JMap.keys (set k v m)).
Proof.
  intro H. rewrite keys_set. unfold JMap.has.
  destruct (get k m) eqn:E; auto.
  apply NoDup_app; auto.
  - repeat constructor. simpl; tauto.
  - intros a Ha [->|[]]. apply get_In_keys in Ha. congruence.
Qed.

End MapFacts.

(** ** String- and number-keyed maps *)

Lemma sget_sset {V} (k k' : string) (v : V) m :
  sget k (sset k' v m) = if String.eqb k k' then Some v else sget k m.
Proof. apply get_set, String.eqb_eq. Qed.

Lemma nget_nset {V} (k k' : nat) (v : V) m :
  nget k (nset k' v m) = if Nat.eqb k k' then Some v else nget k m.
Proof. apply get_set, Nat.eqb_eq. Qed.

Lemma sget_In_keys {V} (k : string) (m : list (string * V)) :
  In k (JMap.keys m) <-> sget k m <> None.
Proof. apply get_In_keys, String.eqb_eq. Qed.

Lemma set_has_In (k : string) (s : list string) :
  set_has k s = true <-> In k s.
Proof.
  unfold set_has. rewrite existsb_exists. split.
  - intros [y [Hy E]]. apply String.eqb_eq in E. now subst.
  - intro H. exists k. split; auto. apply String.eqb_refl.
Qed.

Lemma set_has_false (k : string) (s : list string) :
  set_has k s = false <-> ~ In k s.
Proof.
  rewrite <- set_has_In. destruct (set_has k s); split; congruence.
Qed.

(** ** The breadth-first search *)

Lemma visitNeighbors_spec (nb : list string) (vis q : list string) :
  exists new,
    visitNeighbors nb (vis, q) = (vis ++ new, q ++ new)
    /\ NoDup new
    /\ (forall y, In y new <-> In y nb /\ ~ In y vis).
Proof.
  revert vis q. induction nb as [|n nb IH]; intros vis q.
  - exists []. simpl. rewrite !app_nil_r.
    split; [reflexivity|]. split; [constructor|]. simpl; tauto.
  - unfold visitNeighbors. simpl. fold (visitNeighbors nb).
    destruct (set_has n vis) eqn:E.
    + apply set_has_In in E.
      destruct (IH vis q) as [new [H1 [H2 H3]]].
      exists new. unfold visitNeighbors in H1. rewrite H1.
      split; [reflexivity|]. split; [assumption|].
      intro y. rewrite H3. simpl. split; [tauto|].
      intros [[->|Hy] Hn]; [contradiction|tauto].
    + apply set_has_false in E.
      destruct (IH (vis ++ [n]) (q ++ [n])) as [new [H1 [H2 H3]]].
      exists (n :: new). unfold visitNeighbors in H1. rewrite H1.
      rewrite <- !app_assoc. simpl.
      split; [reflexivity|]. split.
      * constructor; auto. intro Hn. apply H3 in Hn.
        destruct Hn as [_ Hn]. apply Hn. apply in_or_app. right. now left.
      * intro y. split.
        -- intros [->|Hy]; [tauto|]. apply H3 in Hy.
           destruct Hy as [Hy1 Hy2]. split; [tauto|].
           intro. apply Hy2. apply in_or_app. now left.
        -- intros [[->|Hy] Hn]; [now left|].
           destruct (string_dec n y) as [->|Hne]; [now left|].
           right. apply H3. split; auto. intro Hin.
           apply in_app_or in Hin. destruct Hin as [|[->|[]]]; auto.
Qed.

Section BFS.

Variable components : list CircuitComponent.
Variable adj : list (string * list string).
Hypothesis adj_closed :
  forall d n, In n (neighborsOf adj d) -> In n (JMap.keys adj).

Lemma bfs_spec (visited0 : list string) (start : string) (fuel : nat) :
  forall queue visited group isG,
    bfs_inv components adj visited0 start queue visited group isG ->
    (List.length adj <= fuel + List.length group)%nat ->
    forall v' g' i',
      bfs fuel components adj queue visited group isG = (v', g', i') ->
      bfs_inv components adj visited0 start [] v' g' i'
      /\ (forall y, In y (group ++ queue) -> In y g').
Proof.
  induction fuel as [|fuel IH]; intros queue visited group isG Hinv Hfuel v' g' i' Hrun.
  - simpl in Hrun. injection Hrun as <- <- <-.
    destruct Hinv as (Hvis & Hcl & Hre & Hnd & Hnew & Hg).
    assert (Hlen : (List.length (group ++ queue) <= List.length (JMap.keys adj))%nat).
    { apply NoDup_incl_length; auto. intros y Hy. now apply Hnew. }
    unfold JMap.keys in Hlen. rewrite length_map, length_app in Hlen.
    assert (queue = []) as -> by (destruct queue; simpl in *; [auto | lia]).
    split; [unfold bfs_inv; auto 10|].
    intros y Hy. now rewrite app_nil_r in Hy.
  - simpl in Hrun. destruct queue as [|curr q].
    + injection Hrun as <- <- <-. split; auto.
      intros y Hy. now rewrite app_nil_r in Hy.
    + destruct (visitNeighbors_spec (neighborsOf adj curr) visited q)
        as [new [Hvn [Hndn Hnew']]].
      rewrite Hvn in Hrun.
      destruct Hinv as (Hvis & Hcl & Hre & Hnd & Hnew & Hg).
      apply IH in Hrun.
      * destruct Hrun as [Hfin Hsub]. split; auto.
        intros y Hy. apply Hsub.
        rewrite <- app_assoc. simpl.
        apply in_app_or in Hy. apply in_or_app.
        destruct Hy as [Hy|[->|Hy]]; [now left | right; now left |].
        right. right. apply in_or_app. now left.
      * assert (Hcurr : reach adj start curr).
        { apply Hre. apply in_or_app. right. now left. }
        unfold bfs_inv. split; [|split; [|split; [|split; [|split]]]].
        -- intro y. rewrite !in_app_iff. rewrite Hvis. simpl. tauto.
        -- intros d n Hd Hn. apply in_app_or in Hd.
           destruct Hd as [Hd|[<-|[]]].
           ++ apply in_or_app. left. eapply Hcl; eauto.
           ++ destruct (in_dec string_dec n visited) as [Hin|Hout].
              ** apply in_or_app. now left.
              ** apply in_or_app. right. apply Hnew'. auto.
        -- intros y Hy. rewrite <- app_assoc in Hy. simpl in Hy.
           apply in_app_or in Hy. destruct Hy as [Hy|[<-|Hy]].
           ++ apply Hre. apply in_or_app. now left.
           ++ exact Hcurr.
           ++ apply in_app_or in Hy. destruct Hy as [Hy|Hy].
              ** apply Hre. apply in_or_app. right. now right.
              ** apply Hnew' in Hy. eapply reach_step; eauto. tauto.
        -- rewrite <- app_assoc. simpl.
           replace (group ++ curr :: q ++ new)
             with ((group ++ curr :: q) ++ new)
             by (rewrite <- app_assoc; reflexivity).
           apply NoDup_app; auto.
           intros y Hy Hyn. apply Hnew' in Hyn. destruct Hyn as [_ Hyn].
           apply Hyn. apply Hvis. apply in_app_or in Hy. tauto.
        -- intros y Hy. rewrite <- app_assoc in Hy. simpl in Hy.
           assert (Hcase : In y (group ++ curr :: q) \/ In y new).
           { rewrite !in_app_iff in *. simpl in *. rewrite in_app_iff in Hy. tauto. }
           destruct Hcase as [Hy'|Hy']; [now apply Hnew|].
           apply Hnew' in Hy'. destruct Hy' as [Hy1 Hy2]. split.
           ++ intro. apply Hy2. apply Hvis. now left.
           ++ eapply adj_closed; eauto.
        -- rewrite existsb_app. simpl. rewrite orb_false_r, <- Hg.
           destruct (isGroundPort components curr), isG; reflexivity.
      * rewrite length_app. simpl. lia.
Qed.

End BFS.

Lemma sget_fold_sset (group : list string) (val : nat) :
  forall (m : list (string * nat)) (a : string),
    sget a (fold_left (fun m p => sset p val m) group m)
    = if in_dec string_dec a group then Some val else sget a m.
Proof.
  induction group as [|p group IH]; intros m a; simpl; auto.
  rewrite IH.
  destruct (in_dec string_dec a group) as [Hin|Hout].
  - destruct (string_dec p a); auto.
  - rewrite sget_sset. destruct (string_dec p a) as [->|Hne].
    + now rewrite String.eqb_refl.
    + destruct (String.eqb a p) eqn:E; auto.
      apply String.eqb_eq in E. congruence.
Qed.

Section Graph.

Variable components : list CircuitComponent.
Variable adj : list (string * list string).
Hypothesis adj_closed :
  forall d n, In n (neighborsOf adj d) -> In n (JMap.keys adj).
Hypothesis adj_sym :
  forall d n, In n (neighborsOf adj d) -> In d (neighborsOf adj n).

Lemma reach_trans (a b c : string) :
  reach adj a b -> reach adj b c -> reach adj a c.
Proof.
  intros Hab Hbc. induction Hbc; auto.
  eapply reach_step; eauto.
Qed.

Lemma reach_sym (a b : string) : reach adj a b -> reach adj b a.
Proof.
  intro H. induction H as [|b c Hab IH Hc].
  - constructor.
  - apply reach_trans with b; auto.
    eapply reach_step; [apply reach_refl|]. now apply adj_sym.
Qed.

Lemma reach_closed (P : string -> Prop) :
  (forall d n, P d -> In n (neighborsOf adj d) -> P n) ->
  forall a b, reach adj a b -> P a -> P b.
Proof.
  intros Hcl a b H. induction H; eauto.
Qed.

Lemma assignGroup_inv st (k : string) :
  graph_inv components adj st ->
  In k (JMap.keys adj) ->
  graph_inv components adj (assignGroup components adj st k)
  /\ (forall y, In y (snd st) \/ y = k ->
                In y (snd (assignGroup components adj st k))).
Proof.
  destruct st as [[p2n nc] visited].
  intros (O1 & O2 & O4 & O5 & O6 & O7 & O8 & O9 & O10) Hk.
  unfold assignGroup.
  destruct (set_has k visited) eqn:Ek.
  { apply set_has_In in Ek. split.
    - unfold graph_inv. auto 10.
    - simpl. intros y [Hy| ->]; auto. }
  apply set_has_false in Ek.
  destruct (bfs (List.length adj) components adj [k] (visited ++ [k]) [] false)
    as [[v' g'] i'] eqn:Hrun.
  apply (bfs_spec adj_closed (visited0 := visited) (start := k)) in Hrun.
  2:{ unfold bfs_inv. simpl. split; [|split; [|split; [|split; [|split]]]].
      - intro y. rewrite in_app_iff. simpl. tauto.
      - tauto.
      - intros y [<-|[]]. constructor.
      - repeat constructor. simpl; tauto.
      - intros y [<-|[]]. auto.
      - reflexivity. }
  2:{ simpl. lia. }
  destruct Hrun as [(F1 & F2 & F3 & F4 & F5 & F6) Fk].
  rewrite app_nil_r in F3, F4, F5.
  assert (F5' : forall y, In y g' -> ~ In y visited) by (intros; now apply F5).
  assert (Hkg : In k g') by (apply Fk; simpl; auto).
  assert (F1' : forall y, In y v' <-> In y visited \/ In y g').
  { intro y. rewrite F1. simpl. tauto. }
  assert (Gcl : forall d n, In d g' -> In n (neighborsOf adj d) -> In n g').
  { intros d n Hd Hn. pose proof (F2 d n Hd Hn) as Hv. apply F1' in Hv.
    destruct Hv as [Hv|Hv]; auto.
    exfalso. apply (F5' d Hd). apply (O1 n d Hv). now apply adj_sym. }
  assert (Gre : forall a b, In a g' -> reach adj a b -> In b g').
  { intros a b Ha Hab. now apply (reach_closed (fun y => In y g') Gcl Hab). }
  assert (Vre : forall a b, In a visited -> reach adj a b -> In b visited).
  { intros a b Ha Hab. now apply (reach_closed (fun y => In y visited) O1 Hab). }
  assert (Gconn : forall a b, In a g' -> In b g' -> reach adj a b).
  { intros a b Ha Hb. apply reach_trans with k; [apply reach_sym|]; auto. }
  set (val := if i' then 0%nat else nc).
  assert (Hget : forall a,
             sget a (fold_left (fun m p => sset p val m) g' p2n)
             = if in_dec string_dec a g' then Some val else sget a p2n)
    by (intro; apply sget_fold_sset).
  assert (Hval0 : val = 0%nat <-> i' = true).
  { unfold val. destruct i'; split; auto; try congruence. lia. }
  assert (Hinv : graph_inv components adj
                  (fold_left (fun m p => sset p val m) g' p2n,
                   if i' then nc else S nc, v')).
  { unfold graph_inv. split; [|split; [|split; [|split; [|split; [|split; [|split; [|split]]]]]]].
    - intros v n Hv Hn. apply F1' in Hv. apply F1'.
      destruct Hv as [Hv|Hv]; [left; eauto | right; eauto].
    - intro a. rewrite Hget, F1'.
      destruct (in_dec string_dec a g') as [Hin|Hout].
      + split; [congruence | auto].
      + rewrite <- O2. tauto.
    - intros a b Ha Hab. rewrite !Hget. apply F1' in Ha.
      destruct (in_dec string_dec a g') as [Hin|Hout].
      + destruct (in_dec string_dec b g') as [Hin'|Hout']; auto.
        exfalso. apply Hout'. eauto.
      + destruct Ha as [Ha|Ha]; [|contradiction].
        destruct (in_dec string_dec b g') as [Hin'|Hout']; auto.
        exfalso. apply (F5' b Hin'). eauto.
    - intro a. rewrite Hget, F1'.
      destruct (in_dec string_dec a g') as [Hin|Hout].
      + split.
        * intros [= Hv]. apply Hval0 in Hv. split; auto.
          rewrite F6 in Hv. apply existsb_exists in Hv.
          destruct Hv as [b [Hb Hgb]]. exists b. split; auto.
        * intros [_ [b [Hab Hgb]]]. f_equal. apply Hval0.
          rewrite F6. apply existsb_exists. exists b. split; eauto.
      + rewrite O5. tauto.
    - intros a b n. rewrite !Hget.
      destruct (in_dec string_dec a g') as [Hin|Hout];
        destruct (in_dec string_dec b g') as [Hin'|Hout']; auto.
      + intros [= <-] Hb Hn. exfalso.
        assert (i' = false) as Ei
            by (destruct i' eqn:Ei; auto; exfalso; apply Hn, Hval0; auto).
        unfold val in Hb. rewrite Ei in Hb. apply O8 in Hb. lia.
      + intros Ha [= <-] Hn. exfalso.
        assert (i' = false) as Ei
            by (destruct i' eqn:Ei; auto; exfalso; apply Hn, Hval0; auto).
        unfold val in Ha. rewrite Ei in Ha. apply O8 in Ha. lia.
      + intros; eapply O6; eauto.
    - destruct i'; lia.
    - intros a n. rewrite Hget.
      destruct (in_dec string_dec a g') as [Hin|Hout].
      + intros [= <-]. unfold val. destruct i'; lia.
      + intro Ha. apply O8 in Ha. destruct i'; lia.
    - intros v Hv. apply F1' in Hv. destruct Hv as [Hv|Hv]; auto.
      now apply F5.
    - clear - O10. revert p2n O10.
      induction g' as [|p g' IH]; intros p2n O10; simpl; auto.
      apply IH. apply NoDup_keys_set; auto. apply String.eqb_eq. }
  split.
  - unfold val in Hinv. destruct i'; exact Hinv.
  - intros y Hy.
    assert (In y v') by (apply F1'; simpl in Hy; destruct Hy as [Hy| ->]; auto).
    destruct i'; simpl; auto.
Qed.

Lemma graph_fold_inv (keys : list string) :
  forall st,
    graph_inv components adj st ->
    (forall k, In k keys -> In k (JMap.keys adj)) ->
    graph_inv components adj (fold_left (assignGroup components adj) keys st)
    /\ (forall y, In y (snd st) \/ In y keys ->
                  In y (snd (fold_left (assignGroup components adj) keys st))).
Proof.
  induction keys as [|k keys IH]; intros st Hinv Hsub; simpl.
  - split; auto. intros y [|[]]; auto.
  - destruct (@assignGroup_inv st k Hinv) as [Hinv' Hk]; [apply Hsub; now left|].
    destruct (IH _ Hinv') as [Hfin Hvis]; [intros; apply Hsub; now right|].
    split; auto.
    intros y [Hy|[<-|Hy]]; apply Hvis; auto.
Qed.

End Graph.

(** ** The adjacency lists *)

Lemma neighborsOf_sset_nil adj (k x : string) :
  neighborsOf adj k = [] ->
  neighborsOf (sset k [] adj) x = neighborsOf adj x.
Proof.
  intro H. unfold neighborsOf in *. rewrite sget_sset.
  destruct (String.eqb x k) eqn:E; auto.
  apply String.eqb_eq in E. subst. now rewrite H.
Qed.

Lemma In_keys_sset {V} (a k : string) (v : V) m :
  In a (JMap.keys (sset k v m)) <-> a = k \/ In a (JMap.keys m).
Proof. apply In_keys_set, String.eqb_eq. Qed.

Lemma fold_ports_nil (cid : string) (l : list nat) :
  forall adj,
    (forall x, neighborsOf adj x = []) ->
    forall x, neighborsOf (fold_left (fun (adj : list (string * list string)) i => sset (portKey cid i) [] adj)
                                     l adj) x = [].
Proof.
  induction l as [|i l IH]; intros adj H x; simpl; auto.
  apply IH. intro y. rewrite neighborsOf_sset_nil; auto.
Qed.

Lemma fold_ports_keys (cid : string) (l : list nat) :
  forall adj y,
    In y (JMap.keys (fold_left (fun (adj : list (string * list string)) i => sset (portKey cid i) [] adj)
                               l adj))
    <-> In y (JMap.keys adj) \/ exists i, In i l /\ y = portKey cid i.
Proof.
  induction l as [|i l IH]; intros adj y; simpl.
  - split; [auto | intros [H|[i [[] _]]]; auto].
  - rewrite IH, In_keys_sset. split.
    + intros [[->|H]|[j [Hj ->]]]; eauto.
    + intros [H|[j [[<-|Hj] ->]]]; eauto.
Qed.

Lemma sset_nil_all adj (k : string) :
  (forall x, neighborsOf adj x = []) ->
  forall x, neighborsOf (sset k [] adj) x = [].
Proof. intros H x. rewrite neighborsOf_sset_nil; auto. Qed.

Lemma declarePorts_nil adj (c : CircuitComponent) :
  (forall x, neighborsOf adj x = []) ->
  forall x, neighborsOf (declarePorts adj c) x = [].
Proof.
  intros H. unfold declarePorts.
  repeat match goal with
         | |- context [if ?b then _ else _] => destruct b
         end;
    repeat first [ apply sset_nil_all | apply fold_ports_nil ]; exact H.
Qed.

Lemma declarePorts_keys adj (c : CircuitComponent) (y : string) :
  In y (JMap.keys (declarePorts adj c))
  <-> In y (JMap.keys adj)
      \/ exists i, (i < portCount c)%nat /\ y = portKey (id c) i.
Proof.
  unfold declarePorts, portCount.
  destruct (type c) eqn:Et; cbn [ComponentType_eqb includes existsb multiInputGates app negb andb orb];
    rewrite ?fold_ports_keys, ?In_keys_sset, ?fold_ports_keys, ?In_keys_sset.
  all: split.
  all: try (intros [->|[->|H]]; [right; exists 1%nat; split; [lia|reflexivity] | right; exists 0%nat; split; [lia|reflexivity] | now left]).
  all: try (intros [H|[i [Hi ->]]]; [tauto|];
            destruct i as [|[|[|i]]]; try lia; tauto).
  all: try (intros [->|H]; [right; exists 0%nat; split; [lia|reflexivity] | now left]).
  all: try (intros [->|[->|[->|H]]];
            [right; exists 2%nat; split; [lia|reflexivity]
            |right; exists 1%nat; split; [lia|reflexivity]
            |right; exists 0%nat; split; [lia|reflexivity]
            |now left]).
  all: try (intros [->|[[->|H]|[i [Hi ->]]]];
            [ right; eexists; split; [|reflexivity]; lia
            | right; exists 0%nat; split; [lia|reflexivity]
            | now left
            | right; exists i; split; [|reflexivity]; apply in_seq in Hi; lia ]).
  all: try (intros [H|[i [Hi ->]]]; [tauto|];
            destruct (Nat.eq_dec i (inputCount_or_2 c)) as [->|Hne];
            [now left | right; right; exists i; split; [|reflexivity]; apply in_seq; lia]).
Qed.

Lemma ports_nil (components : list CircuitComponent) :
  forall adj,
    (forall x, neighborsOf adj x = []) ->
    forall x, neighborsOf (fold_left declarePorts components adj) x = [].
Proof.
  induction components as [|c cs IH]; intros adj H; simpl; auto.
  apply IH. now apply declarePorts_nil.
Qed.

Lemma ports_keys (components : list CircuitComponent) :
  forall adj y,
    In y (JMap.keys (fold_left declarePorts components adj))
    <-> In y (JMap.keys adj)
        \/ exists c i, In c components /\ (i < portCount c)%nat
                       /\ y = portKey (id c) i.
Proof.
  induction components as [|c cs IH]; intros adj y; simpl.
  - split; [auto | intros [H|[c [i [[] _]]]]; auto].
  - rewrite IH, declarePorts_keys. split.
    + intros [[H|[i [Hi ->]]]|[c' [i [Hc [Hi ->]]]]]; eauto 8.
    + intros [H|[c' [i [[<-|Hc] [Hi ->]]]]]; eauto 8.
Qed.

Lemma push_neighbor_nbrs (adj : list (string * list string)) (k v x : string) :
  In k (JMap.keys adj) ->
  neighborsOf (push_neighbor k v adj) x
  = if String.eqb x k then neighborsOf adj k ++ [v] else neighborsOf adj x.
Proof.
  intro Hk. apply sget_In_keys in Hk. unfold push_neighbor, neighborsOf.
  destruct (sget k adj) as [l|] eqn:E; [|congruence].
  rewrite sget_sset. now destruct (String.eqb x k).
Qed.

Lemma push_neighbor_keys (adj : list (string * list string)) (k v y : string) :
  In y (JMap.keys (push_neighbor k v adj)) <-> In y (JMap.keys adj).
Proof.
  unfold push_neighbor. destruct (sget k adj) as [l|] eqn:E; [|tauto].
  rewrite In_keys_sset. split; [intros [->|]; auto | auto].
  apply sget_In_keys. congruence.
Qed.

Lemma ensure_key_nbrs (adj : list (string * list string)) (k x : string) :
  neighborsOf (if shas k adj then adj else sset k [] adj) x
  = neighborsOf adj x.
Proof.
  unfold shas, JMap.has. fold (@sget (list string) k adj).
  destruct (sget k adj) eqn:E; auto.
  apply neighborsOf_sset_nil. unfold neighborsOf. now rewrite E.
Qed.

Lemma ensure_key_keys (adj : list (string * list string)) (k y : string) :
  In y (JMap.keys (if shas k adj then adj else sset k [] adj))
  <-> y = k \/ In y (JMap.keys adj).
Proof.
  unfold shas, JMap.has. fold (@sget (list string) k adj).
  destruct (sget k adj) eqn:E.
  - split; [auto | intros [->|]; auto]. apply sget_In_keys. congruence.
  - apply In_keys_sset.
Qed.

Lemma addWire_keys adj (w : Wire) (y : string) :
  In y (JMap.keys (addWire adj w))
  <-> In y (JMap.keys adj) \/ y = pk (from w) \/ y = pk (to w).
Proof.
  unfold addWire. rewrite !push_neighbor_keys, !ensure_key_keys. tauto.
Qed.

Lemma addWire_nbrs adj (w : Wire) (x n : string) :
  In n (neighborsOf (addWire adj w) x)
  <-> In n (neighborsOf adj x)
      \/ (pk (from w) = x /\ pk (to w) = n)
      \/ (pk (to w) = x /\ pk (from w) = n).
Proof.
  unfold addWire.
  set (k1 := pk (from w)). set (k2 := pk (to w)).
  set (a1 := if shas k1 adj then adj else sset k1 [] adj).
  set (a2 := if shas k2 a1 then a1 else sset k2 [] a1).
  assert (H1 : In k1 (JMap.keys a2)).
  { unfold a2, a1. rewrite !ensure_key_keys. auto. }
  assert (H2 : In k2 (JMap.keys (push_neighbor k1 k2 a2))).
  { rewrite push_neighbor_keys. unfold a2. rewrite ensure_key_keys. auto. }
  rewrite (@push_neighbor_nbrs _ k2 k1 x H2).
  rewrite !(fun y => @push_neighbor_nbrs _ k1 k2 y H1).
  unfold a2, a1. rewrite !ensure_key_nbrs.
  destruct (String.eqb_spec x k2) as [->|N2].
  - destruct (String.eqb_spec k2 k1) as [E|N1].
    + rewrite E, !in_app_iff. simpl. intuition (subst; auto; congruence).
    + rewrite !in_app_iff. simpl. intuition (subst; auto; congruence).
  - destruct (String.eqb_spec x k1) as [->|N1].
    + rewrite !in_app_iff. simpl. intuition (subst; auto; congruence).
    + intuition (subst; auto; congruence).
Qed.

Lemma wires_nbrs (wires : list Wire) :
  forall adj x n,
    In n (neighborsOf (fold_left addWire wires adj) x)
    <-> In n (neighborsOf adj x) \/ wire_edge wires x n.
Proof.
  induction wires as [|w ws IH]; intros adj x n; simpl.
  - split; [auto | intros [H|[w [[] _]]]; auto].
  - rewrite IH, addWire_nbrs. unfold wire_edge. split.
    + intros [[H|H]|[w' [Hw H]]].
      * now left.
      * right. exists w. split; [now left|]. tauto.
      * right. exists w'. split; [now right|]. tauto.
    + intros [H|[w' [[<-|Hw] H]]]; eauto 8.
Qed.

Lemma wires_keys (wires : list Wire) :
  forall adj y,
    In y (JMap.keys (fold_left addWire wires adj))
    <-> In y (JMap.keys adj)
        \/ exists w, In w wires /\ (y = pk (from w) \/ y = pk (to w)).
Proof.
  induction wires as [|w ws IH]; intros adj y; simpl.
  - split; [auto | intros [H|[w [[] _]]]; auto].
  - rewrite IH, addWire_keys. split.
    + intros [[H|H]|[w' [Hw H]]]; eauto 8.
    + intros [H|[w' [[<-|Hw] H]]]; eauto 8.
Qed.

Lemma adjacency_nbrs components wires (x n : string) :
  In n (neighborsOf (adjacency components wires) x) <-> wire_edge wires x n.
Proof.
  unfold adjacency. rewrite wires_nbrs, ports_nil; simpl; [tauto|].
  intro y. reflexivity.
Qed.

Lemma adjacency_keys components wires (y : string) :
  In y (JMap.keys (adjacency components wires))
  <-> (exists c i, In c components /\ (i < portCount c)%nat
                   /\ y = portKey (id c) i)
      \/ exists w, In w wires /\ (y = pk (from w) \/ y = pk (to w)).
Proof.
  unfold adjacency. rewrite wires_keys, ports_keys. simpl. tauto.
Qed.

Lemma adjacency_closed components wires (d n : string) :
  In n (neighborsOf (adjacency components wires) d) ->
  In n (JMap.keys (adjacency components wires)).
Proof.
  rewrite adjacency_nbrs, adjacency_keys.
  intros [w [Hw [[_ <-]|[_ <-]]]]; right; exists w; auto.
Qed.

Lemma adjacency_sym components wires (d n : string) :
  In n (neighborsOf (adjacency components wires) d) ->
  In d (neighborsOf (adjacency components wires) n).
Proof.
  rewrite !adjacency_nbrs.
  intros [w [Hw H]]. exists w. tauto.
Qed.

Lemma reach_linked components wires (a b : string) :
  reach (adjacency components wires) a b <-> linked wires a b.
Proof.
  split; intro H; induction H.
  - constructor.
  - apply adjacency_nbrs in H0. destruct H0 as [w [Hw [[<- <-]|[<- <-]]]].
    + now apply linked_fwd.
    + now apply linked_bwd.
  - constructor.
  - eapply reach_step; eauto. apply adjacency_nbrs. exists w. auto.
  - eapply reach_step; eauto. apply adjacency_nbrs. exists w. auto.
Qed.

(** ** buildGraph *)

Lemma buildGraph_inv components wires :
  exists nodeCount visited,
    graph_inv components (adjacency components wires)
              (portToNode (buildGraph components wires), nodeCount, visited)
    /\ numNodes (buildGraph components wires) = (nodeCount - 1)%nat
    /\ (forall y, In y (JMap.keys (adjacency components wires)) ->
                  In y visited).
Proof.
  unfold buildGraph.
  set (adj := adjacency components wires).
  destruct (@graph_fold_inv components adj (@adjacency_closed components wires)
              (@adjacency_sym components wires) (JMap.keys adj)
              ([], 1%nat, [])) as [Hinv Hvis].
  - unfold graph_inv. simpl.
    split; [tauto|]. split; [intro; split; [tauto|congruence]|].
    split; [tauto|]. split; [intro; split; [congruence|tauto]|].
    split; [congruence|]. split; [lia|]. split; [congruence|].
    split; [tauto|constructor].
  - auto.
  - destruct (fold_left (assignGroup components adj) (JMap.keys adj)
                        ([], 1%nat, [])) as [[p2n nc] visited].
    exists nc, visited. simpl in *. auto.
Qed.

Lemma buildGraph_range components wires (k : string) (n : nat) :
  sget k (portToNode (buildGraph components wires)) = Some n ->
  (n <= numNodes (buildGraph components wires))%nat.
Proof.
  destruct (buildGraph_inv components wires)
    as (nc & vis & (_ & _ & _ & _ & _ & _ & O8 & _) & Hn & _).
  intro H. apply O8 in H. lia.
Qed.

Lemma buildGraph_has_node components wires (k : string) :
  In k (JMap.keys (adjacency components wires)) ->
  exists n, sget k (portToNode (buildGraph components wires)) = Some n.
Proof.
  destruct (buildGraph_inv components wires)
    as (nc & vis & (_ & O2 & _) & _ & Hv).
  intro H. apply Hv, O2 in H.
  destruct (sget k (portToNode (buildGraph components wires))); eauto.
  congruence.
Qed.

Lemma hasGround_iff components wires :
  hasGround (buildGraph components wires) = true
  <-> exists k, sget k (portToNode (buildGraph components wires)) = Some 0%nat.
Proof.
  destruct (buildGraph_inv components wires)
    as (nc & vis & (_ & _ & _ & _ & _ & _ & _ & _ & O10) & _ & _).
  unfold hasGround. rewrite existsb_exists. split.
  - intros [v [Hv E]]. apply Nat.eqb_eq in E. subst v.
    apply (In_values_get String.eqb String.eqb_eq) in Hv; auto.
  - intros [k Hk]. exists 0%nat. split; auto.
    now apply (get_Some_In_values String.eqb String.eqb_eq _ _ Hk).
Qed.



(** ** Port keys of well-formed circuits *)

Lemma split_colon_head_app (s t : string) :
  colon_free s = true ->
  JS.split_colon_head (s ++ String ":"%char t) = s.
Proof.
  induction s as [|ch s IH]; simpl.
  - reflexivity.
  - intro H. apply andb_true_iff in H. destruct H as [H1 H2].
    destruct (Ascii.eqb ch ":"%char); [discriminate|].
    now rewrite IH.
Qed.

Lemma split_colon_head_portKey (cid : string) (i : nat) :
  colon_free cid = true -> JS.split_colon_head (portKey cid i) = cid.
Proof. intro H. unfold portKey. now apply split_colon_head_app. Qed.

Lemma find_by_id (components : list CircuitComponent) (c : CircuitComponent) :
  NoDup (map id components) -> In c components ->
  find (fun c' => String.eqb (id c') (id c)) components = Some c.
Proof.
  induction components as [|c' cs IH]; simpl; [tauto|].
  intros Hnd [->|Hin].
  - now rewrite String.eqb_refl.
  - inversion Hnd; subst.
    destruct (String.eqb_spec (id c') (id c)) as [E|N]; auto.
    exfalso. apply H1. rewrite E. now apply in_map.
Qed.

Lemma ComponentType_eqb_eq (a b : ComponentType) :
  ComponentType_eqb a b = true <-> a = b.
Proof. destruct a, b; simpl; split; congruence. Qed.

Lemma isGroundPort_portKey components (c : CircuitComponent) (i : nat) :
  NoDup (map id components) -> colon_free (id c) = true ->
  In c components ->
  isGroundPort components (portKey (id c) i)
  = ComponentType_eqb (type c) GROUND.
Proof.
  intros Hnd Hcf Hin. unfold isGroundPort.
  rewrite split_colon_head_portKey; auto.
  now rewrite find_by_id.
Qed.

Lemma well_formed_key components wires (k : string) :
  well_formed components wires ->
  In k (JMap.keys (adjacency components wires)) ->
  exists c i, In c components /\ k = portKey (id c) i.
Proof.
  intros (Hnd & Hcf & Hw) Hk. apply adjacency_keys in Hk.
  destruct Hk as [(c & i & Hc & _ & ->)|(w & Hin & Hk)]; eauto.
  destruct (Hw w Hin) as [Hf Ht]. unfold pk in Hk.
  apply in_map_iff in Hf, Ht.
  destruct Hf as [cf [Ef Hcf']], Ht as [ct [Et Hct]].
  destruct Hk as [->| ->].
  - exists cf, (portIndex (from w)). split; auto. now rewrite Ef.
  - exists ct, (portIndex (to w)). split; auto. now rewrite Et.
Qed.

Lemma reach_from_key components wires (a b : string) :
  reach (adjacency components wires) a b ->
  b = a \/ In a (JMap.keys (adjacency components wires)).
Proof.
  intro H. induction H as [|b c Hab IH Hc]; auto.
  right. destruct IH as [->|]; auto.
  apply adjacency_sym in Hc. eapply adjacency_closed; eauto.
Qed.

Lemma linked_unwired wires (k b : string) :
  (forall w, In w wires -> pk (from w) <> k /\ pk (to w) <> k) ->
  linked wires k b -> b = k.
Proof.
  intros Hk H. induction H as [|w Hw H IH|w Hw H IH]; auto.
  - exfalso. destruct (Hk w Hw) as [H1 _]. now apply H1.
  - exfalso. destruct (Hk w Hw) as [_ H2]. now apply H2.
Qed.

(** C7 (as amended).  buildGraph gives every port of every component a
    node; ports joined by a chain of wires share their node; two ports
    with the same positive node are joined by a chain of wires, so a
    port touched by no wire is alone in a positive node; and, when the
    component identifiers are unique and colon-free and the wires end
    on existing components, a port has node 0 if and only if it is
    joined to a port of a GROUND component. *)
Theorem C7_buildGraph_nodes (components : list CircuitComponent)
        (wires : list Wire) :
  let node := fun k => sget k (portToNode (buildGraph components wires)) in
  (forall c i, In c components -> (i < portCount c)%nat ->
               exists n, node (portKey (id c) i) = Some n)
  /\ (forall a b, linked wires a b -> node a = node b)
  /\ (forall a b n, node a = Some n -> node b = Some n -> n <> 0%nat ->
                    linked wires a b)
  /\ (forall k b n,
         (forall w, In w wires -> pk (from w) <> k /\ pk (to w) <> k) ->
         node k = Some n -> n <> 0%nat -> node b = Some n -> b = k)
  /\ (well_formed components wires ->
      forall k n, node k = Some n ->
                  (n = 0%nat <->
                   exists c i, In c components /\ type c = GROUND
                               /\ linked wires k (portKey (id c) i))).
Proof.
  intro node. unfold node.
  destruct (buildGraph_inv components wires)
    as (nc & vis & (O1 & O2 & O4 & O5 & O6 & O7 & O8 & O9 & O10) & Hn & Hv).
  assert (L3 : forall a b n,
             sget a (portToNode (buildGraph components wires)) = Some n ->
             sget b (portToNode (buildGraph components wires)) = Some n ->
             n <> 0%nat -> linked wires a b).
  { intros a b n Ha Hb Hn0. apply (reach_linked components). eapply O6; eauto. }
  split; [|split; [|split; [|split]]].
  - intros c i Hc Hi. apply buildGraph_has_node.
    apply adjacency_keys. left. eauto.
  - intros a b Hab. apply (reach_linked components) in Hab.
    destruct (@reach_from_key components wires a b Hab) as [->|Hk]; auto.
  - exact L3.
  - intros k b n Hk Hkn Hn0 Hbn.
    eapply linked_unwired; eauto.
  - intros Hwf k n Hk. split.
    + intros ->. apply O5 in Hk. destruct Hk as [Hkv [b [Hkb Hg]]].
      assert (Hbk : In b (JMap.keys (adjacency components wires))).
      { apply O9. eapply (reach_closed (adj := adjacency components wires)
                            (fun y => In y vis)); eauto. }
      destruct (@well_formed_key components wires b Hwf Hbk)
        as (c & i & Hc & ->).
      destruct Hwf as (Hnd & Hcf & Hw).
      rewrite isGroundPort_portKey in Hg; auto.
      apply ComponentType_eqb_eq in Hg.
      exists c, i. split; auto. split; auto.
      now apply (reach_linked components).
    + intros (c & i & Hc & Ht & Hl).
      destruct Hwf as (Hnd & Hcf & Hw).
      assert (H0 : sget k (portToNode (buildGraph components wires))
                   = Some 0%nat).
      { apply O5. split.
        - apply O2. congruence.
        - exists (portKey (id c) i). split.
          + now apply (reach_linked components).
          + rewrite isGroundPort_portKey; auto.
            now apply ComponentType_eqb_eq. }
      congruence.
Qed.

(** C7, witness: the grounded source-and-resistor circuit is well
    formed, and there node 0 marks exactly the ports joined to the
    ground symbol. *)
Lemma C7_buildGraph_nodes_witness :
  well_formed ohm_components ohm_wires
  /\ forall k n,
      sget k (portToNode (buildGraph ohm_components ohm_wires)) = Some n ->
      (n = 0%nat <->
       exists c i, In c ohm_components /\ type c = GROUND
                   /\ linked ohm_wires k (portKey (id c) i)).
Proof.
  assert (Hwf : well_formed ohm_components ohm_wires).
  { split; [|split].
    - simpl. repeat constructor; simpl; intuition discriminate.
    - intros c [<-|[<-|[<-|[]]]]; reflexivity.
    - intros w [<-|[<-|[<-|[]]]]; simpl; auto. }
  split; [exact Hwf|].
  exact (proj2 (proj2 (proj2 (proj2
           (C7_buildGraph_nodes ohm_components ohm_wires)))) Hwf).
Defined.

(** C7, counterexample to the claim as stated: the port of a GROUND
    component whose identifier contains a colon receives node 1, not
    node 0. *)
Lemma C7_counterexample :
  In colon_ground [colon_ground]
  /\ type colon_ground = GROUND
  /\ linked [] (portKey (id colon_ground) 0) (portKey (id colon_ground) 0)
  /\ sget (portKey (id colon_ground) 0)
          (portToNode (buildGraph [colon_ground] [])) = Some 1%nat.
Proof.
  split; [now left|]. split; [reflexivity|]. split; [constructor|].
  reflexivity.
Qed.

(** ** Loops that may throw *)

Lemma for_each_inv {A St : Type} (P : St -> Prop) (l : list A)
      (body : St -> A -> option St) :
  (forall s a, P s -> In a l -> exists s', body s a = Some s' /\ P s') ->
  forall s, P s -> exists s', for_each l body s = Some s' /\ P s'.
Proof.
  unfold for_each. induction l as [|a l IH]; intros Hbody s Hs; simpl.
  - eauto.
  - destruct (Hbody s a Hs (or_introl eq_refl)) as [s1 [E1 P1]].
    rewrite E1. apply IH; auto.
    intros s0 a0 Ps0 Ha0. apply Hbody; auto. now right.
Qed.

(** ** Shapes of matrices *)

Lemma square_nth_error {A} (n : nat) (M : list (list A)) (i : nat) :
  square n M -> (i < n)%nat ->
  exists row, nth_error M i = Some row /\ List.length row = n.
Proof.
  intros [Hl Hr] Hi.
  destruct (nth_error M i) as [row|] eqn:E.
  - exists row. split; auto.
    rewrite Forall_forall in Hr. apply Hr. eapply nth_error_In; eauto.
  - apply nth_error_None in E. lia.
Qed.

Lemma square_aset {A} (n : nat) (M : list (list A)) (i : nat)
      (row : list A) :
  square n M -> List.length row = n -> square n (JS.aset i row M).
Proof.
  intros [Hl Hr] Hrow. split; [now rewrite aset_length|].
  clear Hl. revert i. induction Hr as [|r M Hr0 Hr IH]; intros [|i]; simpl;
    constructor; auto.
Qed.

Lemma square_swap {A} (n : nat) (M : list (list A)) (i j : nat) :
  square n M -> square n (JS.swap i j M).
Proof.
  intro H. unfold JS.swap.
  destruct (nth_error M i) as [a|] eqn:Ei; auto.
  destruct (nth_error M j) as [b|] eqn:Ej; auto.
  destruct H as [Hl Hr]. rewrite Forall_forall in Hr.
  apply square_aset; [apply square_aset|].
  - split; auto. now apply Forall_forall.
  - apply Hr. eapply nth_error_In; eauto.
  - apply Hr. eapply nth_error_In; eauto.
Qed.

Lemma nth_error_lt {A} (l : list A) (i : nat) :
  (i < List.length l)%nat -> exists a, nth_error l i = Some a.
Proof.
  intro H. destruct (nth_error l i) eqn:E; eauto.
  apply nth_error_None in E. lia.
Qed.

(** ** ComplexMatrixSolver.solve returns on square systems *)

Section ComplexSolver.

Variable n : nat.

Lemma centry_some (M : list (list Complex.t)) (i j : nat) :
  square n M -> (i < n)%nat -> (j < n)%nat ->
  exists v, ComplexMatrixSolver.entry M i j = Some v.
Proof.
  intros HM Hi Hj. unfold ComplexMatrixSolver.entry.
  destruct (square_nth_error HM Hi) as [row [E Hl]]. rewrite E.
  apply nth_error_lt. lia.
Qed.

Lemma cset_entry_square (M : list (list Complex.t)) (i j : nat)
      (v : Complex.t) :
  square n M -> square n (ComplexMatrixSolver.set_entry i j v M).
Proof.
  intro HM. unfold ComplexMatrixSolver.set_entry.
  destruct (nth_error M i) as [row|] eqn:E; auto.
  apply square_aset; auto. rewrite aset_length.
  destruct HM as [_ Hr]. rewrite Forall_forall in Hr. apply Hr.
  eapply nth_error_In; eauto.
Qed.

Lemma cpivot_some (M : list (list Complex.t)) (i : nat) :
  square n M -> (i < n)%nat ->
  exists maxRow maxVal,
    ComplexMatrixSolver.pivot n i M = Some (maxRow, maxVal)
    /\ (maxRow < n)%nat.
Proof.
  intros HM Hi. unfold ComplexMatrixSolver.pivot.
  destruct (centry_some HM Hi Hi) as [aii E]. rewrite E.
  destruct (@for_each_inv nat (nat * R) (fun s => (fst s < n)%nat)
              (seq (S i) (n - S i))
              (fun '(maxRow, maxVal) k =>
                 aki <- ComplexMatrixSolver.entry M k i ;;
                 if JS.gtb (Complex.magnitude aki) maxVal
                 then Some (k, Complex.magnitude aki)
                 else Some (maxRow, maxVal)))
    with (s := (i, Complex.magnitude aii)) as [[mr mv] [E' P']]; auto.
  - intros [mr mv] k Hs Hk. apply in_seq in Hk.
    destruct (@centry_some M k i HM) as [aki Ek]; try lia. rewrite Ek.
    destruct (JS.gtb (Complex.magnitude aki) mv); eexists; split; eauto.
    simpl. lia.
  - exists mr, mv. split; auto.
Qed.

Lemma celiminate_some (i : nat) (st : list (list Complex.t) * list Complex.t)
      (k : nat) :
  square n (fst st) -> List.length (snd st) = n ->
  (i < n)%nat -> (k < n)%nat ->
  exists st', ComplexMatrixSolver.eliminate n i st k = Some st'
              /\ square n (fst st') /\ List.length (snd st') = n.
Proof.
  destruct st as [Ac Bc]. simpl. intros HM HB Hi Hk.
  unfold ComplexMatrixSolver.eliminate.
  destruct (centry_some HM Hk Hi) as [aki E1]. rewrite E1.
  destruct (centry_some HM Hi Hi) as [aii E2]. rewrite E2.
  destruct (@nth_error_lt _ Bc k) as [bk E3]; [lia|]. rewrite E3.
  destruct (@nth_error_lt _ Bc i) as [bi E4]; [lia|]. rewrite E4.
  destruct (@for_each_inv nat (list (list Complex.t)) (square n)
              (seq i (n - i))
              (fun Ac j =>
                 akj <- ComplexMatrixSolver.entry Ac k j ;;
                 aij <- ComplexMatrixSolver.entry Ac i j ;;
                 Some (ComplexMatrixSolver.set_entry k j
                         (Complex.sub akj
                            (Complex.mul (Complex.div aki aii) aij)) Ac)))
    with (s := Ac) as [Ac' [E' P']]; auto.
  - intros M j HMj Hj. apply in_seq in Hj.
    destruct (@centry_some M k j HMj) as [akj Ek]; try lia. rewrite Ek.
    destruct (@centry_some M i j HMj) as [aij Eij]; try lia. rewrite Eij.
    eexists; split; eauto. now apply cset_entry_square.
  - rewrite E'. eexists; split; eauto. simpl. split; auto.
    now rewrite aset_length.
Qed.

Lemma cforward_some (st : list (list Complex.t) * list Complex.t)
      (i : nat) :
  square n (fst st) -> List.length (snd st) = n -> (i < n)%nat ->
  exists st', ComplexMatrixSolver.forward n st i = Some st'
              /\ square n (fst st') /\ List.length (snd st') = n.
Proof.
  destruct st as [Ac Bc]. simpl. intros HM HB Hi.
  unfold ComplexMatrixSolver.forward.
  destruct (cpivot_some HM Hi) as (mr & mv & E & Hmr). rewrite E.
  assert (HM' : square n (JS.swap i mr Ac)) by now apply square_swap.
  assert (HB' : List.length (JS.swap i mr Bc) = n)
    by now rewrite swap_length.
  destruct (centry_some HM' Hi Hi) as [aii E2]. rewrite E2.
  destruct (JS.ltb (Complex.magnitude aii) 1e-12).
  - eexists; split; eauto.
  - apply (@for_each_inv nat (list (list Complex.t) * list Complex.t)
             (fun st => square n (fst st) /\ List.length (snd st) = n)).
    + intros s k [Hs1 Hs2] Hk. apply in_seq in Hk.
      apply celiminate_some; auto. lia.
    + simpl. auto.
Qed.

Lemma cback_some (Ac : list (list Complex.t)) (Bc x : list Complex.t)
      (i : nat) :
  square n Ac -> List.length Bc = n -> List.length x = n -> (i < n)%nat ->
  exists x', ComplexMatrixSolver.back n Ac Bc x i = Some x'
             /\ List.length x' = n.
Proof.
  intros HM HB Hx Hi. unfold ComplexMatrixSolver.back.
  destruct (centry_some HM Hi Hi) as [aii E]. rewrite E.
  destruct (JS.ltb (Complex.magnitude aii) 1e-12); [eauto|].
  destruct (@for_each_inv nat Complex.t (fun _ => True)
              (seq (S i) (n - S i))
              (fun sum j =>
                 aij <- ComplexMatrixSolver.entry Ac i j ;;
                 xj <- nth_error x j ;;
                 Some (Complex.add sum (Complex.mul aij xj))))
    with (s := Complex.zero) as [sum [E' _]]; auto.
  - intros s j _ Hj. apply in_seq in Hj.
    destruct (@centry_some Ac i j HM) as [aij Eij]; try lia. rewrite Eij.
    destruct (@nth_error_lt _ x j) as [xj Exj]; [lia|]. rewrite Exj.
    eauto.
  - rewrite E'.
    destruct (@nth_error_lt _ Bc i) as [bi Ebi]; [lia|]. rewrite Ebi.
    eexists; split; eauto. now rewrite aset_length.
Qed.

Lemma csolve_some (A : list (list Complex.t)) (B : list Complex.t) :
  square n A -> List.length B = n ->
  exists x, ComplexMatrixSolver.solve A B = Some x /\ List.length x = n.
Proof.
  intros HA HB. unfold ComplexMatrixSolver.solve.
  assert (Hn : List.length A = n) by apply HA. rewrite Hn, map_id.
  destruct (@for_each_inv nat (list (list Complex.t) * list Complex.t)
              (fun st => square n (fst st) /\ List.length (snd st) = n)
              (seq 0 n) (ComplexMatrixSolver.forward n))
    with (s := (A, B)) as [[Ac Bc] [E [HM HBc]]]; simpl; auto.
  - intros s i [Hs1 Hs2] Hi. apply in_seq in Hi.
    apply cforward_some; auto. lia.
  - rewrite E. simpl in *.
    apply (@for_each_inv nat (list Complex.t)
             (fun x => List.length x = n)).
    + intros x i Hx Hi. apply in_rev, in_seq in Hi.
      apply cback_some; auto. lia.
    + apply repeat_length.
Qed.

End ComplexSolver.

(** ** MatrixSolver.solve returns on every input *)

Section RealSolver.

Variable n : nat.

Lemma entry_some (M : list (list R)) (i j : nat) :
  List.length M = n -> (i < n)%nat ->
  exists v, MatrixSolver.entry M i j = Some v.
Proof.
  intros HM Hi. unfold MatrixSolver.entry.
  destruct (@nth_error_lt _ M i) as [row E]; [lia|]. rewrite E. eauto.
Qed.

Lemma set_entry_length (M : list (list R)) (i j : nat) (v : R) :
  List.length (MatrixSolver.set_entry i j v M) = List.length M.
Proof.
  unfold MatrixSolver.set_entry.
  destruct (nth_error M i); auto. now rewrite aset_length.
Qed.

Lemma pivot_some (M : list (list R)) (i : nat) :
  List.length M = n -> (i < n)%nat ->
  exists maxRow maxVal, MatrixSolver.pivot n i M = Some (maxRow, maxVal).
Proof.
  intros HM Hi. unfold MatrixSolver.pivot.
  destruct (@entry_some M i i HM Hi) as [mii E]. rewrite E.
  destruct (@for_each_inv nat (nat * R) (fun _ => True)
              (seq (S i) (n - S i))
              (fun '(maxRow, maxVal) k =>
                 mki <- MatrixSolver.entry M k i ;;
                 if JS.gtb (Rabs mki) maxVal
                 then Some (k, Rabs mki)
                 else Some (maxRow, maxVal)))
    with (s := (i, Rabs mii)) as [[mr mv] [E' _]]; auto.
  - intros [mr mv] k _ Hk. apply in_seq in Hk.
    destruct (@entry_some M k i HM) as [mki Ek]; try lia. rewrite Ek.
    destruct (JS.gtb (Rabs mki) mv); eauto.
  - eauto.
Qed.

Lemma eliminate_some (i : nat) (st : list (list R) * list R) (k : nat) :
  List.length (fst st) = n -> (i < n)%nat -> (k < n)%nat ->
  exists st', MatrixSolver.eliminate n i st k = Some st'
              /\ List.length (fst st') = n.
Proof.
  destruct st as [M V]. simpl. intros HM Hi Hk.
  unfold MatrixSolver.eliminate.
  destruct (@entry_some M k i HM Hk) as [mki E1]. rewrite E1.
  destruct (@entry_some M i i HM Hi) as [mii E2]. rewrite E2.
  destruct (@for_each_inv nat (list (list R))
              (fun M => List.length M = n)
              (seq i (n - i))
              (fun M j =>
                 mkj <- MatrixSolver.entry M k j ;;
                 mij <- MatrixSolver.entry M i j ;;
                 Some (MatrixSolver.set_entry k j
                         (mkj - mki / mii * mij)%R M)))
    with (s := M) as [M' [E' P']]; auto.
  - intros M0 j HM0 Hj.
    destruct (@entry_some M0 k j HM0 Hk) as [mkj Ek]. rewrite Ek.
    destruct (@entry_some M0 i j HM0 Hi) as [mij Eij]. rewrite Eij.
    eexists; split; eauto. now rewrite set_entry_length.
  - rewrite E'. eauto.
Qed.

Lemma forward_some (st : list (list R) * list R) (i : nat) :
  List.length (fst st) = n -> (i < n)%nat ->
  exists st', MatrixSolver.forward n st i = Some st'
              /\ List.length (fst st') = n.
Proof.
  destruct st as [M V]. simpl. intros HM Hi.
  unfold MatrixSolver.forward.
  destruct (@pivot_some M i HM Hi) as (mr & mv & E). rewrite E.
  assert (HM' : List.length (JS.swap i mr M) = n)
    by now rewrite swap_length.
  destruct (@entry_some _ i i HM' Hi) as [mii E2]. rewrite E2.
  destruct (JS.ltb (Rabs mii) 1e-12).
  - eauto.
  - apply (@for_each_inv nat (list (list R) * list R)
             (fun st => List.length (fst st) = n)); auto.
    intros s k Hs Hk. apply in_seq in Hk.
    apply eliminate_some; auto. lia.
Qed.

Lemma back_some (M : list (list R)) (V x : list R) (i : nat) :
  List.length M = n -> List.length x = n -> (i < n)%nat ->
  exists x', MatrixSolver.back n M V x i = Some x' /\ List.length x' = n.
Proof.
  intros HM Hx Hi. unfold MatrixSolver.back.
  destruct (@entry_some M i i HM Hi) as [mii E]. rewrite E.
  destruct (JS.ltb (Rabs mii) 1e-12); [eauto|].
  destruct (@for_each_inv nat R (fun _ => True)
              (seq (S i) (n - S i))
              (fun sum j =>
                 mij <- MatrixSolver.entry M i j ;;
                 Some (sum + mij * JS.vget x j)%R))
    with (s := 0%R) as [sum [E' _]]; auto.
  - intros s j _ Hj.
    destruct (@entry_some M i j HM Hi) as [mij Eij]. rewrite Eij. eauto.
  - rewrite E'. eexists; split; eauto. now rewrite aset_length.
Qed.

End RealSolver.

Lemma solve_some (A : list (list R)) (B : list R) :
  exists x, MatrixSolver.solve A B = Some x
            /\ List.length x = List.length A.
Proof.
  unfold MatrixSolver.solve. rewrite map_id.
  set (n := List.length A).
  destruct (@for_each_inv nat (list (list R) * list R)
              (fun st => List.length (fst st) = n)
              (seq 0 n) (MatrixSolver.forward n))
    with (s := (A, B)) as [[M V] [E HM]]; simpl; auto.
  - intros s i Hs Hi. apply in_seq in Hi.
    apply forward_some; auto. lia.
  - rewrite E. simpl in *.
    apply (@for_each_inv nat (list R) (fun x => List.length x = n)).
    + intros x i Hx Hi. apply in_rev, in_seq in Hi.
      apply back_some; auto. lia.
    + apply repeat_length.
Qed.

(** ** Shapes of the assembled systems *)

Lemma fold_left_inv {A St : Type} (P : St -> Prop) (f : St -> A -> St)
      (l : list A) :
  (forall s a, P s -> In a l -> P (f s a)) ->
  forall s, P s -> P (fold_left f l s).
Proof.
  induction l as [|a l IH]; intros Hf s Hs; simpl; auto.
  apply IH; [intros; apply Hf; auto; now right|].
  apply Hf; auto. now left.
Qed.

Lemma forEach_from_inv {A St : Type} (P : St -> Prop)
      (f : St -> A -> nat -> St) (l : list A) :
  (forall s a i, P s -> In a l -> P (f s a i)) ->
  forall start s, P s -> P (JS.forEach_from f start l s).
Proof.
  induction l as [|a l IH]; intros Hf start s Hs; simpl; auto.
  apply IH; [intros; apply Hf; auto; now right|].
  apply Hf; auto. now left.
Qed.

Lemma forEach_i_inv {A St : Type} (P : St -> Prop)
      (f : St -> A -> nat -> St) (l : list A) :
  (forall s a i, P s -> In a l -> P (f s a i)) ->
  forall s, P s -> P (JS.forEach_i f l s).
Proof. intros Hf s Hs. unfold JS.forEach_i. now apply forEach_from_inv. Qed.

Lemma square_oset {A} (n : nat) (M : list (list A)) (i j : nat) (v : A) :
  square n M -> square n (JS.oset i j v M).
Proof.
  intro HM. unfold JS.oset.
  destruct (Nat.lt_ge_cases i n) as [Hi|Hi].
  - destruct (square_nth_error HM Hi) as [row [E Hl]].
    apply square_aset; auto. rewrite aset_length.
    now rewrite (nth_error_nth _ _ _ E).
  - destruct HM as [Hl Hr]. split; [now rewrite aset_length|].
    replace (JS.aset i (JS.aset j v (nth i M [])) M) with M; auto.
    clear Hr. revert i Hi. subst n.
    induction M as [|r M IH]; intros [|i] Hi; simpl in *; auto; try lia.
    f_equal. apply IH. lia.
Qed.

Lemma square_mset (n : nat) (M : list (list R)) (i j : nat) (v : R) :
  square n M -> square n (JS.mset i j v M).
Proof. apply square_oset. Qed.

Lemma square_repeat {A} (n : nat) (z : A) :
  square n (repeat (repeat z n) n).
Proof.
  split; [apply repeat_length|].
  apply Forall_forall. intros row Hrow.
  apply repeat_spec in Hrow. subst. apply repeat_length.
Qed.

Lemma assembleAC_shape env (omega : R) :
  square (acSize env) (fst (assembleAC env omega))
  /\ List.length (snd (assembleAC env omega)) = acSize env.
Proof.
  unfold assembleAC.
  apply (forEach_i_inv
           (fun GI : list (list Complex.t) * list Complex.t =>
              square (acSize env) (fst GI)
              /\ List.length (snd GI) = acSize env)).
  { intros [G I] op i [HG HI] _. unfold stampOpampAC. simpl.
    repeat match goal with
           | |- context [match ?o with Some _ => _ | None => _ end] =>
               destruct o
           end; simpl; rewrite ?aset_length;
      split; auto; repeat apply square_oset; auto. }
  apply (forEach_i_inv
           (fun GI : list (list Complex.t) * list Complex.t =>
              square (acSize env) (fst GI)
              /\ List.length (snd GI) = acSize env)).
  { intros [G I] v i [HG HI] _. unfold stampVoltageSourceAC. simpl.
    repeat match goal with
           | |- context [match ?o with Some _ => _ | None => _ end] =>
               destruct o
           end; simpl; rewrite ?aset_length;
      split; auto; repeat apply square_oset; auto. }
  simpl. split; [|apply repeat_length].
  apply (fold_left_inv (square (acSize env))).
  - intros G c HG _. unfold stampPassiveAC, stampAdmittance, cadd, csub.
    repeat match goal with
           | |- context [if ?b then _ else _] => destruct b
           | |- context [match ?o with Some _ => _ | None => _ end] =>
               destruct o
           end; repeat apply square_oset; auto.
  - apply square_repeat.
Qed.




(** ** C1: circuits without a ground *)




Lemma Math_floor_IZR (z : Z) : JS.Math_floor (IZR z) = z.
Proof.
  unfold JS.Math_floor.
  assert (H : (z + 1)%Z = up (IZR z)).
  { apply up_tech; [apply Rle_refl | apply IZR_lt; lia]. }
  rewrite <- H. lia.
Qed.




(** ** C9: the only error of solveCircuit *)

Lemma iterate_some env (st : LoopState) :
  exists st', iterate env st = Some st'.
Proof.
  unfold iterate.
  destruct (assemble env (currentVoltages st)
                     (updateGateTargets env (currentVoltages st)
                                        (gateTargets st))) as [G I].
  destruct (solve_some G I) as [sol [E _]]. rewrite E.
  destruct (updateVoltages env sol (currentVoltages st)). eauto.
Qed.

Lemma loop_some env (remaining : nat) :
  forall st, exists st', loop env remaining st = Some st'.
Proof.
  induction remaining as [|r IH]; intro st; simpl; eauto.
  destruct (converged st); eauto.
  destruct (iterate_some env st) as [st' E]. rewrite E. apply IH.
Qed.

(** C9.  solveCircuit sets the error field if and only if no port maps
    to node 0; the error is then "No Ground (GND) found."; the
    "Singular matrix" result is never returned, because
    MatrixSolver.solve returns a vector on every input. *)
Theorem C9_only_error (components : list CircuitComponent)
        (wires : list Wire) (frequency : R) :
  (error (solveCircuit components wires frequency) <> None
   <-> ~ exists k, sget k (portToNode (buildGraph components wires))
                   = Some 0%nat)
  /\ (forall msg, error (solveCircuit components wires frequency) = Some msg ->
                  msg = "No Ground (GND) found."%string)
  /\ error (solveCircuit components wires frequency)
     <> Some "Singular matrix"%string
  /\ (forall A B, exists x, MatrixSolver.solve A B = Some x
                            /\ List.length x = List.length A).
Proof.
  assert (H : error (solveCircuit components wires frequency)
              = if hasGround (buildGraph components wires) then None
                else Some "No Ground (GND) found."%string).
  { unfold solveCircuit.
    destruct (hasGround (buildGraph components wires)); cbn [negb]; auto.
    destruct (loop_some (graphEnv components (buildGraph components wires))
                        maxIterations
                        (initialState
                           (graphEnv components
                                     (buildGraph components wires))))
      as [st E].
    rewrite E. reflexivity. }
  rewrite H. pose proof (hasGround_iff components wires) as Hg.
  destruct (hasGround (buildGraph components wires)).
  - split; [|split; [|split]].
    + split; [congruence|]. intro Hn. exfalso. apply Hn. now apply Hg.
    + discriminate.
    + discriminate.
    + apply solve_some.
  - split; [|split; [|split]].
    + split; [|discriminate]. intros _ Hex. apply Hg in Hex. discriminate.
    + now intros msg [= <-].
    + discriminate.
    + apply solve_some.
Qed.

(** ** C10: linear circuits converge at once *)







Lemma num_or_0 (v : R) : JS.num_or v 0 = v.
Proof. unfold JS.num_or. destruct (Req_dec_T v 0); auto. Qed.


Lemma updateVoltages_get env (sol : list R) :
  forall cv n,
    In n (seq 1 (env_numNodes env)) ->
    nget n (snd (updateVoltages env sol cv))
    = Some (JS.vget sol (getNodeIdx n)).
Proof.
  unfold updateVoltages.
  assert (H : forall l maxDiff cv n,
             (In n l \/ nget n cv = Some (JS.vget sol (getNodeIdx n))) ->
             nget n (snd (fold_left
                            (fun '(maxDiff, cv) n =>
                               (Rmax maxDiff
                                     (Rabs (JS.vget sol (getNodeIdx n)
                                            - voltageAt cv n)),
                                nset n (JS.vget sol (getNodeIdx n)) cv))
                            l (maxDiff, cv)))
             = Some (JS.vget sol (getNodeIdx n))).
  { induction l as [|k l IH]; intros maxDiff cv n Hn; simpl.
    - destruct Hn as [[]|Hn]; auto.
    - apply IH. rewrite nget_nset.
      destruct (Nat.eqb_spec n k) as [->|N]; auto.
      destruct Hn as [[->|Hn]|Hn]; auto. congruence. }
  intros cv n Hn. apply H. now left.
Qed.







(** ** Entries of stamped matrices *)

Lemma vget_vset (v : list R) (i r : nat) (x : R) :
  (i < List.length v)%nat ->
  JS.vget (JS.vset i x v) r = if Nat.eqb r i then x else JS.vget v r.
Proof.
  intro Hi. unfold JS.vget, JS.vset.
  destruct (Nat.eqb_spec r i) as [->|N].
  - now apply nth_aset_same.
  - apply nth_aset_other. auto.
Qed.

Lemma mget_mset (n : nat) (M : list (list R)) (i j r c : nat) (v : R) :
  square n M -> (i < n)%nat -> (j < n)%nat ->
  JS.mget (JS.mset i j v M) r c
  = if Nat.eqb r i && Nat.eqb c j then v else JS.mget M r c.
Proof.
  intros HM Hi Hj. unfold JS.mget, JS.mset.
  destruct (square_nth_error HM Hi) as [row [E Hl]].
  assert (Hlen : (i < List.length M)%nat) by (destruct HM; lia).
  destruct (Nat.eqb_spec r i) as [->|N]; simpl.
  - rewrite nth_aset_same by auto.
    rewrite (nth_error_nth _ _ _ E).
    apply vget_vset. lia.
  - rewrite nth_aset_other by auto. reflexivity.
Qed.

Lemma mget_madd (n : nat) (M : list (list R)) (i j r c : nat) (v : R) :
  square n M -> (i < n)%nat -> (j < n)%nat ->
  JS.mget (JS.madd i j v M) r c
  = (JS.mget M r c + if Nat.eqb r i && Nat.eqb c j then v else 0)%R.
Proof.
  intros HM Hi Hj. unfold JS.madd. rewrite (mget_mset _ _ _ HM Hi Hj).
  destruct (Nat.eqb_spec r i) as [->|N]; simpl; [|lra].
  destruct (Nat.eqb_spec c j) as [->|N]; simpl; lra.
Qed.

Lemma mget_msub (n : nat) (M : list (list R)) (i j r c : nat) (v : R) :
  square n M -> (i < n)%nat -> (j < n)%nat ->
  JS.mget (JS.msub i j v M) r c
  = (JS.mget M r c - if Nat.eqb r i && Nat.eqb c j then v else 0)%R.
Proof.
  intros HM Hi Hj. unfold JS.msub. rewrite (mget_mset _ _ _ HM Hi Hj).
  destruct (Nat.eqb_spec r i) as [->|N]; simpl; [|lra].
  destruct (Nat.eqb_spec c j) as [->|N]; simpl; lra.
Qed.

Lemma vget_vadd (v : list R) (i r : nat) (x : R) :
  (i < List.length v)%nat ->
  JS.vget (JS.vadd i x v) r
  = (JS.vget v r + if Nat.eqb r i then x else 0)%R.
Proof.
  intro Hi. unfold JS.vadd. rewrite vget_vset by auto.
  destruct (Nat.eqb_spec r i) as [->|N]; lra.
Qed.

Lemma vget_vsub (v : list R) (i r : nat) (x : R) :
  (i < List.length v)%nat ->
  JS.vget (JS.vsub i x v) r
  = (JS.vget v r - if Nat.eqb r i then x else 0)%R.
Proof.
  intro Hi. unfold JS.vsub. rewrite vget_vset by auto.
  destruct (Nat.eqb_spec r i) as [->|N]; lra.
Qed.

Lemma square_madd (n : nat) (M : list (list R)) (i j : nat) (v : R) :
  square n M -> square n (JS.madd i j v M).
Proof. apply square_mset. Qed.

Lemma square_msub (n : nat) (M : list (list R)) (i j : nat) (v : R) :
  square n M -> square n (JS.msub i j v M).
Proof. apply square_mset. Qed.

Lemma vset_length (i : nat) (x : R) (v : list R) :
  List.length (JS.vset i x v) = List.length v.
Proof. apply aset_length. Qed.

Lemma stampTwoTerminal_entries (n : nat) (G : list (list R)) (I : list R)
      (n1 n2 : nat) (g i : R) :
  square n G -> List.length I = n -> (n1 <= n)%nat -> (n2 <= n)%nat ->
  (forall r c,
      JS.mget (fst (stampTwoTerminal n1 n2 g i (G, I))) r c
      = (JS.mget G r c + g * conductance_coeff n1 n2 r c)%R)
  /\ (forall r,
         JS.vget (snd (stampTwoTerminal n1 n2 g i (G, I))) r
         = (JS.vget I r + i * current_coeff n1 n2 r)%R).
Proof.
  intros HG HI H1 H2.
  unfold stampTwoTerminal, conductance_coeff, current_coeff, at_node,
    getNodeIdx.
  destruct n1 as [|m1]; destruct n2 as [|m2]; simpl;
    rewrite ?Nat.sub_0_r.
  - split; intros; lra.
  - split; intros.
    + rewrite (@mget_madd n) by (auto; lia).
      destruct (Nat.eqb r m2), (Nat.eqb c m2); simpl; lra.
    + rewrite vget_vsub by lia. destruct (Nat.eqb r m2); lra.
  - split; intros.
    + rewrite (@mget_madd n) by (auto; lia).
      destruct (Nat.eqb r m1), (Nat.eqb c m1); simpl; lra.
    + rewrite vget_vadd by lia. destruct (Nat.eqb r m1); lra.
  - split; intros.
    + rewrite (@mget_msub n), (@mget_msub n), (@mget_madd n), (@mget_madd n);
        auto using square_madd, square_msub; try lia.
      destruct (Nat.eqb r m1), (Nat.eqb c m1), (Nat.eqb r m2),
        (Nat.eqb c m2); simpl; lra.
    + rewrite vget_vsub, vget_vadd; unfold JS.vadd;
        rewrite ?vset_length; try lia.
      destruct (Nat.eqb r m1), (Nat.eqb r m2); lra.
Qed.

Lemma vget_zeros (n r : nat) : JS.vget (JS.zeros n) r = 0%R.
Proof.
  unfold JS.vget, JS.zeros.
  destruct (Nat.lt_ge_cases r n).
  - now rewrite nth_repeat_lt.
  - apply nth_overflow. now rewrite repeat_length.
Qed.

Lemma mget_zeroMatrix (n r c : nat) : JS.mget (JS.zeroMatrix n) r c = 0%R.
Proof.
  unfold JS.mget, JS.zeroMatrix.
  destruct (Nat.lt_ge_cases r n).
  - rewrite nth_repeat_lt by auto. apply vget_zeros.
  - rewrite nth_overflow; [now destruct c|]. now rewrite repeat_length.
Qed.

(** ** C5: the stamp of a diode *)

Lemma size_numNodes env : (env_numNodes env <= size env)%nat.
Proof. unfold size. lia. Qed.

(** C5.  In an iteration of solveCircuit a DIODE or LED whose ports map
    to the nodes n1 and n2 adds to the system, with vFwd = value if
    value > 0 else 0.7 and vD = V(n1) - V(n2) read from the current
    iterate: if vD > vFwd, the conductance 0.1 between n1 and n2 and the
    current 0.1*vFwd into n1 and out of n2; otherwise the conductance
    1e-9 and no current. *)
Theorem C5_diode_stamp (components : list CircuitComponent)
        (wires : list Wire) (cv : list (nat * R)) (c : CircuitComponent)
        (n1 n2 : nat) (G : list (list R)) (I_rhs : list R) :
  let g := buildGraph components wires in
  let env := graphEnv components g in
  type c = DIODE \/ type c = LED ->
  sget (portKey (id c) 0) (portToNode g) = Some n1 ->
  sget (portKey (id c) 1) (portToNode g) = Some n2 ->
  square (size env) G -> List.length I_rhs = size env ->
  let vFwd := if JS.gtb (value c) 0 then value c else 0.7%R in
  let vD := (voltageAt cv n1 - voltageAt cv n2)%R in
  let Y := if JS.gtb vD vFwd then 0.1%R else 1e-9%R in
  let i := if JS.gtb vD vFwd then (0.1 * vFwd)%R else 0%R in
  (forall r col,
      JS.mget (fst (stampPassive env cv (G, I_rhs) c)) r col
      = (JS.mget G r col + Y * conductance_coeff n1 n2 r col)%R)
  /\ (forall r,
         JS.vget (snd (stampPassive env cv (G, I_rhs) c)) r
         = (JS.vget I_rhs r + i * current_coeff n1 n2 r)%R).
Proof.
  intros g env Ht H1 H2 HG HI vFwd vD Y i.
  assert (R1 : (n1 <= size env)%nat).
  { pose proof (buildGraph_range _ _ _ H1). pose proof (size_numNodes env).
    simpl in *. fold g in H. lia. }
  assert (R2 : (n2 <= size env)%nat).
  { pose proof (buildGraph_range _ _ _ H2). pose proof (size_numNodes env).
    simpl in *. fold g in H. lia. }
  assert (E : stampPassive env cv (G, I_rhs) c
              = stampTwoTerminal n1 n2 Y i (G, I_rhs)).
  { unfold stampPassive, equivalent. simpl env_portToNode. fold g.
    rewrite H1, H2. fold vFwd vD. unfold Y, i.
    destruct Ht as [-> | ->]; simpl; destruct (JS.gtb vD vFwd); reflexivity. }
  rewrite E. now apply (@stampTwoTerminal_entries (size env)).
Qed.

(** C5, witness: the diode of the series circuit, at the first
    iteration. *)
Lemma C5_diode_stamp_witness :
  let env := graphEnv diode_components
                      (buildGraph diode_components diode_wires) in
  let d := component "d" DIODE 0 in
  (forall r col,
      JS.mget (fst (stampPassive env []
                      (JS.zeroMatrix (size env), JS.zeros (size env)) d))
              r col
      = (1e-9 * conductance_coeff 1 2 r col)%R)
  /\ (forall r,
         JS.vget (snd (stampPassive env []
                         (JS.zeroMatrix (size env), JS.zeros (size env)) d))
                 r
         = 0%R).
Proof.
  intros env d.
  destruct (@C5_diode_stamp diode_components diode_wires [] d 1 2
              (JS.zeroMatrix (size env)) (JS.zeros (size env)))
    as [HG HI].
  - now left.
  - reflexivity.
  - reflexivity.
  - apply square_repeat.
  - apply repeat_length.
  - assert (Hoff : JS.gtb (voltageAt [] 1 - voltageAt [] 2)
                          (if JS.gtb (value d) 0 then value d else 0.7)
                   = false).
    { unfold JS.gtb, voltageAt. simpl.
      destruct (Rlt_dec 0 0); [lra|].
      destruct (Rlt_dec 0.7 (0 - 0)); [lra|reflexivity]. }
    rewrite Hoff in HG, HI.
    split.
    + intros r col. rewrite HG, mget_zeroMatrix. lra.
    + intro r. rewrite HI, vget_zeros. lra.
Defined.

(** ** C3: the order of the extra unknowns *)

Lemma nth_mset_other (M : list (list R)) (i j r : nat) (v : R) :
  r <> i -> nth r (JS.mset i j v M) [] = nth r M [].
Proof. intro H. unfold JS.mset. apply nth_aset_other. auto. Qed.

Lemma nth_madd_other (M : list (list R)) (i j r : nat) (v : R) :
  r <> i -> nth r (JS.madd i j v M) [] = nth r M [].
Proof. apply nth_mset_other. Qed.

Lemma vget_vset_other (v : list R) (i r : nat) (x : R) :
  r <> i -> JS.vget (JS.vset i x v) r = JS.vget v r.
Proof. intro H. unfold JS.vget, JS.vset. apply nth_aset_other. auto. Qed.

(** A pass whose callback assigns [I_rhs[base + k]] for the [k]-th
    element assigns the right-hand sides of a block of rows. *)
Lemma rhs_pass {A : Type}
      (f : list (list R) * list R -> A -> nat -> list (list R) * list R)
      (base : nat) (val : A -> R) :
  (forall G I a k, snd (f (G, I) a k) = JS.vset (base + k) (val a) I) ->
  forall l start GI,
    (base + start + List.length l <= List.length (snd GI))%nat ->
    (forall i a, nth_error l i = Some a ->
                 JS.vget (snd (JS.forEach_from f start l GI))
                         (base + start + i) = val a)
    /\ (forall r, (r < base + start)%nat
                  \/ (base + start + List.length l <= r)%nat ->
                  JS.vget (snd (JS.forEach_from f start l GI)) r
                  = JS.vget (snd GI) r)
    /\ List.length (snd (JS.forEach_from f start l GI))
       = List.length (snd GI).
Proof.
  intros Hf. induction l as [|a l IH]; intros start [G I] Hlen; simpl in *.
  - split; [|split]; auto. intros [|i] b; discriminate.
  - assert (Hlen' : (base + S start + List.length l
                     <= List.length (snd (f (G, I) a start)))%nat).
    { rewrite Hf, vset_length. lia. }
    destruct (IH (S start) (f (G, I) a start) Hlen') as (IH1 & IH2 & IH3).
    split; [|split].
    + intros [|i] b Hb; simpl in Hb.
      * injection Hb as <-. rewrite Nat.add_0_r, IH2 by lia.
        rewrite Hf, vget_vset by lia. now rewrite Nat.eqb_refl.
      * replace (base + start + S i)%nat with (base + S start + i)%nat
          by lia. now apply IH1.
    + intros r Hr. rewrite IH2 by lia.
      rewrite Hf, vget_vset_other by lia. reflexivity.
    + rewrite IH3, Hf. apply vset_length.
Qed.

(** A pass whose callbacks keep the extra rows other than their own
    keeps the extra rows outside its block. *)
Lemma rows_pass {A : Type}
      (f : list (list R) * list R -> A -> nat -> list (list R) * list R)
      (numNodes base : nat) :
  (forall GI a k, extra_rows_kept numNodes (base + k) GI (f GI a k)) ->
  forall l start GI r,
    (numNodes <= r)%nat ->
    (r < base + start)%nat \/ (base + start + List.length l <= r)%nat ->
    nth r (fst (JS.forEach_from f start l GI)) [] = nth r (fst GI) [].
Proof.
  intros Hf. induction l as [|a l IH]; intros start GI r Hr Hout; simpl in *.
  - reflexivity.
  - rewrite IH by (auto; lia).
    apply (Hf GI a start r Hr). lia.
Qed.


Lemma isNode_Some (o : option nat) (n : nat) :
  isNode o = Some n -> o = Some n /\ (1 <= n)%nat.
Proof.
  destruct o as [[|m]|]; simpl; try discriminate.
  intros [= <-]. split; auto. lia.
Qed.

Section ExtraRows.

Variable env : Env.
Hypothesis node_range :
  forall k n, sget k (env_portToNode env) = Some n ->
              (n <= env_numNodes env)%nat.

Lemma isNode_range (k : string) (n : nat) :
  isNode (sget k (env_portToNode env)) = Some n ->
  (getNodeIdx n < env_numNodes env)%nat.
Proof.
  intro H. apply isNode_Some in H. destruct H as [H H1].
  apply node_range in H. unfold getNodeIdx. lia.
Qed.

Lemma stampBranch_rows (kp kn : string) (idx r : nat) (G : list (list R)) :
  (env_numNodes env <= r)%nat -> r <> idx ->
  nth r (stampBranch (sget kp (env_portToNode env))
                     (sget kn (env_portToNode env)) idx G) []
  = nth r G [].
Proof.
  intros Hr Hidx. unfold stampBranch.
  destruct (isNode (sget kn (env_portToNode env))) as [n|] eqn:En;
    destruct (isNode (sget kp (env_portToNode env))) as [p|] eqn:Ep;
    try apply isNode_range in En; try apply isNode_range in Ep;
    rewrite ?nth_mset_other by lia; reflexivity.
Qed.

Lemma stampVoltageSource_rhs G I v k :
  snd (stampVoltageSource env (G, I) v k)
  = JS.vset (env_numNodes env + k) (sourceValueDC v) I.
Proof. reflexivity. Qed.

Lemma stampVoltageSource_rows GI v k :
  extra_rows_kept (env_numNodes env) (env_numNodes env + k) GI
                  (stampVoltageSource env GI v k).
Proof.
  destruct GI as [G I]. intros r Hr Hne. unfold stampVoltageSource. simpl.
  split; [now apply stampBranch_rows | now apply vget_vset_other].
Qed.

Lemma stampAmmeter_rhs G I a k :
  snd (stampAmmeter env (G, I) a k)
  = JS.vset (env_numNodes env
             + List.length (voltageSourcesOf (env_components env)) + k)
            0 I.
Proof. reflexivity. Qed.

Lemma stampAmmeter_rows GI a k :
  extra_rows_kept (env_numNodes env)
                  (env_numNodes env
                   + List.length (voltageSourcesOf (env_components env)) + k)
                  GI (stampAmmeter env GI a k).
Proof.
  destruct GI as [G I]. intros r Hr Hne. unfold stampAmmeter. simpl.
  split; [now apply stampBranch_rows | now apply vget_vset_other].
Qed.

Lemma stampOpamp_rhs cv G I op k :
  snd (stampOpamp env cv (G, I) op k)
  = JS.vset (env_numNodes env
             + List.length (voltageSourcesOf (env_components env))
             + List.length (ammetersOf (env_components env)) + k)
            (opampRhs env cv op) I.
Proof.
  unfold stampOpamp, opampRhs.
  destruct (clamp _) as [clampedV [|]]; reflexivity.
Qed.

Lemma stampOpamp_rows cv GI op k :
  extra_rows_kept (env_numNodes env)
                  (env_numNodes env
                   + List.length (voltageSourcesOf (env_components env))
                   + List.length (ammetersOf (env_components env)) + k)
                  GI (stampOpamp env cv GI op k).
Proof.
  destruct GI as [G I]. intros r Hr Hne. split.
  - unfold stampOpamp.
    destruct (clamp _) as [clampedV isSaturated].
    destruct (isNode (sget (portKey (id op) 2) (env_portToNode env)))
      as [o|] eqn:Eo;
      destruct (isNode (sget (portKey (id op) 0) (env_portToNode env)))
      as [p|] eqn:Ep;
      destruct (isNode (sget (portKey (id op) 1) (env_portToNode env)))
      as [n|] eqn:En;
      try apply isNode_range in Eo; try apply isNode_range in Ep;
      try apply isNode_range in En;
      destruct isSaturated; simpl;
      rewrite ?nth_mset_other by lia; reflexivity.
  - rewrite (surjective_pairing (stampOpamp env cv (G, I) op k)).
    rewrite stampOpamp_rhs. simpl. now apply vget_vset_other.
Qed.

Lemma stampGate_rhs gt G I g k :
  snd (stampGate env gt (G, I) g k)
  = JS.vset (env_numNodes env
             + List.length (voltageSourcesOf (env_components env))
             + List.length (ammetersOf (env_components env))
             + List.length (opampsOf (env_components env)) + k)
            (gateRhs gt g) I.
Proof. reflexivity. Qed.

Lemma stampGate_rows gt GI g k :
  extra_rows_kept (env_numNodes env)
                  (env_numNodes env
                   + List.length (voltageSourcesOf (env_components env))
                   + List.length (ammetersOf (env_components env))
                   + List.length (opampsOf (env_components env)) + k)
                  GI (stampGate env gt GI g k).
Proof.
  destruct GI as [G I]. intros r Hr Hne. split.
  - unfold stampGate. simpl.
    apply (fold_left_inv
             (fun G' => nth r G' [] = nth r G [])).
    + intros G' j HG' _.
      destruct (isNode (sget (portKey (id g) j) (env_portToNode env)))
        as [n|] eqn:En; auto.
      apply isNode_range in En. rewrite nth_madd_other by lia. auto.
    + destruct (isNode _) as [n|] eqn:En; auto.
      apply isNode_range in En. rewrite !nth_mset_other by lia. auto.
  - rewrite stampGate_rhs. now apply vget_vset_other.
Qed.

End ExtraRows.

Lemma stampTwoTerminal_length n1 n2 g i GI :
  List.length (snd (stampTwoTerminal n1 n2 g i GI)) = List.length (snd GI).
Proof.
  destruct GI as [G I]. unfold stampTwoTerminal.
  destruct (negb (Nat.eqb n1 0)), (negb (Nat.eqb n2 0)); simpl;
    unfold JS.vadd, JS.vsub; rewrite ?vset_length; reflexivity.
Qed.

Lemma stampPassive_length env cv GI c :
  List.length (snd (stampPassive env cv GI c)) = List.length (snd GI).
Proof.
  unfold stampPassive.
  destruct (includes extraTypes (type c)); auto.
  destruct (sget (portKey (id c) 0) (env_portToNode env)); auto.
  destruct (sget (portKey (id c) 1) (env_portToNode env)); auto.
  destruct (equivalent cv c n n0). apply stampTwoTerminal_length.
Qed.

Lemma stampOpampInput_rhs env GI c :
  snd (stampOpampInput env GI c) = snd GI.
Proof.
  unfold stampOpampInput.
  destruct (sget (portKey (id c) 0) (env_portToNode env)); auto.
  destruct (sget (portKey (id c) 1) (env_portToNode env)); auto.
  now destruct GI.
Qed.

Lemma nth_error_length {A} (l : list A) (i : nat) (a : A) :
  nth_error l i = Some a -> (i < List.length l)%nat.
Proof. intro H. apply nth_error_Some. congruence. Qed.

Lemma assemble_rhs env cv gt :
  let numNodes := env_numNodes env in
  let vs := voltageSourcesOf (env_components env) in
  let am := ammetersOf (env_components env) in
  let ops := opampsOf (env_components env) in
  let gates := logicGatesOf (env_components env) in
  let I := snd (assemble env cv gt) in
  (forall i v, nth_error vs i = Some v ->
               JS.vget I (numNodes + i) = sourceValueDC v)
  /\ (forall i a, nth_error am i = Some a ->
                  JS.vget I (numNodes + List.length vs + i) = 0%R)
  /\ (forall i op, nth_error ops i = Some op ->
                   JS.vget I (numNodes + List.length vs + List.length am + i)
                   = opampRhs env cv op)
  /\ (forall i g, nth_error gates i = Some g ->
                  JS.vget I (numNodes + List.length vs + List.length am
                             + List.length ops + i)
                  = gateRhs gt g).
Proof.
  intros numNodes vs am ops gates I. unfold I, assemble.
  set (GI2 := fold_left (stampOpampInput env) (opampsOf (env_components env))
                (fold_left (stampPassive env cv) (env_components env)
                           (JS.zeroMatrix (size env), JS.zeros (size env)))).
  assert (L2 : List.length (snd GI2) = size env).
  { unfold GI2.
    apply (fold_left_inv (fun GI => List.length (snd GI) = size env)).
    { intros; now rewrite stampOpampInput_rhs. }
    apply (fold_left_inv (fun GI => List.length (snd GI) = size env)).
    { intros; now rewrite stampPassive_length. }
    apply repeat_length. }
  assert (Hsize : size env = (numNodes + (List.length vs + List.length gates
                                          + List.length am + List.length ops))%nat)
    by reflexivity.
  unfold JS.forEach_i.
  fold vs am ops gates. fold numNodes.
  set (GI3 := JS.forEach_from (stampVoltageSource env) 0 vs GI2).
  destruct (@rhs_pass _ (stampVoltageSource env) numNodes sourceValueDC
              (stampVoltageSource_rhs env) vs 0%nat GI2)
    as (V1 & V2 & V3); [lia|]. fold GI3 in V1, V2, V3.
  set (GI4 := JS.forEach_from (stampAmmeter env) 0 am GI3).
  destruct (@rhs_pass _ (stampAmmeter env) (numNodes + List.length vs)
              (fun _ => 0%R) (stampAmmeter_rhs env) am 0%nat GI3)
    as (A1 & A2 & A3); [lia|]. fold GI4 in A1, A2, A3.
  set (GI5 := JS.forEach_from (stampOpamp env cv) 0 ops GI4).
  destruct (@rhs_pass _ (stampOpamp env cv)
              (numNodes + List.length vs + List.length am)
              (opampRhs env cv) (stampOpamp_rhs env cv) ops 0%nat GI4)
    as (O1 & O2 & O3); [lia|]. fold GI5 in O1, O2, O3.
  destruct (@rhs_pass _ (stampGate env gt)
              (numNodes + List.length vs + List.length am + List.length ops)
              (gateRhs gt) (stampGate_rhs env gt) gates 0%nat GI5)
    as (G1 & G2 & G3); [lia|].
  split; [|split; [|split]].
  - intros i v Hv. pose proof (nth_error_length _ _ Hv).
    rewrite G2, O2, A2 by lia.
    specialize (V1 i v Hv). now rewrite Nat.add_0_r in V1.
  - intros i a Ha. pose proof (nth_error_length _ _ Ha).
    rewrite G2, O2 by lia.
    specialize (A1 i a Ha). now rewrite Nat.add_0_r in A1.
  - intros i op Hop. pose proof (nth_error_length _ _ Hop).
    rewrite G2 by lia.
    specialize (O1 i op Hop). now rewrite Nat.add_0_r in O1.
  - intros i g Hg.
    specialize (G1 i g Hg). now rewrite Nat.add_0_r in G1.
Qed.

Lemma unique_ids_filter (keep : CircuitComponent -> bool)
      (components : list CircuitComponent) :
  NoDup (map id components) -> NoDup (map id (filter keep components)).
Proof.
  induction components as [|c cs IH]; simpl; auto.
  intro H. apply NoDup_cons_iff in H. destruct H as [Hc Hcs].
  destruct (keep c); simpl; auto.
  apply NoDup_cons; auto.
  intro Hin. apply Hc.
  apply in_map_iff in Hin. destruct Hin as [b [Hb Hin]].
  apply filter_In in Hin. rewrite <- Hb. apply in_map. tauto.
Qed.










(** ** C4: the extra row of an op-amp *)

Lemma nth_mset_same (M : list (list R)) (i j : nat) (v : R) :
  (i < List.length M)%nat ->
  nth i (JS.mset i j v M) [] = JS.vset j v (nth i M []).
Proof. intro H. unfold JS.mset. now apply nth_aset_same. Qed.

Lemma mset_length (M : list (list R)) (i j : nat) (v : R) :
  List.length (JS.mset i j v M) = List.length M.
Proof. apply aset_length. Qed.

Lemma stampTwoTerminal_rows (N n1 n2 r : nat) (g i : R) GI :
  (n1 <= N)%nat -> (n2 <= N)%nat -> (N <= r)%nat ->
  nth r (fst (stampTwoTerminal n1 n2 g i GI)) [] = nth r (fst GI) [].
Proof.
  intros H1 H2 Hr. destruct GI as [G I].
  unfold stampTwoTerminal, getNodeIdx, JS.madd, JS.msub.
  destruct n1 as [|m1]; destruct n2 as [|m2]; simpl;
    rewrite ?nth_mset_other by lia; reflexivity.
Qed.

Lemma stampTwoTerminal_rows_length n1 n2 g i GI :
  List.length (fst (stampTwoTerminal n1 n2 g i GI)) = List.length (fst GI).
Proof.
  destruct GI as [G I].
  unfold stampTwoTerminal, JS.madd, JS.msub.
  destruct (negb (Nat.eqb n1 0)), (negb (Nat.eqb n2 0)); simpl;
    rewrite ?mset_length; reflexivity.
Qed.

Section NodeRows.

Variable env : Env.
Hypothesis node_range :
  forall k n, sget k (env_portToNode env) = Some n ->
              (n <= env_numNodes env)%nat.

Lemma stampPassive_rows cv GI c (r : nat) :
  (env_numNodes env <= r)%nat ->
  nth r (fst (stampPassive env cv GI c)) [] = nth r (fst GI) [].
Proof.
  intro Hr. unfold stampPassive.
  destruct (includes extraTypes (type c)); auto.
  destruct (sget (portKey (id c) 0) (env_portToNode env)) eqn:E1; auto.
  destruct (sget (portKey (id c) 1) (env_portToNode env)) eqn:E2; auto.
  destruct (equivalent cv c n n0).
  apply stampTwoTerminal_rows with (N := env_numNodes env); eauto.
Qed.

Lemma stampOpampInput_rows GI c (r : nat) :
  (env_numNodes env <= r)%nat ->
  nth r (fst (stampOpampInput env GI c)) [] = nth r (fst GI) [].
Proof.
  intro Hr. unfold stampOpampInput.
  destruct (sget (portKey (id c) 0) (env_portToNode env)) eqn:E1; auto.
  destruct (sget (portKey (id c) 1) (env_portToNode env)) eqn:E2; auto.
  destruct GI as [G I].
  apply node_range in E1, E2. unfold getNodeIdx, JS.madd, JS.msub.
  destruct n as [|m1]; destruct n0 as [|m2]; simpl;
    rewrite ?nth_mset_other by lia; reflexivity.
Qed.

Lemma stampOpamp_row cv G I op k :
  let idx := (env_numNodes env
              + List.length (voltageSourcesOf (env_components env))
              + List.length (ammetersOf (env_components env)) + k)%nat in
  (idx < List.length G)%nat ->
  nth idx (fst (stampOpamp env cv (G, I) op k)) []
  = opampRowUpdate env cv op (nth idx G []).
Proof.
  intros idx Hidx. unfold stampOpamp, opampRowUpdate. fold idx.
  destruct (clamp _) as [clampedV isSaturated]. simpl snd.
  destruct (isNode (sget (portKey (id op) 2) (env_portToNode env)))
    as [o|] eqn:Eo;
    destruct (isNode (sget (portKey (id op) 0) (env_portToNode env)))
    as [p|] eqn:Ep;
    destruct (isNode (sget (portKey (id op) 1) (env_portToNode env)))
    as [n|] eqn:En;
    try (pose proof (isNode_range env node_range _ Eo));
    destruct isSaturated; simpl;
    rewrite ?nth_mset_same by (rewrite ?mset_length; auto);
    rewrite ?nth_mset_other by lia; reflexivity.
Qed.

End NodeRows.

Lemma row_pass {A : Type}
      (f : list (list R) * list R -> A -> nat -> list (list R) * list R)
      (N base : nat) (upd : A -> list R -> list R) :
  (N <= base)%nat ->
  (forall GI a k, extra_rows_kept N (base + k) GI (f GI a k)) ->
  (forall GI a k, List.length (fst (f GI a k)) = List.length (fst GI)) ->
  (forall G I a k,
      (base + k < List.length G)%nat ->
      nth (base + k) (fst (f (G, I) a k)) [] = upd a (nth (base + k) G [])) ->
  forall l start GI,
    (base + start + List.length l <= List.length (fst GI))%nat ->
    forall i a,
      nth_error l i = Some a ->
      nth (base + start + i) (fst (JS.forEach_from f start l GI)) []
      = upd a (nth (base + start + i) (fst GI) []).
Proof.
  intros HN Hkeep Hlen Hupd.
  induction l as [|b l IH]; intros start GI Hsz i a Ha.
  - destruct i; discriminate.
  - simpl in Hsz. simpl JS.forEach_from.
    destruct i as [|i]; simpl in Ha.
    + injection Ha as <-. rewrite Nat.add_0_r.
      rewrite (@rows_pass _ f N base Hkeep); [|lia|lia].
      destruct GI as [G I]. apply Hupd. simpl in *. lia.
    + replace (base + start + S i)%nat with (base + S start + i)%nat by lia.
      rewrite (IH (S start) (f GI b start)) with (a := a); auto.
      * f_equal. apply (Hkeep GI b start); lia.
      * rewrite Hlen. lia.
Qed.

Lemma stampBranch_length nPos nNeg idx (G : list (list R)) :
  List.length (stampBranch nPos nNeg idx G) = List.length G.
Proof.
  unfold stampBranch.
  destruct (isNode nPos), (isNode nNeg); rewrite ?mset_length; reflexivity.
Qed.

Lemma stampVoltageSource_length env GI v k :
  List.length (fst (stampVoltageSource env GI v k)) = List.length (fst GI).
Proof. destruct GI. apply stampBranch_length. Qed.

Lemma stampAmmeter_length env GI a k :
  List.length (fst (stampAmmeter env GI a k)) = List.length (fst GI).
Proof. destruct GI. apply stampBranch_length. Qed.

Lemma stampOpamp_length env cv GI op k :
  List.length (fst (stampOpamp env cv GI op k)) = List.length (fst GI).
Proof.
  destruct GI as [G I]. unfold stampOpamp.
  destruct (clamp _) as [clampedV isSaturated].
  destruct (isNode (sget (portKey (id op) 2) (env_portToNode env)));
    destruct (isNode (sget (portKey (id op) 0) (env_portToNode env)));
    destruct (isNode (sget (portKey (id op) 1) (env_portToNode env)));
    destruct isSaturated; simpl; rewrite ?mset_length; reflexivity.
Qed.

Lemma stampPassive_rows_length env cv GI c :
  List.length (fst (stampPassive env cv GI c)) = List.length (fst GI).
Proof.
  unfold stampPassive.
  destruct (includes extraTypes (type c)); auto.
  destruct (sget (portKey (id c) 0) (env_portToNode env)); auto.
  destruct (sget (portKey (id c) 1) (env_portToNode env)); auto.
  destruct (equivalent cv c n n0). apply stampTwoTerminal_rows_length.
Qed.

Lemma stampOpampInput_rows_length env GI c :
  List.length (fst (stampOpampInput env GI c)) = List.length (fst GI).
Proof.
  unfold stampOpampInput.
  destruct (sget (portKey (id c) 0) (env_portToNode env)); auto.
  destruct (sget (portKey (id c) 1) (env_portToNode env)); auto.
  destruct GI as [G I]. unfold JS.madd, JS.msub.
  destruct (negb (Nat.eqb n 0)), (negb (Nat.eqb n0 0)); simpl;
    rewrite ?mset_length; reflexivity.
Qed.

Lemma nth_zeroMatrix (n r : nat) :
  (r < n)%nat -> nth r (JS.zeroMatrix n) [] = JS.zeros n.
Proof. intro H. unfold JS.zeroMatrix. now apply nth_repeat_lt. Qed.

Lemma assemble_opamp_row env cv gt (i : nat) (op : CircuitComponent) :
  (forall k n, sget k (env_portToNode env) = Some n ->
               (n <= env_numNodes env)%nat) ->
  nth_error (opampsOf (env_components env)) i = Some op ->
  nth (env_numNodes env
       + List.length (voltageSourcesOf (env_components env))
       + List.length (ammetersOf (env_components env)) + i)
      (fst (assemble env cv gt)) []
  = opampRowUpdate env cv op (JS.zeros (size env)).
Proof.
  intros Hrange Hop.
  set (N := env_numNodes env).
  set (vs := voltageSourcesOf (env_components env)).
  set (am := ammetersOf (env_components env)).
  set (ops := opampsOf (env_components env)) in *.
  set (gates := logicGatesOf (env_components env)).
  set (idx := (N + List.length vs + List.length am + i)%nat).
  pose proof (nth_error_length _ _ Hop) as Hi.
  assert (Hsize : size env = (N + (List.length vs + List.length gates
                                   + List.length am + List.length ops))%nat)
    by reflexivity.
  unfold assemble, JS.forEach_i. fold vs am ops gates.
  set (GI2 := fold_left (stampOpampInput env) ops
                (fold_left (stampPassive env cv) (env_components env)
                           (JS.zeroMatrix (size env), JS.zeros (size env)))).
  assert (H2 : List.length (fst GI2) = size env
               /\ forall r, (N <= r)%nat ->
                            nth r (fst GI2) []
                            = nth r (JS.zeroMatrix (size env)) []).
  { unfold GI2.
    apply (fold_left_inv
             (fun GI => List.length (fst GI) = size env
                        /\ forall r, (N <= r)%nat ->
                                     nth r (fst GI) []
                                     = nth r (JS.zeroMatrix (size env)) [])).
    { intros GI c [HL HR] _. split.
      - now rewrite stampOpampInput_rows_length.
      - intros r Hr. rewrite stampOpampInput_rows; auto. }
    apply (fold_left_inv
             (fun GI => List.length (fst GI) = size env
                        /\ forall r, (N <= r)%nat ->
                                     nth r (fst GI) []
                                     = nth r (JS.zeroMatrix (size env)) [])).
    { intros GI c [HL HR] _. split.
      - now rewrite stampPassive_rows_length.
      - intros r Hr. rewrite stampPassive_rows; auto. }
    split; [apply repeat_length | reflexivity]. }
  destruct H2 as [L2 R2].
  set (GI3 := JS.forEach_from (stampVoltageSource env) 0 vs GI2).
  assert (L3 : List.length (fst GI3) = size env).
  { unfold GI3.
    apply (forEach_from_inv (fun GI => List.length (fst GI) = size env));
      auto.
    intros; now rewrite stampVoltageSource_length. }
  set (GI4 := JS.forEach_from (stampAmmeter env) 0 am GI3).
  assert (L4 : List.length (fst GI4) = size env).
  { unfold GI4.
    apply (forEach_from_inv (fun GI => List.length (fst GI) = size env));
      auto.
    intros; now rewrite stampAmmeter_length. }
  set (GI5 := JS.forEach_from (stampOpamp env cv) 0 ops GI4).
  rewrite (@rows_pass _ (stampGate env gt) N
             (N + List.length vs + List.length am + List.length ops)
             (fun GI a k => @stampGate_rows env Hrange gt GI a k));
    [|unfold idx; lia|unfold idx; lia].
  replace idx with (N + List.length vs + List.length am + 0 + i)%nat
    by (unfold idx; lia).
  unfold GI5.
  rewrite (@row_pass _ (stampOpamp env cv) N
             (N + List.length vs + List.length am)
             (opampRowUpdate env cv)) with (a := op); auto; try lia.
  - f_equal. rewrite Nat.add_0_r. fold idx.
    unfold GI4.
    rewrite (@rows_pass _ (stampAmmeter env) N (N + List.length vs)
               (fun GI a k => @stampAmmeter_rows env Hrange GI a k));
      [|unfold idx; lia|unfold idx; lia].
    unfold GI3.
    rewrite (@rows_pass _ (stampVoltageSource env) N N
               (fun GI a k => @stampVoltageSource_rows env Hrange GI a k));
      [|unfold idx; lia|unfold idx; lia].
    rewrite R2 by (unfold idx; lia).
    apply nth_zeroMatrix. unfold idx. lia.
  - intros GI a k. exact (@stampOpamp_rows env Hrange cv GI a k).
  - intros. apply stampOpamp_length.
  - intros G I a k Hk. exact (@stampOpamp_row env Hrange cv G I a k Hk).
Qed.

Lemma gtb_false (a b : R) : (a <= b)%R -> JS.gtb a b = false.
Proof. intro H. unfold JS.gtb. destruct (Rlt_dec b a); auto; exfalso; lra. Qed.

Lemma ltb_false (a b : R) : (b <= a)%R -> JS.ltb a b = false.
Proof. intro H. unfold JS.ltb. destruct (Rlt_dec a b); auto; exfalso; lra. Qed.

Lemma gtb_true (a b : R) : (b < a)%R -> JS.gtb a b = true.
Proof. intro H. unfold JS.gtb. destruct (Rlt_dec b a); auto; exfalso; lra. Qed.

Lemma ltb_true (a b : R) : (a < b)%R -> JS.ltb a b = true.
Proof. intro H. unfold JS.ltb. destruct (Rlt_dec a b); auto; exfalso; lra. Qed.

(** Where the three ports of an op-amp lie on different nodes (ground
    apart), its extra row holds the coefficients of the clamped or of
    the linear relation. *)
Lemma opamp_row_distinct env cv (op : CircuitComponent) :
  let p2n := env_portToNode env in
  let nPos := sget (portKey (id op) 0) p2n in
  let nNeg := sget (portKey (id op) 1) p2n in
  let nOut := sget (portKey (id op) 2) p2n in
  let Gain := opampGain op in
  let targetV := (Gain * (opampInputV cv nPos - opampInputV cv nNeg))%R in
  let row := opampRowUpdate env cv op (JS.zeros (size env)) in
  (forall k n, sget k p2n = Some n -> (n <= env_numNodes env)%nat) ->
  (forall a b, isNode nOut = Some a -> isNode nPos = Some b -> a <> b) ->
  (forall a b, isNode nOut = Some a -> isNode nNeg = Some b -> a <> b) ->
  (forall a b, isNode nPos = Some a -> isNode nNeg = Some b -> a <> b) ->
  (snd (clamp targetV) = true ->
   forall c, JS.vget row c = if column_of nOut c then 1%R else 0%R)
  /\ (snd (clamp targetV) = false ->
      forall c, JS.vget row c = relation_coeff nOut nPos nNeg Gain c).
Proof.
  intros p2n nPos nNeg nOut Gain targetV row Hrange Dop Don Dpn.
  pose proof (size_numNodes env) as Hsz.
  assert (Hidx : forall k m, isNode (sget k p2n) = Some m ->
                             (getNodeIdx m < List.length (JS.zeros (size env)))%nat
                             /\ (1 <= m)%nat).
  { intros k m H. pose proof (isNode_range env Hrange _ H).
    apply isNode_Some in H. unfold JS.zeros. rewrite repeat_length.
    split; [lia|tauto]. }
  unfold row, opampRowUpdate, relation_coeff, column_of.
  fold p2n. fold nPos nNeg nOut. fold Gain. fold targetV.
  split; intros Hs c; rewrite Hs.
  - destruct (isNode nOut) as [o|] eqn:Eo; [|apply vget_zeros].
    destruct (Hidx _ _ Eo) as [Ho _].
    rewrite vget_vset by auto. destruct (Nat.eqb c (getNodeIdx o)); auto.
    apply vget_zeros.
  - destruct (isNode nOut) as [o|] eqn:Eo;
      destruct (isNode nPos) as [p|] eqn:Ep;
      destruct (isNode nNeg) as [n|] eqn:En;
      try (destruct (Hidx _ _ Eo) as [Ho Ho1]);
      try (destruct (Hidx _ _ Ep) as [Hp Hp1]);
      try (destruct (Hidx _ _ En) as [Hn Hn1]);
      try (pose proof (Dop _ _ eq_refl eq_refl));
      try (pose proof (Don _ _ eq_refl eq_refl));
      try (pose proof (Dpn _ _ eq_refl eq_refl));
      repeat (rewrite vget_vset by (rewrite ?vset_length; auto));
      rewrite vget_zeros;
      unfold getNodeIdx in *;
      repeat match goal with
             | |- context [Nat.eqb ?a ?b] => destruct (Nat.eqb_spec a b)
             end; try lia; lra.
Qed.

Lemma clamp_unsaturated (t : R) :
  (-15 <= t <= 15)%R -> clamp t = (t, false).
Proof.
  intros [H1 H2]. unfold clamp, RAIL_POS, RAIL_NEG.
  rewrite gtb_false, ltb_false by lra. reflexivity.
Qed.

(** C4, the code at the failing input.  In the voltage follower the
    output and the inverting input of the op-amp share node 2 and the
    non-inverting input is node 1.  At the first iteration the op-amp
    is not saturated and its extra row (row 3) is
    [-100000, 100000, 0, 0] with right-hand side 0: the coefficient of
    the output node is the gain 100000, where the relation
    V(out) - gain*V(+) + gain*V(-) = 0 has 1 + 100000. *)
Theorem C4_follower_row :
  let env := graphEnv follower_components
                      (buildGraph follower_components follower_wires) in
  let op := component "op" OPAMP 0 in
  let st := initialState env in
  let GI := assemble env (currentVoltages st) (gateTargets st) in
  sget "op:0"%string (env_portToNode env) = Some 1%nat
  /\ sget "op:1"%string (env_portToNode env) = Some 2%nat
  /\ sget "op:2"%string (env_portToNode env) = Some 2%nat
  /\ opampGain op = 100000%R
  /\ nth 3 (fst GI) [] = [(-100000)%R; 100000%R; 0%R; 0%R]
  /\ JS.vget (snd GI) 3 = 0%R
  /\ relation_coeff (Some 2%nat) (Some 1%nat) (Some 2%nat) 100000 1
     = 100001%R.
Proof.
  intros env op st GI.
  assert (Hrange : forall k n, sget k (env_portToNode env) = Some n ->
                               (n <= env_numNodes env)%nat).
  { intros k n H. now apply buildGraph_range in H. }
  assert (Hgain : opampGain op = 100000%R).
  { unfold opampGain. simpl value. rewrite gtb_false by lra. reflexivity. }
  assert (Hv : forall n, voltageAt (currentVoltages st) n = 0%R).
  { intro n. unfold voltageAt.
    destruct (nget n (currentVoltages st)) as [v|] eqn:E; auto.
    rewrite num_or_0.
    assert (Hcv : currentVoltages st
                  = [(0%nat, 0%R); (1%nat, 0%R); (2%nat, 0%R)])
      by reflexivity.
    rewrite Hcv in E. simpl in E.
    destruct n as [|[|[|n]]]; simpl in E; congruence. }
  assert (Hclamp : clamp (opampGain op
                          * (opampInputV (currentVoltages st) (Some 1%nat)
                             - opampInputV (currentVoltages st)
                                           (Some 2%nat)))
                   = (0%R, false)).
  { unfold opampInputV. cbn [isNode]. rewrite !Hv, Hgain.
    replace (100000 * (0 - 0))%R with 0%R by lra.
    apply clamp_unsaturated. lra. }
  split; [reflexivity|]. split; [reflexivity|]. split; [reflexivity|].
  split; [exact Hgain|]. split; [|split].
  - transitivity (opampRowUpdate env (currentVoltages st) op
                                 (JS.zeros (size env))).
    + exact (@assemble_opamp_row env (currentVoltages st) (gateTargets st)
               0 op Hrange eq_refl).
    + unfold opampRowUpdate.
      change (sget (portKey (id op) 0) (env_portToNode env))
        with (Some 1%nat).
      change (sget (portKey (id op) 1) (env_portToNode env))
        with (Some 2%nat).
      change (sget (portKey (id op) 2) (env_portToNode env))
        with (Some 2%nat).
      rewrite Hclamp, Hgain. reflexivity.
  - transitivity (opampRhs env (currentVoltages st) op).
    + exact (proj1 (proj2 (proj2 (assemble_rhs env (currentVoltages st)
                                               (gateTargets st))))
                   0%nat op eq_refl).
    + unfold opampRhs.
      change (sget (portKey (id op) 0) (env_portToNode env))
        with (Some 1%nat).
      change (sget (portKey (id op) 1) (env_portToNode env))
        with (Some 2%nat).
      rewrite Hclamp. reflexivity.
  - unfold relation_coeff, column_of. simpl. lra.
Qed.

(** ** C6: waveforms of the transient engine *)

Lemma stampPassiveTR_length env config prev ic GI c :
  List.length (snd (stampPassiveTR env config prev ic GI c))
  = List.length (snd GI).
Proof.
  unfold stampPassiveTR.
  destruct (includes skippedAC (type c)); auto.
  destruct (includes logicGateTypes (type c)); auto.
  destruct (sget (portKey (id c) 0) (env_portToNode env)); auto.
  destruct (sget (portKey (id c) 1) (env_portToNode env)); auto.
  destruct GI as [G I].
  destruct (ComponentType_eqb (type c) OPAMP); auto.
  destruct (match type c with
            | RESISTOR => _ | CAPACITOR => _ | INDUCTOR => _ | _ => _
            end) as [g_equiv i_source].
  destruct (negb (Nat.eqb n 0)), (negb (Nat.eqb n0 0)),
    (ComponentType_eqb (type c) CAPACITOR),
    (ComponentType_eqb (type c) INDUCTOR); simpl;
    unfold JS.vadd, JS.vsub; rewrite ?vset_length; reflexivity.
Qed.

Lemma assembleTR_rhs env config (time : R) prev ic (i : nat)
      (v : CircuitComponent) :
  nth_error (voltageSourcesOf (env_components env)) i = Some v ->
  JS.vget (snd (assembleTR env config time prev ic)) (env_numNodes env + i)
  = sourceValue v time.
Proof.
  intro Hv. pose proof (nth_error_length _ _ Hv) as Hi.
  unfold assembleTR, JS.forEach_i.
  set (vs := voltageSourcesOf (env_components env)) in *.
  set (ops := opampsOf (env_components env)).
  set (N := env_numNodes env).
  set (GI1 := fold_left (stampPassiveTR env config prev ic)
                        (env_components env)
                        (JS.zeroMatrix (trSize env), JS.zeros (trSize env))).
  assert (L1 : List.length (snd GI1) = trSize env).
  { unfold GI1.
    apply (fold_left_inv (fun GI => List.length (snd GI) = trSize env)).
    - intros; now rewrite stampPassiveTR_length.
    - apply repeat_length. }
  assert (Hsize : trSize env = (N + List.length vs + List.length ops)%nat)
    by reflexivity.
  set (GI2 := JS.forEach_from (stampVoltageSourceTR env time) 0 vs GI1).
  destruct (@rhs_pass _ (stampVoltageSourceTR env time) N
              (fun v => sourceValue v time)
              (fun G I a k => eq_refl) vs 0%nat GI1)
    as (V1 & V2 & V3); [lia|]. fold GI2 in V1, V2, V3.
  destruct (@rhs_pass _ (stampOpampTR env) (N + List.length vs)
              (fun _ => 0%R) (fun G I a k => eq_refl) ops 0%nat GI2)
    as (O1 & O2 & O3); [lia|].
  rewrite O2 by lia.
  specialize (V1 i v Hv). now rewrite Nat.add_0_r in V1.
Qed.

(** C6 (as amended).  In solveTransient an AC_SOURCE whose waveform
    field is absent, empty or "SINE" is a sine source: at every time
    step its right-hand side, stamped at row numNodes + i for the i-th
    source, is value*sin(2*pi*f*t) + b with f = frequency (60 when
    absent or 0) and b = dcBias (0 when absent). *)
Theorem C6_default_waveform_is_sine (env : Env) (config : SimulationConfig)
        (v : CircuitComponent) (i : nat) (time : R)
        (prev : list R) (ic : list (string * R)) :
  type v = AC_SOURCE ->
  waveform v = None \/ waveform v = Some ""%string
  \/ waveform v = Some "SINE"%string ->
  nth_error (voltageSourcesOf (env_components env)) i = Some v ->
  sourceValue v time
  = (value v * sin (2 * PI * JS.opt_or (frequency v) 60 * time)
     + JS.opt_or (dcBias v) 0)%R
  /\ JS.vget (snd (assembleTR env config time prev ic))
             (env_numNodes env + i)
     = (value v * sin (2 * PI * JS.opt_or (frequency v) 60 * time)
        + JS.opt_or (dcBias v) 0)%R.
Proof.
  intros Ht Hw Hv.
  assert (E : sourceValue v time
              = (value v * sin (2 * PI * JS.opt_or (frequency v) 60 * time)
                 + JS.opt_or (dcBias v) 0)%R).
  { unfold sourceValue, waveform_or_SINE. rewrite Ht. simpl.
    destruct Hw as [-> | [-> | ->]]; reflexivity. }
  split; auto. now rewrite (assembleTR_rhs env config time prev ic i Hv).
Qed.

(** C6, witness: the source without a waveform field, at the first time
    step. *)
Lemma C6_default_waveform_is_sine_witness :
  let env := graphEnv sine_components
                      (buildGraph sine_components sine_wires) in
  let v := component "a" AC_SOURCE 1 in
  type v = AC_SOURCE
  /\ waveform v = None
  /\ nth_error (voltageSourcesOf (env_components env)) 0 = Some v
  /\ JS.vget (snd (assembleTR env short_config 0
                              (prevVoltages (initialTransient env))
                              (inductorCurrents (initialTransient env))))
             (env_numNodes env + 0)
     = (value v * sin (2 * PI * JS.opt_or (frequency v) 60 * 0)
        + JS.opt_or (dcBias v) 0)%R.
Proof.
  intros env v.
  split; [reflexivity|]. split; [reflexivity|]. split; [reflexivity|].
  exact (proj2 (@C6_default_waveform_is_sine env short_config v 0%nat 0%R
                  (prevVoltages (initialTransient env))
                  (inductorCurrents (initialTransient env))
                  eq_refl (or_introl eq_refl) eq_refl)).
Defined.

(** C6, counterexample to the claim as stated: a source whose waveform
    is "NOISE" matches no case of the switch, and at time 0 its stamped
    right-hand side is its value 1, where the sine formula gives 0. *)
Lemma C6_counterexample :
  let env := graphEnv noise_components
                      (buildGraph noise_components noise_wires) in
  type noise_source = AC_SOURCE
  /\ waveform noise_source = Some "NOISE"%string
  /\ nth_error (voltageSourcesOf (env_components env)) 0 = Some noise_source
  /\ JS.vget (snd (assembleTR env short_config 0
                              (prevVoltages (initialTransient env))
                              (inductorCurrents (initialTransient env))))
             (env_numNodes env + 0)
     = 1%R
  /\ (value noise_source
      * sin (2 * PI * JS.opt_or (frequency noise_source) 60 * 0)
      + JS.opt_or (dcBias noise_source) 0)%R = 0%R.
Proof.
  intro env.
  split; [reflexivity|]. split; [reflexivity|]. split; [reflexivity|].
  split.
  - rewrite (@assembleTR_rhs env short_config 0%R _ _ 0%nat noise_source
               eq_refl).
    reflexivity.
  - simpl. rewrite Rmult_0_r, sin_0. lra.
Qed.

(** ** C2: the frequencies of the sweep *)

Open Scope R_scope.

Lemma Math_floor_spec (r : R) :
  IZR (JS.Math_floor r) <= r < IZR (JS.Math_floor r) + 1.
Proof.
  unfold JS.Math_floor. rewrite minus_IZR.
  destruct (archimed r) as [H1 H2]. lra.
Qed.


Lemma ln_10_pos : 0 < ln 10.
Proof. rewrite <- ln_1. apply ln_increasing; lra. Qed.

Lemma pow10_log10 (f : R) : 0 < f -> JS.Math_pow10 (JS.Math_log10 f) = f.
Proof.
  intro H. unfold JS.Math_pow10, JS.Math_log10, Rpower.
  pose proof ln_10_pos.
  replace (ln f / ln 10 * ln 10) with (ln f) by (field; lra).
  now apply exp_ln.
Qed.

Lemma powerRZ_10_pos (z : Z) : 0 < powerRZ 10 z.
Proof. apply powerRZ_lt. lra. Qed.














(* ------------------------------------------------------------------ *)
(** ** The store: no object handed to a call is changed *)

Section Frame.

Local Open Scope nat_scope.

Lemma keeps_refl (h : Store.heap) : Store.keeps h h.
Proof. exists []. now rewrite app_nil_r. Qed.

Lemma keeps_trans (h1 h2 h3 : Store.heap) :
  Store.keeps h1 h2 -> Store.keeps h2 h3 -> Store.keeps h1 h3.
Proof.
  intros [n1 ->] [n2 ->]. exists (n1 ++ n2). now rewrite app_assoc.
Qed.

Lemma keeps_alloc (h0 h : Store.heap) (o : Store.object) :
  Store.keeps h0 h -> Store.keeps h0 (h ++ [o]).
Proof. intros [n ->]. exists (n ++ [o]). now rewrite app_assoc. Qed.

Lemma keeps_length (h h' : Store.heap) :
  Store.keeps h h' -> List.length h <= List.length h'.
Proof. intros [n ->]. rewrite length_app. lia. Qed.

Lemma aset_app_r {A} (l : nat) (v : A) (h new : list A) :
  List.length h <= l ->
  JS.aset l v (h ++ new) = h ++ JS.aset (l - List.length h) v new.
Proof.
  revert l; induction h as [|y h IH]; intros l Hl; simpl in *.
  - now rewrite Nat.sub_0_r.
  - destruct l as [|l]; [lia|]. simpl. f_equal. apply IH. lia.
Qed.

Lemma keeps_store (h0 h : Store.heap) (l : nat) (o : Store.object) :
  Store.keeps h0 h -> List.length h0 <= l -> Store.keeps h0 (JS.aset l o h).
Proof.
  intros [n ->] Hl. exists (JS.aset (l - List.length h0) o n).
  now apply aset_app_r.
Qed.

Lemma keeps_unchanged (h h' : Store.heap) :
  Store.keeps h h' -> unchanged h h'.
Proof.
  intros [n ->] l o H. rewrite nth_error_app1; auto.
  apply nth_error_Some. congruence.
Qed.

(** *** Rules for [preserves] *)

Lemma preserves_ret {A} (P : Store.heap -> Prop) (a : A) :
  preserves P (Store.ret a).
Proof. intros h H; exact H. Qed.

Lemma preserves_throw {A} (P : Store.heap -> Prop) :
  preserves P (@Store.throw A).
Proof. intros h H; exact H. Qed.

Lemma preserves_bind {A B} (P : Store.heap -> Prop) (c : Store.St A)
      (k : A -> Store.St B) :
  preserves P c -> (forall a, preserves P (k a)) ->
  preserves P (Store.bind c k).
Proof.
  intros Hc Hk h H. unfold Store.bind. specialize (Hc h H).
  destruct (c h) as [h' [a|]]; simpl in *; auto. now apply Hk.
Qed.

Lemma preserves_try {A} (P : Store.heap -> Prop) (c : Store.St A) :
  preserves P c -> preserves P (Store.try c).
Proof. intros Hc h H. simpl. now apply Hc. Qed.

Lemma preserves_load (P : Store.heap -> Prop) (l : nat) :
  preserves P (Store.load l).
Proof. intros h H; exact H. Qed.

Lemma preserves_for {A S} (P : Store.heap -> Prop) (l : list A)
      (body : S -> A -> Store.St S) (s : S) :
  (forall s a, In a l -> preserves P (body s a)) ->
  preserves P (Store.for_st l body s).
Proof.
  revert s; induction l as [|a l IH]; intros s Hb; simpl.
  - apply preserves_ret.
  - apply preserves_bind.
    + apply Hb. now left.
    + intro s'. apply IH. intros s0 a0 Hin. apply Hb. now right.
Qed.

Lemma preserves_refs (P : Store.heap -> Prop) (l : nat) :
  preserves P (Store.refs l).
Proof.
  apply preserves_bind; [apply preserves_load|].
  intros [ | |rs| | ]; first [apply preserves_ret | apply preserves_throw].
Qed.

(** A computation that keeps every heap it may start on keeps the
    objects of the heap it starts on. *)
Lemma preserves_frame_safe {A} (c : Store.St A) :
  (forall h0, preserves (Store.keeps h0) c) -> Store.frame_safe c.
Proof. intros H h. apply H, keeps_refl. Qed.

Lemma frame_safe_preserves {A} (c : Store.St A) (h0 : Store.heap) :
  Store.frame_safe c -> preserves (Store.keeps h0) c.
Proof. intros H h Hh. eapply keeps_trans; [exact Hh | apply H]. Qed.

Lemma preserves_alloc (h0 : Store.heap) (o : Store.object) :
  preserves (Store.keeps h0) (Store.alloc o).
Proof. intros h H. simpl. now apply keeps_alloc. Qed.

(** *** The solver *)

Section SolverFrame.

Variable E : Type.
Variable wrap : list E -> Store.object.
Variable unwrap : Store.object -> option (list E).
Variable missing : option E.
Variable mag : E -> R.
Variables div sub mul add : E -> E -> E.
Variable zero : E.

Lemma preserves_elements (P : Store.heap -> Prop) (a : nat) :
  preserves P (Store.elements unwrap a).
Proof.
  apply preserves_bind; [apply preserves_load|].
  intro o. destruct (unwrap o);
    first [apply preserves_ret | apply preserves_throw].
Qed.

Lemma preserves_get (P : Store.heap -> Prop) (a i : nat) :
  preserves P (Store.get unwrap missing a i).
Proof.
  apply preserves_bind; [apply preserves_elements|].
  intro es. destruct (nth_error es i); [apply preserves_ret|].
  destruct missing; first [apply preserves_ret | apply preserves_throw].
Qed.

Lemma preserves_row (P : Store.heap -> Prop) (M i : nat) :
  preserves P (Store.row M i).
Proof.
  apply preserves_bind; [apply preserves_refs|].
  intro rs. destruct (nth_error rs i);
    first [apply preserves_ret | apply preserves_throw].
Qed.

Lemma preserves_entry (P : Store.heap -> Prop) (M i j : nat) :
  preserves P (Store.entry unwrap missing M i j).
Proof.
  apply preserves_bind; [apply preserves_row|].
  intro r. apply preserves_get.
Qed.

Lemma preserves_pivot (P : Store.heap -> Prop) (n i M : nat) :
  preserves P (Store.pivot unwrap missing mag n i M).
Proof.
  apply preserves_bind; [apply preserves_entry|].
  intro mii. apply preserves_for. intros [maxRow maxVal] k _.
  apply preserves_bind; [apply preserves_entry|].
  intro mki. destruct (JS.gtb (mag mki) maxVal); apply preserves_ret.
Qed.

Section WorkingCopy.

Variable h0 : Store.heap.
Variables M V x : nat.

(** A write to an object made since the start, other than [M]. *)
Lemma working_copy_store (l : nat) (o : Store.object) :
  List.length h0 <= l -> l <> M ->
  preserves (working_copy h0 M V x) (Store.store l o).
Proof.
  intros Hl HM h (Hk & HV & HVM & Hx & HxM & HM0 & rs & Hrs & Hall).
  simpl. repeat (split; [assumption|]). split; [|repeat (split; [assumption|])].
  - now apply keeps_store.
  - exists rs. split; [|exact Hall].
    rewrite nth_error_aset_other; auto.
Qed.

Lemma working_copy_put (a i : nat) (v : E) :
  List.length h0 <= a -> a <> M ->
  preserves (working_copy h0 M V x) (Store.put wrap unwrap a i v).
Proof.
  intros Ha HM. apply preserves_bind; [apply preserves_elements|].
  intro es. now apply working_copy_store.
Qed.

(** The row read from [M] is an object made since the start. *)
Lemma working_copy_set_entry (i j : nat) (v : E) :
  preserves (working_copy h0 M V x) (Store.set_entry wrap unwrap M i j v).
Proof.
  intros h Hh. pose proof Hh as (Hk & HV & HVM & Hx & HxM & HM0 & rs & Hrs & Hall).
  unfold Store.set_entry, Store.row, Store.refs, Store.bind, Store.load.
  rewrite Hrs. simpl.
  destruct (nth_error rs i) as [r|] eqn:Hr; simpl; [|exact Hh].
  assert (Hin : List.length h0 <= r < M).
  { rewrite Forall_forall in Hall. apply Hall.
    eapply nth_error_In; eauto. }
  apply (@working_copy_put r j v); [lia|lia|exact Hh].
Qed.

Lemma working_copy_swap_rows (i j : nat) :
  preserves (working_copy h0 M V x) (Store.swap_rows M i j).
Proof.
  intros h Hh. pose proof Hh as (Hk & HV & HVM & Hx & HxM & HM0 & rs & Hrs & Hall).
  unfold Store.swap_rows, Store.refs, Store.bind, Store.load, Store.store.
  rewrite Hrs. simpl.
  repeat (split; [assumption|]). split; [|repeat (split; [assumption|])].
  - now apply keeps_store.
  - exists (JS.swap i j rs). split.
    + apply nth_error_aset_same. apply nth_error_Some. congruence.
    + unfold JS.swap.
      destruct (nth_error rs i) as [a|] eqn:Hi; [|exact Hall].
      destruct (nth_error rs j) as [b|] eqn:Hj; [|exact Hall].
      rewrite Forall_forall in Hall |- *.
      assert (Ha : List.length h0 <= a < M)
        by (apply Hall; eapply nth_error_In; eauto).
      assert (Hb : List.length h0 <= b < M)
        by (apply Hall; eapply nth_error_In; eauto).
      intros r Hin. apply In_nth_error in Hin. destruct Hin as [k Hk'].
      destruct (Nat.eq_dec j k) as [->|Hjk].
      * rewrite nth_error_aset_same in Hk'.
        -- now inversion Hk'; subst.
        -- rewrite aset_length. apply nth_error_Some. congruence.
      * rewrite nth_error_aset_other in Hk' by exact Hjk.
        destruct (Nat.eq_dec i k) as [->|Hik].
        -- rewrite nth_error_aset_same in Hk'.
           ++ now inversion Hk'; subst.
           ++ apply nth_error_Some. congruence.
        -- rewrite nth_error_aset_other in Hk' by exact Hik.
           apply Hall. eapply nth_error_In; eauto.
Qed.

Lemma working_copy_swap_elements (i j : nat) :
  preserves (working_copy h0 M V x) (Store.swap_elements wrap unwrap V i j).
Proof.
  intros h Hh. pose proof Hh as (_ & HV & HVM & Hx & HxM & HM0 & _).
  revert h Hh. apply preserves_bind; [apply preserves_elements|].
  intro es. now apply working_copy_store.
Qed.

Lemma working_copy_eliminate (n i : nat) (u : unit) (k : nat) :
  preserves (working_copy h0 M V x)
            (Store.eliminate wrap unwrap missing div sub mul n i M V u k).
Proof.
  intros h Hh. pose proof Hh as (_ & HV & HVM & Hx & HxM & HM0 & _).
  revert h Hh.
  apply preserves_bind; [apply preserves_entry|]. intro mki.
  apply preserves_bind; [apply preserves_entry|]. intro mii.
  apply preserves_bind; [apply preserves_get|]. intro vk.
  apply preserves_bind; [apply preserves_get|]. intro vi.
  apply preserves_bind; [now apply working_copy_put|]. intros _.
  apply preserves_for. intros _ j _.
  apply preserves_bind; [apply preserves_entry|]. intro mkj.
  apply preserves_bind; [apply preserves_entry|]. intro mij.
  apply working_copy_set_entry.
Qed.

Lemma working_copy_forward (n : nat) (u : unit) (i : nat) :
  preserves (working_copy h0 M V x)
            (Store.forward wrap unwrap missing mag div sub mul n M V u i).
Proof.
  apply preserves_bind; [apply preserves_pivot|]. intros [maxRow maxVal].
  apply preserves_bind; [apply working_copy_swap_rows|]. intros _.
  apply preserves_bind; [apply working_copy_swap_elements|]. intros _.
  apply preserves_bind; [apply preserves_entry|]. intro mii.
  destruct (JS.ltb (mag mii) 1e-12); [apply preserves_ret|].
  apply preserves_for. intros s k _. apply working_copy_eliminate.
Qed.

Lemma working_copy_back (n : nat) (u : unit) (i : nat) :
  preserves (working_copy h0 M V x)
            (Store.back wrap unwrap missing mag div sub mul add zero n M V x u i).
Proof.
  intros h Hh. pose proof Hh as (_ & HV & HVM & Hx & HxM & HM0 & _).
  revert h Hh.
  apply preserves_bind; [apply preserves_entry|]. intro mii.
  destruct (JS.ltb (mag mii) 1e-12); [apply preserves_ret|].
  apply preserves_bind.
  { apply preserves_for. intros sum j _.
    apply preserves_bind; [apply preserves_entry|]. intro mij.
    apply preserves_bind; [apply preserves_get|]. intro xj.
    apply preserves_ret. }
  intro sum.
  apply preserves_bind; [apply preserves_get|]. intro vi.
  now apply working_copy_put.
Qed.

End WorkingCopy.

Lemma copy_row_cases (acc : list nat) (r : nat) (h : Store.heap) :
  Store.copy_row wrap unwrap acc r h = (h, None) \/
  exists es, Store.copy_row wrap unwrap acc r h
             = (h ++ [wrap es], Some (acc ++ [List.length h])).
Proof.
  unfold Store.copy_row, Store.elements, Store.bind, Store.load.
  destruct (nth_error h r) as [o|]; simpl; auto.
  destruct (unwrap o) as [es|]; simpl; auto.
  right. now exists es.
Qed.

Lemma copy_rows_spec (rs acc : list nat) (h : Store.heap) (lo : nat) :
  lo <= List.length h ->
  Forall (fun r => lo <= r < List.length h) acc ->
  Store.keeps h (fst (Store.for_st rs (Store.copy_row wrap unwrap) acc h)) /\
  forall acc',
    snd (Store.for_st rs (Store.copy_row wrap unwrap) acc h) = Some acc' ->
    Forall (fun r =>
              lo <= r < List.length
                         (fst (Store.for_st rs (Store.copy_row wrap unwrap)
                                            acc h)))
           acc'.
Proof.
  revert acc h; induction rs as [|r rs IH]; intros acc h Hlo Hacc.
  - simpl. split; [apply keeps_refl|]. intros acc' H. now inversion H; subst.
  - change (Store.for_st (r :: rs) (Store.copy_row wrap unwrap) acc h)
      with (match Store.copy_row wrap unwrap acc r h with
            | (h', Some s') =>
                Store.for_st rs (Store.copy_row wrap unwrap) s' h'
            | (h', None) => (h', None)
            end).
    destruct (copy_row_cases acc r h) as [-> | [es ->]].
    + simpl. split; [apply keeps_refl|discriminate].
    + destruct (IH (acc ++ [List.length h]) (h ++ [wrap es]))
        as [Hk Hall].
      { rewrite length_app. lia. }
      { rewrite length_app. simpl. apply Forall_app. split.
        - eapply Forall_impl; [|exact Hacc]. simpl. intros; lia.
        - constructor; [lia|constructor]. }
      split; [|exact Hall].
      eapply keeps_trans; [|exact Hk]. apply keeps_alloc, keeps_refl.
Qed.

Lemma refs_heap (l : nat) (h : Store.heap) : fst (Store.refs l h) = h.
Proof. symmetry. exact (@preserves_refs (eq h) l h eq_refl). Qed.

Lemma elements_heap (a : nat) (h : Store.heap) :
  fst (Store.elements unwrap a h) = h.
Proof. symmetry. exact (@preserves_elements (eq h) a h eq_refl). Qed.

(** [solve] changes no object that exists when it is called: not [A],
    not a row of [A], not [B]. *)
Lemma solve_frame_safe (A B : nat) :
  Store.frame_safe
    (Store.solve wrap unwrap missing mag div sub mul add zero A B).
Proof.
  intro h. unfold Store.solve.
  unfold Store.bind at 1. pose proof (refs_heap A h) as HA.
  destruct (Store.refs A h) as [h1 [rs|]]; simpl in HA; subst h1;
    [|apply keeps_refl].
  unfold Store.bind at 1. simpl.
  set (hx := h ++ [wrap (repeat zero (List.length rs))]).
  assert (Hhx : Store.keeps h hx) by (apply keeps_alloc, keeps_refl).
  assert (Hlx : List.length hx = S (List.length h))
    by (unfold hx; rewrite length_app; simpl; lia).
  unfold Store.bind at 1.
  destruct (@copy_rows_spec rs [] hx (S (List.length h)))
    as [Hk Hall]; [lia|constructor|].
  destruct (Store.for_st rs (Store.copy_row wrap unwrap) [] hx)
    as [hc [rs'|]]; simpl in Hk, Hall;
    [|simpl; eapply keeps_trans; eauto].
  specialize (Hall rs' eq_refl).
  unfold Store.bind at 1. simpl.
  set (hM := hc ++ [Store.RefArray rs']).
  unfold Store.bind at 1. pose proof (elements_heap B hM) as HB.
  destruct (Store.elements unwrap B hM) as [h1 [bs|]]; simpl in HB; subst h1;
    [|simpl; apply keeps_alloc; eapply keeps_trans; eauto].
  unfold Store.bind at 1. simpl.
  set (hV := hM ++ [wrap bs]).
  pose proof (keeps_length Hk) as Hlc.
  assert (Hlm : List.length hM = S (List.length hc))
    by (unfold hM; rewrite length_app; simpl; lia).
  assert (Hinv : working_copy h (List.length hc) (List.length hM)
                              (List.length h) hV).
  { split; [|split; [|split; [|split; [|split; [|split]]]]]; try lia.
    - unfold hV, hM. apply keeps_alloc, keeps_alloc.
      eapply keeps_trans; eauto.
    - exists rs'. split.
      + unfold hV, hM. rewrite nth_error_app1 by (rewrite length_app; simpl; lia).
        rewrite nth_error_app2 by lia. now rewrite Nat.sub_diag.
      + eapply Forall_impl; [|exact Hall]. simpl. intros; lia. }
  assert (Hloops :
    working_copy h (List.length hc) (List.length hM) (List.length h)
      (fst (Store.bind
              (Store.for_st (seq 0 (List.length rs))
                 (Store.forward wrap unwrap missing mag div sub mul (List.length rs)
                                (List.length hc) (List.length hM)) tt)
              (fun _ =>
                 Store.bind
                   (Store.for_st (rev (seq 0 (List.length rs)))
                      (Store.back wrap unwrap missing mag div sub mul add zero
                                  (List.length rs) (List.length hc)
                                  (List.length hM) (List.length h)) tt)
                   (fun _ => Store.ret (List.length h))) hV))).
  { revert Hinv. generalize hV. 
    apply preserves_bind.
    - apply preserves_for. intros u i _. apply working_copy_forward.
    - intros _. apply preserves_bind.
      + apply preserves_for. intros u i _. apply working_copy_back.
      + intros _. apply preserves_ret. }
  exact (proj1 Hloops).
Qed.

(** Building a matrix makes objects and changes none. *)
Lemma preserves_alloc_matrix (h1 : Store.heap) (G : list (list E)) :
  preserves (Store.keeps h1) (Store.alloc_matrix wrap G).
Proof.
  apply preserves_bind.
  - apply preserves_for. intros acc r _.
    apply preserves_bind; [apply preserves_alloc|].
    intro l. apply preserves_ret.
  - intro rs. apply preserves_alloc.
Qed.

End SolverFrame.

(** *** The entry points *)

Lemma preserves_components_of (P : Store.heap -> Prop) (l : nat) :
  preserves P (Store.components_of l).
Proof.
  apply preserves_bind; [apply preserves_refs|]. intro rs.
  apply preserves_for. intros acc r _.
  apply preserves_bind; [apply preserves_load|].
  intros [ | | |c| ]; first [apply preserves_ret | apply preserves_throw].
Qed.

Lemma preserves_wires_of (P : Store.heap -> Prop) (l : nat) :
  preserves P (Store.wires_of l).
Proof.
  apply preserves_bind; [apply preserves_refs|]. intro rs.
  apply preserves_for. intros acc r _.
  apply preserves_bind; [apply preserves_load|].
  intros [ | | | |w]; first [apply preserves_ret | apply preserves_throw].
Qed.

Lemma preserves_solve_numbers (h0 : Store.heap) (G : list (list R))
      (I_rhs : list R) :
  preserves (Store.keeps h0) (Store.solve_numbers G I_rhs).
Proof.
  apply preserves_bind; [apply preserves_alloc_matrix|]. intro Gl.
  apply preserves_bind; [apply preserves_alloc|]. intro Il.
  apply preserves_bind;
    [apply frame_safe_preserves, solve_frame_safe|].
  intro xl. apply preserves_elements.
Qed.

Lemma preserves_solve_complexes (h0 : Store.heap)
      (G : list (list Complex.t)) (I_rhs : list Complex.t) :
  preserves (Store.keeps h0) (Store.solve_complexes G I_rhs).
Proof.
  apply preserves_bind; [apply preserves_alloc_matrix|]. intro Gl.
  apply preserves_bind; [apply preserves_alloc|]. intro Il.
  apply preserves_bind;
    [apply frame_safe_preserves, solve_frame_safe|].
  intro xl. apply preserves_elements.
Qed.

Lemma preserves_iterate (h0 : Store.heap) (env : Env) (st : LoopState) :
  preserves (Store.keeps h0) (Store.iterate env st).
Proof.
  unfold Store.iterate.
  destruct (assemble env (currentVoltages st)
                     (updateGateTargets env (currentVoltages st)
                                        (gateTargets st))) as [G I_rhs].
  apply preserves_bind; [apply preserves_try, preserves_solve_numbers|].
  intros [finalX|]; [|apply preserves_ret].
  destruct (updateVoltages env finalX (currentVoltages st)).
  apply preserves_ret.
Qed.

Lemma preserves_loop (h0 : Store.heap) (env : Env) (remaining : nat)
      (st : LoopState) :
  preserves (Store.keeps h0) (Store.loop env remaining st).
Proof.
  revert st; induction remaining as [|n IH]; intro st; simpl.
  - apply preserves_ret.
  - destruct (converged st); [apply preserves_ret|].
    apply preserves_bind; [apply preserves_iterate|].
    intros [st'|]; [apply IH | apply preserves_ret].
Qed.

Lemma solveCircuit_frame_safe (components wires : nat) (frequency : R) :
  Store.frame_safe (Store.solveCircuit components wires frequency).
Proof.
  apply preserves_frame_safe. intro h0.
  apply preserves_bind; [apply preserves_components_of|]. intro cs.
  apply preserves_bind; [apply preserves_wires_of|]. intro ws. cbv zeta.
  destruct (negb (hasGround (buildGraph cs ws))); [apply preserves_ret|].
  apply preserves_bind; [apply preserves_loop|].
  intros [st|]; apply preserves_ret.
Qed.

Lemma preserves_sweepPoint (h0 : Store.heap) (env : Env) (freq : R) :
  preserves (Store.keeps h0) (Store.sweepPoint env freq).
Proof.
  unfold Store.sweepPoint.
  destruct (assembleAC env (2 * PI * freq)%R) as [G I_rhs].
  apply preserves_bind; [apply preserves_try, preserves_solve_complexes|].
  intros [sol|]; apply preserves_ret.
Qed.

Lemma solveACSweep_frame_safe (components wires : nat)
      (config : SimulationConfig) :
  Store.frame_safe (Store.solveACSweep components wires config).
Proof.
  apply preserves_frame_safe. intro h0.
  apply preserves_bind; [apply preserves_components_of|]. intro cs.
  apply preserves_bind; [apply preserves_wires_of|]. intro ws. cbv zeta.
  destruct (Nat.eqb (numNodes (buildGraph cs ws)) 0); [apply preserves_ret|].
  apply preserves_bind; [|intro plot; apply preserves_ret].
  apply preserves_for. intros plotData i _.
  apply preserves_bind; [apply preserves_sweepPoint|].
  intros [point|]; apply preserves_ret.
Qed.

Lemma preserves_timeStepBody (h0 : Store.heap) (env : Env)
      (config : SimulationConfig) (st : TransientState) (step : nat) :
  preserves (Store.keeps h0) (Store.timeStepBody env config st step).
Proof.
  unfold Store.timeStepBody.
  destruct (stopped st); [apply preserves_ret|].
  destruct (assembleTR env config (INR step * dt config)%R (prevVoltages st)
                       (inductorCurrents st)) as [G I_rhs].
  apply preserves_bind; [apply preserves_try, preserves_solve_numbers|].
  intros [sol|]; apply preserves_ret.
Qed.

Lemma solveTransient_frame_safe (components wires : nat)
      (config : SimulationConfig) :
  Store.frame_safe (Store.solveTransient components wires config).
Proof.
  apply preserves_frame_safe. intro h0.
  apply preserves_bind; [apply preserves_components_of|]. intro cs.
  apply preserves_bind; [apply preserves_wires_of|]. intro ws. cbv zeta.
  destruct (Nat.eqb (numNodes (buildGraph cs ws)) 0); [apply preserves_ret|].
  apply preserves_bind; [|intro st; apply preserves_ret].
  apply preserves_for. intros st step _. apply preserves_timeStepBody.
Qed.

End Frame.

(* ------------------------------------------------------------------ *)
(** ** The store: the runs compute what the value-level engines do *)

Section Refinement.

Local Open Scope nat_scope.

Lemma for_each_none {A S} (l : list A) (body : S -> A -> option S) :
  fold_left (fun acc a => s' <- acc ;; body s' a) l None = None.
Proof. induction l; simpl; auto. Qed.

Lemma for_each_cons {A S} (a : A) (l : list A) (body : S -> A -> option S)
      (s : S) :
  for_each (a :: l) body s = (s' <- body s a ;; for_each l body s').
Proof.
  unfold for_each. simpl.
  destruct (body s a); [reflexivity | apply for_each_none].
Qed.

Lemma for_each_ext {A S} (l : list A) (f g : S -> A -> option S) (s : S) :
  (forall s a, f s a = g s a) -> for_each l f s = for_each l g s.
Proof.
  intro H. revert s. induction l as [|a l IH]; intro s; [reflexivity|].
  rewrite !for_each_cons, H. destruct (g s a); auto.
Qed.

Lemma bind_reads {A B} (c : Store.St A) (k : A -> Store.St B)
      (h : Store.heap) (p : option A) :
  c h = (h, p) ->
  Store.bind c k h = match p with Some a => k a h | None => (h, None) end.
Proof. intro H. unfold Store.bind. rewrite H. reflexivity. Qed.

Lemma bind_writes {B} (c : Store.St unit) (k : unit -> Store.St B)
      (h : Store.heap) :
  snd (c h) = Some tt -> Store.bind c k h = k tt (fst (c h)).
Proof.
  intro H. unfold Store.bind. destruct (c h) as [h' [[]|]]; simpl in *;
    [reflexivity | discriminate].
Qed.

Lemma bind_throws {A B} (c : Store.St A) (k : A -> Store.St B)
      (h : Store.heap) :
  snd (c h) = None -> snd (Store.bind c k h) = None.
Proof.
  intro H. unfold Store.bind. destruct (c h) as [h' [a|]]; simpl in *;
    [discriminate | reflexivity].
Qed.

(** A loop whose body reads only. *)
Lemma for_st_reads {A S} (h : Store.heap) (l : list A)
      (body : S -> A -> Store.St S) (pbody : S -> A -> option S) :
  (forall s a, body s a h = (h, pbody s a)) ->
  forall s, Store.for_st l body s h = (h, for_each l pbody s).
Proof.
  intro Hb. induction l as [|a l IH]; intro s; [reflexivity|].
  simpl Store.for_st. rewrite (bind_reads _ _ (Hb s a)), for_each_cons.
  destruct (pbody s a); auto.
Qed.

(** A loop whose body writes. *)
Lemma for_st_result {A T} (I : T -> Store.heap -> Prop) (l : list A)
      (body : unit -> A -> Store.St unit) (pbody : T -> A -> option T) :
  (forall t a h, I t h -> result I (body tt a h) (pbody t a)) ->
  forall t h, I t h ->
              result I (Store.for_st l body tt h) (for_each l pbody t).
Proof.
  intro Hb. induction l as [|a l IH]; intros t h Ht.
  - simpl. auto.
  - rewrite for_each_cons. simpl Store.for_st.
    specialize (Hb t a h Ht). destruct (pbody t a) as [t'|].
    + destruct Hb as [HI Hs]. rewrite (bind_writes _ _ _ Hs). now apply IH.
    + simpl in Hb |- *. now apply bind_throws.
Qed.

(** *** Arrays under [aset] and [swap] *)

Lemma nth_error_swap {A} (i j k : nat) (l : list A) :
  i < List.length l -> j < List.length l ->
  nth_error (JS.swap i j l) k
  = nth_error l (if Nat.eqb k j then i else if Nat.eqb k i then j else k).
Proof.
  intros Hi Hj. unfold JS.swap.
  destruct (nth_error l i) as [a|] eqn:Ea;
    [|apply nth_error_None in Ea; lia].
  destruct (nth_error l j) as [b|] eqn:Eb;
    [|apply nth_error_None in Eb; lia].
  destruct (Nat.eqb_spec k j) as [->|Hkj].
  - rewrite nth_error_aset_same by (rewrite aset_length; lia). now rewrite Ea.
  - rewrite nth_error_aset_other by auto.
    destruct (Nat.eqb_spec k i) as [->|Hki].
    + rewrite nth_error_aset_same by lia. now rewrite Eb.
    + now rewrite nth_error_aset_other by auto.
Qed.

Lemma swap_out_of_range {A} (i j : nat) (l : list A) :
  ~ (i < List.length l /\ j < List.length l) -> JS.swap i j l = l.
Proof.
  intro H. unfold JS.swap.
  destruct (nth_error l i) as [a|] eqn:Ea; [|reflexivity].
  destruct (nth_error l j) as [b|] eqn:Eb; [|reflexivity].
  exfalso. apply H. split; apply nth_error_Some; congruence.
Qed.

Lemma In_swap {A} (i j : nat) (l : list A) (a : A) :
  In a (JS.swap i j l) -> In a l.
Proof.
  destruct (Nat.lt_ge_cases i (List.length l)) as [Hi|Hi];
    [|rewrite swap_out_of_range by lia; auto].
  destruct (Nat.lt_ge_cases j (List.length l)) as [Hj|Hj];
    [|rewrite swap_out_of_range by lia; auto].
  intro H. apply In_nth_error in H. destruct H as [k Hk].
  rewrite nth_error_swap in Hk by assumption.
  eapply nth_error_In; eauto.
Qed.

Lemma NoDup_swap {A} (i j : nat) (l : list A) :
  NoDup l -> NoDup (JS.swap i j l).
Proof.
  destruct (Nat.lt_ge_cases i (List.length l)) as [Hi|Hi];
    [|rewrite swap_out_of_range by lia; auto].
  destruct (Nat.lt_ge_cases j (List.length l)) as [Hj|Hj];
    [|rewrite swap_out_of_range by lia; auto].
  intro H. rewrite NoDup_nth_error in H |- *.
  intros k1 k2 Hk1 Hk. rewrite swap_length in Hk1.
  rewrite !nth_error_swap in Hk by assumption.
  apply H in Hk.
  - destruct (Nat.eqb_spec k1 j), (Nat.eqb_spec k1 i),
      (Nat.eqb_spec k2 j), (Nat.eqb_spec k2 i); lia.
  - destruct (Nat.eqb_spec k1 j), (Nat.eqb_spec k1 i); lia.
Qed.

Lemma Forall2_aset {A B} (R : A -> B -> Prop) (i : nat) (a : A) (b : B)
      (l1 : list A) (l2 : list B) :
  Forall2 R l1 l2 -> R a b -> Forall2 R (JS.aset i a l1) (JS.aset i b l2).
Proof.
  intros H Hab. revert i. induction H; intros [|i]; simpl; auto.
Qed.

Lemma Forall2_nth_error {A B} (R : A -> B -> Prop) (i : nat)
      (l1 : list A) (l2 : list B) :
  Forall2 R l1 l2 ->
  match nth_error l1 i, nth_error l2 i with
  | Some a, Some b => R a b
  | None, None => True
  | _, _ => False
  end.
Proof.
  intro H. revert i. induction H as [|a b l1 l2 Hab H IH]; intros [|i];
    simpl; auto. apply IH.
Qed.

Lemma Forall2_swap {A B} (R : A -> B -> Prop) (i j : nat)
      (l1 : list A) (l2 : list B) :
  Forall2 R l1 l2 -> Forall2 R (JS.swap i j l1) (JS.swap i j l2).
Proof.
  intro H. unfold JS.swap.
  pose proof (Forall2_nth_error i H) as Hi.
  pose proof (Forall2_nth_error j H) as Hj.
  destruct (nth_error l1 i), (nth_error l2 i); try contradiction; auto.
  destruct (nth_error l1 j), (nth_error l2 j); try contradiction; auto.
  now repeat apply Forall2_aset.
Qed.

(** *** The statements of the solver, one by one *)

Section SolverRefines.

Variable E : Type.
Variable wrap : list E -> Store.object.
Variable unwrap : Store.object -> option (list E).
Variable missing : option E.
Variable mag : E -> R.
Variables div sub mul add : E -> E -> E.
Variable zero : E.

Hypothesis unwrap_wrap : forall l, unwrap (wrap l) = Some l.

Lemma elements_at (h : Store.heap) (a : nat) (es : list E) :
  nth_error h a = Some (wrap es) ->
  Store.elements unwrap a h = (h, Some es).
Proof.
  intro H. unfold Store.elements, Store.bind, Store.load.
  rewrite H. simpl. now rewrite unwrap_wrap.
Qed.

Lemma get_at (h : Store.heap) (a i : nat) (es : list E) :
  nth_error h a = Some (wrap es) ->
  Store.get unwrap missing a i h = (h, Elimination.read missing es i).
Proof.
  intro H. unfold Store.get.
  rewrite (bind_reads _ _ (@elements_at _ _ _ H)). unfold Elimination.read.
  destruct (nth_error es i); [reflexivity|]. destruct missing; reflexivity.
Qed.

Lemma put_at (h : Store.heap) (a i : nat) (v : E) (es : list E) :
  nth_error h a = Some (wrap es) ->
  Store.put wrap unwrap a i v h
  = (JS.aset a (wrap (JS.aset i v es)) h, Some tt).
Proof.
  intro H. unfold Store.put.
  now rewrite (bind_reads _ _ (@elements_at _ _ _ H)).
Qed.

Lemma row_at (h : Store.heap) (M i : nat) (rs : list nat) :
  nth_error h M = Some (Store.RefArray rs) ->
  Store.row M i h = (h, nth_error rs i).
Proof.
  intro H. unfold Store.row, Store.refs, Store.bind, Store.load.
  rewrite H. simpl. destruct (nth_error rs i); reflexivity.
Qed.

Lemma holds_rows_store (h : Store.heap) (rs : list nat)
      (Mv : list (list E)) (l : nat) (o : Store.object) :
  ~ In l rs -> holds_rows wrap h rs Mv ->
  holds_rows wrap (JS.aset l o h) rs Mv.
Proof.
  intros Hl H. induction H as [|r row rs Mv Hr H IH]; constructor.
  - rewrite nth_error_aset_other; auto. intro; subst. apply Hl. now left.
  - apply IH. intro; apply Hl. now right.
Qed.

Lemma holds_rows_update (h : Store.heap) (rs : list nat)
      (Mv : list (list E)) (k r : nat) (row : list E) :
  NoDup rs -> holds_rows wrap h rs Mv -> nth_error rs k = Some r ->
  holds_rows wrap (JS.aset r (wrap row) h) rs (JS.aset k row Mv).
Proof.
  intros Hnd H. revert k. induction H as [|r0 row0 rs Mv Hr H IH];
    intros [|k] Hk; simpl in *; try discriminate.
  - inversion Hk; subst. inversion Hnd; subst. constructor.
    + apply nth_error_aset_same. apply nth_error_Some. congruence.
    + now apply holds_rows_store.
  - inversion Hnd; subst. constructor.
    + rewrite nth_error_aset_other; auto. intro; subst.
      apply nth_error_In in Hk. contradiction.
    + now apply IH.
Qed.

Section Ops.

Variables M V x : nat.

Lemma entry_at (h : Store.heap) (Mv : list (list E)) (Vv xv : list E)
      (i j : nat) :
  represents wrap M V x h Mv Vv xv ->
  Store.entry unwrap missing M i j h
  = (h, Elimination.entry missing Mv i j).
Proof.
  intros ((rs & HM & _ & _ & _ & _ & Hrows) & _).
  unfold Store.entry, Elimination.entry.
  rewrite (bind_reads _ _ (@row_at _ _ i _ HM)).
  pose proof (Forall2_nth_error i Hrows) as Hi.
  destruct (nth_error rs i), (nth_error Mv i); try contradiction.
  - now apply get_at.
  - reflexivity.
Qed.

Lemma put_V (h : Store.heap) (Mv : list (list E)) (Vv xv : list E)
      (k : nat) (v : E) :
  represents wrap M V x h Mv Vv xv ->
  represents wrap M V x (fst (Store.put wrap unwrap V k v h))
             Mv (JS.aset k v Vv) xv /\
  snd (Store.put wrap unwrap V k v h) = Some tt.
Proof.
  intros ((rs & HM & Hnd & HMr & HVr & Hxr & Hrows) & HV & Hx & HVM & HxM & HxV).
  rewrite (@put_at _ _ _ _ _ HV). simpl. split; [|reflexivity].
  split; [|split; [|split; [|auto]]].
  - exists rs. rewrite nth_error_aset_other by auto.
    repeat (split; [assumption|]). now apply holds_rows_store.
  - apply nth_error_aset_same. apply nth_error_Some. congruence.
  - rewrite nth_error_aset_other; auto.
Qed.

Lemma put_x (h : Store.heap) (Mv : list (list E)) (Vv xv : list E)
      (k : nat) (v : E) :
  represents wrap M V x h Mv Vv xv ->
  represents wrap M V x (fst (Store.put wrap unwrap x k v h))
             Mv Vv (JS.aset k v xv) /\
  snd (Store.put wrap unwrap x k v h) = Some tt.
Proof.
  intros ((rs & HM & Hnd & HMr & HVr & Hxr & Hrows) & HV & Hx & HVM & HxM & HxV).
  rewrite (@put_at _ _ _ _ _ Hx). simpl. split; [|reflexivity].
  split; [|split; [|split; [|auto]]].
  - exists rs. rewrite nth_error_aset_other by auto.
    repeat (split; [assumption|]). now apply holds_rows_store.
  - rewrite nth_error_aset_other; auto.
  - apply nth_error_aset_same. apply nth_error_Some. congruence.
Qed.

Lemma swap_elements_V (h : Store.heap) (Mv : list (list E))
      (Vv xv : list E) (i j : nat) :
  represents wrap M V x h Mv Vv xv ->
  represents wrap M V x (fst (Store.swap_elements wrap unwrap V i j h))
             Mv (JS.swap i j Vv) xv /\
  snd (Store.swap_elements wrap unwrap V i j h) = Some tt.
Proof.
  intros ((rs & HM & Hnd & HMr & HVr & Hxr & Hrows) & HV & Hx & HVM & HxM & HxV).
  unfold Store.swap_elements. rewrite (bind_reads _ _ (@elements_at _ _ _ HV)).
  simpl. split; [|reflexivity].
  split; [|split; [|split; [|auto]]].
  - exists rs. rewrite nth_error_aset_other by auto.
    repeat (split; [assumption|]). now apply holds_rows_store.
  - apply nth_error_aset_same. apply nth_error_Some. congruence.
  - rewrite nth_error_aset_other; auto.
Qed.

Lemma swap_rows_M (h : Store.heap) (Mv : list (list E))
      (Vv xv : list E) (i j : nat) :
  represents wrap M V x h Mv Vv xv ->
  represents wrap M V x (fst (Store.swap_rows M i j h))
             (JS.swap i j Mv) Vv xv /\
  snd (Store.swap_rows M i j h) = Some tt.
Proof.
  intros ((rs & HM & Hnd & HMr & HVr & Hxr & Hrows) & HV & Hx & HVM & HxM & HxV).
  unfold Store.swap_rows, Store.refs, Store.bind, Store.load.
  rewrite HM. simpl. split; [|reflexivity].
  split; [|split; [|split; [|auto]]].
  - exists (JS.swap i j rs). split; [|split; [|split; [|split; [|split]]]].
    + apply nth_error_aset_same. apply nth_error_Some. congruence.
    + now apply NoDup_swap.
    + intro H. now apply In_swap in H.
    + intro H. now apply In_swap in H.
    + intro H. now apply In_swap in H.
    + apply holds_rows_store.
      * intro H. now apply In_swap in H.
      * now apply Forall2_swap.
  - rewrite nth_error_aset_other; auto.
  - rewrite nth_error_aset_other; auto.
Qed.

Lemma set_entry_M (h : Store.heap) (Mv : list (list E))
      (Vv xv : list E) (k j : nat) (v : E) :
  represents wrap M V x h Mv Vv xv ->
  nth_error Mv k <> None ->
  represents wrap M V x (fst (Store.set_entry wrap unwrap M k j v h))
             (Elimination.set_entry k j v Mv) Vv xv /\
  snd (Store.set_entry wrap unwrap M k j v h) = Some tt.
Proof.
  intros ((rs & HM & Hnd & HMr & HVr & Hxr & Hrows) & HV & Hx & HVM & HxM & HxV)
         Hk.
  unfold Store.set_entry, Elimination.set_entry.
  rewrite (bind_reads _ _ (@row_at _ _ k _ HM)).
  pose proof (Forall2_nth_error k Hrows) as Hr.
  destruct (nth_error rs k) as [r|] eqn:Er,
           (nth_error Mv k) as [row|] eqn:Erow;
    try contradiction; try congruence.
  assert (HrM : r <> M) by (intro; subst; apply HMr; eapply nth_error_In; eauto).
  assert (HrV : r <> V) by (intro; subst; apply HVr; eapply nth_error_In; eauto).
  assert (Hrx : r <> x) by (intro; subst; apply Hxr; eapply nth_error_In; eauto).
  rewrite (@put_at _ _ _ _ _ Hr). simpl. split; [|reflexivity].
  split; [|split; [|split; [|auto]]].
  - exists rs. rewrite nth_error_aset_other by auto.
    repeat (split; [assumption|]). now apply holds_rows_update.
  - rewrite nth_error_aset_other; auto.
  - rewrite nth_error_aset_other; auto.
Qed.

Lemma entry_row (Mv : list (list E)) (k j : nat) (e : E) :
  Elimination.entry missing Mv k j = Some e -> nth_error Mv k <> None.
Proof.
  unfold Elimination.entry. destruct (nth_error Mv k); congruence.
Qed.

Lemma pivot_at (h : Store.heap) (Mv : list (list E)) (Vv xv : list E)
      (n i : nat) :
  represents wrap M V x h Mv Vv xv ->
  Store.pivot unwrap missing mag n i M h
  = (h, Elimination.pivot missing mag n i Mv).
Proof.
  intro H. unfold Store.pivot, Elimination.pivot.
  rewrite (bind_reads _ _ (entry_at i i H)).
  destruct (Elimination.entry missing Mv i i) as [mii|]; [|reflexivity].
  apply for_st_reads. intros [maxRow maxVal] k.
  rewrite (bind_reads _ _ (entry_at k i H)).
  destruct (Elimination.entry missing Mv k i) as [mki|]; [|reflexivity].
  destruct (JS.gtb (mag mki) maxVal); reflexivity.
Qed.

Lemma eliminate_result (h : Store.heap) (Mv : list (list E))
      (Vv xv : list E) (n i k : nat) :
  represents wrap M V x h Mv Vv xv ->
  result (fun st h' => represents wrap M V x h' (fst st) (snd st) xv)
         (Store.eliminate wrap unwrap missing div sub mul n i M V tt k h)
         (Elimination.eliminate missing div sub mul n i (Mv, Vv) k).
Proof.
  intro H. unfold Store.eliminate, Elimination.eliminate.
  rewrite (bind_reads _ _ (entry_at k i H)).
  destruct (Elimination.entry missing Mv k i) as [mki|]; [|reflexivity].
  rewrite (bind_reads _ _ (entry_at i i H)).
  destruct (Elimination.entry missing Mv i i) as [mii|]; [|reflexivity].
  pose proof (proj1 (proj2 H)) as HV.
  rewrite (bind_reads _ _ (@get_at _ _ k _ HV)).
  destruct (Elimination.read missing Vv k) as [vk|]; [|reflexivity].
  rewrite (bind_reads _ _ (@get_at _ _ i _ HV)).
  destruct (Elimination.read missing Vv i) as [vi|]; [|reflexivity].
  destruct (put_V k (sub vk (mul (div mki mii) vi)) H) as [H1 Hs].
  rewrite (bind_writes _ _ _ Hs).
  set (h1 := fst (Store.put wrap unwrap V k (sub vk (mul (div mki mii) vi)) h))
    in *.
  set (V' := JS.aset k (sub vk (mul (div mki mii) vi)) Vv) in *.
  pose proof
       (@for_st_result nat (list (list E))
          (fun Mv' h' => represents wrap M V x h' Mv' V' xv)
          (seq i (n - i))
          (fun _ j =>
             Store.bind (Store.entry unwrap missing M k j)
               (fun mkj =>
                  Store.bind (Store.entry unwrap missing M i j)
                    (fun mij =>
                       Store.set_entry wrap unwrap M k j
                         (sub mkj (mul (div mki mii) mij)))))
          (fun Mv' j =>
             mkj <- Elimination.entry missing Mv' k j ;;
             mij <- Elimination.entry missing Mv' i j ;;
             Some (Elimination.set_entry k j
                     (sub mkj (mul (div mki mii) mij)) Mv'))) as Hloop.
  cbv zeta.
  assert (Hbody : forall (t : list (list E)) (a : nat) (h' : Store.heap),
             represents wrap M V x h' t V' xv ->
             result (fun Mv' h'' => represents wrap M V x h'' Mv' V' xv)
               (Store.bind (Store.entry unwrap missing M k a)
                  (fun mkj =>
                     Store.bind (Store.entry unwrap missing M i a)
                       (fun mij =>
                          Store.set_entry wrap unwrap M k a
                            (sub mkj (mul (div mki mii) mij)))) h')
               (mkj <- Elimination.entry missing t k a ;;
                mij <- Elimination.entry missing t i a ;;
                Some (Elimination.set_entry k a
                        (sub mkj (mul (div mki mii) mij)) t))).
  { intros t a h' Ht.
    rewrite (bind_reads _ _ (entry_at k a Ht)).
    destruct (Elimination.entry missing t k a) as [mkj|] eqn:Ekj;
      [|reflexivity].
    rewrite (bind_reads _ _ (entry_at i a Ht)).
    destruct (Elimination.entry missing t i a) as [mij|]; [|reflexivity].
    apply set_entry_M; [exact Ht | eapply entry_row; eauto]. }
  specialize (Hloop Hbody Mv h1 H1).
  destruct (for_each (seq i (n - i))
              (fun Mv' j =>
                 mkj <- Elimination.entry missing Mv' k j ;;
                 mij <- Elimination.entry missing Mv' i j ;;
                 Some (Elimination.set_entry k j
                         (sub mkj (mul (div mki mii) mij)) Mv')) Mv)
    as [M'|]; exact Hloop.
Qed.

Lemma forward_result (h : Store.heap) (Mv : list (list E))
      (Vv xv : list E) (n i : nat) :
  represents wrap M V x h Mv Vv xv ->
  result (fun st h' => represents wrap M V x h' (fst st) (snd st) xv)
         (Store.forward wrap unwrap missing mag div sub mul n M V tt i h)
         (Elimination.forward missing mag div sub mul n (Mv, Vv) i).
Proof.
  intro H. unfold Store.forward, Elimination.forward.
  rewrite (bind_reads _ _ (pivot_at n i H)).
  destruct (Elimination.pivot missing mag n i Mv) as [[maxRow maxVal]|];
    [|reflexivity].
  destruct (swap_rows_M i maxRow H) as [H1 Hs1].
  rewrite (bind_writes _ _ _ Hs1).
  destruct (swap_elements_V i maxRow H1) as [H2 Hs2].
  rewrite (bind_writes _ _ _ Hs2).
  rewrite (bind_reads _ _ (entry_at i i H2)). cbv zeta.
  destruct (Elimination.entry missing (JS.swap i maxRow Mv) i i) as [mii|];
    [|reflexivity].
  destruct (JS.ltb (mag mii) 1e-12).
  - split; [exact H2 | reflexivity].
  - apply (@for_st_result nat (list (list E) * list E)
             (fun st h' => represents wrap M V x h' (fst st) (snd st) xv));
      [|exact H2].
    intros [Mv' Vv'] k h' Ht. now apply eliminate_result.
Qed.

Lemma back_result (h : Store.heap) (Mv : list (list E))
      (Vv xv : list E) (n i : nat) :
  represents wrap M V x h Mv Vv xv ->
  result (fun xv' h' => represents wrap M V x h' Mv Vv xv')
         (Store.back wrap unwrap missing mag div sub mul add zero n M V x
                     tt i h)
         (Elimination.back missing mag div sub mul add zero n Mv Vv xv i).
Proof.
  intro H. unfold Store.back, Elimination.back.
  rewrite (bind_reads _ _ (entry_at i i H)).
  destruct (Elimination.entry missing Mv i i) as [mii|]; [|reflexivity].
  destruct (JS.ltb (mag mii) 1e-12); [split; [exact H | reflexivity]|].
  pose proof (proj1 (proj2 H)) as HV.
  pose proof (proj1 (proj2 (proj2 H))) as Hx.
  rewrite (bind_reads _ _
             (@for_st_reads nat E h (seq (S i) (n - S i))
                (fun sum j =>
                   Store.bind (Store.entry unwrap missing M i j)
                     (fun mij =>
                        Store.bind (Store.get unwrap missing x j)
                          (fun xj => Store.ret (add sum (mul mij xj)))))
                (fun sum j =>
                   mij <- Elimination.entry missing Mv i j ;;
                   xj <- Elimination.read missing xv j ;;
                   Some (add sum (mul mij xj)))
                (fun sum j =>
                   eq_trans
                     (bind_reads _ _ (entry_at i j H))
                     (match Elimination.entry missing Mv i j as p
                            return
                            (match p with
                             | Some mij =>
                                 Store.bind (Store.get unwrap missing x j)
                                   (fun xj =>
                                      Store.ret (add sum (mul mij xj))) h
                             | None => (h, None)
                             end
                             = (h, mij <- p ;;
                                   xj <- Elimination.read missing xv j ;;
                                   Some (add sum (mul mij xj))))
                      with
                      | Some mij =>
                          eq_trans
                            (bind_reads _ _ (@get_at _ _ j _ Hx))
                            (match Elimination.read missing xv j as q
                                   return
                                   (match q with
                                    | Some xj =>
                                        Store.ret (add sum (mul mij xj)) h
                                    | None => (h, None)
                                    end
                                    = (h, xj <- q ;;
                                          Some (add sum (mul mij xj))))
                             with
                             | Some xj => eq_refl
                             | None => eq_refl
                             end)
                      | None => eq_refl
                      end))
                zero)).
  destruct (for_each (seq (S i) (n - S i))
              (fun sum j =>
                 mij <- Elimination.entry missing Mv i j ;;
                 xj <- Elimination.read missing xv j ;;
                 Some (add sum (mul mij xj))) zero) as [sum|];
    [|reflexivity].
  rewrite (bind_reads _ _ (@get_at _ _ i _ HV)).
  destruct (Elimination.read missing Vv i) as [vi|]; [|reflexivity].
  now apply put_x.
Qed.

End Ops.

(** *** The whole solve *)

Lemma bind_alloc {B} (o : Store.object) (k : nat -> Store.St B)
      (h : Store.heap) :
  Store.bind (Store.alloc o) k h = k (List.length h) (h ++ [o]).
Proof. reflexivity. Qed.

Lemma bind_some {A B} (c : Store.St A) (k : A -> Store.St B)
      (h h' : Store.heap) (a : A) :
  c h = (h', Some a) -> Store.bind c k h = k a h'.
Proof. intro H. unfold Store.bind. now rewrite H. Qed.

Lemma holds_rows_app (h rest : Store.heap) (rs : list nat)
      (Mv : list (list E)) :
  holds_rows wrap h rs Mv -> holds_rows wrap (h ++ rest) rs Mv.
Proof.
  induction 1; constructor; auto.
  rewrite nth_error_app1; auto. apply nth_error_Some. congruence.
Qed.

Lemma copy_rows_eq (rs : list nat) (Av : list (list E)) (acc : list nat)
      (h : Store.heap) :
  holds_rows wrap h rs Av ->
  Store.for_st rs (Store.copy_row wrap unwrap) acc h
  = (h ++ map wrap Av, Some (acc ++ seq (List.length h) (List.length Av))).
Proof.
  revert Av acc h. induction rs as [|r rs IH]; intros Av acc h H;
    inversion H as [|r' row rs' Av' Hr Hrest]; subst; simpl.
  - now rewrite !app_nil_r.
  - assert (Hc : Store.copy_row wrap unwrap acc r h
                 = (h ++ [wrap row], Some (acc ++ [List.length h]))).
    { unfold Store.copy_row.
      now rewrite (bind_reads _ _ (@elements_at _ _ _ Hr)). }
    rewrite (bind_some _ _ _ Hc).
    rewrite (IH Av' (acc ++ [List.length h]) (h ++ [wrap row])
                (@holds_rows_app _ _ _ _ Hrest)).
    rewrite <- !app_assoc, length_app. simpl.
    now rewrite Nat.add_1_r.
Qed.

Lemma holds_rows_seq (h1 rest : Store.heap) (Av : list (list E)) :
  holds_rows wrap (h1 ++ map wrap Av ++ rest)
             (seq (List.length h1) (List.length Av)) Av.
Proof.
  revert h1; induction Av as [|row Av IH]; intro h1; simpl; constructor.
  - rewrite nth_error_app2 by lia. now rewrite Nat.sub_diag.
  - specialize (IH (h1 ++ [wrap row])).
    rewrite length_app in IH. simpl in IH.
    now rewrite Nat.add_1_r, <- app_assoc in IH.
Qed.

(** On a heap that holds the system, the run returns what the
    elimination on values returns, in a new array, or throws where it
    throws. *)
Lemma solve_refines (h : Store.heap) (A B : nat) (Av : list (list E))
      (Bv : list E) :
  holds_matrix wrap h A Av -> nth_error h B = Some (wrap Bv) ->
  match Elimination.solve missing mag div sub mul add zero Av Bv with
  | Some xs =>
      exists xl,
        snd (Store.solve wrap unwrap missing mag div sub mul add zero A B h)
        = Some xl /\
        nth_error
          (fst (Store.solve wrap unwrap missing mag div sub mul add zero
                            A B h)) xl
        = Some (wrap xs)
  | None =>
      snd (Store.solve wrap unwrap missing mag div sub mul add zero A B h)
      = None
  end.
Proof.
  intros (rs & HA & Hrows) HB.
  unfold Store.solve, Elimination.solve.
  assert (Hrefs : Store.refs A h = (h, Some rs)).
  { unfold Store.refs, Store.bind, Store.load. now rewrite HA. }
  rewrite (bind_reads _ _ Hrefs).
  pose proof (Forall2_length Hrows) as Hlen. cbv zeta. rewrite Hlen.
  set (n := List.length Av) in *.
  rewrite bind_alloc.
  set (hx := h ++ [wrap (repeat zero n)]).
  rewrite (bind_some _ _ _
             (@copy_rows_eq _ _ [] _
                (@holds_rows_app _ [wrap (repeat zero n)] _ _ Hrows))).
  rewrite bind_alloc. simpl app. fold hx.
  set (hc := hx ++ map wrap Av).
  set (rs' := seq (List.length hx) (List.length Av)).
  set (hM := hc ++ [Store.RefArray rs']).
  assert (HB' : nth_error hM B = Some (wrap Bv)).
  { apply (@keeps_unchanged h hM); [|exact HB].
    unfold hM, hc, hx. repeat apply keeps_alloc.
    exists ([wrap (repeat zero n)] ++ map wrap Av).
    now rewrite app_assoc. }
  rewrite (bind_reads _ _ (@elements_at _ _ _ HB')).
  rewrite bind_alloc.
  set (hV := hM ++ [wrap Bv]).
  assert (Hlx : List.length hx = S (List.length h))
    by (unfold hx; rewrite length_app; simpl; lia).
  assert (Hlc : List.length hc = List.length hx + n)
    by (unfold hc; rewrite length_app, length_map; reflexivity).
  assert (Hlm : List.length hM = S (List.length hc))
    by (unfold hM; rewrite length_app; simpl; lia).
  assert (Hrep : represents wrap (List.length hc) (List.length hM)
                            (List.length h) hV Av Bv (repeat zero n)).
  { split; [|split; [|split; [|lia]]].
    - exists rs'. split; [|split; [|split; [|split; [|split]]]].
      + unfold hV, hM. rewrite nth_error_app1 by (rewrite length_app; simpl; lia).
        rewrite nth_error_app2 by lia. now rewrite Nat.sub_diag.
      + apply seq_NoDup.
      + unfold rs'. rewrite in_seq. fold n. lia.
      + unfold rs'. rewrite in_seq. fold n. lia.
      + unfold rs'. rewrite in_seq. lia.
      + unfold hV, hM, hc, rs'. rewrite <- !app_assoc.
        apply holds_rows_seq.
    - unfold hV. rewrite nth_error_app2 by lia. now rewrite Nat.sub_diag.
    - unfold hV, hM, hc, hx. rewrite <- !app_assoc.
      rewrite nth_error_app2 by lia. now rewrite Nat.sub_diag. }
  pose proof
       (@for_st_result nat (list (list E) * list E)
          (fun st h' =>
             represents wrap (List.length hc) (List.length hM) (List.length h)
                        h' (fst st) (snd st) (repeat zero n))
          (seq 0 n)
          (Store.forward wrap unwrap missing mag div sub mul n
                         (List.length hc) (List.length hM))
          (Elimination.forward missing mag div sub mul n)
          (fun st i h' Ht =>
             match st as st0
                   return
                   (represents wrap (List.length hc) (List.length hM)
                               (List.length h) h' (fst st0) (snd st0)
                               (repeat zero n) ->
                    result
                      (fun st1 h'' =>
                         represents wrap (List.length hc) (List.length hM)
                                    (List.length h) h'' (fst st1) (snd st1)
                                    (repeat zero n))
                      (Store.forward wrap unwrap missing mag div sub mul n
                                     (List.length hc) (List.length hM) tt i h')
                      (Elimination.forward missing mag div sub mul n st0 i))
             with
             | (Mv', Vv') => fun Ht' => @forward_result _ _ _ _ _ _ _ n i Ht'
             end Ht)
          (Av, Bv) hV Hrep) as Hfwd.
  destruct (for_each (seq 0 n)
                     (Elimination.forward missing mag div sub mul n) (Av, Bv))
    as [[M' V']|]; [|now apply bind_throws].
  destruct Hfwd as [Hrep1 Hs1]. simpl fst in Hrep1. simpl snd in Hrep1.
  rewrite (bind_writes _ _ _ Hs1).
  pose proof
       (@for_st_result nat (list E)
          (fun xv h' =>
             represents wrap (List.length hc) (List.length hM) (List.length h)
                        h' M' V' xv)
          (rev (seq 0 n))
          (Store.back wrap unwrap missing mag div sub mul add zero n
                      (List.length hc) (List.length hM) (List.length h))
          (Elimination.back missing mag div sub mul add zero n M' V')
          (fun xv i h' Ht => @back_result _ _ _ _ _ _ _ n i Ht)
          (repeat zero n) _ Hrep1) as Hback.
  destruct (for_each (rev (seq 0 n))
                     (Elimination.back missing mag div sub mul add zero n
                                       M' V') (repeat zero n))
    as [xs|]; [|now apply bind_throws].
  destruct Hback as [Hrep2 Hs2].
  rewrite (bind_writes _ _ _ Hs2). simpl.
  exists (List.length h). split; [reflexivity|].
  exact (proj1 (proj2 (proj2 Hrep2))).
Qed.

Lemma alloc_rows_eq (G : list (list E)) (acc : list nat) (h : Store.heap) :
  Store.for_st G
    (fun acc r =>
       Store.bind (Store.alloc (wrap r)) (fun l => Store.ret (acc ++ [l])))
    acc h
  = (h ++ map wrap G, Some (acc ++ seq (List.length h) (List.length G))).
Proof.
  revert acc h. induction G as [|row G IH]; intros acc h; simpl.
  - now rewrite !app_nil_r.
  - rewrite (bind_some _ _ _ (eq_refl : Store.bind (Store.alloc (wrap row))
                                (fun l => Store.ret (acc ++ [l])) h
                              = (h ++ [wrap row],
                                 Some (acc ++ [List.length h])))).
    rewrite IH. rewrite <- !app_assoc, length_app. simpl.
    now rewrite Nat.add_1_r.
Qed.

Lemma holds_matrix_app (h rest : Store.heap) (A : nat)
      (Av : list (list E)) :
  holds_matrix wrap h A Av -> holds_matrix wrap (h ++ rest) A Av.
Proof.
  intros (rs & HA & Hrows). exists rs. split.
  - rewrite nth_error_app1; auto. apply nth_error_Some. congruence.
  - now apply holds_rows_app.
Qed.

Lemma alloc_matrix_eq (G : list (list E)) (h : Store.heap) :
  Store.alloc_matrix wrap G h
  = ((h ++ map wrap G)
       ++ [Store.RefArray (seq (List.length h) (List.length G))],
     Some (List.length h + List.length G)).
Proof.
  unfold Store.alloc_matrix.
  rewrite (bind_some _ _ _ (alloc_rows_eq G [] h)). simpl.
  unfold Store.alloc. now rewrite length_app, length_map.
Qed.

(** A system built by the caller and handed to the solver: the value
    read back is the value of the elimination on values. *)
Lemma solve_built (G : list (list E)) (I_rhs : list E) (h : Store.heap) :
  snd (Store.bind (Store.alloc_matrix wrap G)
         (fun Gl =>
            Store.bind (Store.alloc (wrap I_rhs))
              (fun Il =>
                 Store.bind
                   (Store.solve wrap unwrap missing mag div sub mul add zero
                                Gl Il)
                   (fun xl => Store.elements unwrap xl))) h)
  = Elimination.solve missing mag div sub mul add zero G I_rhs.
Proof.
  rewrite (bind_some _ _ _ (alloc_matrix_eq G h)).
  rewrite bind_alloc.
  set (hG := (h ++ map wrap G)
               ++ [Store.RefArray (seq (List.length h) (List.length G))]).
  assert (HG : holds_matrix wrap (hG ++ [wrap I_rhs])
                            (List.length h + List.length G) G).
  { apply holds_matrix_app.
    exists (seq (List.length h) (List.length G)). split.
    - unfold hG. rewrite nth_error_app2 by (rewrite length_app, length_map; lia).
      rewrite length_app, length_map, Nat.sub_diag. reflexivity.
    - unfold hG. rewrite <- app_assoc. apply holds_rows_seq. }
  assert (HI : nth_error (hG ++ [wrap I_rhs]) (List.length hG)
               = Some (wrap I_rhs)).
  { rewrite nth_error_app2 by lia. now rewrite Nat.sub_diag. }
  pose proof (@solve_refines _ _ _ _ _ HG HI) as H.
  destruct (Elimination.solve missing mag div sub mul add zero G I_rhs)
    as [xs|].
  - destruct H as (xl & Hs & Hx).
    unfold Store.bind at 1.
    destruct (Store.solve wrap unwrap missing mag div sub mul add zero
                          (List.length h + List.length G) (List.length hG)
                          (hG ++ [wrap I_rhs])) as [hf r].
    simpl in Hs, Hx. subst r.
    now rewrite (@elements_at _ _ _ Hx).
  - now apply bind_throws.
Qed.

End SolverRefines.

(** *** The two solvers as instances of the elimination *)

Lemma read_number (l : list R) (i : nat) :
  Elimination.read (Some 0%R) l i = Some (JS.vget l i).
Proof.
  unfold Elimination.read, JS.vget. revert i.
  induction l as [|a l IH]; intros [|i]; simpl; auto.
Qed.

Lemma read_complex (l : list Complex.t) (i : nat) :
  Elimination.read None l i = nth_error l i.
Proof. unfold Elimination.read. destruct (nth_error l i); reflexivity. Qed.

Lemma entry_number (M : list (list R)) (i j : nat) :
  MatrixSolver.entry M i j = Elimination.entry (Some 0%R) M i j.
Proof.
  unfold MatrixSolver.entry, Elimination.entry.
  destruct (nth_error M i); [|reflexivity]. now rewrite read_number.
Qed.

Lemma entry_complex (M : list (list Complex.t)) (i j : nat) :
  ComplexMatrixSolver.entry M i j = Elimination.entry None M i j.
Proof.
  unfold ComplexMatrixSolver.entry, Elimination.entry.
  destruct (nth_error M i); [|reflexivity]. now rewrite read_complex.
Qed.

Lemma pivot_number (n i : nat) (M : list (list R)) :
  MatrixSolver.pivot n i M = Elimination.pivot (Some 0%R) Rabs n i M.
Proof.
  unfold MatrixSolver.pivot, Elimination.pivot. rewrite entry_number.
  destruct (Elimination.entry (Some 0%R) M i i); [|reflexivity].
  apply for_each_ext. intros [maxRow maxVal] k. now rewrite entry_number.
Qed.

Lemma pivot_complex (n i : nat) (M : list (list Complex.t)) :
  ComplexMatrixSolver.pivot n i M
  = Elimination.pivot None Complex.magnitude n i M.
Proof.
  unfold ComplexMatrixSolver.pivot, Elimination.pivot. rewrite entry_complex.
  destruct (Elimination.entry None M i i); [|reflexivity].
  apply for_each_ext. intros [maxRow maxVal] k. now rewrite entry_complex.
Qed.

Lemma eliminate_number (n i : nat) (st : list (list R) * list R) (k : nat) :
  MatrixSolver.eliminate n i st k
  = Elimination.eliminate (Some 0%R) Rdiv Rminus Rmult n i st k.
Proof.
  destruct st as [M V]. unfold MatrixSolver.eliminate, Elimination.eliminate.
  rewrite !entry_number, !read_number.
  destruct (Elimination.entry (Some 0%R) M k i) as [mki|]; [|reflexivity].
  destruct (Elimination.entry (Some 0%R) M i i) as [mii|]; [|reflexivity].
  cbv zeta.
  erewrite for_each_ext; [reflexivity|].
  intros M' j. simpl. now rewrite !entry_number.
Qed.

Lemma eliminate_complex (n i : nat)
      (st : list (list Complex.t) * list Complex.t) (k : nat) :
  ComplexMatrixSolver.eliminate n i st k
  = Elimination.eliminate None Complex.div Complex.sub Complex.mul n i st k.
Proof.
  destruct st as [M V].
  unfold ComplexMatrixSolver.eliminate, Elimination.eliminate.
  rewrite !entry_complex, !read_complex.
  destruct (Elimination.entry None M k i) as [mki|]; [|reflexivity].
  destruct (Elimination.entry None M i i) as [mii|]; [|reflexivity].
  destruct (nth_error V k) as [vk|]; [|reflexivity].
  destruct (nth_error V i) as [vi|]; [|reflexivity].
  cbv zeta.
  erewrite for_each_ext; [reflexivity|].
  intros M' j. simpl. now rewrite !entry_complex.
Qed.

Lemma forward_number (n : nat) (st : list (list R) * list R) (i : nat) :
  MatrixSolver.forward n st i
  = Elimination.forward (Some 0%R) Rabs Rdiv Rminus Rmult n st i.
Proof.
  destruct st as [M V]. unfold MatrixSolver.forward, Elimination.forward.
  rewrite pivot_number.
  destruct (Elimination.pivot (Some 0%R) Rabs n i M) as [[maxRow maxVal]|];
    [|reflexivity].
  cbv zeta. rewrite entry_number.
  destruct (Elimination.entry (Some 0%R) (JS.swap i maxRow M) i i)
    as [mii|]; [|reflexivity].
  destruct (JS.ltb (Rabs mii) 1e-12); [reflexivity|].
  apply for_each_ext. intros st k. apply eliminate_number.
Qed.

Lemma forward_complex (n : nat)
      (st : list (list Complex.t) * list Complex.t) (i : nat) :
  ComplexMatrixSolver.forward n st i
  = Elimination.forward None Complex.magnitude Complex.div Complex.sub
                        Complex.mul n st i.
Proof.
  destruct st as [M V].
  unfold ComplexMatrixSolver.forward, Elimination.forward.
  rewrite pivot_complex.
  destruct (Elimination.pivot None Complex.magnitude n i M)
    as [[maxRow maxVal]|]; [|reflexivity].
  cbv zeta. rewrite entry_complex.
  destruct (Elimination.entry None (JS.swap i maxRow M) i i)
    as [mii|]; [|reflexivity].
  destruct (JS.ltb (Complex.magnitude mii) 1e-12); [reflexivity|].
  apply for_each_ext. intros st k. apply eliminate_complex.
Qed.

Lemma back_number (n : nat) (M : list (list R)) (V x : list R) (i : nat) :
  MatrixSolver.back n M V x i
  = Elimination.back (Some 0%R) Rabs Rdiv Rminus Rmult Rplus 0%R n M V x i.
Proof.
  unfold MatrixSolver.back, Elimination.back. rewrite entry_number.
  destruct (Elimination.entry (Some 0%R) M i i) as [mii|]; [|reflexivity].
  destruct (JS.ltb (Rabs mii) 1e-12); [reflexivity|].
  rewrite read_number.
  erewrite for_each_ext; [reflexivity|].
  intros sum j. simpl. now rewrite entry_number, read_number.
Qed.

Lemma back_complex (n : nat) (M : list (list Complex.t))
      (V x : list Complex.t) (i : nat) :
  ComplexMatrixSolver.back n M V x i
  = Elimination.back None Complex.magnitude Complex.div Complex.sub
                     Complex.mul Complex.add Complex.zero n M V x i.
Proof.
  unfold ComplexMatrixSolver.back, Elimination.back. rewrite entry_complex.
  destruct (Elimination.entry None M i i) as [mii|]; [|reflexivity].
  destruct (JS.ltb (Complex.magnitude mii) 1e-12); [reflexivity|].
  rewrite read_complex.
  erewrite for_each_ext; [reflexivity|].
  intros sum j. simpl. rewrite entry_complex.
  destruct (Elimination.entry None M i j); [|reflexivity].
  now rewrite read_complex.
Qed.

Lemma solve_number (A : list (list R)) (B : list R) :
  MatrixSolver.solve A B
  = Elimination.solve (Some 0%R) Rabs Rdiv Rminus Rmult Rplus 0%R A B.
Proof.
  unfold MatrixSolver.solve, Elimination.solve. rewrite map_id.
  rewrite (for_each_ext _ _ _ _ (forward_number (List.length A))).
  destruct (for_each (seq 0 (List.length A))
              (Elimination.forward (Some 0%R) Rabs Rdiv Rminus Rmult
                                   (List.length A)) (A, B))
    as [[M V]|]; [|reflexivity].
  apply for_each_ext. intros x i. apply back_number.
Qed.

Lemma solve_complex (A : list (list Complex.t)) (B : list Complex.t) :
  ComplexMatrixSolver.solve A B
  = Elimination.solve None Complex.magnitude Complex.div Complex.sub
                      Complex.mul Complex.add Complex.zero A B.
Proof.
  unfold ComplexMatrixSolver.solve, Elimination.solve. rewrite map_id.
  rewrite (for_each_ext _ _ _ _ (forward_complex (List.length A))).
  destruct (for_each (seq 0 (List.length A))
              (Elimination.forward None Complex.magnitude Complex.div
                                   Complex.sub Complex.mul (List.length A))
              (A, B))
    as [[M V]|]; [|reflexivity].
  apply for_each_ext. intros x i. apply back_complex.
Qed.

(** *** The entry points *)

Lemma returns_ret {A} (a : A) : returns (Store.ret a) a.
Proof. intro h. reflexivity. Qed.

Lemma returns_bind {A B} (c : Store.St A) (k : A -> Store.St B)
      (a : A) (b : B) :
  returns c a -> returns (k a) b -> returns (Store.bind c k) b.
Proof.
  intros Hc Hk h. unfold Store.bind. specialize (Hc h).
  destruct (c h) as [h' [a'|]]; simpl in Hc; inversion Hc; subst.
  apply Hk.
Qed.

Lemma returns_try {A} (c : Store.St A) (v : option A) :
  (forall h, snd (c h) = v) -> returns (Store.try c) v.
Proof. intros H h. simpl. now rewrite H. Qed.

Lemma returns_for {A S} (l : list A) (body : S -> A -> Store.St S)
      (pbody : S -> A -> S) (s : S) :
  (forall s a, returns (body s a) (pbody s a)) ->
  returns (Store.for_st l body s) (fold_left pbody l s).
Proof.
  intro Hb. revert s. induction l as [|a l IH]; intro s; simpl.
  - apply returns_ret.
  - eapply returns_bind; [apply Hb | apply IH].
Qed.

Lemma solve_numbers_eq (G : list (list R)) (I_rhs : list R)
      (h : Store.heap) :
  snd (Store.solve_numbers G I_rhs h) = MatrixSolver.solve G I_rhs.
Proof.
  rewrite solve_number.
  apply (@solve_built R Store.NumArray Store.numbers (Some 0%R) Rabs
                      Rdiv Rminus Rmult Rplus 0%R (fun l => eq_refl)).
Qed.

Lemma solve_complexes_eq (G : list (list Complex.t))
      (I_rhs : list Complex.t) (h : Store.heap) :
  snd (Store.solve_complexes G I_rhs h) = ComplexMatrixSolver.solve G I_rhs.
Proof.
  rewrite solve_complex.
  apply (@solve_built Complex.t Store.ComplexArray Store.complexes None
                      Complex.magnitude Complex.div Complex.sub Complex.mul
                      Complex.add Complex.zero (fun l => eq_refl)).
Qed.

Lemma components_loop (h : Store.heap) (rs : list nat) (xs acc : list CircuitComponent) :
  Forall2 (fun r c => nth_error h r = Some (Store.ComponentRecord c)) rs xs ->
  Store.for_st rs
    (fun acc r =>
       Store.bind (Store.load r)
         (fun o =>
            match o with
            | Store.ComponentRecord c => Store.ret (acc ++ [c])
            | _ => Store.throw
            end)) acc h
  = (h, Some (acc ++ xs)).
Proof.
  intro H. revert acc.
  induction H as [|r c rs xs Hr Hrs IH]; intro acc; simpl.
  - now rewrite app_nil_r.
  - unfold Store.bind at 1 2, Store.load. rewrite Hr. simpl.
    rewrite IH. now rewrite <- app_assoc.
Qed.

Lemma components_of_at (h : Store.heap) (l : nat) (cs : list CircuitComponent) :
  holds_components h l cs -> Store.components_of l h = (h, Some cs).
Proof.
  intros (rs & Hl & Hrs). unfold Store.components_of.
  assert (Hrefs : Store.refs l h = (h, Some rs)).
  { unfold Store.refs, Store.bind, Store.load. now rewrite Hl. }
  rewrite (bind_reads _ _ Hrefs).
  exact (@components_loop h rs cs [] Hrs).
Qed.

Lemma wires_loop (h : Store.heap) (rs : list nat) (xs acc : list Wire) :
  Forall2 (fun r w => nth_error h r = Some (Store.WireRecord w)) rs xs ->
  Store.for_st rs
    (fun acc r =>
       Store.bind (Store.load r)
         (fun o =>
            match o with
            | Store.WireRecord w => Store.ret (acc ++ [w])
            | _ => Store.throw
            end)) acc h
  = (h, Some (acc ++ xs)).
Proof.
  intro H. revert acc.
  induction H as [|r w rs xs Hr Hrs IH]; intro acc; simpl.
  - now rewrite app_nil_r.
  - unfold Store.bind at 1 2, Store.load. rewrite Hr. simpl.
    rewrite IH. now rewrite <- app_assoc.
Qed.

Lemma wires_of_at (h : Store.heap) (l : nat) (ws : list Wire) :
  holds_wires h l ws -> Store.wires_of l h = (h, Some ws).
Proof.
  intros (rs & Hl & Hrs). unfold Store.wires_of.
  assert (Hrefs : Store.refs l h = (h, Some rs)).
  { unfold Store.refs, Store.bind, Store.load. now rewrite Hl. }
  rewrite (bind_reads _ _ Hrefs).
  exact (@wires_loop h rs ws [] Hrs).
Qed.

Lemma iterate_returns (env : Env) (st : LoopState) :
  returns (Store.iterate env st) (iterate env st).
Proof.
  unfold Store.iterate, iterate.
  destruct (assemble env (currentVoltages st)
                     (updateGateTargets env (currentVoltages st)
                                        (gateTargets st))) as [G I_rhs].
  eapply returns_bind; [apply returns_try, solve_numbers_eq|].
  destruct (MatrixSolver.solve G I_rhs) as [finalX|]; [|apply returns_ret].
  destruct (updateVoltages env finalX (currentVoltages st)).
  apply returns_ret.
Qed.

Lemma loop_returns (env : Env) (remaining : nat) (st : LoopState) :
  returns (Store.loop env remaining st) (loop env remaining st).
Proof.
  revert st; induction remaining as [|n IH]; intro st; simpl.
  - apply returns_ret.
  - destruct (converged st); [apply returns_ret|].
    eapply returns_bind; [apply iterate_returns|].
    destruct (iterate env st) as [st'|]; [apply IH | apply returns_ret].
Qed.

(** The run of solveCircuit on a heap that holds the circuit returns
    the result of the value-level engine. *)
Lemma solveCircuit_refines (h : Store.heap) (components wires : nat)
      (cs : list CircuitComponent) (ws : list Wire) (frequency : R) :
  holds_components h components cs -> holds_wires h wires ws ->
  snd (Store.solveCircuit components wires frequency h)
  = Some (solveCircuit cs ws frequency).
Proof.
  intros Hc Hw. unfold Store.solveCircuit, solveCircuit.
  rewrite (bind_reads _ _ (components_of_at Hc)).
  rewrite (bind_reads _ _ (wires_of_at Hw)). cbv zeta.
  destruct (negb (hasGround (buildGraph cs ws))); [reflexivity|].
  revert h Hc Hw. intros h _ _. revert h.
  eapply returns_bind; [apply loop_returns|].
  destruct (loop (graphEnv cs (buildGraph cs ws)) maxIterations
                 (initialState (graphEnv cs (buildGraph cs ws))));
    apply returns_ret.
Qed.

Lemma sweepPoint_returns (env : Env) (freq : R) :
  returns (Store.sweepPoint env freq) (sweepPoint env freq).
Proof.
  unfold Store.sweepPoint, sweepPoint.
  destruct (assembleAC env (2 * PI * freq)%R) as [G I_rhs].
  eapply returns_bind; [apply returns_try, solve_complexes_eq|].
  destruct (ComplexMatrixSolver.solve G I_rhs); apply returns_ret.
Qed.

Lemma solveACSweep_refines (h : Store.heap) (components wires : nat)
      (cs : list CircuitComponent) (ws : list Wire)
      (config : SimulationConfig) :
  holds_components h components cs -> holds_wires h wires ws ->
  snd (Store.solveACSweep components wires config h)
  = Some (solveACSweep cs ws config).
Proof.
  intros Hc Hw. unfold Store.solveACSweep, solveACSweep.
  rewrite (bind_reads _ _ (components_of_at Hc)).
  rewrite (bind_reads _ _ (wires_of_at Hw)). cbv zeta.
  destruct (Nat.eqb (numNodes (buildGraph cs ws)) 0); [reflexivity|].
  revert h Hc Hw. intros h _ _. revert h.
  eapply returns_bind; [|apply returns_ret].
  unfold sweep.
  apply (@returns_for nat (list DataPoint) (seq 0 (points config))
           _ (fun plotData i =>
                match sweepPoint (graphEnv cs (buildGraph cs ws))
                                 (sweepFrequency config i) with
                | Some point => plotData ++ [point]
                | None => plotData
                end)).
  intros plotData i.
  eapply returns_bind; [apply sweepPoint_returns|].
  destruct (sweepPoint _ _); apply returns_ret.
Qed.

Lemma timeStepBody_returns (env : Env) (config : SimulationConfig)
      (st : TransientState) (step : nat) :
  returns (Store.timeStepBody env config st step)
          (timeStepBody env config st step).
Proof.
  unfold Store.timeStepBody, timeStepBody.
  destruct (stopped st); [apply returns_ret|].
  destruct (assembleTR env config (INR step * dt config)%R (prevVoltages st)
                       (inductorCurrents st)) as [G I_rhs].
  eapply returns_bind; [apply returns_try, solve_numbers_eq|].
  destruct (MatrixSolver.solve G I_rhs); apply returns_ret.
Qed.

Lemma solveTransient_refines (h : Store.heap) (components wires : nat)
      (cs : list CircuitComponent) (ws : list Wire)
      (config : SimulationConfig) :
  holds_components h components cs -> holds_wires h wires ws ->
  snd (Store.solveTransient components wires config h)
  = Some (solveTransient cs ws config).
Proof.
  intros Hc Hw. unfold Store.solveTransient, solveTransient.
  rewrite (bind_reads _ _ (components_of_at Hc)).
  rewrite (bind_reads _ _ (wires_of_at Hw)). cbv zeta.
  destruct (Nat.eqb (numNodes (buildGraph cs ws)) 0); [reflexivity|].
  revert h Hc Hw. intros h _ _. revert h.
  eapply returns_bind; [|apply returns_ret].
  unfold timeLoop. apply returns_for. intros st step.
  apply timeStepBody_returns.
Qed.

End Refinement.

(** *** What is handed to a call is as it was *)

Section Inputs.

Local Open Scope nat_scope.

Lemma holds_matrix_unchanged {E} (wrap : list E -> Store.object)
      (h h' : Store.heap) (A : nat) (Av : list (list E)) :
  unchanged h h' -> holds_matrix wrap h A Av -> holds_matrix wrap h' A Av.
Proof.
  intros Hu (rs & HA & Hrows). exists rs. split; [now apply Hu|].
  unfold holds_rows in *. eapply Forall2_impl; [|exact Hrows].
  intros r row Hr. now apply Hu.
Qed.

Lemma holds_components_unchanged (h h' : Store.heap) (l : nat)
      (cs : list CircuitComponent) :
  unchanged h h' -> holds_components h l cs -> holds_components h' l cs.
Proof.
  intros Hu (rs & Hl & Hrs). exists rs. split; [now apply Hu|].
  eapply Forall2_impl; [|exact Hrs]. intros r c Hr. now apply Hu.
Qed.

Lemma holds_wires_unchanged (h h' : Store.heap) (l : nat)
      (ws : list Wire) :
  unchanged h h' -> holds_wires h l ws -> holds_wires h' l ws.
Proof.
  intros Hu (rs & Hl & Hrs). exists rs. split; [now apply Hu|].
  eapply Forall2_impl; [|exact Hrs]. intros r w Hr. now apply Hu.
Qed.

(** The solution is returned in the array made first. *)
Lemma solve_returns_new {E} (wrap : list E -> Store.object)
      (unwrap : Store.object -> option (list E)) (missing : option E)
      (mag : E -> R) (div sub mul add : E -> E -> E) (zero : E)
      (A B : nat) (h : Store.heap) (xl : nat) :
  snd (Store.solve wrap unwrap missing mag div sub mul add zero A B h)
  = Some xl ->
  xl = List.length h.
Proof.
  unfold Store.solve.
  unfold Store.bind at 1. pose proof (refs_heap A h) as HA.
  destruct (Store.refs A h) as [h1 [rs|]]; simpl in HA; subst h1;
    [|discriminate].
  rewrite bind_alloc.
  repeat (unfold Store.bind at 1;
          match goal with
          | |- context [match ?c with (_, _) => _ end] =>
              destruct c as [? [?|]]; simpl; try discriminate
          end).
  now intros [= <-].
Qed.

(** C8.  No entry point mutates its inputs.  Arrays and records are
    objects of a heap and are handed to a call by reference.  Whatever
    the heap [h] and the references handed over, and whether the call
    returns or throws, every object of [h] is afterwards at its
    reference with the contents it had: for [solveCircuit],
    [solveACSweep] and [solveTransient] the components array, each
    Component record, the wires array and each wire; for
    [MatrixSolver.solve] and [ComplexMatrixSolver.solve] the matrix
    [A], each of its rows and the vector [b].  The solvers write to
    arrays made during the call only, and return the solution in one
    of them. *)
Theorem C8_inputs_unchanged (h : Store.heap) :
  (forall A B,
      unchanged h (fst (Store.MatrixSolver_solve A B h)) /\
      forall xl, snd (Store.MatrixSolver_solve A B h) = Some xl ->
                 xl = List.length h) /\
  (forall A B,
      unchanged h (fst (Store.ComplexMatrixSolver_solve A B h)) /\
      forall xl, snd (Store.ComplexMatrixSolver_solve A B h) = Some xl ->
                 xl = List.length h) /\
  (forall components wires frequency,
      unchanged h (fst (Store.solveCircuit components wires frequency h))) /\
  (forall components wires config,
      unchanged h (fst (Store.solveACSweep components wires config h))) /\
  (forall components wires config,
      unchanged h (fst (Store.solveTransient components wires config h))).
Proof.
  split; [|split; [|split; [|split]]].
  - intros A B. split.
    + apply keeps_unchanged. apply solve_frame_safe.
    + apply solve_returns_new.
  - intros A B. split.
    + apply keeps_unchanged. apply solve_frame_safe.
    + apply solve_returns_new.
  - intros. apply keeps_unchanged, solveCircuit_frame_safe.
  - intros. apply keeps_unchanged, solveACSweep_frame_safe.
  - intros. apply keeps_unchanged, solveTransient_frame_safe.
Qed.

End Inputs.

(* ================================================================== *)
(** * Further properties of the code *)

(** ** class Complex *)

Section ComplexFacts.

Local Open Scope R_scope.

Lemma Complex_eq (a b : Complex.t) :
  Complex.real a = Complex.real b -> Complex.imag a = Complex.imag b ->
  a = b.
Proof. destruct a, b; simpl; intros; subst; reflexivity. Qed.

Lemma Complex_den_pos (o : Complex.t) :
  Complex.real o * Complex.real o + Complex.imag o * Complex.imag o <> 0 ->
  0 < Complex.real o * Complex.real o + Complex.imag o * Complex.imag o.
Proof. intro H. nra. Qed.

(** [div] undoes [mul], and [mul] undoes [div], for every divisor but
    zero. *)
Theorem Complex_div_mul (a o : Complex.t) :
  o <> Complex.zero ->
  Complex.div (Complex.mul a o) o = a
  /\ Complex.mul (Complex.div a o) o = a.
Proof.
  intro Ho.
  assert (Hden : Complex.real o * Complex.real o
                 + Complex.imag o * Complex.imag o <> 0).
  { intro H. apply Ho. apply Complex_eq; simpl; nra. }
  unfold Complex.div.
  destruct (Req_dec_T (Complex.real o * Complex.real o
                       + Complex.imag o * Complex.imag o) 0) as [E|_];
    [contradiction|].
  split; apply Complex_eq; simpl; field; exact Hden.
Qed.

Lemma Complex_div_mul_witness :
  Complex.mk 3 4 <> Complex.zero
  /\ Complex.div (Complex.mul (Complex.mk 1 2) (Complex.mk 3 4))
                 (Complex.mk 3 4) = Complex.mk 1 2
  /\ Complex.mul (Complex.div (Complex.mk 1 2) (Complex.mk 3 4))
                 (Complex.mk 3 4) = Complex.mk 1 2.
Proof.
  assert (H : Complex.mk 3 4 <> Complex.zero).
  { intro E. apply (f_equal Complex.real) in E. simpl in E. lra. }
  split; [exact H|]. exact (Complex_div_mul (Complex.mk 1 2) H).
Defined.



(** [add] and [sub] undo each other; [mul] is commutative and
    associative, distributes over [add], and has [one] as unit and
    [zero] as absorbing element. *)
Theorem Complex_ring (a b c : Complex.t) :
  Complex.sub (Complex.add a b) b = a
  /\ Complex.add (Complex.sub a b) b = a
  /\ Complex.add a Complex.zero = a
  /\ Complex.mul a b = Complex.mul b a
  /\ Complex.mul (Complex.mul a b) c = Complex.mul a (Complex.mul b c)
  /\ Complex.mul a (Complex.add b c)
     = Complex.add (Complex.mul a b) (Complex.mul a c)
  /\ Complex.mul a Complex.one = a
  /\ Complex.mul a Complex.zero = Complex.zero.
Proof.
  repeat split; apply Complex_eq; simpl; ring.
Qed.

End ComplexFacts.

(* ------------------------------------------------------------------ *)
(** ** solveCircuit: the logic gates (lines 229-260) *)

Section GateFacts.

Local Open Scope R_scope.


(** The target of a gate is one of two levels, 0 and the gate's high
    level; NAND and NOR are the complements of AND and OR on the same
    inputs. *)
Theorem gateTarget_levels env cv (g : CircuitComponent) :
  (gateTarget env cv g = 0 \/ gateTarget env cv g = logicHigh g)
  /\ gateTarget env cv (retype g NAND_GATE)
     = logicHigh g - gateTarget env cv (retype g AND_GATE)
  /\ gateTarget env cv (retype g NOR_GATE)
     = logicHigh g - gateTarget env cv (retype g OR_GATE).
Proof.
  split; [|split].
  - unfold gateTarget. fold (logicHigh g).
    destruct (ComponentType_eqb (type g) NOT_GATE);
      [destruct (JS.gtb _ _); auto|].
    destruct (type g); auto;
      match goal with
      | |- context [if ?b then _ else _] => destruct b; auto
      end.
  - unfold gateTarget, retype, inputCount_or_2, gateInput; simpl.
    fold (logicHigh g).
    destruct (forallb _ _); simpl; lra.
  - unfold gateTarget, retype, inputCount_or_2, gateInput; simpl.
    fold (logicHigh g).
    destruct (existsb _ _); simpl; lra.
Qed.





End GateFacts.

(* ------------------------------------------------------------------ *)
(** ** solveCircuit: the stamps (lines 262-416) *)

Section StampFacts.

Local Open Scope R_scope.

(** Every two-terminal device is stamped with a conductance between 0
    and 1e6 siemens, whatever its value: a resistance of zero or below
    counts as 1e-6 ohm.  The companion current is never negative. *)
Theorem equivalent_bounds cv (c : CircuitComponent) (n1 n2 : nat) :
  includes extraTypes (type c) = false ->
  0 < fst (equivalent cv c n1 n2) <= 1e6
  /\ 0 <= snd (equivalent cv c n1 n2).
Proof.
  intro Hc. unfold equivalent.
  destruct (type c); simpl in Hc; try discriminate; simpl.
  - (* RESISTOR *)
    assert (H : 1e-6 <= Rmax (value c) 1e-6) by apply Rmax_r.
    assert (Hpos : 0 < Rmax (value c) 1e-6) by lra.
    split; [split|lra].
    + unfold Rdiv. rewrite Rmult_1_l. now apply Rinv_0_lt_compat.
    + apply (Rmult_le_reg_r (Rmax (value c) 1e-6)); [exact Hpos|].
      unfold Rdiv. rewrite Rmult_1_l, Rinv_l by lra. lra.
  - lra.
  - lra.
  - (* DIODE *)
    destruct (JS.gtb _ _); simpl; [|lra].
    unfold JS.gtb. destruct (Rlt_dec 0 (value c)); lra.
  - (* LED *)
    destruct (JS.gtb _ _); simpl; [|lra].
    unfold JS.gtb. destruct (Rlt_dec 0 (value c)); lra.
  - lra.
Qed.

Lemma equivalent_bounds_witness :
  0 < fst (equivalent [] (component "r" RESISTOR 0) 1 2) <= 1e6
  /\ 0 <= snd (equivalent [] (component "r" RESISTOR 0) 1 2).
Proof.
  apply (@equivalent_bounds [] (component "r" RESISTOR 0) 1 2).
  reflexivity.
Defined.

(** *** Symmetry *)

Lemma mset_outside (n : nat) (M : list (list R)) (i j : nat) (v : R) :
  square n M -> ~ ((i < n)%nat /\ (j < n)%nat) -> JS.mset i j v M = M.
Proof.
  intros [Hlen Hrows] Hout. unfold JS.mset.
  destruct (Nat.lt_ge_cases i n) as [Hi|Hi].
  - assert (Hj : (n <= j)%nat) by lia.
    assert (Hrow : List.length (nth i M []) = n).
    { rewrite Forall_forall in Hrows. apply Hrows, nth_In. lia. }
    assert (E : JS.aset j v (nth i M []) = nth i M []).
    { clear - Hrow Hj. revert j Hj. rewrite <- Hrow.
      generalize (nth i M []). intro l.
      induction l as [|a l IH]; intros [|j] Hj; simpl in *; auto; try lia.
      f_equal. apply IH. lia. }
    rewrite E. clear - Hi Hlen. subst n. revert i Hi.
    induction M as [|row M IH]; intros [|i] Hi; simpl in *; auto; try lia.
    f_equal. apply IH. lia.
  - generalize (JS.aset j v (nth i M [])). intro w.
    clear - Hi Hlen. subst n. revert i Hi.
    induction M as [|row M IH]; intros [|i] Hi; simpl in *; auto;
      try lia.
    f_equal. apply IH. lia.
Qed.

Lemma symmetric_mset_pair (n : nat) (M : list (list R)) (i j : nat) (v : R) :
  symmetric n M -> symmetric n (JS.mset j i v (JS.mset i j v M)).
Proof.
  intros [Hsq Hsym].
  destruct (Nat.lt_ge_cases i n) as [Hi|Hi];
    [destruct (Nat.lt_ge_cases j n) as [Hj|Hj]|].
  - split; [now repeat apply square_mset|].
    intros r c.
    rewrite (@mget_mset n) by (try apply square_mset; auto).
    rewrite (@mget_mset n) by auto.
    rewrite (@mget_mset n _ j i c r) by (try apply square_mset; auto).
    rewrite (@mget_mset n _ i j c r) by auto.
    rewrite Hsym.
    destruct (Nat.eqb_spec r j), (Nat.eqb_spec c i), (Nat.eqb_spec r i),
      (Nat.eqb_spec c j); simpl; subst; try reflexivity; try lia.
  - rewrite (@mset_outside n M i j) by (auto; lia).
    rewrite (@mset_outside n M j i) by (auto; lia). now split.
  - rewrite (@mset_outside n M i j) by (auto; lia).
    rewrite (@mset_outside n M j i) by (auto; lia). now split.
Qed.

Lemma symmetric_madd_diag (n : nat) (M : list (list R)) (i : nat) (v : R) :
  symmetric n M -> symmetric n (JS.madd i i v M).
Proof.
  intros [Hsq Hsym].
  destruct (Nat.lt_ge_cases i n) as [Hi|Hi].
  - split; [now apply square_madd|]. intros r c.
    rewrite !(@mget_madd n) by auto. rewrite Hsym.
    destruct (Nat.eqb_spec r i), (Nat.eqb_spec c i); simpl; reflexivity.
  - unfold JS.madd. rewrite (@mset_outside n M i i) by (auto; lia).
    now split.
Qed.

Lemma symmetric_msub_pair (n : nat) (M : list (list R)) (i j : nat) (v : R) :
  symmetric n M -> symmetric n (JS.msub j i v (JS.msub i j v M)).
Proof.
  intros [Hsq Hsym].
  destruct (Nat.lt_ge_cases i n) as [Hi|Hi];
    [destruct (Nat.lt_ge_cases j n) as [Hj|Hj]|].
  - split; [now repeat apply square_msub|].
    intros r c.
    rewrite (@mget_msub n) by (try apply square_msub; auto).
    rewrite (@mget_msub n) by auto.
    rewrite (@mget_msub n _ j i c r) by (try apply square_msub; auto).
    rewrite (@mget_msub n _ i j c r) by auto.
    rewrite Hsym.
    destruct (Nat.eqb_spec r j), (Nat.eqb_spec c i), (Nat.eqb_spec r i),
      (Nat.eqb_spec c j); simpl; subst; try lra; try lia.
  - unfold JS.msub. rewrite (@mset_outside n M i j) by (auto; lia).
    rewrite (@mset_outside n M j i) by (auto; lia). now split.
  - unfold JS.msub. rewrite (@mset_outside n M i j) by (auto; lia).
    rewrite (@mset_outside n M j i) by (auto; lia). now split.
Qed.

Lemma symmetric_zeroMatrix (n : nat) : symmetric n (JS.zeroMatrix n).
Proof.
  split; [apply square_repeat|]. intros r c. now rewrite !mget_zeroMatrix.
Qed.

Lemma symmetric_stampTwoTerminal (n : nat) (G : list (list R)) (I : list R)
      (n1 n2 : nat) (g i : R) :
  symmetric n G -> symmetric n (fst (stampTwoTerminal n1 n2 g i (G, I))).
Proof.
  intro H. unfold stampTwoTerminal.
  destruct (negb (Nat.eqb n1 0)), (negb (Nat.eqb n2 0)); simpl;
    auto using symmetric_madd_diag, symmetric_msub_pair.
Qed.

Lemma symmetric_stampBranch (n : nat) (G : list (list R))
      (nPos nNeg : option nat) (idx : nat) :
  symmetric n G -> symmetric n (stampBranch nPos nNeg idx G).
Proof.
  intro H. unfold stampBranch.
  destruct (isNode nPos), (isNode nNeg);
    auto using symmetric_mset_pair.
Qed.

Lemma symmetric_stampGate env gt (n : nat) (GI : list (list R) * list R)
      (g : CircuitComponent) (i : nat) :
  symmetric n (fst GI) -> symmetric n (fst (stampGate env gt GI g i)).
Proof.
  destruct GI as [G I]. simpl. intro H. unfold stampGate. simpl.
  apply fold_left_inv.
  - intros G' k HG' _. destruct (isNode _); auto using symmetric_madd_diag.
  - destruct (isNode _); auto using symmetric_mset_pair.
Qed.

(** Without op-amps the matrix of every iteration is symmetric: each
    stamp of a passive device, a source, an ammeter or a gate writes
    [(r, c)] and [(c, r)] alike. *)
Theorem assemble_symmetric env cv gt :
  opampsOf (env_components env) = [] ->
  symmetric (size env) (fst (assemble env cv gt)).
Proof.
  intro Hop. unfold assemble. rewrite Hop. simpl fold_left.
  unfold JS.forEach_i at 2. simpl JS.forEach_from.
  apply forEach_i_inv; [intros; now apply symmetric_stampGate|].
  apply forEach_i_inv.
  { intros [G I] a i HG _. unfold stampAmmeter. simpl.
    now apply symmetric_stampBranch. }
  apply forEach_i_inv.
  { intros [G I] v i HG _. unfold stampVoltageSource. simpl.
    now apply symmetric_stampBranch. }
  apply fold_left_inv; [|apply symmetric_zeroMatrix].
  intros [G I] c HG _. unfold stampPassive.
  destruct (includes extraTypes (type c)); [exact HG|].
  destruct (sget _ _) as [n1|]; [|exact HG].
  destruct (sget _ _) as [n2|]; [|exact HG].
  destruct (equivalent cv c n1 n2) as [g i].
  now apply symmetric_stampTwoTerminal.
Qed.

Lemma assemble_symmetric_witness :
  symmetric (size (graphEnv ohm_components
                            (buildGraph ohm_components ohm_wires)))
            (fst (assemble (graphEnv ohm_components
                                     (buildGraph ohm_components ohm_wires))
                           [] [])).
Proof.
  apply (@assemble_symmetric
           (graphEnv ohm_components (buildGraph ohm_components ohm_wires))
           [] []).
  reflexivity.
Defined.

End StampFacts.

(* ------------------------------------------------------------------ *)
(** ** solveCircuit: the result (lines 436-486) *)

Section ResultFacts.

Local Open Scope R_scope.

Lemma nhas_nget {V} (k : nat) (m : list (nat * V)) (v : V) :
  nget k m = Some v -> nhas k m = true.
Proof. unfold nhas, JMap.has, nget. now intros ->. Qed.

Lemma keys_nset {V} (k : nat) (v : V) (m : list (nat * V)) :
  JMap.keys (nset k v m)
  = if nhas k m then JMap.keys m else JMap.keys m ++ [k].
Proof. apply keys_set, Nat.eqb_eq. Qed.

Lemma initial_voltages (n : nat) :
  forall a cv,
    JMap.keys cv = seq 0 a ->
    (forall k, (k < a)%nat -> nget k cv = Some 0) ->
    JMap.keys (fold_left (fun cv i => nset i 0 cv) (seq a n) cv)
    = seq 0 (a + n)
    /\ forall k, (k < a + n)%nat ->
                 nget k (fold_left (fun cv i => nset i 0 cv) (seq a n) cv)
                 = Some 0.
Proof.
  induction n as [|n IH]; intros a cv Hk Hv; simpl.
  - rewrite Nat.add_0_r. auto.
  - replace (a + S n)%nat with (S a + n)%nat by lia. apply IH.
    + rewrite keys_nset. unfold nhas, JMap.has.
      assert (Hnone : JMap.get Nat.eqb a cv = None).
      { destruct (JMap.get Nat.eqb a cv) eqn:E; [|reflexivity].
        assert (Hin : In a (JMap.keys cv)).
        { apply (get_In_keys Nat.eqb Nat.eqb_eq). congruence. }
        rewrite Hk in Hin. apply in_seq in Hin. lia. }
      rewrite Hnone, Hk. now rewrite seq_S.
    + intros k Hka. rewrite nget_nset.
      destruct (Nat.eqb_spec k a); [reflexivity|]. apply Hv. lia.
Qed.

Lemma updateVoltages_fold_keys (sol : list R) (l : list nat) :
  forall (m : R) (cv : list (nat * R)),
    (forall n, In n l -> (1 <= n)%nat) ->
    (forall n, In n l -> nget n cv <> None) ->
    JMap.keys (snd (fold_left
                     (fun '(maxDiff, cv) n =>
                        let vNew := JS.vget sol (getNodeIdx n) in
                        let vOld := voltageAt cv n in
                        (Rmax maxDiff (Rabs (vNew - vOld)), nset n vNew cv))
                     l (m, cv))) = JMap.keys cv
    /\ nget 0%nat (snd (fold_left
                     (fun '(maxDiff, cv) n =>
                        let vNew := JS.vget sol (getNodeIdx n) in
                        let vOld := voltageAt cv n in
                        (Rmax maxDiff (Rabs (vNew - vOld)), nset n vNew cv))
                     l (m, cv))) = nget 0%nat cv.
Proof.
  induction l as [|n l IH]; intros m cv H1 Hcv.
  - simpl. auto.
  - destruct (IH (Rmax m (Rabs (JS.vget sol (getNodeIdx n) - voltageAt cv n)))
                 (nset n (JS.vget sol (getNodeIdx n)) cv)) as [Hk H0].
    + intros k Hk. apply H1. now right.
    + intros k Hk. rewrite nget_nset.
      destruct (Nat.eqb k n); [discriminate | apply Hcv; now right].
    + split; [etransitivity; [exact Hk|] | etransitivity; [exact H0|]].
      * rewrite keys_nset. unfold nhas, JMap.has.
        specialize (Hcv n (or_introl eq_refl)). unfold nget in Hcv.
        destruct (JMap.get Nat.eqb n cv); [reflexivity | contradiction].
      * rewrite nget_nset.
        assert (Hn : (1 <= n)%nat) by (apply H1; now left).
        destruct (Nat.eqb_spec 0 n); [lia | reflexivity].
Qed.

Lemma updateVoltages_keys env (sol : list R) (cv : list (nat * R)) :
  (forall n, In n (seq 1 (env_numNodes env)) -> nget n cv <> None) ->
  JMap.keys (snd (updateVoltages env sol cv)) = JMap.keys cv
  /\ nget 0%nat (snd (updateVoltages env sol cv)) = nget 0%nat cv.
Proof.
  intro H. unfold updateVoltages. apply updateVoltages_fold_keys; auto.
  intros n Hn. apply in_seq in Hn. lia.
Qed.

(** What the loop keeps true of its variables: the voltage map has the
    keys 0 to [numNodes] in order, ground is at 0 V, and node [n] is at
    [finalX[n - 1]]. *)
Lemma loop_voltages env (remaining : nat) :
  forall st st',
    JMap.keys (currentVoltages st) = seq 0 (S (env_numNodes env)) ->
    nget 0%nat (currentVoltages st) = Some 0 ->
    (forall n, In n (seq 1 (env_numNodes env)) ->
               nget n (currentVoltages st)
               = Some (JS.vget (finalX st) (getNodeIdx n))) ->
    loop env remaining st = Some st' ->
    JMap.keys (currentVoltages st') = seq 0 (S (env_numNodes env))
    /\ nget 0%nat (currentVoltages st') = Some 0
    /\ forall n, In n (seq 1 (env_numNodes env)) ->
                 nget n (currentVoltages st')
                 = Some (JS.vget (finalX st') (getNodeIdx n)).
Proof.
  induction remaining as [|r IH]; intros st st' Hk H0 Hn Hl; simpl in Hl.
  - inversion Hl; subst. auto.
  - destruct (converged st); [inversion Hl; subst; auto|].
    destruct (iterate env st) as [st1|] eqn:Hit; [|discriminate].
    assert (Hne : forall n, In n (seq 1 (env_numNodes env)) ->
                            nget n (currentVoltages st) <> None).
    { intros n Hin. rewrite (Hn n Hin). discriminate. }
    unfold iterate in Hit.
    destruct (assemble env (currentVoltages st)
                (updateGateTargets env (currentVoltages st)
                                   (gateTargets st))) as [G I].
    destruct (MatrixSolver.solve G I) as [sol|]; [|discriminate].
    destruct (@updateVoltages_keys env sol (currentVoltages st) Hne)
      as [Hu1 Hu2].
    pose proof (@updateVoltages_get env sol (currentVoltages st)) as Hg.
    destruct (updateVoltages env sol (currentVoltages st)) as [d cv'].
    inversion Hit; subst; clear Hit. simpl in *.
    eapply IH; [| | |exact Hl]; simpl; auto; congruence.
Qed.

Lemma initialState_voltages env :
  JMap.keys (currentVoltages (initialState env))
  = seq 0 (S (env_numNodes env))
  /\ nget 0%nat (currentVoltages (initialState env)) = Some 0
  /\ forall n, In n (seq 1 (env_numNodes env)) ->
               nget n (currentVoltages (initialState env))
               = Some (JS.vget (finalX (initialState env)) (getNodeIdx n)).
Proof.
  unfold initialState. simpl.
  destruct (@initial_voltages (S (env_numNodes env)) 0 [])
    as [Hk Hv]; [reflexivity | intros; lia |].
  simpl in Hk, Hv. split; [exact Hk|]. split; [apply Hv; lia|].
  intros n Hn. apply in_seq in Hn. rewrite Hv by lia.
  unfold JS.vget. now destruct (getNodeIdx n).
Qed.

(** The voltages of the result, from the voltage map at loop exit. *)
Lemma resultVoltages_spec (cv : list (nat * R)) (N : nat) :
  JMap.keys cv = seq 0 (S N) ->
  fold_left (fun rv '(k, v) =>
               if negb (Nat.eqb k 0) then nset k (v, 0) rv else rv)
            cv (nset 0%nat (0, 0) [])
  = (0%nat, (0, 0)) :: map (fun '(k, v) => (k, (v, 0))) (tl cv).
Proof.
  intro Hk. destruct cv as [|[k0 v0] cv]; [discriminate|].
  simpl in Hk. inversion Hk as [[Hk0 Hrest]]. subst k0. simpl.
  assert (Hgen : forall (l : list (nat * R)) (acc : list (nat * (R * R))),
             NoDup (JMap.keys l) ->
             (forall k, In k (JMap.keys l) ->
                        k <> 0%nat /\ ~ In k (JMap.keys acc)) ->
             fold_left (fun rv '(k, v) =>
                          if negb (Nat.eqb k 0) then nset k (v, 0) rv else rv)
                       l acc
             = acc ++ map (fun '(k, v) => (k, (v, 0))) l).
  { induction l as [|[k v] l IH]; intros acc Hnd Hin; simpl.
    - now rewrite app_nil_r.
    - destruct (Hin k (or_introl eq_refl)) as [Hk0 Hka].
      destruct (Nat.eqb_spec k 0); [contradiction|]. simpl.
      assert (Hset : nset k (v, 0) acc = acc ++ [(k, (v, 0))]).
      { clear - Hka. induction acc as [|[k' w] acc IHa]; simpl in *.
        - reflexivity.
        - destruct (Nat.eqb_spec k k'); [exfalso; apply Hka; now left|].
          f_equal. apply IHa. tauto. }
      rewrite Hset. inversion Hnd; subst.
      rewrite IH; [now rewrite <- app_assoc| assumption |].
      intros k' Hk'. destruct (Hin k' (or_intror Hk')) as [H0 Hacc].
      split; [exact H0|].
      unfold JMap.keys. rewrite map_app, in_app_iff. simpl.
      intros [H|[H|[]]]; [now apply Hacc|]. subst k'. contradiction. }
  apply (Hgen cv [(0%nat, (0, 0))]).
  - rewrite Hrest. apply seq_NoDup.
  - intros k Hin. rewrite Hrest in Hin. apply in_seq in Hin. simpl.
    split; [lia|]. intros [H|[]]. lia.
Qed.

Lemma nget_In {V} (m : list (nat * V)) (k : nat) (v : V) :
  NoDup (JMap.keys m) -> In (k, v) m -> nget k m = Some v.
Proof.
  induction m as [|[k' v'] m IH]; intros Hnd Hin; simpl in *; [contradiction|].
  inversion Hnd; subst. destruct Hin as [E|Hin].
  - inversion E; subst. now rewrite Nat.eqb_refl.
  - destruct (Nat.eqb_spec k k') as [->|Hne]; [|now apply IH].
    exfalso. apply H1. change k' with (fst (k', v)). now apply in_map.
Qed.

Lemma sget_In {V} (m : list (string * V)) (k : string) (v : V) :
  NoDup (JMap.keys m) -> In (k, v) m -> sget k m = Some v.
Proof.
  induction m as [|[k' v'] m IH]; intros Hnd Hin; simpl in *; [contradiction|].
  inversion Hnd; subst. destruct Hin as [E|Hin].
  - inversion E; subst. now rewrite String.eqb_refl.
  - destruct (String.eqb_spec k k') as [->|Hne]; [|now apply IH].
    exfalso. apply H1. change k' with (fst (k', v)). now apply in_map.
Qed.

(** With a ground in the circuit, solveCircuit reports no error and
    one node per node of the graph, ground first: ids 0 to [numNodes]
    in order, ground at 0 V, every phase 0, and the list of nodes and
    the map of node voltages agree. *)
Theorem solveCircuit_nodes components wires (frequency : R) :
  hasGround (buildGraph components wires) = true ->
  let r := solveCircuit components wires frequency in
  let N := numNodes (buildGraph components wires) in
  error r = None
  /\ map nodeId (nodes r) = seq 0 (S N)
  /\ JMap.keys (nodeVoltages r) = seq 0 (S N)
  /\ nodeVoltage r 0 = 0
  /\ forall nd, In nd (nodes r) ->
                phase nd = 0 /\ nodeVoltage r (nodeId nd) = voltage nd.
Proof.
  intros Hg r N. unfold r, solveCircuit. rewrite Hg. simpl negb. cbv iota.
  set (env := graphEnv components (buildGraph components wires)).
  destruct (loop_some env maxIterations (initialState env)) as [st Hst].
  rewrite Hst.
  destruct (initialState_voltages env) as (Hk0 & H00 & Hn0).
  destruct (@loop_voltages env maxIterations _ st Hk0 H00 Hn0 Hst)
    as (Hk & H0 & Hn).
  unfold harvest, nodeVoltage. cbv zeta. cbn [error nodes nodeVoltages].
  rewrite (@resultVoltages_spec (currentVoltages st) N Hk).
  assert (Htl : map fst (tl (currentVoltages st)) = seq 1 N).
  { unfold JMap.keys in Hk. destruct (currentVoltages st); [discriminate|].
    simpl in *. now inversion Hk. }
  assert (Hkeys : JMap.keys ((0%nat, (0, 0))
                             :: map (fun '(k, v) => (k, (v, 0)))
                                    (tl (currentVoltages st)))
                  = seq 0 (S N)).
  { unfold JMap.keys. simpl. f_equal. rewrite map_map. rewrite <- Htl.
    apply map_ext. now intros [k v]. }
  split; [reflexivity|]. split; [|split; [exact Hkeys|split; [reflexivity|]]].
  - rewrite map_map. simpl. f_equal. rewrite map_map. rewrite <- Htl.
    apply map_ext. now intros [k v].
  - intros nd Hin. apply in_map_iff in Hin.
    destruct Hin as [[k [m p]] [E Hin]]. subst nd.
    cbn [phase nodeId voltage fst snd].
    assert (Hp : p = 0).
    { destruct Hin as [E|Hin]; [now inversion E|].
      apply in_map_iff in Hin. destruct Hin as [[k' v'] [E _]].
      now inversion E. }
    split; [exact Hp|].
    rewrite (@nget_In _ _ k (m, p)); [reflexivity| |exact Hin].
    rewrite Hkeys. apply seq_NoDup.
Qed.

Lemma solveCircuit_nodes_witness :
  let r := solveCircuit ohm_components ohm_wires 0 in
  error r = None
  /\ map nodeId (nodes r) = [0; 1]%nat
  /\ JMap.keys (nodeVoltages r) = [0; 1]%nat
  /\ nodeVoltage r 0 = 0
  /\ forall nd, In nd (nodes r) ->
                phase nd = 0 /\ nodeVoltage r (nodeId nd) = voltage nd.
Proof.
  apply (@solveCircuit_nodes ohm_components ohm_wires 0). reflexivity.
Defined.








(** *** The components of a node (lines 468-473 and 785-790) *)

Lemma nodeToComponents_fold (l : list (string * nat)) :
  forall (pre : list (string * nat)) (m : list (nat * list string)),
    (forall n,
        match nget n m with
        | Some ids =>
            NoDup ids
            /\ forall cid, In cid ids
                           <-> exists key, In (key, n) pre
                                           /\ JS.split_colon_head key = cid
        | None => forall key, ~ In (key, n) pre
        end) ->
    forall n,
      match nget n
                 (fold_left
                    (fun m '(portKey, nodeId) =>
                       let compId := JS.split_colon_head portKey in
                       let m := if nhas nodeId m then m
                                else nset nodeId [] m in
                       match nget nodeId m with
                       | Some l => if set_has compId l then m
                                   else nset nodeId (l ++ [compId]) m
                       | None => m
                       end) l m)
      with
      | Some ids =>
          NoDup ids
          /\ forall cid, In cid ids
                         <-> exists key, In (key, n) (pre ++ l)
                                         /\ JS.split_colon_head key = cid
      | None => forall key, ~ In (key, n) (pre ++ l)
      end.
Proof.
  induction l as [|[key0 n0] l IH]; intros pre m Hm n.
  - simpl. rewrite app_nil_r. apply Hm.
  - cbn [fold_left].
    replace (pre ++ (key0, n0) :: l) with ((pre ++ [(key0, n0)]) ++ l)
      by (now rewrite <- app_assoc).
    apply IH. clear IH n. intro n. cbv zeta.
    set (m1 := if nhas n0 m then m else nset n0 [] m).
    set (ids0 := match nget n0 m with Some ids => ids | None => [] end).
    assert (Hm1 : forall k,
               nget k m1 = if Nat.eqb k n0 then Some ids0 else nget k m).
    { intro k. unfold m1, ids0, nhas, JMap.has. fold (@nget (list string)).
      destruct (nget n0 m) as [ids|] eqn:E.
      - destruct (Nat.eqb_spec k n0); [now subst|reflexivity].
      - now rewrite nget_nset. }
    rewrite (Hm1 n0), Nat.eqb_refl.
    assert (Hids0 : NoDup ids0
                    /\ forall cid, In cid ids0
                                   <-> exists key, In (key, n0) pre
                                                   /\ JS.split_colon_head key
                                                      = cid).
    { unfold ids0. specialize (Hm n0).
      destruct (nget n0 m) as [ids|]; [exact Hm|].
      split; [constructor|]. intro cid. split; [intros []|].
      intros (key & Hin & _). exfalso. eapply Hm; eauto. }
    destruct Hids0 as [Hnd0 Hmem0].
    assert (Hother : forall k, k <> n0 ->
               match nget k m with
               | Some ids =>
                   NoDup ids
                   /\ forall cid, In cid ids
                                  <-> exists key,
                                        In (key, k) (pre ++ [(key0, n0)])
                                        /\ JS.split_colon_head key = cid
               | None => forall key, ~ In (key, k) (pre ++ [(key0, n0)])
               end).
    { intros k Hk. specialize (Hm k).
      destruct (nget k m) as [ids|].
      - destruct Hm as [Hnd Hmem]. split; [exact Hnd|].
        intro cid. rewrite Hmem. split.
        + intros (key & Hin & E). exists key. split; [|exact E].
          apply in_or_app. now left.
        + intros (key & Hin & E). exists key. split; [|exact E].
          apply in_app_or in Hin. destruct Hin as [Hin|[Hin|[]]]; [exact Hin|].
          inversion Hin; subst. contradiction.
      - intros key Hin. apply in_app_or in Hin.
        destruct Hin as [Hin|[Hin|[]]]; [eapply Hm; eauto|].
        inversion Hin; subst. contradiction. }
    destruct (set_has (JS.split_colon_head key0) ids0) eqn:Ehas.
    + rewrite Hm1. destruct (Nat.eqb_spec n n0) as [->|Hne];
        [|now apply Hother].
      split; [exact Hnd0|]. intro cid. rewrite Hmem0. split.
      * intros (key & Hin & E). exists key. split; [|exact E].
        apply in_or_app. now left.
      * intros (key & Hin & E). apply in_app_or in Hin.
        destruct Hin as [Hin|[Hin|[]]]; [eauto|].
        inversion Hin; subst. apply Hmem0. now apply set_has_In.
    + rewrite nget_nset. destruct (Nat.eqb_spec n n0) as [->|Hne].
      * apply set_has_false in Ehas. split.
        -- apply NoDup_app; [exact Hnd0 | repeat constructor; intros [] |].
           ++ intros a Ha [<-|[]]. contradiction.
        -- intro cid. rewrite in_app_iff, Hmem0. simpl. split.
           ++ intros [(key & Hin & E)|[E|[]]].
              ** exists key. split; [|exact E]. apply in_or_app. now left.
              ** exists key0. split; [|exact E]. apply in_or_app.
                 right. now left.
           ++ intros (key & Hin & E). apply in_app_or in Hin.
              destruct Hin as [Hin|[Hin|[]]]; [left; eauto|].
              inversion Hin; subst. right. now left.
      * rewrite Hm1. destruct (Nat.eqb_spec n n0); [contradiction|].
        now apply Hother.
Qed.

Lemma nodeToComponents_spec env (n : nat) :
  match nget n (nodeToComponents env) with
  | Some ids =>
      NoDup ids
      /\ forall cid, In cid ids
                     <-> exists key, In (key, n) (env_portToNode env)
                                     /\ JS.split_colon_head key = cid
  | None => forall key, ~ In (key, n) (env_portToNode env)
  end.
Proof.
  unfold nodeToComponents.
  apply (@nodeToComponents_fold (env_portToNode env) [] []).
  intros k. simpl. intros key [].
Qed.

Lemma portToNode_key components wires (key : string) (n : nat) :
  In (key, n) (portToNode (buildGraph components wires))
  <-> sget key (portToNode (buildGraph components wires)) = Some n.
Proof.
  destruct (buildGraph_inv components wires)
    as (nc & vis & (_ & _ & _ & _ & _ & _ & _ & _ & Hnd) & _).
  split.
  - now apply sget_In.
  - apply (get_Some_In String.eqb String.eqb_eq).
Qed.

Lemma portToNode_domain components wires (key : string) :
  sget key (portToNode (buildGraph components wires)) <> None
  <-> In key (JMap.keys (adjacency components wires)).
Proof.
  destruct (buildGraph_inv components wires)
    as (nc & vis & (_ & O2 & _ & _ & _ & _ & _ & O8 & _) & _ & Hv).
  split.
  - intro H. apply O8, O2, H.
  - intro H. apply O2, Hv, H.
Qed.

Lemma componentIds_spec components wires (n : nat) :
  well_formed components wires ->
  let ids := match nget n (nodeToComponents
                             (graphEnv components
                                       (buildGraph components wires))) with
             | Some l => l
             | None => []
             end in
  NoDup ids
  /\ forall cid,
      In cid ids
      <-> exists c i,
            In c components /\ id c = cid
            /\ sget (portKey (id c) i)
                    (portToNode (buildGraph components wires)) = Some n.
Proof.
  intros Hwf ids.
  pose proof (nodeToComponents_spec
                (graphEnv components (buildGraph components wires)) n) as H.
  cbn [env_portToNode graphEnv] in H.
  assert (Hkey : forall cid,
             (exists key,
                 In (key, n) (portToNode (buildGraph components wires))
                 /\ JS.split_colon_head key = cid)
             <-> exists c i,
                 In c components /\ id c = cid
                 /\ sget (portKey (id c) i)
                         (portToNode (buildGraph components wires)) = Some n).
  { intro cid. split.
    - intros (key & Hin & E). apply portToNode_key in Hin.
      destruct (@well_formed_key components wires key Hwf)
        as (c & i & Hc & Ek).
      { apply portToNode_domain. congruence. }
      subst key. exists c, i. split; [exact Hc|]. split; [|exact Hin].
      rewrite split_colon_head_portKey in E; [exact E|].
      now apply Hwf.
    - intros (c & i & Hc & E & Hs). exists (portKey (id c) i). split.
      + now apply portToNode_key.
      + rewrite split_colon_head_portKey; [exact E|]. now apply Hwf. }
  unfold ids.
  destruct (nget n _) as [l|].
  - destruct H as [Hnd Hmem]. split; [exact Hnd|].
    intro cid. now rewrite Hmem.
  - split; [constructor|]. intro cid. split; [intros []|].
    intro Hex. apply Hkey in Hex. destruct Hex as (key & Hin & _).
    exfalso. eapply H; eauto.
Qed.

(** In the results of solveCircuit and of solveTransient, on a
    well-formed circuit, a node lists the components that have a port
    on it, each once. *)
Theorem result_componentIds components wires (frequency : R)
        (config : SimulationConfig) (nd : SimulationNode) :
  well_formed components wires ->
  In nd (nodes (solveCircuit components wires frequency))
  \/ In nd (nodes (solveTransient components wires config)) ->
  NoDup (componentIds nd)
  /\ forall cid,
      In cid (componentIds nd)
      <-> exists c i,
            In c components /\ id c = cid
            /\ sget (portKey (id c) i)
                    (portToNode (buildGraph components wires))
               = Some (nodeId nd).
Proof.
  intros Hwf [Hin|Hin].
  - unfold solveCircuit in Hin.
    destruct (negb (hasGround (buildGraph components wires)));
      [destruct Hin|].
    destruct (loop _ _ _) as [st|]; [|destruct Hin].
    unfold harvest in Hin. cbv zeta in Hin. cbn [nodes] in Hin.
    apply in_map_iff in Hin. destruct Hin as [[k v] [E _]]. subst nd.
    cbn [componentIds nodeId].
    apply (@componentIds_spec components wires k Hwf).
  - unfold solveTransient in Hin.
    destruct (Nat.eqb (numNodes (buildGraph components wires)) 0);
      [destruct Hin|].
    unfold transientResult in Hin. cbv zeta in Hin. cbn [nodes] in Hin.
    apply in_map_iff in Hin. destruct Hin as [[i v] [E _]]. subst nd.
    cbn [componentIds nodeId].
    apply (@componentIds_spec components wires (S i) Hwf).
Qed.

Lemma ohm_well_formed : well_formed ohm_components ohm_wires.
Proof.
  split; [|split].
  - simpl. repeat constructor; simpl; intuition discriminate.
  - intros c [<-|[<-|[<-|[]]]]; reflexivity.
  - intros w [<-|[<-|[<-|[]]]]; simpl; auto.
Qed.

(** The first node of the result is ground. *)
Lemma solveCircuit_ground_node components wires (frequency : R) :
  hasGround (buildGraph components wires) = true ->
  exists rest,
    nodes (solveCircuit components wires frequency)
    = {| nodeId := 0; voltage := 0; phase := 0;
         componentIds :=
           match nget 0%nat
                      (nodeToComponents
                         (graphEnv components (buildGraph components wires)))
           with
           | Some l => l
           | None => []
           end |} :: rest.
Proof.
  intro Hg. unfold solveCircuit. rewrite Hg. simpl negb. cbv iota.
  set (env := graphEnv components (buildGraph components wires)).
  destruct (loop_some env maxIterations (initialState env)) as [st Hst].
  rewrite Hst.
  destruct (initialState_voltages env) as (Hk0 & H00 & Hn0).
  destruct (@loop_voltages env maxIterations _ st Hk0 H00 Hn0 Hst)
    as (Hk & _).
  unfold harvest. cbv zeta. cbn [nodes].
  rewrite (@resultVoltages_spec (currentVoltages st) (env_numNodes env) Hk).
  cbn [map fst snd]. eexists. reflexivity.
Qed.

Lemma result_componentIds_witness :
  let nd := {| nodeId := 0; voltage := 0; phase := 0;
               componentIds := ["g"; "v"; "r"]%string |} in
  well_formed ohm_components ohm_wires
  /\ In nd (nodes (solveCircuit ohm_components ohm_wires 0))
  /\ NoDup (componentIds nd)
  /\ forall cid,
      In cid (componentIds nd)
      <-> exists c i,
            In c ohm_components /\ id c = cid
            /\ sget (portKey (id c) i)
                    (portToNode (buildGraph ohm_components ohm_wires))
               = Some (nodeId nd).
Proof.
  intro nd.
  assert (Hin : In nd (nodes (solveCircuit ohm_components ohm_wires 0))).
  { destruct (@solveCircuit_ground_node ohm_components ohm_wires 0 eq_refl)
      as [rest E].
    rewrite E. left. reflexivity. }
  split; [exact ohm_well_formed|]. split; [exact Hin|].
  exact (@result_componentIds ohm_components ohm_wires 0 short_config
           nd ohm_well_formed (or_introl Hin)).
Defined.

End ResultFacts.

(* ------------------------------------------------------------------ *)
(** ** buildGraph: the node numbers (lines 163-196) *)

Section Numbering.

Variable components : list CircuitComponent.
Variable adj : list (string * list string).
Hypothesis adj_closed :
  forall d n, In n (neighborsOf adj d) -> In n (JMap.keys adj).
Hypothesis adj_sym :
  forall d n, In n (neighborsOf adj d) -> In d (neighborsOf adj n).

(** One pass of the loop over the port keys keeps every node number
    below [nodeCount] in use. *)
Lemma assignGroup_used (st : list (string * nat) * nat * list string)
      (k : string) :
  graph_inv components adj st ->
  In k (JMap.keys adj) ->
  (forall n, (1 <= n < snd (fst st))%nat ->
             exists a, sget a (fst (fst st)) = Some n) ->
  forall n,
    (1 <= n < snd (fst (assignGroup components adj st k)))%nat ->
    exists a, sget a (fst (fst (assignGroup components adj st k))) = Some n.
Proof.
  destruct st as [[p2n nc] visited].
  intros (O1 & O2 & O4 & O5 & O6 & O7 & O8 & O9 & O10) Hk Hused.
  cbn [fst snd] in Hused.
  unfold assignGroup.
  destruct (set_has k visited) eqn:Ek; [exact Hused|].
  apply set_has_false in Ek.
  destruct (bfs (List.length adj) components adj [k] (visited ++ [k]) [] false)
    as [[v' g'] i'] eqn:Hrun.
  apply (bfs_spec adj_closed (visited0 := visited) (start := k)) in Hrun.
  2:{ unfold bfs_inv. simpl. split; [|split; [|split; [|split; [|split]]]].
      - intro y. rewrite in_app_iff. simpl. tauto.
      - tauto.
      - intros y [<-|[]]. constructor.
      - repeat constructor. simpl; tauto.
      - intros y [<-|[]]. auto.
      - reflexivity. }
  2:{ simpl. lia. }
  destruct Hrun as [(F1 & F2 & F3 & F4 & F5 & F6) Fk].
  rewrite app_nil_r in F5.
  assert (Hkg : In k g') by (apply Fk; simpl; auto).
  assert (Hold : forall a n val,
             sget a p2n = Some n ->
             sget a (fold_left (fun m p => sset p val m) g' p2n) = Some n).
  { intros a n val Ha. rewrite sget_fold_sset.
    destruct (in_dec string_dec a g') as [Hin|]; [|exact Ha].
    exfalso. apply (proj1 (F5 a Hin)). apply O2. congruence. }
  destruct i'; cbn [fst snd]; intros n Hn.
  - destruct (Hused n Hn) as [a Ha]. exists a. now apply Hold.
  - destruct (Nat.eq_dec n nc) as [->|Hne].
    + exists k. rewrite sget_fold_sset.
      destruct (in_dec string_dec k g'); [reflexivity | contradiction].
    + destruct (Hused n) as [a Ha]; [lia|]. exists a. now apply Hold.
Qed.

Lemma graph_fold_used (keys : list string) :
  forall st,
    graph_inv components adj st ->
    (forall k, In k keys -> In k (JMap.keys adj)) ->
    (forall n, (1 <= n < snd (fst st))%nat ->
               exists a, sget a (fst (fst st)) = Some n) ->
    forall n,
      (1 <= n < snd (fst (fold_left (assignGroup components adj) keys st)))%nat ->
      exists a,
        sget a (fst (fst (fold_left (assignGroup components adj) keys st)))
        = Some n.
Proof.
  induction keys as [|k keys IH]; intros st Hinv Hsub Hused; simpl.
  - exact Hused.
  - apply IH.
    + apply (@assignGroup_inv components adj adj_closed adj_sym st k Hinv).
      apply Hsub. now left.
    + intros k' Hk'. apply Hsub. now right.
    + apply assignGroup_used; auto. apply Hsub. now left.
Qed.

End Numbering.

(** The nodes are numbered without gaps: every node number of a port is
    at most [numNodes], and every number from 1 to [numNodes] is the
    node of some port. *)
Theorem buildGraph_contiguous components wires :
  (forall key n,
      sget key (portToNode (buildGraph components wires)) = Some n ->
      (n <= numNodes (buildGraph components wires))%nat)
  /\ forall n,
      (1 <= n <= numNodes (buildGraph components wires))%nat ->
      exists key,
        sget key (portToNode (buildGraph components wires)) = Some n.
Proof.
  split; [intros key n; apply buildGraph_range|].
  unfold buildGraph.
  set (adj := adjacency components wires).
  pose proof (@graph_fold_used components adj
                (@adjacency_closed components wires)
                (@adjacency_sym components wires) (JMap.keys adj)
                ([], 1%nat, [])) as H.
  destruct (fold_left (assignGroup components adj) (JMap.keys adj)
                      ([], 1%nat, [])) as [[p2n nc] visited].
  cbn [fst snd portToNode numNodes] in *.
  intros n Hn. apply H; [| auto | intros m Hm; simpl in Hm; lia | lia].
  unfold graph_inv. simpl.
  split; [tauto|]. split; [intro; split; [tauto|congruence]|].
  split; [tauto|]. split; [intro; split; [congruence|tauto]|].
  split; [congruence|]. split; [lia|]. split; [congruence|].
  split; [tauto|constructor].
Qed.

(** The ports that get a node are the ports the components declare and
    the ends of the wires, declared or not, and no other key; no key is
    listed twice. *)
Theorem buildGraph_domain components wires :
  NoDup (JMap.keys (portToNode (buildGraph components wires)))
  /\ forall key,
      (exists n, sget key (portToNode (buildGraph components wires)) = Some n)
      <-> (exists c i, In c components /\ (i < portCount c)%nat
                       /\ key = portKey (id c) i)
          \/ exists w, In w wires /\ (key = pk (from w) \/ key = pk (to w)).
Proof.
  split.
  - destruct (buildGraph_inv components wires)
      as (nc & vis & (_ & _ & _ & _ & _ & _ & _ & _ & Hnd) & _).
    exact Hnd.
  - intro key. rewrite <- adjacency_keys, <- portToNode_domain.
    destruct (sget key (portToNode (buildGraph components wires))) as [n|].
    + split; [discriminate | eauto].
    + split; [intros [n E]; discriminate | congruence].
Qed.

(* ------------------------------------------------------------------ *)
(** ** solveACSweep: the points of the plot (lines 498-599) *)

Section SweepFacts.

Local Open Scope R_scope.

Lemma toPrecision4_nonneg (v : R) : 0 <= v -> 0 <= JS.toPrecision4 v.
Proof.
  intro Hv. unfold JS.toPrecision4.
  destruct (Req_dec_T v 0) as [|Hne]; [lra|].
  destruct (Rlt_dec v 0) as [|_]; [lra|].
  set (scale := powerRZ 10 (JS.Math_floor (JS.Math_log10 (Rabs v)) - 3)).
  assert (Hs : 0 < scale) by apply powerRZ_10_pos.
  assert (Hq : 0 <= Rabs v / scale + / 2).
  { pose proof (Rabs_pos v).
    assert (0 <= Rabs v / scale)
      by (apply Rmult_le_pos; [lra | left; now apply Rinv_0_lt_compat]).
    lra. }
  pose proof (Math_floor_spec (Rabs v / scale + / 2)) as [_ Hf].
  assert (Hn : (0 <= JS.Math_floor (Rabs v / scale + / 2))%Z).
  { apply le_IZR. apply Rnot_lt_le. intro Hlt.
    assert (IZR (JS.Math_floor (Rabs v / scale + / 2)) <= -1).
    { apply IZR_le. apply lt_IZR in Hlt. lia. }
    lra. }
  apply IZR_le in Hn. rewrite Rmult_1_l. apply Rmult_le_pos; lra.
Qed.

Lemma collect_traces (sol : list Complex.t) (l : list nat) :
  (forall n, In n l -> (getNodeIdx n < List.length sol)%nat) ->
  forall acc,
    for_each l
      (fun ys n =>
         s <- nth_error sol (getNodeIdx n) ;;
         Some (ys ++ [JS.toPrecision4 (Complex.magnitude s)]))
      acc
    = Some (acc ++ map (fun n =>
                          JS.toPrecision4
                            (Complex.magnitude
                               (nth (getNodeIdx n) sol Complex.zero)))
                       l).
Proof.
  induction l as [|n l IH]; intros Hl acc.
  - simpl. now rewrite app_nil_r.
  - rewrite for_each_cons.
    destruct (nth_error sol (getNodeIdx n)) as [s|] eqn:E.
    + rewrite IH by (intros; apply Hl; now right).
      rewrite <- app_assoc. simpl.
      now rewrite (nth_error_nth _ _ Complex.zero E).
    + apply nth_error_None in E.
      specialize (Hl n (or_introl eq_refl)). lia.
Qed.

Lemma sweepPoint_traces env (freq : R) :
  exists p,
    sweepPoint env freq = Some p
    /\ List.length (traces p) = env_numNodes env
    /\ Forall (fun y => 0 <= y) (traces p).
Proof.
  unfold sweepPoint.
  destruct (assembleAC_shape env (2 * PI * freq)) as [HG HI].
  destruct (assembleAC env (2 * PI * freq)) as [G I]. simpl in *.
  destruct (@csolve_some _ G I HG HI) as [sol [E Hsol]]. rewrite E.
  rewrite collect_traces.
  - eexists. split; [reflexivity|]. simpl. split.
    + now rewrite length_map, length_seq.
    + apply Forall_forall. intros y Hy. apply in_map_iff in Hy.
      destruct Hy as [n [<- _]]. apply toPrecision4_nonneg.
      unfold Complex.magnitude. apply sqrt_pos.
  - intros n Hn. apply in_seq in Hn. rewrite Hsol.
    unfold acSize, getNodeIdx. lia.
Qed.

(** Every point of the sweep carries one trace per node, and no trace
    is negative: the traces are magnitudes. *)
Theorem sweep_traces components wires config :
  exists plot,
    plotData (solveACSweep components wires config) = Some plot
    /\ Forall (fun p =>
                 List.length (traces p)
                 = numNodes (buildGraph components wires)
                 /\ Forall (fun y => 0 <= y) (traces p))
              plot.
Proof.
  unfold solveACSweep.
  destruct (Nat.eqb (numNodes (buildGraph components wires)) 0).
  - exists []. split; [reflexivity | constructor].
  - eexists. split; [reflexivity|]. unfold sweep.
    apply fold_left_inv; [|constructor].
    intros plot i Hplot _.
    destruct (sweepPoint_traces
                (graphEnv components (buildGraph components wires))
                (sweepFrequency config i)) as (p & E & Hp).
    rewrite E. apply Forall_app. split; [exact Hplot|].
    constructor; [exact Hp | constructor].
Qed.

(** With at least two points and a positive stop frequency the sweep
    starts at [max(1, startFreq)] and ends at [stopFreq]; when the stop
    frequency is the greater one, the frequencies increase strictly. *)
Theorem sweep_frequency_range config :
  (2 <= points config)%nat -> 0 < stopFreq config ->
  sweepFrequency config 0 = Rmax 1 (startFreq config)
  /\ sweepFrequency config (points config - 1) = stopFreq config
  /\ (Rmax 1 (startFreq config) < stopFreq config ->
      forall i j, (i < j)%nat ->
                  sweepFrequency config i < sweepFrequency config j).
Proof.
  intros Hp Hstop.
  assert (Hstart : 0 < Rmax 1 (startFreq config)).
  { pose proof (Rmax_l 1 (startFreq config)). lra. }
  assert (Hn : 0 < INR (points config) - 1).
  { assert (2 <= INR (points config)) by (apply (le_INR 2); exact Hp). lra. }
  unfold sweepFrequency, stepSize, logStart, logStop.
  split; [|split].
  - simpl INR. rewrite Rmult_0_l, Rplus_0_r. now apply pow10_log10.
  - rewrite minus_INR by lia. simpl INR.
    replace (JS.Math_log10 (Rmax 1 (startFreq config))
             + (INR (points config) - 1)
               * ((JS.Math_log10 (stopFreq config)
                   - JS.Math_log10 (Rmax 1 (startFreq config)))
                  / (INR (points config) - 1)))
      with (JS.Math_log10 (stopFreq config)) by (field; lra).
    now apply pow10_log10.
  - intros Hlt i j Hij.
    assert (Hlog : JS.Math_log10 (Rmax 1 (startFreq config))
                   < JS.Math_log10 (stopFreq config)).
    { unfold JS.Math_log10. pose proof ln_10_pos.
      apply Rmult_lt_compat_r; [now apply Rinv_0_lt_compat|].
      now apply ln_increasing. }
    assert (Hstep : 0 < (JS.Math_log10 (stopFreq config)
                         - JS.Math_log10 (Rmax 1 (startFreq config)))
                        / (INR (points config) - 1)).
    { apply Rmult_lt_0_compat; [lra | now apply Rinv_0_lt_compat]. }
    unfold JS.Math_pow10, Rpower. apply exp_increasing.
    apply Rmult_lt_compat_r; [exact ln_10_pos|].
    apply Rplus_lt_compat_l. apply Rmult_lt_compat_r; [exact Hstep|].
    now apply lt_INR.
Qed.

Lemma sweep_frequency_range_witness :
  sweepFrequency short_config 0 = Rmax 1 1
  /\ sweepFrequency short_config 1 = 10
  /\ (Rmax 1 1 < 10 ->
      forall i j, (i < j)%nat ->
                  sweepFrequency short_config i
                  < sweepFrequency short_config j).
Proof.
  apply (@sweep_frequency_range short_config).
  - simpl. lia.
  - simpl. lra.
Defined.

End SweepFacts.

(* ------------------------------------------------------------------ *)
(** ** solveTransient: the sources (lines 699-733) *)

Section WaveformFacts.

Local Open Scope R_scope.

Lemma fmod_floor (a b : R) :
  0 <= a -> 0 < b -> JS.fmod a b = a - IZR (JS.Math_floor (a / b)) * b.
Proof.
  intros Ha Hb. unfold JS.fmod, JS.trunc.
  destruct (Rle_dec 0 (a / b)) as [|Hn]; [reflexivity|].
  exfalso. apply Hn. apply Rmult_le_pos; [exact Ha|].
  left. now apply Rinv_0_lt_compat.
Qed.

(** [a % b] lies in [[0, b)] for a dividend that is not negative and a
    positive divisor. *)
Lemma fmod_range (a b : R) :
  0 <= a -> 0 < b -> 0 <= JS.fmod a b < b.
Proof.
  intros Ha Hb. rewrite fmod_floor by assumption.
  pose proof (Math_floor_spec (a / b)) as [H1 H2].
  assert (E : a = a / b * b) by (field; lra).
  split.
  - apply (Rmult_le_compat_r b) in H1; lra.
  - apply (Rmult_lt_compat_r b) in H2; lra.
Qed.


Lemma ratio_range (a b : R) :
  0 <= a -> 0 < b -> 0 <= JS.fmod a b / b < 1.
Proof.
  intros Ha Hb. destruct (fmod_range Ha Hb) as [H1 H2].
  assert (Hi : 0 < / b) by now apply Rinv_0_lt_compat.
  split.
  - apply Rmult_le_pos; lra.
  - apply (Rmult_lt_reg_r b); [exact Hb|].
    unfold Rdiv. rewrite Rmult_assoc, Rinv_l by lra. lra.
Qed.

(** An AC source of amplitude [value] and positive frequency stays
    within [value] of its bias at every time from 0 on, whichever of
    the five waveforms it has; a PULSE never goes below the bias. *)
Theorem sourceValue_bounds (v : CircuitComponent) (time : R) :
  type v = AC_SOURCE ->
  In (waveform_or_SINE v)
     ["SINE"; "SQUARE"; "TRIANGLE"; "SAWTOOTH"; "PULSE"]%string ->
  0 < JS.opt_or (frequency v) 60 -> 0 <= value v -> 0 <= time ->
  let bias := JS.opt_or (dcBias v) 0 in
  bias - value v <= sourceValue v time <= bias + value v
  /\ (waveform_or_SINE v = "PULSE"%string -> bias <= sourceValue v time).
Proof.
  intros Ht Hw Hf Hv Htime bias. unfold sourceValue. rewrite Ht.
  cbn [ComponentType_eqb]. fold bias.
  set (freq := JS.opt_or (frequency v) 60) in *.
  assert (Hper : 0 < 1 / freq).
  { unfold Rdiv. rewrite Rmult_1_l. now apply Rinv_0_lt_compat. }
  pose proof (ratio_range Htime Hper) as Hr.
  set (p := JS.fmod time (1 / freq) / (1 / freq)) in *.
  simpl in Hw.
  destruct Hw as [E|[E|[E|[E|[E|[]]]]]]; rewrite <- E; cbn [String.eqb Ascii.eqb Bool.eqb andb].
  - pose proof (SIN_bound (2 * PI * freq * time)) as [S1 S2].
    split; [|discriminate]. split; nra.
  - split; [|discriminate].
    destruct (JS.ltb _ _); split; lra.
  - split; [|discriminate]. unfold JS.ltb.
    destruct (Rlt_dec p 0.25); [split; nra|].
    destruct (Rlt_dec p 0.75); split; nra.
  - split; [|discriminate]. split; nra.
  - destruct (JS.ltb _ _); split; try split; intros; lra.
Qed.

Lemma sourceValue_bounds_witness :
  let v := {| id := "a"; type := AC_SOURCE; value := 5;
              frequency := Some 50; waveform := Some "TRIANGLE"%string;
              dcBias := Some 1; dutyCycle := None; inputImpedance := None;
              inputCount := None |} in
  JS.opt_or (dcBias v) 0 - 5 <= sourceValue v 1
  <= JS.opt_or (dcBias v) 0 + 5
  /\ (waveform_or_SINE v = "PULSE"%string ->
      JS.opt_or (dcBias v) 0 <= sourceValue v 1).
Proof.
  intro v.
  apply (@sourceValue_bounds v 1).
  - reflexivity.
  - simpl. auto.
  - simpl. unfold JS.num_or. destruct (Req_dec_T 50 0); lra.
  - simpl. lra.
  - lra.
Defined.



End WaveformFacts.

(* ------------------------------------------------------------------ *)
(** ** solveTransient: the result (lines 754-811) *)

Section TransientFacts.

Local Open Scope R_scope.

Lemma combine_seq_fst {A} (l : list A) (s : nat) :
  map fst (combine (seq s (List.length l)) l) = seq s (List.length l).
Proof.
  revert s; induction l as [|a l IH]; intro s; simpl; [reflexivity|].
  now rewrite IH.
Qed.

Lemma combine_seq_snd {A} (l : list A) (s : nat) :
  map snd (combine (seq s (List.length l)) l) = l.
Proof.
  revert s; induction l as [|a l IH]; intro s; simpl; [reflexivity|].
  now rewrite IH.
Qed.

(** What the time loop keeps true: no step fails, there is one final
    voltage per node, and the last point plotted holds the final
    voltages rounded to four decimals. *)
Lemma timeLoop_final env config (l : list nat) :
  forall st,
    stopped st = false ->
    List.length (finalVoltages st) = env_numNodes env ->
    (tr_plotData st = []
     /\ finalVoltages st = JS.zeros (env_numNodes env))
    \/ (exists front p,
           tr_plotData st = front ++ [p]
           /\ traces p = map JS.toFixed4 (finalVoltages st)) ->
    let st' := fold_left (timeStepBody env config) l st in
    stopped st' = false
    /\ List.length (finalVoltages st') = env_numNodes env
    /\ ((tr_plotData st' = []
         /\ finalVoltages st' = JS.zeros (env_numNodes env))
        \/ (exists front p,
               tr_plotData st' = front ++ [p]
               /\ traces p = map JS.toFixed4 (finalVoltages st'))).
Proof.
  induction l as [|step l IH]; intros st Hs Hlen Hplot; simpl.
  - auto.
  - apply IH; unfold timeStepBody; rewrite Hs;
      destruct (assembleTR env config (INR step * dt config)
                           (prevVoltages st) (inductorCurrents st))
        as [G I];
      destruct (solve_some G I) as [sol [E _]]; rewrite E; simpl.
    + reflexivity.
    + now rewrite length_map, length_seq.
    + right. exists (tr_plotData st). eexists. split; [reflexivity|].
      simpl. now rewrite map_map.
Qed.

(** solveTransient lists the nodes 1 to [numNodes] in order, never
    ground, each with phase 0; their voltages are those of the last
    time step, so the last plotted point is these voltages rounded to
    four decimals, and they are all 0 when no step was taken. *)
Theorem solveTransient_nodes components wires config :
  numNodes (buildGraph components wires) <> 0%nat ->
  let r := solveTransient components wires config in
  map nodeId (nodes r) = seq 1 (numNodes (buildGraph components wires))
  /\ Forall (fun nd => phase nd = 0) (nodes r)
  /\ exists plot,
      plotData r = Some plot
      /\ ((plot = [] /\ Forall (fun nd => voltage nd = 0) (nodes r))
          \/ exists front p,
              plot = front ++ [p]
              /\ traces p
                 = map (fun nd => JS.toFixed4 (voltage nd)) (nodes r)).
Proof.
  intros HN r. unfold r, solveTransient.
  destruct (Nat.eqb_spec (numNodes (buildGraph components wires)) 0)
    as [|_]; [contradiction|].
  set (env := graphEnv components (buildGraph components wires)).
  destruct (@timeLoop_final env config
              (seq 0 (Z.to_nat (steps config + 1)))
              (initialTransient env)) as (Hs & Hlen & Hplot).
  { reflexivity. }
  { simpl. apply repeat_length. }
  { left. split; reflexivity. }
  fold (timeLoop env config) in Hs, Hlen, Hplot.
  unfold transientResult. cbn [nodes plotData].
  set (fv := finalVoltages (timeLoop env config)) in *.
  assert (Hid : map nodeId
                    (map (fun '(i, v) =>
                            {| nodeId := S i; voltage := v; phase := 0;
                               componentIds :=
                                 match nget (S i) (nodeToComponents env) with
                                 | Some l => l
                                 | None => []
                                 end |})
                         (combine (seq 0 (List.length fv)) fv))
                = seq 1 (env_numNodes env)).
  { rewrite map_map.
    rewrite (map_ext _ (fun iv => S (fst iv))) by (now intros [i v]).
    rewrite <- (map_map fst S), combine_seq_fst, seq_shift.
    now rewrite Hlen. }
  assert (Hv : map voltage
                   (map (fun '(i, v) =>
                           {| nodeId := S i; voltage := v; phase := 0;
                              componentIds :=
                                match nget (S i) (nodeToComponents env) with
                                | Some l => l
                                | None => []
                                end |})
                        (combine (seq 0 (List.length fv)) fv))
               = fv).
  { rewrite map_map.
    rewrite (map_ext _ (fun iv => snd iv)) by (now intros [i v]).
    apply combine_seq_snd. }
  split; [exact Hid|]. split.
  - apply Forall_forall. intros nd Hin. apply in_map_iff in Hin.
    destruct Hin as [[i v] [<- _]]. reflexivity.
  - eexists. split; [reflexivity|].
    destruct Hplot as [[Hp Hz]|(front & p & Hp & Ht)].
    + left. split; [exact Hp|].
      apply Forall_forall. intros nd Hin.
      assert (Hin' : In (voltage nd) fv)
        by (rewrite <- Hv; now apply in_map).
      rewrite Hz in Hin'. unfold JS.zeros in Hin'.
      now apply repeat_spec in Hin'.
    + right. exists front, p. split; [exact Hp|].
      rewrite Ht. rewrite <- Hv at 1. now rewrite map_map.
Qed.

Lemma solveTransient_nodes_witness :
  let r := solveTransient lone_resistor [] short_config in
  map nodeId (nodes r) = [1; 2]%nat
  /\ Forall (fun nd => phase nd = 0) (nodes r)
  /\ exists plot,
      plotData r = Some plot
      /\ ((plot = [] /\ Forall (fun nd => voltage nd = 0) (nodes r))
          \/ exists front p,
              plot = front ++ [p]
              /\ traces p
                 = map (fun nd => JS.toFixed4 (voltage nd)) (nodes r)).
Proof.
  apply (@solveTransient_nodes lone_resistor [] short_config).
  discriminate.
Defined.

End TransientFacts.

(* ------------------------------------------------------------------ *)
(** ** The linear solvers: shapes and singular systems (lines 31-114) *)

Section SingularFacts.

Local Open Scope R_scope.

Lemma aset_same {A} (l : list A) (i : nat) (a : A) :
  nth_error l i = Some a -> JS.aset i a l = l.
Proof.
  revert i; induction l as [|y l IH]; intros [|i] H; simpl in *;
    try discriminate.
  - now inversion H.
  - f_equal. now apply IH.
Qed.

Lemma swap_same {A} (l : list A) (i : nat) : JS.swap i i l = l.
Proof.
  unfold JS.swap. destruct (nth_error l i) as [a|] eqn:E; [|reflexivity].
  rewrite (@aset_same _ l i a E). now apply aset_same.
Qed.

Section ZeroMatrix.

Variable E : Type.
Variable missing : option E.
Variable mag : E -> R.
Variables div sub mul add : E -> E -> E.
Variable zero : E.
Hypothesis mag_zero : mag zero = 0.
Variable n : nat.

Let Z : list (list E) := repeat (repeat zero n) n.

Lemma zero_entry (i j : nat) :
  (i < n)%nat -> (j < n)%nat -> Elimination.entry missing Z i j = Some zero.
Proof.
  intros Hi Hj. unfold Elimination.entry, Elimination.read, Z.
  rewrite (nth_error_repeat _ Hi), (nth_error_repeat _ Hj). reflexivity.
Qed.

Lemma zero_pivot (i : nat) :
  (i < n)%nat -> Elimination.pivot missing mag n i Z = Some (i, mag zero).
Proof.
  intro Hi. unfold Elimination.pivot. rewrite zero_entry by assumption.
  assert (H : forall l, (forall k, In k l -> (k < n)%nat) ->
              for_each l
                (fun '(maxRow, maxVal) k =>
                   mki <- Elimination.entry missing Z k i ;;
                   if JS.gtb (mag mki) maxVal then Some (k, mag mki)
                   else Some (maxRow, maxVal)) (i, mag zero)
              = Some (i, mag zero)).
  { induction l as [|k l IH]; intro Hl; [reflexivity|].
    rewrite for_each_cons, zero_entry by (auto; apply Hl; now left).
    unfold JS.gtb. destruct (Rlt_dec (mag zero) (mag zero)); [lra|].
    apply IH. intros; apply Hl; now right. }
  apply H. intros k Hk. apply in_seq in Hk. lia.
Qed.

Lemma zero_pivot_low : JS.ltb (mag zero) 1e-12 = true.
Proof.
  rewrite mag_zero. unfold JS.ltb. destruct (Rlt_dec 0 1e-12); [reflexivity|].
  exfalso. lra.
Qed.

Lemma zero_forward (V : list E) (i : nat) :
  (i < n)%nat ->
  Elimination.forward missing mag div sub mul n (Z, V) i = Some (Z, V).
Proof.
  intro Hi. unfold Elimination.forward.
  rewrite zero_pivot by assumption. cbv zeta.
  rewrite !swap_same, zero_entry by assumption.
  now rewrite zero_pivot_low.
Qed.

Lemma zero_back (V x : list E) (i : nat) :
  (i < n)%nat ->
  Elimination.back missing mag div sub mul add zero n Z V x i = Some x.
Proof.
  intro Hi. unfold Elimination.back.
  rewrite zero_entry by assumption. now rewrite zero_pivot_low.
Qed.

Lemma zero_solve (V : list E) :
  Elimination.solve missing mag div sub mul add zero Z V
  = Some (repeat zero n).
Proof.
  unfold Elimination.solve.
  assert (Hlen : List.length Z = n) by apply repeat_length.
  rewrite Hlen. cbv zeta.
  assert (Hf : forall l, (forall i, In i l -> (i < n)%nat) ->
               for_each l (Elimination.forward missing mag div sub mul n)
                        (Z, V) = Some (Z, V)).
  { induction l as [|i l IH]; intro Hl; [reflexivity|].
    rewrite for_each_cons, zero_forward by (apply Hl; now left).
    apply IH. intros; apply Hl; now right. }
  rewrite Hf by (intros i Hi; apply in_seq in Hi; lia).
  assert (Hb : forall l x, (forall i, In i l -> (i < n)%nat) ->
               for_each l
                 (Elimination.back missing mag div sub mul add zero n Z V) x
               = Some x).
  { induction l as [|i l IH]; intros x Hl; [reflexivity|].
    rewrite for_each_cons, zero_back by (apply Hl; now left).
    apply IH. intros; apply Hl; now right. }
  apply Hb. intros i Hi. apply in_rev, in_seq in Hi. lia.
Qed.

End ZeroMatrix.

(** A singular system does not make the solvers fail: on the zero
    matrix of any size both return the zero vector, whatever the
    right-hand side, each pivot being skipped. *)
Theorem solve_zero_matrix (n : nat) (b : list R) (bc : list Complex.t) :
  MatrixSolver.solve (JS.zeroMatrix n) b = Some (JS.zeros n)
  /\ ComplexMatrixSolver.solve (repeat (repeat Complex.zero n) n) bc
     = Some (repeat Complex.zero n).
Proof.
  split.
  - rewrite solve_number. apply zero_solve. apply Rabs_R0.
  - rewrite solve_complex. apply zero_solve.
    unfold Complex.magnitude. simpl.
    rewrite !Rmult_0_l, Rplus_0_l. apply sqrt_0.
Qed.

(** On a system of [n] rows of [n] entries with [n] right-hand sides
    ComplexMatrixSolver.solve returns [n] entries; when the first row
    has no entry it throws. *)
Theorem ComplexMatrixSolver_solve_shape (A : list (list Complex.t))
        (B : list Complex.t) :
  (square (List.length A) A -> List.length B = List.length A ->
   exists x, ComplexMatrixSolver.solve A B = Some x
             /\ List.length x = List.length A)
  /\ (nth_error A 0 = Some [] -> ComplexMatrixSolver.solve A B = None).
Proof.
  split; [apply csolve_some|].
  intro H0. unfold ComplexMatrixSolver.solve. rewrite map_id.
  destruct A as [|row A]; [discriminate|]. simpl in H0.
  inversion H0; subst row. cbn [List.length seq].
  rewrite for_each_cons.
  unfold ComplexMatrixSolver.forward, ComplexMatrixSolver.pivot,
    ComplexMatrixSolver.entry.
  reflexivity.
Qed.

Lemma ComplexMatrixSolver_solve_shape_witness :
  exists x, ComplexMatrixSolver.solve [[Complex.one]] [Complex.one] = Some x
            /\ List.length x = 1%nat.
Proof.
  apply (proj1 (ComplexMatrixSolver_solve_shape [[Complex.one]]
                                                [Complex.one])).
  - split; [reflexivity|]. repeat constructor.
  - reflexivity.
Defined.

End SingularFacts.

(* ------------------------------------------------------------------ *)
(** ** The editor: undo, redo and the edits of the wires *)

Section EditorFacts.

Local Open Scope nat_scope.

(** Undo and redo are inverse to each other on the circuit and on both
    stacks: redo after undo, with something to undo, and undo after
    redo, with something to redo, give back the circuit, the history
    and the future. *)
Theorem undo_redo (s : App.State) :
  (App.history s <> [] ->
   circuit (App.redo (App.undo s)) = circuit s
   /\ App.history (App.redo (App.undo s)) = App.history s
   /\ App.future (App.redo (App.undo s)) = App.future s)
  /\ (App.future s <> [] ->
      circuit (App.undo (App.redo s)) = circuit s
      /\ App.history (App.undo (App.redo s)) = App.history s
      /\ App.future (App.undo (App.redo s)) = App.future s).
Proof.
  split.
  - intro Hh. unfold App.undo.
    destruct (App.history s) as [|h hs] eqn:E; [contradiction|].
    unfold App.redo, circuit. cbn [App.future App.components App.wires
                                   App.history fst snd].
    destruct (last (h :: hs) h) as [pc pw] eqn:El. cbn [fst snd].
    split; [reflexivity|]. split; [|reflexivity].
    rewrite <- El. symmetry. apply app_removelast_last. discriminate.
  - intro Hf. unfold App.redo.
    destruct (App.future s) as [|[nc nw] f] eqn:E; [contradiction|].
    unfold App.undo, circuit. cbn [App.future App.components App.wires
                                   App.history fst snd].
    destruct (App.history s ++ [(App.components s, App.wires s)])
      as [|h hs] eqn:Eh.
    { destruct (App.history s); discriminate. }
    rewrite <- Eh. rewrite last_last, removelast_last.
    cbn [fst snd App.components App.wires App.history App.future].
    auto.
Qed.

Lemma undo_redo_witness :
  let s := {| App.components := [component "r" RESISTOR 100];
              App.wires := [];
              App.selectedId := None;
              App.simulationResult := None;
              App.history := [([], [])];
              App.future := [];
              App.simConfig := short_config;
              App.simState := App.RUNNING |} in
  circuit (App.redo (App.undo s)) = circuit s
  /\ App.history (App.redo (App.undo s)) = App.history s
  /\ App.future (App.redo (App.undo s)) = App.future s.
Proof.
  intro s. apply (proj1 (undo_redo s)). discriminate.
Defined.

Lemma saveHistory_undo (s : App.State) (cs : list CircuitComponent)
      (ws : list Wire) (sel : option string) (st : App.SimState) :
  let edited :=
    {| App.components := cs;
       App.wires := ws;
       App.selectedId := sel;
       App.simulationResult := App.simulationResult (App.saveHistory s);
       App.history := App.history (App.saveHistory s);
       App.future := App.future (App.saveHistory s);
       App.simConfig := App.simConfig (App.saveHistory s);
       App.simState := st |} in
  circuit (App.undo edited) = circuit s
  /\ App.history (App.undo edited) = App.history s
  /\ circuit (App.redo (App.undo edited)) = (cs, ws).
Proof.
  intro edited. unfold App.undo, edited, App.saveHistory.
  cbn [App.history App.components App.wires App.future].
  destruct (App.history s ++ [(App.components s, App.wires s)])
    as [|h hs] eqn:Eh.
  { destruct (App.history s); discriminate. }
  rewrite <- Eh. rewrite last_last, removelast_last.
  unfold App.redo, circuit.
  cbn [fst snd App.components App.wires App.history App.future].
  auto.
Qed.

(** An edit can be undone and redone: after deleting a component or
    adding a wire, undo gives back the circuit and the history of
    before, and redo after it the edited circuit. *)
Theorem edit_undo (s : App.State) (cid newId : string)
        (fromPort toPort : Port) :
  (circuit (App.undo (App.handleDelete cid s)) = circuit s
   /\ App.history (App.undo (App.handleDelete cid s)) = App.history s
   /\ circuit (App.redo (App.undo (App.handleDelete cid s)))
      = circuit (App.handleDelete cid s))
  /\ (App.handleAddWire newId fromPort toPort s = s
      \/ (circuit (App.undo (App.handleAddWire newId fromPort toPort s))
          = circuit s
          /\ App.history (App.undo (App.handleAddWire newId fromPort toPort s))
             = App.history s
          /\ circuit (App.redo
                        (App.undo (App.handleAddWire newId fromPort toPort s)))
             = circuit (App.handleAddWire newId fromPort toPort s))).
Proof.
  split.
  - unfold App.handleDelete. cbv zeta. apply saveHistory_undo.
  - unfold App.handleAddWire.
    destruct (App.samePort fromPort toPort); [now left|].
    destruct (existsb _ _); [now left|]. right.
    cbv zeta. apply saveHistory_undo.
Qed.

Lemma samePort_eq (p q : Port) :
  App.samePort p q = true <-> p = q.
Proof.
  unfold App.samePort. rewrite andb_true_iff, String.eqb_eq, Nat.eqb_eq.
  destruct p, q; simpl. split.
  - intros [-> ->]. reflexivity.
  - intros [= -> ->]. auto.
Qed.

(** The wire list stays simple under handleAddWire: a wire from a port
    to itself and a second wire between two ports, in either
    direction, are refused, and a refused call changes nothing. *)
Theorem handleAddWire_simple (s : App.State) (newId : string)
        (fromPort toPort : Port) :
  simple_wires (App.wires s) ->
  simple_wires (App.wires (App.handleAddWire newId fromPort toPort s))
  /\ (fromPort = toPort
      \/ existsb (App.connects fromPort toPort) (App.wires s) = true ->
      App.handleAddWire newId fromPort toPort s = s).
Proof.
  intro Hs. unfold App.handleAddWire.
  destruct (App.samePort fromPort toPort) eqn:Esame.
  { split; [exact Hs | reflexivity]. }
  destruct (existsb (App.connects fromPort toPort) (App.wires s)) eqn:Eex.
  { split; [exact Hs | reflexivity]. }
  split.
  - cbn [App.wires App.saveHistory]. intros l1 w l2 E.
    destruct l2 as [|z l2'] using rev_ind.
    + apply app_inj_tail in E. destruct E as [<- <-].
      cbn [from to]. auto.
    + clear IHl2'. rewrite app_comm_cons, app_assoc in E.
      apply app_inj_tail in E. destruct E as [E _].
      now apply (Hs l1 w l2').
  - intros [->|H]; [|discriminate].
    assert (App.samePort toPort toPort = true) by now apply samePort_eq.
    congruence.
Qed.

Lemma handleAddWire_simple_witness :
  let s := {| App.components := ohm_components;
              App.wires := [];
              App.selectedId := None;
              App.simulationResult := None;
              App.history := [];
              App.future := [];
              App.simConfig := short_config;
              App.simState := App.RUNNING |} in
  let p := {| componentId := "v"; portIndex := 1 |} in
  let q := {| componentId := "g"; portIndex := 0 |} in
  simple_wires (App.wires (App.handleAddWire "w1" p q s))
  /\ (p = q \/ existsb (App.connects p q) (App.wires s) = true ->
      App.handleAddWire "w1" p q s = s).
Proof.
  intros s p q. apply (@handleAddWire_simple s "w1" p q).
  intros l1 w l2 E. destruct l1; discriminate.
Defined.

(** After handleAddWire between two different ports, whether the wire
    was added or refused as a duplicate, buildGraph puts the two ports
    on one node. *)
Theorem handleAddWire_joins (s : App.State) (newId : string)
        (fromPort toPort : Port) :
  fromPort <> toPort ->
  let s' := App.handleAddWire newId fromPort toPort s in
  exists n,
    sget (pk fromPort)
         (portToNode (buildGraph (App.components s') (App.wires s')))
    = Some n
    /\ sget (pk toPort)
            (portToNode (buildGraph (App.components s') (App.wires s')))
       = Some n.
Proof.
  intros Hne s'.
  assert (Hw : exists w, In w (App.wires s')
                         /\ ((from w = fromPort /\ to w = toPort)
                             \/ (to w = fromPort /\ from w = toPort))).
  { unfold s', App.handleAddWire.
    destruct (App.samePort fromPort toPort) eqn:Esame.
    { apply samePort_eq in Esame. contradiction. }
    destruct (existsb (App.connects fromPort toPort) (App.wires s)) eqn:Eex.
    - apply existsb_exists in Eex. destruct Eex as [w [Hin Hc]].
      exists w. split; [exact Hin|]. unfold App.connects in Hc.
      apply orb_true_iff in Hc.
      destruct Hc as [Hc|Hc]; apply andb_true_iff in Hc;
        destruct Hc as [H1 H2]; apply samePort_eq in H1, H2; auto.
    - eexists. split; [cbn [App.wires]; apply in_or_app; right; now left|].
      left. split; reflexivity. }
  destruct Hw as [w [Hin Hends]].
  set (cs := App.components s') in *. set (ws := App.wires s') in *.
  destruct (buildGraph_inv cs ws)
    as (nc & vis & (_ & O2 & O3 & _) & _ & Hv).
  assert (Hkey : In (pk fromPort) (JMap.keys (adjacency cs ws))).
  { apply adjacency_keys. right. exists w. split; [exact Hin|].
    destruct Hends as [[<- _]|[<- _]]; auto. }
  assert (Hreach : reach (adjacency cs ws) (pk fromPort) (pk toPort)).
  { apply reach_linked.
    destruct Hends as [[<- <-]|[<- <-]].
    - apply linked_fwd; [exact Hin | constructor].
    - apply linked_bwd; [exact Hin | constructor]. }
  pose proof (O3 _ _ (Hv _ Hkey) Hreach) as Heq.
  destruct (sget (pk fromPort) (portToNode (buildGraph cs ws))) as [n|] eqn:E.
  - exists n. split; [reflexivity | now rewrite <- Heq].
  - exfalso. apply (proj1 (O2 _) (Hv _ Hkey)). exact E.
Qed.

Lemma handleAddWire_joins_witness :
  let s := {| App.components := ohm_components;
              App.wires := [];
              App.selectedId := None;
              App.simulationResult := None;
              App.history := [];
              App.future := [];
              App.simConfig := short_config;
              App.simState := App.RUNNING |} in
  let p := {| componentId := "v"; portIndex := 1 |} in
  let q := {| componentId := "g"; portIndex := 0 |} in
  let s' := App.handleAddWire "w1" p q s in
  exists n,
    sget (pk p) (portToNode (buildGraph (App.components s') (App.wires s')))
    = Some n
    /\ sget (pk q)
            (portToNode (buildGraph (App.components s') (App.wires s')))
       = Some n.
Proof.
  intros s p q. apply (@handleAddWire_joins s "w1" p q). discriminate.
Defined.

(** The edits keep the circuit well formed: handleDelete removes the
    component, and with it every wire that has the identifier or ends
    on the component, so no wire is left dangling; handleAddWire
    between ports of existing components adds no dangling wire. *)
Theorem edits_well_formed (s : App.State) (cid newId : string)
        (fromPort toPort : Port) :
  well_formed (App.components s) (App.wires s) ->
  (well_formed (App.components (App.handleDelete cid s))
               (App.wires (App.handleDelete cid s))
   /\ ~ In cid (map id (App.components (App.handleDelete cid s)))
   /\ forall w, In w (App.wires (App.handleDelete cid s)) ->
                wireId w <> cid /\ componentId (from w) <> cid
                /\ componentId (to w) <> cid)
  /\ (In (componentId fromPort) (map id (App.components s)) ->
      In (componentId toPort) (map id (App.components s)) ->
      well_formed
        (App.components (App.handleAddWire newId fromPort toPort s))
        (App.wires (App.handleAddWire newId fromPort toPort s))).
Proof.
  intros Hwf. pose proof Hwf as (Hnd & Hcf & Hends). split.
  - unfold App.handleDelete. cbn [App.components App.wires App.saveHistory].
    assert (Hkeep : forall x, In x (map id (App.components s)) -> x <> cid ->
               In x (map id (filter (fun c => negb (String.eqb (id c) cid))
                                    (App.components s)))).
    { intros x Hx Hne. apply in_map_iff in Hx. destruct Hx as [c [<- Hc]].
      apply in_map. apply filter_In. split; [exact Hc|].
      destruct (String.eqb_spec (id c) cid); [contradiction | reflexivity]. }
    assert (Hwire : forall w,
               In w (filter
                       (fun w =>
                          negb (String.eqb (wireId w) cid)
                          && negb (String.eqb (componentId (from w)) cid)
                          && negb (String.eqb (componentId (to w)) cid))
                       (App.wires s)) ->
               In w (App.wires s)
               /\ wireId w <> cid /\ componentId (from w) <> cid
               /\ componentId (to w) <> cid).
    { intros w Hw. apply filter_In in Hw. destruct Hw as [Hin Hb].
      apply andb_true_iff in Hb. destruct Hb as [Hb H3].
      apply andb_true_iff in Hb. destruct Hb as [H1 H2].
      split; [exact Hin|].
      destruct (String.eqb_spec (wireId w) cid); [discriminate|].
      destruct (String.eqb_spec (componentId (from w)) cid); [discriminate|].
      destruct (String.eqb_spec (componentId (to w)) cid); [discriminate|].
      auto. }
    split; [split; [|split]|split].
    + now apply unique_ids_filter.
    + intros c Hc. apply filter_In in Hc. now apply Hcf.
    + intros w Hw. apply Hwire in Hw. destruct Hw as (Hin & _ & H2 & H3).
      destruct (Hends w Hin). split; now apply Hkeep.
    + intro Hin. apply in_map_iff in Hin. destruct Hin as [c [E Hc]].
      apply filter_In in Hc. destruct Hc as [_ Hb].
      destruct (String.eqb_spec (id c) cid); [discriminate | contradiction].
    + intros w Hw. now apply Hwire.
  - intros Hf Ht. unfold App.handleAddWire.
    destruct (App.samePort fromPort toPort); [exact Hwf|].
    destruct (existsb _ _); [exact Hwf|].
    cbn [App.components App.wires App.saveHistory].
    split; [exact Hnd|]. split; [exact Hcf|].
    intros w Hw. apply in_app_or in Hw. destruct Hw as [Hw|[<-|[]]].
    + now apply Hends.
    + cbn [from to]. auto.
Qed.

Lemma edits_well_formed_witness :
  let s := {| App.components := ohm_components;
              App.wires := ohm_wires;
              App.selectedId := None;
              App.simulationResult := None;
              App.history := [];
              App.future := [];
              App.simConfig := short_config;
              App.simState := App.RUNNING |} in
  well_formed (App.components (App.handleDelete "r" s))
              (App.wires (App.handleDelete "r" s))
  /\ ~ In "r"%string (map id (App.components (App.handleDelete "r" s)))
  /\ forall w, In w (App.wires (App.handleDelete "r" s)) ->
               wireId w <> "r"%string
               /\ componentId (from w) <> "r"%string
               /\ componentId (to w) <> "r"%string.
Proof.
  intro s.
  exact (proj1 (@edits_well_formed s "r" "w"
                  {| componentId := "v"; portIndex := 0 |}
                  {| componentId := "g"; portIndex := 0 |}
                  ohm_well_formed)).
Defined.

(** The effect that runs the engines: a running simulation of a
    circuit with a component gets a result whose mode is the mode of
    the configuration; the interactive mode keeps running, an analysis
    pauses; the circuit is not touched, and running the effect again
    changes nothing. *)
Theorem simulate_mode (s : App.State) :
  App.simState s = App.RUNNING -> App.components s <> [] ->
  exists r,
    App.simulationResult (App.simulate s) = Some r
    /\ mode r = configMode (App.simConfig s)
    /\ App.simState (App.simulate s)
       = match configMode (App.simConfig s) with
         | INTERACTIVE => App.RUNNING
         | _ => App.PAUSED
         end
    /\ circuit (App.simulate s) = circuit s
    /\ App.simulate (App.simulate s) = App.simulate s.
Proof.
  intros Hrun Hne. unfold App.simulate. rewrite Hrun.
  destruct (App.components s) as [|c cs] eqn:Ec; [contradiction|].
  destruct (configMode (App.simConfig s)) eqn:Em;
    eexists; (split; [reflexivity|]);
    cbn [App.simState App.components App.wires App.simConfig];
    unfold circuit; cbn [App.components App.wires]; rewrite ?Ec.
  - split; [|split; [reflexivity|split; [reflexivity|rewrite Em; reflexivity]]].
    unfold solveCircuit.
    destruct (negb (hasGround _)); [reflexivity|].
    destruct (loop _ _ _); reflexivity.
  - split; [|split; [reflexivity|split; [reflexivity|reflexivity]]].
    unfold solveTransient. destruct (Nat.eqb _ _); reflexivity.
  - split; [|split; [reflexivity|split; [reflexivity|reflexivity]]].
    unfold solveACSweep. destruct (Nat.eqb _ _); reflexivity.
Qed.

Lemma simulate_mode_witness :
  let s := {| App.components := ohm_components;
              App.wires := ohm_wires;
              App.selectedId := None;
              App.simulationResult := None;
              App.history := [];
              App.future := [];
              App.simConfig := short_config;
              App.simState := App.RUNNING |} in
  exists r,
    App.simulationResult (App.simulate s) = Some r
    /\ mode r = AC_SWEEP
    /\ App.simState (App.simulate s) = App.PAUSED
    /\ circuit (App.simulate s) = circuit s
    /\ App.simulate (App.simulate s) = App.simulate s.
Proof.
  intro s. apply (@simulate_mode s); [reflexivity | discriminate].
Defined.

End EditorFacts.

(* ------------------------------------------------------------------ *)
(** ** Gaussian elimination solves the system *)

Section SeqLoops.

Local Open Scope nat_scope.

Lemma for_each_seq_inv {St : Type} (P : nat -> St -> Prop)
      (body : St -> nat -> option St) (len a : nat) (s : St) :
  P a s ->
  (forall k s, a <= k < a + len -> P k s ->
               exists s', body s k = Some s' /\ P (S k) s') ->
  exists s', for_each (seq a len) body s = Some s' /\ P (a + len) s'.
Proof.
  revert a s. induction len as [|len IH]; intros a s Hs Hstep.
  - exists s. rewrite Nat.add_0_r. split; [reflexivity | exact Hs].
  - cbn [seq]. rewrite for_each_cons.
    destruct (Hstep a s ltac:(lia) Hs) as [s1 [E1 P1]]. rewrite E1.
    destruct (IH (S a) s1 P1) as [s2 [E2 P2]].
    { intros k s0 Hk. apply Hstep. lia. }
    exists s2. split; [exact E2|]. now rewrite Nat.add_succ_r.
Qed.

Lemma nth_nth_error {A} (l : list A) (i : nat) (d : A) :
  nth i l d = match nth_error l i with Some a => a | None => d end.
Proof.
  revert i; induction l as [|y l IH]; intros [|i]; simpl; auto.
Qed.

Lemma nth_swap {A} (i k r : nat) (l : list A) (d : A) :
  i < List.length l -> k < List.length l ->
  nth r (JS.swap i k l) d = nth (exchange i k r) l d.
Proof.
  intros Hi Hk. rewrite !nth_nth_error, nth_error_swap by assumption.
  reflexivity.
Qed.

Lemma exchange_twice (i k r : nat) : exchange i k (exchange i k r) = r.
Proof.
  unfold exchange.
  destruct (Nat.eqb_spec r k) as [->|Hk].
  - destruct (Nat.eqb_spec i k) as [->|Hik]; [reflexivity|].
    now rewrite Nat.eqb_refl.
  - destruct (Nat.eqb_spec r i) as [->|Hi].
    + now rewrite Nat.eqb_refl.
    + destruct (Nat.eqb_spec r k); [contradiction|].
      destruct (Nat.eqb_spec r i); [contradiction | reflexivity].
Qed.

Lemma exchange_range (i k r n : nat) :
  i < n -> k < n -> r < n -> exchange i k r < n.
Proof.
  intros. unfold exchange.
  destruct (Nat.eqb r k); [assumption|]. now destruct (Nat.eqb r i).
Qed.

End SeqLoops.

Section Gauss.

Variable E : Type.
Variable missing : option E.
Variable mag : E -> R.
Variables div sub mul add : E -> E -> E.
Variables zero one : E.
Variable opp : E -> E.
Hypothesis Ering : ring_theory zero one add mul sub opp eq.
Hypothesis div_mul :
  forall a b, ~ (mag b < 1e-12)%R -> mul (div a b) b = a.
Variable n : nat.

Add Ring ERing : Ering.

Local Open Scope nat_scope.

Let m (M : list (list E)) (r c : nat) : E := nth c (nth r M []) zero.
Let v (V : list E) (r : nat) : E := nth r V zero.
Let sumL (l : list nat) (f : nat -> E) : E :=
  fold_left (fun acc j => add acc (f j)) l zero.

Lemma g_read (V : list E) (i : nat) :
  i < List.length V -> Elimination.read missing V i = Some (v V i).
Proof.
  intro H. unfold Elimination.read, v. rewrite nth_nth_error.
  destruct (nth_error V i) eqn:E1; [reflexivity|].
  apply nth_error_None in E1. lia.
Qed.

Lemma g_entry (M : list (list E)) (r c : nat) :
  square n M -> r < n -> c < n ->
  Elimination.entry missing M r c = Some (m M r c).
Proof.
  intros HM Hr Hc. unfold Elimination.entry, m.
  destruct (square_nth_error HM Hr) as [row [E1 Hl]]. rewrite E1.
  cbn. rewrite (nth_nth_error M), E1. fold (v row c).
  apply g_read. lia.
Qed.

Lemma g_set_entry (M : list (list E)) (r c : nat) (e : E) :
  square n M -> r < n -> c < n ->
  square n (Elimination.set_entry r c e M)
  /\ forall r' c',
      m (Elimination.set_entry r c e M) r' c'
      = if Nat.eqb r' r && Nat.eqb c' c then e else m M r' c'.
Proof.
  intros HM Hr Hc. unfold Elimination.set_entry.
  destruct (square_nth_error HM Hr) as [row [E1 Hl]]. rewrite E1.
  split.
  - apply square_aset; [assumption|]. now rewrite aset_length.
  - intros r' c'. unfold m.
    destruct (Nat.eqb_spec r' r) as [->|Hne]; cbn [andb].
    + rewrite nth_aset_same by (destruct HM; lia).
      destruct (Nat.eqb_spec c' c) as [->|Hnc].
      * apply nth_aset_same. lia.
      * rewrite nth_aset_other by auto.
        now rewrite (nth_nth_error M), E1.
    + now rewrite nth_aset_other by auto.
Qed.

Lemma g_swap_m (M : list (list E)) (i k r c : nat) :
  square n M -> i < n -> k < n ->
  m (JS.swap i k M) r c = m M (exchange i k r) c.
Proof.
  intros [HM _] Hi Hk. unfold m. now rewrite nth_swap by lia.
Qed.

Lemma g_swap_v (V : list E) (i k r : nat) :
  List.length V = n -> i < n -> k < n ->
  v (JS.swap i k V) r = v V (exchange i k r).
Proof.
  intros HV Hi Hk. unfold v. now rewrite nth_swap by lia.
Qed.

Lemma g_pivot (M : list (list E)) (i : nat) :
  square n M -> i < n ->
  exists maxRow maxVal,
    Elimination.pivot missing mag n i M = Some (maxRow, maxVal)
    /\ i <= maxRow < n.
Proof.
  intros HM Hi. unfold Elimination.pivot.
  rewrite g_entry by assumption. cbn.
  destruct (@for_each_inv nat (nat * R) (fun s => i <= fst s < n)
              (seq (S i) (n - S i))
              (fun '(maxRow, maxVal) k =>
                 mki <- Elimination.entry missing M k i ;;
                 if JS.gtb (mag mki) maxVal then Some (k, mag mki)
                 else Some (maxRow, maxVal))) with (s := (i, mag (m M i i)))
    as [[maxRow maxVal] [E1 H1]].
  - intros [mr mv] k Hs Hk. apply in_seq in Hk. cbn [fst] in Hs.
    rewrite g_entry by (assumption || lia). cbn.
    destruct (JS.gtb _ _); eexists; (split; [reflexivity|]); cbn [fst]; lia.
  - cbn [fst]. lia.
  - exists maxRow, maxVal. split; [exact E1 | exact H1].
Qed.

Ltac bools :=
  repeat match goal with
    | |- context [Nat.eqb ?a ?b] => destruct (Nat.eqb_spec a b)
    | |- context [Nat.ltb ?a ?b] => destruct (Nat.ltb_spec a b)
    | |- context [Nat.leb ?a ?b] => destruct (Nat.leb_spec a b)
    end; cbn [andb orb negb]; try lia; try (subst; reflexivity).

Lemma g_inner (M : list (list E)) (i k : nat) (factor : E) :
  square n M -> i < n -> k < n ->
  exists M1,
    for_each (seq i (n - i))
      (fun M j =>
         mkj <- Elimination.entry missing M k j ;;
         mij <- Elimination.entry missing M i j ;;
         Some (Elimination.set_entry k j (sub mkj (mul factor mij)) M)) M
    = Some M1
    /\ square n M1
    /\ (k <> i ->
        forall r c, r < n -> c < n ->
        m M1 r c = if Nat.eqb r k && Nat.leb i c
                   then sub (m M k c) (mul factor (m M i c))
                   else m M r c).
Proof.
  intros HM Hi Hk.
  destruct (@for_each_seq_inv (list (list E))
              (fun j0 Mc =>
                 square n Mc
                 /\ (k <> i ->
                     forall r c, r < n -> c < n ->
                     m Mc r c = if Nat.eqb r k && Nat.leb i c && Nat.ltb c j0
                                then sub (m M k c) (mul factor (m M i c))
                                else m M r c))
              (fun M j =>
                 mkj <- Elimination.entry missing M k j ;;
                 mij <- Elimination.entry missing M i j ;;
                 Some (Elimination.set_entry k j (sub mkj (mul factor mij)) M))
              (n - i) i M) as [M1 [E1 [S1 H1]]].
  - split; [assumption|]. intros _ r c Hr Hc. bools.
  - intros j Mc Hj [Sc Hc].
    rewrite !g_entry by (assumption || lia). cbn.
    eexists. split; [reflexivity|].
    destruct (@g_set_entry Mc k j (sub (m Mc k j) (mul factor (m Mc i j)))
                Sc Hk ltac:(lia)) as [S2 H2].
    split; [exact S2|]. intros Hne r c Hr Hcn. rewrite H2.
    rewrite !(Hc Hne) by lia.
    bools.
  - exists M1. split; [exact E1|]. split; [exact S1|].
    intros Hne r c Hr Hc. rewrite (H1 Hne) by assumption.
    replace (Nat.ltb c (i + (n - i))) with true
      by (symmetry; apply Nat.ltb_lt; lia).
    now rewrite andb_true_r.
Qed.

Lemma g_eliminate (M : list (list E)) (V : list E) (i k : nat) :
  square n M -> List.length V = n -> i < n -> k < n ->
  exists M1 V1,
    Elimination.eliminate missing div sub mul n i (M, V) k = Some (M1, V1)
    /\ square n M1 /\ List.length V1 = n
    /\ (k <> i ->
        (forall r c, r < n -> c < n ->
           m M1 r c = if Nat.eqb r k && Nat.leb i c
                      then sub (m M k c)
                               (mul (div (m M k i) (m M i i)) (m M i c))
                      else m M r c)
        /\ (forall r, r < n ->
              v V1 r = if Nat.eqb r k
                       then sub (v V k)
                                (mul (div (m M k i) (m M i i)) (v V i))
                       else v V r)).
Proof.
  intros HM HV Hi Hk. unfold Elimination.eliminate.
  rewrite !g_entry by assumption. cbn.
  rewrite !g_read by lia. cbn.
  destruct (@g_inner M i k (div (m M k i) (m M i i)) HM Hi Hk)
    as [M1 [E1 [S1 H1]]].
  rewrite E1. cbn. eexists _, _. split; [reflexivity|].
  split; [exact S1|]. split; [now rewrite aset_length|].
  intro Hne. split; [now apply H1|].
  intros r Hr. unfold v.
  destruct (Nat.eqb_spec r k) as [->|Hrk].
  - apply nth_aset_same. lia.
  - now rewrite nth_aset_other by auto.
Qed.

Lemma g_eliminate_loop (Ms : list (list E)) (Vs : list E) (i : nat) :
  square n Ms -> List.length Vs = n -> i < n ->
  exists M1 V1,
    for_each (seq (S i) (n - S i))
             (Elimination.eliminate missing div sub mul n i) (Ms, Vs)
    = Some (M1, V1)
    /\ square n M1 /\ List.length V1 = n
    /\ (forall r c, r < n -> c < n ->
          m M1 r c = if Nat.ltb i r && Nat.leb i c
                     then sub (m Ms r c)
                              (mul (div (m Ms r i) (m Ms i i)) (m Ms i c))
                     else m Ms r c)
    /\ (forall r, r < n ->
          v V1 r = if Nat.ltb i r
                   then sub (v Vs r)
                            (mul (div (m Ms r i) (m Ms i i)) (v Vs i))
                   else v Vs r).
Proof.
  intros HM HV Hi.
  destruct (@for_each_seq_inv (list (list E) * list E)
              (fun k0 st =>
                 square n (fst st) /\ List.length (snd st) = n
                 /\ (forall r c, r < n -> c < n ->
                       m (fst st) r c
                       = if Nat.ltb i r && Nat.ltb r k0 && Nat.leb i c
                         then sub (m Ms r c)
                                  (mul (div (m Ms r i) (m Ms i i))
                                       (m Ms i c))
                         else m Ms r c)
                 /\ (forall r, r < n ->
                       v (snd st) r
                       = if Nat.ltb i r && Nat.ltb r k0
                         then sub (v Vs r)
                                  (mul (div (m Ms r i) (m Ms i i)) (v Vs i))
                         else v Vs r))
              (Elimination.eliminate missing div sub mul n i)
              (n - S i) (S i) (Ms, Vs)) as [[M1 V1] [E1 H1]].
  - cbn [fst snd]. split; [assumption|]. split; [assumption|].
    split; intros; bools.
  - intros k [M V] Hk (SM & LV & HMm & HVv). cbn [fst snd] in *.
    destruct (@g_eliminate M V i k SM LV Hi ltac:(lia))
      as (M2 & V2 & E2 & S2 & L2 & H2).
    exists (M2, V2). split; [exact E2|]. cbn [fst snd].
    destruct (H2 ltac:(lia)) as [H2m H2v].
    split; [exact S2|]. split; [exact L2|]. split.
    + intros r c Hr Hc. rewrite H2m by assumption.
      rewrite !HMm by lia. bools.
    + intros r Hr. rewrite H2v by assumption.
      rewrite !HMm by lia. rewrite !HVv by lia. bools.
  - cbn [fst snd] in H1. destruct H1 as (S1 & L1 & H1m & H1v).
    exists M1, V1. split; [exact E1|]. split; [exact S1|].
    split; [exact L1|]. split.
    + intros r c Hr Hc. rewrite H1m by assumption. bools.
    + intros r Hr. rewrite H1v by assumption. bools.
Qed.

(** *** Sums *)

Lemma sumL_acc (l : list nat) (f : nat -> E) (a : E) :
  fold_left (fun acc j => add acc (f j)) l a = add a (sumL l f).
Proof.
  unfold sumL. revert a. induction l as [|j l IH]; intro a; cbn [fold_left].
  - ring.
  - rewrite IH, (IH (add zero (f j))). ring.
Qed.

Lemma sumL_cons (j : nat) (l : list nat) (f : nat -> E) :
  sumL (j :: l) f = add (f j) (sumL l f).
Proof.
  unfold sumL at 1. cbn [fold_left]. rewrite sumL_acc. ring.
Qed.

Lemma sumL_app (l1 l2 : list nat) (f : nat -> E) :
  sumL (l1 ++ l2) f = add (sumL l1 f) (sumL l2 f).
Proof.
  induction l1 as [|j l1 IH]; cbn [app].
  - unfold sumL at 2. cbn [fold_left]. ring.
  - rewrite !sumL_cons, IH. ring.
Qed.

Lemma sumL_ext (l : list nat) (f g : nat -> E) :
  (forall j, In j l -> f j = g j) -> sumL l f = sumL l g.
Proof.
  induction l as [|j l IH]; intro H; [reflexivity|].
  rewrite !sumL_cons, IH, (H j) by (intros; apply H; now right) || now left.
  reflexivity.
Qed.

Lemma sumL_zero (l : list nat) (f : nat -> E) :
  (forall j, In j l -> f j = zero) -> sumL l f = zero.
Proof.
  induction l as [|j l IH]; intro H; [reflexivity|].
  rewrite sumL_cons, IH, (H j); [ring | now left |].
  intros; apply H; now right.
Qed.

Lemma sumL_lin (l : list nat) (a b x : nat -> E) (f : E) :
  sumL l (fun j => mul (sub (a j) (mul f (b j))) (x j))
  = sub (sumL l (fun j => mul (a j) (x j)))
        (mul f (sumL l (fun j => mul (b j) (x j)))).
Proof.
  induction l as [|j l IH].
  - unfold sumL. cbn [fold_left]. ring.
  - rewrite !sumL_cons, IH. ring.
Qed.

Lemma sumL_map (l : list nat) (f : nat -> E) :
  sumL (map S l) f = sumL l (fun c => f (S c)).
Proof.
  induction l as [|j l IH]; [reflexivity|].
  cbn [map]. now rewrite !sumL_cons, IH.
Qed.

Lemma dot_sum (row x : list E) :
  List.length row = List.length x ->
  dot add mul zero row x
  = sumL (seq 0 (List.length row)) (fun c => mul (v row c) (v x c)).
Proof.
  revert x. induction row as [|a row IH]; intros [|b x] H;
    try discriminate; [reflexivity|].
  cbn [dot List.length seq]. rewrite sumL_cons, <- seq_shift, sumL_map.
  rewrite IH by (simpl in H; lia). reflexivity.
Qed.

(** *** The invariants of the two loops *)

Let rs (M : list (list E)) (x : list E) (r : nat) : E :=
  sumL (seq 0 n) (fun c => mul (m M r c) (v x c)).
Let sat (M : list (list E)) (V x : list E) : Prop :=
  forall r, r < n -> rs M x r = v V r.
Let tri (i : nat) (M : list (list E)) : Prop :=
  forall r c, c < i -> c < r -> r < n -> m M r c = zero.
Let good (i : nat) (M : list (list E)) : Prop :=
  forall c, c < i -> ~ (mag (m M c c) < 1e-12)%R.

Lemma sat_solves (A : list (list E)) (B x : list E) :
  square n A -> List.length B = n -> List.length x = n ->
  sat A B x -> solves add mul zero A x B.
Proof.
  intros [HA HR] HB Hx Hs. unfold solves.
  apply nth_ext with (d := dot add mul zero [] x) (d' := zero).
  - now rewrite length_map, HA, HB.
  - intros r Hr. rewrite length_map, HA in Hr.
    rewrite (map_nth (fun row => dot add mul zero row x)).
    assert (Hl : List.length (nth r A []) = n).
    { rewrite Forall_forall in HR. apply HR. apply nth_In. lia. }
    rewrite dot_sum by lia. rewrite Hl. apply (Hs r Hr).
Qed.

Lemma g_swap_sat (M : list (list E)) (V x : list E) (i k : nat) :
  square n M -> List.length V = n -> i < n -> k < n ->
  sat (JS.swap i k M) (JS.swap i k V) x -> sat M V x.
Proof.
  intros HM HV Hi Hk Hs r Hr.
  pose proof (Hs (exchange i k r) (exchange_range Hi Hk Hr)) as H.
  unfold rs in *. rewrite g_swap_v, exchange_twice in H by assumption.
  rewrite <- H. apply sumL_ext. intros c _.
  now rewrite g_swap_m, exchange_twice by assumption.
Qed.

Lemma g_forward (M : list (list E)) (V : list E) (i : nat) :
  square n M -> List.length V = n -> i < n ->
  exists M1 V1,
    Elimination.forward missing mag div sub mul n (M, V) i = Some (M1, V1)
    /\ square n M1 /\ List.length V1 = n
    /\ (forall r c, r < i -> c < n -> m M1 r c = m M r c)
    /\ (~ (mag (m M1 i i) < 1e-12)%R -> tri i M ->
        tri (S i) M1 /\ forall x, sat M1 V1 x -> sat M V x).
Proof.
  intros HM HV Hi.
  destruct (g_pivot HM Hi) as (maxRow & maxVal & Ep & Hmax).
  unfold Elimination.forward. rewrite Ep. cbv beta iota zeta.
  assert (Hk : maxRow < n) by lia.
  pose proof (@square_swap _ n M i maxRow HM) as HMs.
  assert (HVs : List.length (JS.swap i maxRow V) = n)
    by now rewrite swap_length.
  assert (Hrows : forall r c, r < i ->
                    m (JS.swap i maxRow M) r c = m M r c).
  { intros r c Hr. rewrite g_swap_m by assumption. unfold exchange. bools. }
  rewrite g_entry by assumption. cbv beta iota zeta.
  unfold JS.ltb.
  destruct (Rlt_dec (mag (m (JS.swap i maxRow M) i i)) 1e-12) as [Hlow|Hhigh].
  - eexists _, _. split; [reflexivity|]. split; [exact HMs|].
    split; [exact HVs|]. split; [intros; now apply Hrows|].
    intro H. contradiction.
  - destruct (@g_eliminate_loop _ _ _ HMs HVs Hi)
      as (M1 & V1 & E1 & S1 & L1 & H1m & H1v).
    exists M1, V1. split; [exact E1|]. split; [exact S1|].
    split; [exact L1|]. split.
    { intros r c Hr Hc. rewrite H1m by lia.
      replace (Nat.ltb i r) with false by (symmetry; apply Nat.ltb_ge; lia).
      cbn [andb]. now apply Hrows. }
    intros _ Htri.
    assert (Htris : tri i (JS.swap i maxRow M)).
    { intros r c Hc Hcr Hr. rewrite g_swap_m by assumption.
      apply Htri; [assumption| |now apply exchange_range].
      unfold exchange. bools. }
    split.
    + intros r c Hc Hcr Hr. rewrite H1m by lia.
      destruct (Nat.ltb_spec i r) as [Hir|Hir];
        destruct (Nat.leb_spec i c) as [Hic|Hic]; cbn [andb];
        try (apply Htris; lia).
      assert (c = i) by lia. subst c. rewrite div_mul by assumption. ring.
    + intros x Hs. apply (@g_swap_sat M V x i maxRow HM HV Hi Hk).
      assert (Hlow : forall r, r < n -> r <= i ->
                rs (JS.swap i maxRow M) x r = v (JS.swap i maxRow V) r).
      { intros r Hr Hri. transitivity (rs M1 x r).
        - unfold rs. apply sumL_ext.
          intros c Hc. apply in_seq in Hc. rewrite H1m by lia.
          replace (Nat.ltb i r) with false
            by (symmetry; apply Nat.ltb_ge; lia).
          reflexivity.
        - rewrite (Hs r Hr), H1v by assumption.
          replace (Nat.ltb i r) with false
            by (symmetry; apply Nat.ltb_ge; lia).
          reflexivity. }
      intros r Hr. destruct (Nat.le_gt_cases r i) as [Hri|Hri];
        [now apply Hlow|].
      pose proof (Hs r Hr) as Hrow. rewrite H1v in Hrow by assumption.
      replace (Nat.ltb i r) with true in Hrow
        by (symmetry; apply Nat.ltb_lt; lia).
      pose proof (Hlow i Hi (Nat.le_refl i)) as Hpiv.
      set (f := div (m (JS.swap i maxRow M) r i)
                    (m (JS.swap i maxRow M) i i)) in *.
      assert (Hlin : rs M1 x r
                     = sub (rs (JS.swap i maxRow M) x r)
                           (mul f (rs (JS.swap i maxRow M) x i))).
      { unfold rs. rewrite <- sumL_lin. apply sumL_ext.
        intros c Hc. apply in_seq in Hc. rewrite H1m by lia.
        replace (Nat.ltb i r) with true by (symmetry; apply Nat.ltb_lt; lia).
        cbn [andb]. destruct (Nat.leb_spec i c) as [Hic|Hic];
          [reflexivity|].
        rewrite (Htris i c) by lia. ring. }
      rewrite Hlin, Hpiv in Hrow.
      replace (rs (JS.swap i maxRow M) x r)
        with (add (sub (rs (JS.swap i maxRow M) x r)
                       (mul f (v (JS.swap i maxRow V) i)))
                  (mul f (v (JS.swap i maxRow V) i))) by ring.
      rewrite Hrow. ring.
Qed.

Lemma g_forward_loop (A : list (list E)) (B : list E) :
  square n A -> List.length B = n ->
  exists M' V',
    for_each (seq 0 n) (Elimination.forward missing mag div sub mul n) (A, B)
    = Some (M', V')
    /\ square n M' /\ List.length V' = n
    /\ (good n M' -> tri n M' /\ forall x, sat M' V' x -> sat A B x).
Proof.
  intros HA HB.
  destruct (@for_each_seq_inv (list (list E) * list E)
              (fun i st =>
                 square n (fst st) /\ List.length (snd st) = n
                 /\ (good i (fst st) ->
                     tri i (fst st)
                     /\ forall x, sat (fst st) (snd st) x -> sat A B x))
              (Elimination.forward missing mag div sub mul n)
              n 0 (A, B)) as [[M' V'] [E1 H1]].
  - cbn [fst snd]. split; [assumption|]. split; [assumption|].
    intros _. split; [|auto]. intros r c Hc. lia.
  - intros i [M V] Hi (SM & LV & Hinv). cbn [fst snd] in *.
    destruct (@g_forward M V i SM LV ltac:(lia))
      as (M1 & V1 & E1 & S1 & L1 & Hrows & Hstep).
    exists (M1, V1). split; [exact E1|]. cbn [fst snd].
    split; [exact S1|]. split; [exact L1|].
    intro Hgood.
    assert (Hg : good i M).
    { intros c Hc. rewrite <- Hrows by lia. apply Hgood. lia. }
    destruct (Hinv Hg) as [Htri Hsol].
    destruct (Hstep (Hgood i (Nat.lt_succ_diag_r i)) Htri) as [Htri1 Hsol1].
    split; [exact Htri1|]. intros x Hx. apply Hsol, Hsol1, Hx.
  - cbn [fst snd] in H1. exists M', V'. split; [exact E1 | exact H1].
Qed.

Lemma g_back_sum (M : list (list E)) (x : list E) (i : nat) (l : list nat)
      (acc : E) :
  square n M -> List.length x = n -> i < n ->
  (forall j, In j l -> j < n) ->
  for_each l
    (fun sum j =>
       mij <- Elimination.entry missing M i j ;;
       xj <- Elimination.read missing x j ;;
       Some (add sum (mul mij xj))) acc
  = Some (fold_left (fun acc j => add acc (mul (m M i j) (v x j))) l acc).
Proof.
  intros HM Hx Hi. revert acc.
  induction l as [|j l IH]; intros acc Hl; [reflexivity|].
  rewrite for_each_cons.
  rewrite g_entry by (assumption || (apply Hl; now left)).
  cbv beta iota. rewrite g_read by (rewrite Hx; apply Hl; now left).
  cbv beta iota. cbn [fold_left]. apply IH. intros; apply Hl; now right.
Qed.

Lemma g_back (M : list (list E)) (V x : list E) (i : nat) :
  square n M -> List.length V = n -> List.length x = n -> i < n ->
  ~ (mag (m M i i) < 1e-12)%R ->
  Elimination.back missing mag div sub mul add zero n M V x i
  = Some (JS.aset i
            (div (sub (v V i)
                      (sumL (seq (S i) (n - S i))
                            (fun j => mul (m M i j) (v x j))))
                 (m M i i)) x).
Proof.
  intros HM HV Hx Hi Hhigh. unfold Elimination.back.
  rewrite g_entry by assumption. cbv beta iota.
  unfold JS.ltb. destruct (Rlt_dec (mag (m M i i)) 1e-12); [contradiction|].
  rewrite g_back_sum by (assumption || (intros j Hj; apply in_seq in Hj; lia)).
  cbv beta iota. rewrite g_read by lia. reflexivity.
Qed.

Lemma g_back_loop (M : list (list E)) (V : list E) :
  square n M -> List.length V = n -> good n M -> tri n M ->
  forall k, k <= n ->
  forall x, List.length x = n ->
            (forall r, k <= r -> r < n -> rs M x r = v V r) ->
  exists x',
    for_each (rev (seq 0 k))
             (Elimination.back missing mag div sub mul add zero n M V) x
    = Some x'
    /\ List.length x' = n /\ sat M V x'.
Proof.
  intros HM HV Hgood Htri.
  induction k as [|k IH]; intros Hk x Hx Hsat.
  - exists x. split; [reflexivity|]. split; [exact Hx|].
    intros r Hr. apply Hsat; lia.
  - rewrite seq_S, rev_app_distr. cbn [rev app Nat.add].
    rewrite for_each_cons.
    rewrite g_back by (assumption || lia || (apply Hgood; lia)).
    cbv beta iota.
    set (s0 := sumL (seq (S k) (n - S k)) (fun j => mul (m M k j) (v x j))).
    set (x1 := JS.aset k (div (sub (v V k) s0) (m M k k)) x).
    assert (Hx1 : List.length x1 = n) by (unfold x1; now rewrite aset_length).
    assert (Hsame : forall j, j <> k -> v x1 j = v x j).
    { intros j Hj. unfold v, x1. now rewrite nth_aset_other by auto. }
    assert (Hat : v x1 k = div (sub (v V k) s0) (m M k k)).
    { unfold v, x1. apply nth_aset_same. lia. }
    apply IH; [lia | exact Hx1 |].
    intros r Hkr Hr. destruct (Nat.eq_dec r k) as [->|Hne].
    + unfold rs.
      replace n with (k + (n - k)) at 1 by lia.
      rewrite seq_app. cbn [Nat.add].
      replace (n - k) with (S (n - S k)) by lia. cbn [seq].
      rewrite sumL_app, sumL_cons.
      rewrite sumL_zero.
      2:{ intros c Hc. apply in_seq in Hc. rewrite (Htri k c) by lia. ring. }
      rewrite Hat.
      replace (sumL (seq (S k) (n - S k))
                    (fun c => mul (m M k c) (v x1 c))) with s0.
      2:{ unfold s0. apply sumL_ext. intros c Hc. apply in_seq in Hc.
          rewrite Hsame by lia. reflexivity. }
      replace (mul (m M k k) (div (sub (v V k) s0) (m M k k)))
        with (mul (div (sub (v V k) s0) (m M k k)) (m M k k)) by ring.
      rewrite div_mul by (apply Hgood; lia). ring.
    + rewrite <- (Hsat r) by lia. unfold rs. apply sumL_ext.
      intros c Hc. destruct (Nat.eq_dec c k) as [->|Hck].
      * rewrite (Htri r k) by lia. ring.
      * now rewrite Hsame.
Qed.

(** Elimination with partial pivoting and back substitution: when no
    pivot of the eliminated matrix is below the threshold, the vector
    returned solves the system. *)
Lemma g_solve (A : list (list E)) (B : list E)
      (M' : list (list E)) (V' : list E) :
  square n A -> List.length B = n ->
  for_each (seq 0 n) (Elimination.forward missing mag div sub mul n) (A, B)
  = Some (M', V') ->
  (forall c, c < n -> ~ (mag (nth c (nth c M' []) zero) < 1e-12)%R) ->
  exists x,
    Elimination.solve missing mag div sub mul add zero A B = Some x
    /\ List.length x = n
    /\ solves add mul zero A x B.
Proof.
  intros HA HB Hf Hgood.
  destruct (@g_forward_loop A B HA HB) as (M1 & V1 & E1 & S1 & L1 & H1).
  rewrite Hf in E1. injection E1 as <- <-.
  destruct (H1 Hgood) as [Htri Hsol].
  destruct (@g_back_loop M' V' S1 L1 Hgood Htri n (Nat.le_refl n)
              (repeat zero n) (repeat_length zero n))
    as (x & Ex & Lx & Hx).
  { intros r Hr1 Hr2. lia. }
  exists x. split; [|split; [exact Lx|]].
  - unfold Elimination.solve. destruct HA as [HA _].
    rewrite HA. cbv zeta. rewrite Hf. exact Ex.
  - apply sat_solves; auto.
Qed.

End Gauss.

Section SolverCorrect.

Local Open Scope R_scope.

Lemma Complex_ring_theory :
  ring_theory Complex.zero Complex.one Complex.add Complex.mul Complex.sub
              (fun a => Complex.sub Complex.zero a) eq.
Proof.
  constructor; intros; apply Complex_eq; simpl; ring.
Qed.

Lemma Complex_magnitude_high (b : Complex.t) :
  ~ Complex.magnitude b < 1e-12 ->
  Complex.real b * Complex.real b + Complex.imag b * Complex.imag b <> 0.
Proof.
  intros H E. apply H. unfold Complex.magnitude.
  replace (Complex.real b ^ 2 + Complex.imag b ^ 2) with 0 by (rewrite <- E; ring).
  rewrite sqrt_0. lra.
Qed.

Lemma Complex_div_undone (a b : Complex.t) :
  ~ Complex.magnitude b < 1e-12 ->
  Complex.mul (Complex.div a b) b = a.
Proof.
  intro H. apply Complex_magnitude_high in H.
  unfold Complex.div.
  destruct (Req_dec_T (Complex.real b * Complex.real b
                       + Complex.imag b * Complex.imag b) 0) as [E|_];
    [contradiction|].
  apply Complex_eq; simpl; field; exact H.
Qed.

Lemma R_div_undone (a b : R) : ~ Rabs b < 1e-12 -> a / b * b = a.
Proof.
  intro H. field. intro E. apply H. rewrite E, Rabs_R0. lra.
Qed.

(** MatrixSolver.solve solves the system: when elimination leaves no
    pivot below the threshold 1e-12, it returns a vector [x] with
    [A x = B]. *)
Theorem MatrixSolver_solves (A : list (list R)) (B : list R)
        (M' : list (list R)) (V' : list R) :
  square (List.length A) A -> List.length B = List.length A ->
  for_each (seq 0 (List.length A)) (MatrixSolver.forward (List.length A))
           (A, B) = Some (M', V') ->
  (forall i, (i < List.length A)%nat -> 1e-12 <= Rabs (JS.mget M' i i)) ->
  exists x,
    MatrixSolver.solve A B = Some x
    /\ List.length x = List.length A
    /\ solves Rplus Rmult 0 A x B.
Proof.
  intros HA HB Hf Hp. rewrite solve_number.
  apply (@g_solve R (Some 0) Rabs Rdiv Rminus Rmult Rplus 0 1 Ropp
           RTheory R_div_undone (List.length A) A B M' V' HA HB).
  - rewrite <- Hf. apply for_each_ext. intros st i. symmetry.
    apply forward_number.
  - intros c Hc Hlt. specialize (Hp c Hc). unfold JS.mget, JS.vget in Hp.
    lra.
Qed.

(** ComplexMatrixSolver.solve solves the system under the same
    condition on the magnitudes of the pivots. *)
Theorem ComplexMatrixSolver_solves (A : list (list Complex.t))
        (B : list Complex.t)
        (M' : list (list Complex.t)) (V' : list Complex.t) :
  square (List.length A) A -> List.length B = List.length A ->
  for_each (seq 0 (List.length A))
           (ComplexMatrixSolver.forward (List.length A)) (A, B)
  = Some (M', V') ->
  (forall i, (i < List.length A)%nat ->
             1e-12 <= Complex.magnitude (JS.oget Complex.zero M' i i)) ->
  exists x,
    ComplexMatrixSolver.solve A B = Some x
    /\ List.length x = List.length A
    /\ solves Complex.add Complex.mul Complex.zero A x B.
Proof.
  intros HA HB Hf Hp. rewrite solve_complex.
  apply (@g_solve Complex.t None Complex.magnitude Complex.div Complex.sub
           Complex.mul Complex.add Complex.zero Complex.one
           (fun a => Complex.sub Complex.zero a)
           Complex_ring_theory Complex_div_undone
           (List.length A) A B M' V' HA HB).
  - rewrite <- Hf. apply for_each_ext. intros st i. symmetry.
    apply forward_complex.
  - intros c Hc Hlt. specialize (Hp c Hc). unfold JS.oget in Hp. lra.
Qed.

Ltac decide_reals :=
  unfold JS.gtb, JS.ltb, Rabs;
  repeat (match goal with
          | |- context [Rcase_abs ?a] => destruct (Rcase_abs a); try lra
          | |- context [Rlt_dec ?a ?b] => destruct (Rlt_dec a b); try lra
          end).

Lemma forward_example :
  for_each (seq 0 2) (MatrixSolver.forward 2) ([[2; 1]; [1; 3]], [3; 5])
  = Some ([[2; 1]; [1 - 1 / 2 * 2; 3 - 1 / 2 * 1]], [3; 5 - 1 / 2 * 3]).
Proof.
  unfold for_each, MatrixSolver.forward, MatrixSolver.pivot,
    MatrixSolver.eliminate, MatrixSolver.entry, MatrixSolver.set_entry,
    JS.swap, JS.vget, for_each.
  repeat (cbn [fold_left seq nth_error nth JS.aset Nat.sub]; decide_reals).
  reflexivity.
Qed.

Lemma MatrixSolver_solves_witness :
  exists x,
    MatrixSolver.solve [[2; 1]; [1; 3]] [3; 5] = Some x
    /\ List.length x = 2%nat
    /\ solves Rplus Rmult 0 [[2; 1]; [1; 3]] x [3; 5].
Proof.
  apply (@MatrixSolver_solves
           [[2; 1]; [1; 3]] [3; 5]
           [[2; 1]; [1 - 1 / 2 * 2; 3 - 1 / 2 * 1]] [3; 5 - 1 / 2 * 3]).
  - split; [reflexivity|]. repeat constructor.
  - reflexivity.
  - exact forward_example.
  - intros [|[|i]] Hi; cbn [JS.mget JS.vget nth]; unfold Rabs.
    + destruct (Rcase_abs 2); lra.
    + destruct (Rcase_abs (3 - 1 / 2 * 1)); lra.
    + simpl in Hi. lia.
Defined.

Lemma magnitude_example : Complex.magnitude (Complex.mk 0 1) = 1.
Proof.
  unfold Complex.magnitude. cbn [Complex.real Complex.imag].
  replace (0 ^ 2 + 1 ^ 2) with 1 by ring. apply sqrt_1.
Qed.

Lemma cforward_example :
  for_each (seq 0 1) (ComplexMatrixSolver.forward 1)
           ([[Complex.mk 0 1]], [Complex.one])
  = Some ([[Complex.mk 0 1]], [Complex.one]).
Proof.
  unfold for_each, ComplexMatrixSolver.forward, ComplexMatrixSolver.pivot,
    ComplexMatrixSolver.entry, JS.swap, for_each.
  cbn [fold_left seq nth_error nth JS.aset Nat.sub].
  rewrite magnitude_example. decide_reals. reflexivity.
Qed.

Lemma ComplexMatrixSolver_solves_witness :
  exists x,
    ComplexMatrixSolver.solve [[Complex.mk 0 1]] [Complex.one] = Some x
    /\ List.length x = 1%nat
    /\ solves Complex.add Complex.mul Complex.zero
              [[Complex.mk 0 1]] x [Complex.one].
Proof.
  apply (@ComplexMatrixSolver_solves
           [[Complex.mk 0 1]] [Complex.one]
           [[Complex.mk 0 1]] [Complex.one]).
  - split; [reflexivity|]. repeat constructor.
  - reflexivity.
  - exact cforward_example.
  - intros [|i] Hi; [|simpl in Hi; lia].
    cbn [JS.oget nth]. rewrite magnitude_example. lra.
Defined.

End SolverCorrect.

(* ------------------------------------------------------------------ *)
(** ** The view: zoom and pan *)

Section ViewFacts.

Local Open Scope R_scope.

Lemma fit_zoom (rect : option (R * R)) (comps : list View.Position) :
  0.1 <= View.zoom (View.fitViewToComponents rect comps) <= 1.2.
Proof.
  unfold View.fitViewToComponents.
  destruct rect as [[viewW viewH]|]; [|simpl; lra].
  destruct comps as [|c comps]; [simpl; lra|].
  destruct (fold_left View.extend (c :: comps) None)
    as [[[[minX minY] maxX] maxY]|]; [|simpl; lra].
  cbv zeta. cbn [View.zoom].
  split; [apply Rmax_r|].
  apply Rmax_lub; [apply Rmin_r | lra].
Qed.

(** Whatever happens to the view, from its initial state on, the zoom
    factor stays between 0.1 and 5: the buttons, the wheel and the
    pinch clamp it, fitting chooses it within 0.1 and 1.2, and panning
    leaves it alone. *)
Theorem view_zoom_bounds (events : list ViewEvent) :
  0.1 <= View.zoom (fold_left view_after events View.initial) <= 5.
Proof.
  assert (H : forall v, 0.1 <= View.zoom v <= 5 ->
                        0.1 <= View.zoom (fold_left view_after events v) <= 5).
  { induction events as [|e events IH]; intros v Hv; [exact Hv|].
    cbn [fold_left]. apply IH.
    destruct e as [| |rect comps|dist [last|]|dx dy|deltaY];
      cbn [view_after].
    - unfold View.handleZoomIn. cbn [View.zoom].
      split; [apply Rmin_glb; lra | apply Rmin_r].
    - unfold View.handleZoomOut. cbn [View.zoom].
      split; [apply Rmax_r | apply Rmax_lub; lra].
    - pose proof (fit_zoom rect comps). lra.
    - unfold View.handleTouchMove. cbv zeta. cbn [View.zoom].
      split; [apply Rmax_l | apply Rmax_lub; [lra | apply Rmin_r]].
    - exact Hv.
    - exact Hv.
    - unfold View.handleWheel. cbv zeta. cbn [View.zoom].
      split; [apply Rmax_l | apply Rmax_lub; [lra | apply Rmin_r]]. }
  apply H. cbn [View.initial View.zoom]. lra.
Qed.

Lemma extend_box (pre : list View.Position) (c : View.Position)
      (minX minY maxX maxY : R) :
  bounding_box pre minX minY maxX maxY ->
  bounding_box (pre ++ [c])
               (Rmin minX (View.x c)) (Rmin minY (View.y c))
               (Rmax maxX (View.x c + View.COMPONENT_WIDTH))
               (Rmax maxY (View.y c + View.COMPONENT_HEIGHT)).
Proof.
  intros (Hall & [cx [Hcx Ex]] & [cy [Hcy Ey]] & [dx [Hdx Fx]]
          & [dy [Hdy Fy]]).
  split; [|split; [|split; [|split]]].
  - intros c0 Hc0. apply in_app_or in Hc0. destruct Hc0 as [Hc0|[<-|[]]].
    + destruct (Hall c0 Hc0) as (H1 & H2 & H3 & H4).
      pose proof (Rmin_l minX (View.x c)).
      pose proof (Rmin_l minY (View.y c)).
      pose proof (Rmax_l maxX (View.x c + View.COMPONENT_WIDTH)).
      pose proof (Rmax_l maxY (View.y c + View.COMPONENT_HEIGHT)).
      lra.
    + pose proof (Rmin_r minX (View.x c)).
      pose proof (Rmin_r minY (View.y c)).
      pose proof (Rmax_r maxX (View.x c + View.COMPONENT_WIDTH)).
      pose proof (Rmax_r maxY (View.y c + View.COMPONENT_HEIGHT)).
      lra.
  - unfold Rmin. destruct (Rle_dec minX (View.x c)).
    + exists cx. split; [apply in_or_app; now left | exact Ex].
    + exists c. split; [apply in_or_app; right; now left | reflexivity].
  - unfold Rmin. destruct (Rle_dec minY (View.y c)).
    + exists cy. split; [apply in_or_app; now left | exact Ey].
    + exists c. split; [apply in_or_app; right; now left | reflexivity].
  - unfold Rmax. destruct (Rle_dec maxX (View.x c + View.COMPONENT_WIDTH)).
    + exists c. split; [apply in_or_app; right; now left | reflexivity].
    + exists dx. split; [apply in_or_app; now left | exact Fx].
  - unfold Rmax. destruct (Rle_dec maxY (View.y c + View.COMPONENT_HEIGHT)).
    + exists c. split; [apply in_or_app; right; now left | reflexivity].
    + exists dy. split; [apply in_or_app; now left | exact Fy].
Qed.

Lemma extend_fold (rest pre : list View.Position) (minX minY maxX maxY : R) :
  bounding_box pre minX minY maxX maxY ->
  exists minX' minY' maxX' maxY',
    fold_left View.extend rest (Some (minX, minY, maxX, maxY))
    = Some (minX', minY', maxX', maxY')
    /\ bounding_box (pre ++ rest) minX' minY' maxX' maxY'.
Proof.
  revert pre minX minY maxX maxY.
  induction rest as [|c rest IH]; intros pre minX minY maxX maxY Hb.
  - exists minX, minY, maxX, maxY. rewrite app_nil_r. auto.
  - cbn [fold_left View.extend].
    destruct (IH (pre ++ [c]) _ _ _ _ (extend_box c Hb))
      as (a & b & c' & d & E & Hbox).
    exists a, b, c', d. split; [exact E|].
    now rewrite <- app_assoc in Hbox.
Qed.

(** Fitting the view: with the size of the canvas known and a
    component on it, the zoom chosen is between 0.1 and 1.2, the centre
    of the smallest box around the components lands on the centre of
    the canvas, and unless the zoom had to be raised to 0.1 the box
    fits into the canvas with 60 pixels to spare on every side. *)
Theorem fitViewToComponents_fits (viewW viewH : R)
        (comps : list View.Position) :
  comps <> [] ->
  exists minX minY maxX maxY,
    bounding_box comps minX minY maxX maxY
    /\ let v := View.fitViewToComponents (Some (viewW, viewH)) comps in
       0.1 <= View.zoom v <= 1.2
       /\ View.x (View.pan v) + (minX + maxX) / 2 * View.zoom v = viewW / 2
       /\ View.y (View.pan v) + (minY + maxY) / 2 * View.zoom v = viewH / 2
       /\ (View.zoom v = 0.1
           \/ (View.zoom v * (maxX - minX) <= viewW - 120
               /\ View.zoom v * (maxY - minY) <= viewH - 120)).
Proof.
  intro Hne. destruct comps as [|c comps]; [contradiction|].
  assert (Hfirst : bounding_box [c] (View.x c) (View.y c)
                     (View.x c + View.COMPONENT_WIDTH)
                     (View.y c + View.COMPONENT_HEIGHT)).
  { split; [|repeat split; exists c; (split; [now left | reflexivity])].
    intros c0 [<-|[]]. lra. }
  destruct (extend_fold comps Hfirst)
    as (minX & minY & maxX & maxY & E & Hbox).
  cbn [app] in Hbox.
  exists minX, minY, maxX, maxY. split; [exact Hbox|].
  cbv zeta. split; [apply fit_zoom|].
  unfold View.fitViewToComponents.
  change (fold_left View.extend (c :: comps) None)
    with (fold_left View.extend comps
            (Some (View.x c, View.y c, View.x c + View.COMPONENT_WIDTH,
                   View.y c + View.COMPONENT_HEIGHT))).
  rewrite E. cbv zeta. cbn [View.zoom View.pan View.x View.y].
  destruct Hbox as (Hall & [cx [Hcx Ex]] & [cy [Hcy Ey]] & _).
  destruct (Hall cx Hcx) as (_ & Hw & _).
  destruct (Hall cy Hcy) as (_ & _ & _ & Hh).
  unfold View.COMPONENT_WIDTH in Hw. unfold View.COMPONENT_HEIGHT in Hh.
  assert (HW : 0 < maxX - minX) by lra.
  assert (HH : 0 < maxY - minY) by lra.
  set (zx := (viewW - 60 * 2) / (maxX - minX)).
  set (zy := (viewH - 60 * 2) / (maxY - minY)).
  split; [lra|]. split; [lra|].
  unfold Rmax. destruct (Rle_dec (Rmin (Rmin zx zy) 1.2) 0.1) as [Hle|Hgt];
    [now left|]. right.
  pose proof (Rmin_l (Rmin zx zy) 1.2) as H1.
  pose proof (Rmin_l zx zy) as H2. pose proof (Rmin_r zx zy) as H3.
  split.
  - replace (viewW - 120) with (zx * (maxX - minX))
      by (unfold zx; field; lra).
    apply Rmult_le_compat_r; lra.
  - replace (viewH - 120) with (zy * (maxY - minY))
      by (unfold zy; field; lra).
    apply Rmult_le_compat_r; lra.
Qed.

Lemma fitViewToComponents_fits_witness :
  exists minX minY maxX maxY,
    bounding_box [{| View.x := 0; View.y := 0 |}] minX minY maxX maxY
    /\ let v := View.fitViewToComponents
                  (Some (800, 600)) [{| View.x := 0; View.y := 0 |}] in
       0.1 <= View.zoom v <= 1.2
       /\ View.x (View.pan v) + (minX + maxX) / 2 * View.zoom v = 800 / 2
       /\ View.y (View.pan v) + (minY + maxY) / 2 * View.zoom v = 600 / 2
       /\ (View.zoom v = 0.1
           \/ (View.zoom v * (maxX - minX) <= 800 - 120
               /\ View.zoom v * (maxY - minY) <= 600 - 120)).
Proof.
  apply (@fitViewToComponents_fits 800 600 [{| View.x := 0; View.y := 0 |}]).
  discriminate.
Defined.

End ViewFacts.
